(** * Ants vs. Bees: the game engine of [game.ts] and [ants.ts]

    The engine is a heap of mutable objects (places, ants, bees) that point
    at each other.  The embedding keeps that shape: every object lives in a
    store indexed by an identifier, a reference is an identifier, and every
    method is a function on the whole store.  A method that can raise a
    [TypeError] (a call on [undefined]) returns [Throw]; the one unbounded
    loop of the program (the bug-spray loop) returns [Diverge] when it cannot
    finish.

    A number of the program is a double.  The quantities of the game are
    documented to be integers, and the engine only adds and subtracts them:
    they are kept as integers, and each sum and difference is rounded as
    IEEE 754 rounds it ([JS.fl]).  Fractions and NaN are not covered.

    Left out: the [name] fields and the [console.log] narration, which the
    engine writes and never reads; [Place.removeAllBees], which nothing
    calls; and the queries that only the shell uses ([getBoostNames],
    [getHiveBeesCount], [getArmor], [getName]). *)

From Stdlib Require Import ZArith QArith Qround String Ascii Lia.
From Stdlib Require DecimalString DecimalNat DecimalFacts.
From stdpp Require Import base gmap strings list.

Local Open Scope Z_scope.

(** ** The JavaScript runtime the engine relies on *)

Module JS.

(** Properties every plain object inherits from [Object.prototype]. *)
Definition Object_prototype_keys : list string :=
  [ "constructor"; "hasOwnProperty"; "isPrototypeOf"; "propertyIsEnumerable";
    "toLocaleString"; "toString"; "valueOf"; "__proto__";
    "__defineGetter__"; "__defineSetter__"; "__lookupGetter__";
    "__lookupSetter__" ]%string.

(** Non-index properties that resolve on an array: its own [length] and the
    members of [Array.prototype] (as of ECMAScript 2023) and of
    [Object.prototype].  All of them are functions, but [length], a number,
    and [__proto__], an object. *)
Definition Array_keys : list string :=
  ([ "length"; "at"; "concat"; "copyWithin"; "fill"; "find"; "findIndex";
     "findLast"; "findLastIndex"; "lastIndexOf"; "pop"; "push"; "reverse";
     "shift"; "unshift"; "slice"; "sort"; "splice"; "includes"; "indexOf";
     "join"; "keys"; "entries"; "values"; "forEach"; "filter"; "flat";
     "flatMap"; "map"; "every"; "some"; "reduce"; "reduceRight";
     "toReversed"; "toSorted"; "toSpliced"; "with" ]%string
   ++ Object_prototype_keys)%list.

(** The properties of a function that raise when they are read: the
    built-ins are strict functions, on which [Function.prototype] answers
    [caller] and [arguments] with a [TypeError]. *)
Definition poisoned_keys : list string := [ "caller"; "arguments" ]%string.

Definition is_digit (c : ascii) : bool :=
  let n := nat_of_ascii c in (48 <=? n)%nat && (n <=? 57)%nat.

Definition digit_val (c : ascii) : nat := (nat_of_ascii c - 48)%nat.

Fixpoint parse_digits (s : string) (acc : nat) : option nat :=
  match s with
  | EmptyString => Some acc
  | String c s' =>
      if is_digit c then parse_digits s' (10 * acc + digit_val c)%nat
      else None
  end.

(** A property key addresses an array element only when it is the
    canonical decimal form of the index: ["0"], or digits with no leading
    zero, sign, blank or fraction. *)
Definition array_index (k : string) : option nat :=
  match k with
  | EmptyString => None
  | String c rest =>
      if is_digit c then
        if Ascii.eqb c "0"%char then
          match rest with EmptyString => Some 0%nat | _ => None end
        else parse_digits k 0
      else None
  end.

(** [s.split(',')] *)
Fixpoint split_comma (s : string) : list string :=
  match s with
  | EmptyString => [EmptyString]
  | String c s' =>
      if Ascii.eqb c ","%char then EmptyString :: split_comma s'
      else match split_comma s' with
           | [] => [String c EmptyString]
           | w :: ws => String c w :: ws
           end
  end.

Definition lower_char (c : ascii) : ascii :=
  let n := nat_of_ascii c in
  if (65 <=? n)%nat && (n <=? 90)%nat then ascii_of_nat (n + 32) else c.

(** [s.toLowerCase()], on the ASCII letters.  No character outside ASCII
    lower-cases to a string of the letters used by the five ant names, so
    this decides the [switch] of [AntGame.deployAnt] exactly. *)
Fixpoint toLowerCase (s : string) : string :=
  match s with
  | EmptyString => EmptyString
  | String c s' => String (lower_char c) (toLowerCase s')
  end.

(** [coords[i]] used as a property key: a missing element is [undefined],
    which as a key reads ["undefined"]. *)
Definition key_at (coords : list string) (i : nat) : string :=
  default "undefined"%string (coords !! i).

(** *** Numbers

    A number of the program is a double.  The quantities of the game
    (food, armor, damage, costs, turns, counts of boosts) start as integers
    and are changed by adding and subtracting integers only, so they are
    kept as the integer [Z] that the double holds, and every sum and
    difference is rounded the way IEEE 754 does it: to 53 significant bits,
    to the nearest, ties to the even significand, and to an infinity from
    [2 ^ 1024] on.  An infinity is the integer [infinity] of either sign,
    which no sum or difference with a finite number leaves; the difference
    of two infinities, which is no number, is not covered.  Up to [safe]
    the arithmetic is that of the integers ([fl_small] below); above, a
    small term is absorbed: [sub (10 ^ 16) 1 = 10 ^ 16]. *)

Definition safe : Z := 2 ^ 53.
Definition huge : Z := 2 ^ 1024.
Definition infinity : Z := 2 ^ 1025.

(** The multiple of [u] nearest to [n]; of two that are as near, the even
    one. *)
Definition round_to (u n : Z) : Z :=
  let q := n / u in
  let r := n mod u in
  (if 2 * r <? u then q
   else if u <? 2 * r then q + 1
   else if Z.even q then q else q + 1) * u.

(** A natural number, to 53 significant bits. *)
Definition round53 (n : Z) : Z :=
  let e := Z.log2 n - 52 in
  if e <=? 0 then n else round_to (2 ^ e) n.

(** The double nearest to the integer [z]. *)
Definition fl (z : Z) : Z :=
  let v := round53 (Z.abs z) in
  Z.sgn z * (if huge <=? v then infinity else v).

(** [x - y] and [x + y] on doubles. *)
Definition sub (x y : Z) : Z := fl (x - y).
Definition add (x y : Z) : Z := fl (x + y).

(** The integers that are doubles. *)
Definition is_number (z : Z) : Prop := fl z = z.

(** The literals of [GrowerAnt.act], as the doubles they denote: the
    nearest to 0.6, 0.7, 0.8, 0.9 and 0.95. *)
Definition lit_0_6 : Q := 5404319552844595 # 9007199254740992.
Definition lit_0_7 : Q := 3152519739159347 # 4503599627370496.
Definition lit_0_8 : Q := 3602879701896397 # 4503599627370496.
Definition lit_0_9 : Q := 8106479329266893 # 9007199254740992.
Definition lit_0_95 : Q := 4278419646001971 # 4503599627370496.

End JS.

Arguments JS.fl : simpl never.
Arguments JS.sub : simpl never.
Arguments JS.add : simpl never.

(** ** Objects *)

Inductive AntKind := Grower | Thrower | Eater | Scuba | Guard.

#[global] Instance AntKind_eq_dec : EqDecision AntKind.
Proof. solve_decision. Defined.

(** [class Place]: [exit] and [entrance] are references to other places. *)
Record PlaceRec := mkPlace {
  p_water : bool;
  p_exit : option nat;
  p_entrance : option nat;
  p_ant : option nat;
  p_guard : option nat;
  p_bees : list nat
}.

(** [class Bee extends Insect] *)
Record BeeRec := mkBee {
  b_armor : Z;
  b_damage : Z;
  b_place : option nat;
  b_status : option string
}.

(** [class Ant extends Insect] and its five subclasses.  [a_turnsEating] and
    [a_stomach] are the fields of [EaterAnt]; [a_stomach] is [None] for the
    other kinds. *)
Record AntRec := mkAnt {
  a_kind : AntKind;
  a_armor : Z;
  a_foodCost : Z;
  a_place : option nat;
  a_boost : option string;
  a_turnsEating : Z;
  a_stomach : option nat
}.

(** A value stored in (or read from) the [boosts] object: a number, or
    anything else that is not [undefined] (an inherited function or object,
    or the string that adding 1 to one of those yields). *)
Inductive BoostVal := BNum (n : Z) | BOther.

(** The colony, the hive and the game controller, together with the object
    stores and the source of [Math.random]. *)
Record State := mkState {
  places : gmap nat PlaceRec;
  ants : gmap nat AntRec;
  beeObjs : gmap nat BeeRec;
  next_place : nat;
  next_ant : nat;
  next_bee : nat;
  (* AntColony *)
  food : Z;
  grid : list (list nat);
  beeEntrances : list nat;
  queenPlace : nat;
  boosts : gmap string BoostVal;
  (* Hive *)
  hive : nat;
  waves : gmap Z (list nat);
  beeArmor : Z;
  beeDamage : Z;
  (* AntGame *)
  turn : Z;
  (* Math.random: the n-th draw is [random_src n] *)
  random_src : nat -> Q;
  random_pos : nat;
  (* instrumentation: the ants whose [act] has been invoked, latest first *)
  acted : list nat
}.

Definition emptyPlace : PlaceRec := mkPlace false None None None None [].
Definition noBee : BeeRec := mkBee 0 0 None None.
Definition noAnt : AntRec := mkAnt Grower 0 0 None None 0 None.

Definition set_places (f : gmap nat PlaceRec -> gmap nat PlaceRec) (s : State) : State :=
  mkState (f (places s)) (ants s) (beeObjs s) (next_place s) (next_ant s) (next_bee s)
    (food s) (grid s) (beeEntrances s) (queenPlace s) (boosts s)
    (hive s) (waves s) (beeArmor s) (beeDamage s) (turn s)
    (random_src s) (random_pos s) (acted s).

Definition set_ants (f : gmap nat AntRec -> gmap nat AntRec) (s : State) : State :=
  mkState (places s) (f (ants s)) (beeObjs s) (next_place s) (next_ant s) (next_bee s)
    (food s) (grid s) (beeEntrances s) (queenPlace s) (boosts s)
    (hive s) (waves s) (beeArmor s) (beeDamage s) (turn s)
    (random_src s) (random_pos s) (acted s).

Definition set_beeObjs (f : gmap nat BeeRec -> gmap nat BeeRec) (s : State) : State :=
  mkState (places s) (ants s) (f (beeObjs s)) (next_place s) (next_ant s) (next_bee s)
    (food s) (grid s) (beeEntrances s) (queenPlace s) (boosts s)
    (hive s) (waves s) (beeArmor s) (beeDamage s) (turn s)
    (random_src s) (random_pos s) (acted s).

Definition set_next_place (n : nat) (s : State) : State :=
  mkState (places s) (ants s) (beeObjs s) n (next_ant s) (next_bee s)
    (food s) (grid s) (beeEntrances s) (queenPlace s) (boosts s)
    (hive s) (waves s) (beeArmor s) (beeDamage s) (turn s)
    (random_src s) (random_pos s) (acted s).

Definition set_next_ant (n : nat) (s : State) : State :=
  mkState (places s) (ants s) (beeObjs s) (next_place s) n (next_bee s)
    (food s) (grid s) (beeEntrances s) (queenPlace s) (boosts s)
    (hive s) (waves s) (beeArmor s) (beeDamage s) (turn s)
    (random_src s) (random_pos s) (acted s).

Definition set_next_bee (n : nat) (s : State) : State :=
  mkState (places s) (ants s) (beeObjs s) (next_place s) (next_ant s) n
    (food s) (grid s) (beeEntrances s) (queenPlace s) (boosts s)
    (hive s) (waves s) (beeArmor s) (beeDamage s) (turn s)
    (random_src s) (random_pos s) (acted s).

Definition set_food (z : Z) (s : State) : State :=
  mkState (places s) (ants s) (beeObjs s) (next_place s) (next_ant s) (next_bee s)
    z (grid s) (beeEntrances s) (queenPlace s) (boosts s)
    (hive s) (waves s) (beeArmor s) (beeDamage s) (turn s)
    (random_src s) (random_pos s) (acted s).

Definition set_grid (g : list (list nat)) (s : State) : State :=
  mkState (places s) (ants s) (beeObjs s) (next_place s) (next_ant s) (next_bee s)
    (food s) g (beeEntrances s) (queenPlace s) (boosts s)
    (hive s) (waves s) (beeArmor s) (beeDamage s) (turn s)
    (random_src s) (random_pos s) (acted s).

Definition set_beeEntrances (e : list nat) (s : State) : State :=
  mkState (places s) (ants s) (beeObjs s) (next_place s) (next_ant s) (next_bee s)
    (food s) (grid s) e (queenPlace s) (boosts s)
    (hive s) (waves s) (beeArmor s) (beeDamage s) (turn s)
    (random_src s) (random_pos s) (acted s).

Definition set_boosts (m : gmap string BoostVal) (s : State) : State :=
  mkState (places s) (ants s) (beeObjs s) (next_place s) (next_ant s) (next_bee s)
    (food s) (grid s) (beeEntrances s) (queenPlace s) m
    (hive s) (waves s) (beeArmor s) (beeDamage s) (turn s)
    (random_src s) (random_pos s) (acted s).

Definition set_waves (w : gmap Z (list nat)) (s : State) : State :=
  mkState (places s) (ants s) (beeObjs s) (next_place s) (next_ant s) (next_bee s)
    (food s) (grid s) (beeEntrances s) (queenPlace s) (boosts s)
    (hive s) w (beeArmor s) (beeDamage s) (turn s)
    (random_src s) (random_pos s) (acted s).

Definition set_turn (t : Z) (s : State) : State :=
  mkState (places s) (ants s) (beeObjs s) (next_place s) (next_ant s) (next_bee s)
    (food s) (grid s) (beeEntrances s) (queenPlace s) (boosts s)
    (hive s) (waves s) (beeArmor s) (beeDamage s) t
    (random_src s) (random_pos s) (acted s).

Definition set_random_pos (n : nat) (s : State) : State :=
  mkState (places s) (ants s) (beeObjs s) (next_place s) (next_ant s) (next_bee s)
    (food s) (grid s) (beeEntrances s) (queenPlace s) (boosts s)
    (hive s) (waves s) (beeArmor s) (beeDamage s) (turn s)
    (random_src s) n (acted s).

Definition set_acted (l : list nat) (s : State) : State :=
  mkState (places s) (ants s) (beeObjs s) (next_place s) (next_ant s) (next_bee s)
    (food s) (grid s) (beeEntrances s) (queenPlace s) (boosts s)
    (hive s) (waves s) (beeArmor s) (beeDamage s) (turn s)
    (random_src s) (random_pos s) l.

(** Dereferencing and field update. *)
Definition getP (p : nat) (s : State) : PlaceRec := default emptyPlace (places s !! p).
Definition getA (a : nat) (s : State) : AntRec := default noAnt (ants s !! a).
Definition getB (b : nat) (s : State) : BeeRec := default noBee (beeObjs s !! b).

Definition updP (p : nat) (f : PlaceRec -> PlaceRec) (s : State) : State :=
  set_places (fun m => <[p := f (getP p s)]> m) s.
Definition updA (a : nat) (f : AntRec -> AntRec) (s : State) : State :=
  set_ants (fun m => <[a := f (getA a s)]> m) s.
Definition updB (b : nat) (f : BeeRec -> BeeRec) (s : State) : State :=
  set_beeObjs (fun m => <[b := f (getB b s)]> m) s.

Definition with_entrance (e : option nat) (P : PlaceRec) : PlaceRec :=
  mkPlace (p_water P) (p_exit P) e (p_ant P) (p_guard P) (p_bees P).
Definition with_ant (a : option nat) (P : PlaceRec) : PlaceRec :=
  mkPlace (p_water P) (p_exit P) (p_entrance P) a (p_guard P) (p_bees P).
Definition with_guard (g : option nat) (P : PlaceRec) : PlaceRec :=
  mkPlace (p_water P) (p_exit P) (p_entrance P) (p_ant P) g (p_bees P).
Definition with_bees (l : list nat) (P : PlaceRec) : PlaceRec :=
  mkPlace (p_water P) (p_exit P) (p_entrance P) (p_ant P) (p_guard P) l.

Definition with_b_armor (z : Z) (B : BeeRec) : BeeRec :=
  mkBee z (b_damage B) (b_place B) (b_status B).
Definition with_b_place (p : option nat) (B : BeeRec) : BeeRec :=
  mkBee (b_armor B) (b_damage B) p (b_status B).
Definition with_b_status (s : option string) (B : BeeRec) : BeeRec :=
  mkBee (b_armor B) (b_damage B) (b_place B) s.

Definition with_a_armor (z : Z) (A : AntRec) : AntRec :=
  mkAnt (a_kind A) z (a_foodCost A) (a_place A) (a_boost A) (a_turnsEating A) (a_stomach A).
Definition with_a_place (p : option nat) (A : AntRec) : AntRec :=
  mkAnt (a_kind A) (a_armor A) (a_foodCost A) p (a_boost A) (a_turnsEating A) (a_stomach A).
Definition with_a_boost (b : option string) (A : AntRec) : AntRec :=
  mkAnt (a_kind A) (a_armor A) (a_foodCost A) (a_place A) b (a_turnsEating A) (a_stomach A).
Definition with_a_turnsEating (z : Z) (A : AntRec) : AntRec :=
  mkAnt (a_kind A) (a_armor A) (a_foodCost A) (a_place A) (a_boost A) z (a_stomach A).

(** ** Results of a method call *)

Inductive result (A : Type) : Type :=
| Ok (a : A) (s : State)     (* normal return *)
| Throw (s : State)          (* an exception, raised in state [s] *)
| Diverge.                   (* the call does not return *)
Arguments Ok {A} a s.
Arguments Throw {A} s.
Arguments Diverge {A}.

Definition M (A : Type) : Type := State -> result A.

Definition ret {A} (a : A) : M A := fun s => Ok a s.
Definition throw {A} : M A := fun s => Throw s.
Definition bind {A B} (m : M A) (k : A -> M B) : M B :=
  fun s => match m s with
           | Ok a s' => k a s'
           | Throw s' => Throw s'
           | Diverge => Diverge
           end.
Definition modify (f : State -> State) : M unit := fun s => Ok tt (f s).
Definition gets {A} (f : State -> A) : M A := fun s => Ok (f s) s.

(** [try { m } catch(e) { h }] *)
Definition try_catch {A} (m : M A) (h : M A) : M A :=
  fun s => match m s with
           | Ok a s' => Ok a s'
           | Throw s' => h s'
           | Diverge => Diverge
           end.

Notation "x <- m ;; k" := (bind m (fun x => k))
  (at level 100, m at level 50, k at level 200, right associativity).
Notation "m ;;; k" := (bind m (fun _ => k))
  (at level 100, k at level 200, right associativity).

(** [l.forEach(f)] *)
Fixpoint forEach {A} (l : list A) (f : A -> M unit) : M unit :=
  match l with
  | [] => ret tt
  | x :: l' => f x ;;; forEach l' f
  end.

(** [Math.random()] *)
Definition Math_random : M Q :=
  fun s => Ok (random_src s (random_pos s)) (set_random_pos (S (random_pos s)) s).

Definition Qltb (a b : Q) : bool := negb (Qle_bool b a).

(** ** [class Place] *)

Definition new_Place (water : bool) (exit : option nat) : M nat :=
  fun s =>
    let p := next_place s in
    Ok p (set_next_place (S p)
            (set_places (fun m => <[p := mkPlace water exit None None None []]> m) s)).

Definition Place_getExit (p : nat) (s : State) : option nat := p_exit (getP p s).

Definition Place_setEntrance (p e : nat) : M unit :=
  modify (updP p (with_entrance (Some e))).

Definition Place_isWater (p : nat) (s : State) : bool := p_water (getP p s).

Definition Place_getAnt (p : nat) (s : State) : option nat :=
  match p_guard (getP p s) with
  | Some g => Some g
  | None => p_ant (getP p s)
  end.

Definition Place_getGuardedAnt (p : nat) (s : State) : option nat := p_ant (getP p s).

Definition Place_getBees (p : nat) (s : State) : list nat := p_bees (getP p s).

(** The loop of [getClosestBee].  It runs at most [maxDistance + 1] times,
    which is what [n] counts; [p] is [None] once the chain of entrances has
    ended. *)
Fixpoint closestBee_loop (n : nat) (s : State) (p : option nat)
    (dist maxDistance minDistance : Z) : option nat :=
  match n with
  | O => None
  | S n' =>
      match p with
      | None => None
      | Some q =>
          if dist <=? maxDistance then
            if (minDistance <=? dist) && (0 <? Z.of_nat (length (p_bees (getP q s))))
            then head (p_bees (getP q s))
            else closestBee_loop n' s (p_entrance (getP q s)) (dist + 1)
                   maxDistance minDistance
          else None
      end
  end.

Definition Place_getClosestBee (p : nat) (maxDistance minDistance : Z) (s : State)
    : option nat :=
  closestBee_loop (Z.to_nat (maxDistance + 1)) s (Some p) 0 maxDistance minDistance.

Definition Place_addAnt (p a : nat) : M bool :=
  fun s =>
    if decide (a_kind (getA a s) = Guard) then
      match p_guard (getP p s) with
      | None => Ok true (updA a (with_a_place (Some p)) (updP p (with_guard (Some a)) s))
      | Some _ => Ok false s
      end
    else
      match p_ant (getP p s) with
      | None => Ok true (updA a (with_a_place (Some p)) (updP p (with_ant (Some a)) s))
      | Some _ => Ok false s
      end.

Definition Place_removeAnt (p : nat) : M (option nat) :=
  fun s =>
    match p_guard (getP p s) with
    | Some g => Ok (Some g) (updP p (with_guard None) s)
    | None => Ok (p_ant (getP p s)) (updP p (with_ant None) s)
    end.

Definition Place_addBee (p b : nat) : M unit :=
  modify (fun s => updB b (with_b_place (Some p))
                     (updP p (fun P => with_bees (p_bees P ++ [b]) P) s)).

(** [l.indexOf(b)] *)
Fixpoint indexOf (b : nat) (l : list nat) : option nat :=
  match l with
  | [] => None
  | x :: l' => if decide (x = b) then Some O else S <$> indexOf b l'
  end.

Definition Place_removeBee (p b : nat) : M unit :=
  fun s =>
    match indexOf b (p_bees (getP p s)) with
    | Some i =>
        Ok tt (updB b (with_b_place None)
                 (updP p (fun P => with_bees (delete i (p_bees P)) P) s))
    | None => Ok tt s
    end.

Definition Place_exitBee (p b : nat) : M unit :=
  Place_removeBee p b ;;;
  e <- gets (Place_getExit p) ;;
  match e with
  | Some q => Place_addBee q b
  | None => throw
  end.

(** [removeInsect], by the class of its argument. *)
Definition Place_removeInsect_ant (p : nat) : M unit :=
  Place_removeAnt p ;;; ret tt.
Definition Place_removeInsect_bee (p b : nat) : M unit :=
  Place_removeBee p b.

Definition is_scuba (o : option nat) (s : State) : bool :=
  match o with
  | Some a => bool_decide (a_kind (getA a s) = Scuba)
  | None => false
  end.

Definition Place_act (p : nat) : M unit :=
  w <- gets (Place_isWater p) ;;
  if w then
    g <- gets (fun s => p_guard (getP p s)) ;;
    (match g with Some _ => Place_removeAnt p ;;; ret tt | None => ret tt end) ;;;
    sc <- gets (fun s => is_scuba (p_ant (getP p s)) s) ;;
    if negb sc then Place_removeAnt p ;;; ret tt else ret tt
  else ret tt.

(** ** [class Insect] *)

(** [Insect.reduceArmor], on a bee. *)
Definition Bee_reduceArmor (b : nat) (amount : Z) : M bool :=
  modify (updB b (fun B => with_b_armor (JS.sub (b_armor B) amount) B)) ;;;
  armor <- gets (fun s => b_armor (getB b s)) ;;
  if armor <=? 0 then
    pl <- gets (fun s => b_place (getB b s)) ;;
    match pl with
    | Some p => Place_removeInsect_bee p b ;;; ret true
    | None => throw
    end
  else ret false.

(** [Insect.reduceArmor], on an ant. *)
Definition Insect_reduceArmor_ant (a : nat) (amount : Z) : M bool :=
  modify (updA a (fun A => with_a_armor (JS.sub (a_armor A) amount) A)) ;;;
  armor <- gets (fun s => a_armor (getA a s)) ;;
  if armor <=? 0 then
    pl <- gets (fun s => a_place (getA a s)) ;;
    match pl with
    | Some p => Place_removeInsect_ant p ;;; ret true
    | None => throw
    end
  else ret false.

(** The three statements with which [EaterAnt.reduceArmor] returns the
    swallowed bee to the eater's place.  With an empty stomach [eaten] is
    [undefined]: [removeBee] ignores it and [addBee] raises, on
    [bee.setPlace], after it has pushed the [undefined] onto the array of
    the place.  The lists of the embedding hold bees only, so the state of
    this [Throw] is the one before the push. *)
Definition EaterAnt_cough (a : nat) : M unit :=
  st <- gets (fun s => a_stomach (getA a s)) ;;
  match st with
  | None => throw
  | Some sp =>
      eaten <- gets (fun s => head (Place_getBees sp s)) ;;
      match eaten with
      | Some e =>
          Place_removeBee sp e ;;;
          pl <- gets (fun s => a_place (getA a s)) ;;
          match pl with
          | Some p => Place_addBee p e
          | None => throw
          end
      | None => throw
      end
  end.

Definition EaterAnt_reduceArmor (a : nat) (amount : Z) : M bool :=
  modify (updA a (fun A => with_a_armor (JS.sub (a_armor A) amount) A)) ;;;
  armor <- gets (fun s => a_armor (getA a s)) ;;
  te <- gets (fun s => a_turnsEating (getA a s)) ;;
  if 0 <? armor then
    if te =? 1 then
      EaterAnt_cough a ;;;
      modify (updA a (with_a_turnsEating 3)) ;;;
      ret false
    else ret false
  else
    (if (0 <? te) && (te <=? 2) then EaterAnt_cough a else ret tt) ;;;
    Insect_reduceArmor_ant a amount.

(** The virtual call [ant.reduceArmor(amount)]. *)
Definition Ant_reduceArmor (a : nat) (amount : Z) : M bool :=
  k <- gets (fun s => a_kind (getA a s)) ;;
  match k with
  | Eater => EaterAnt_reduceArmor a amount
  | _ => Insect_reduceArmor_ant a amount
  end.

(** ** [class Bee] *)

Definition new_Bee (armor damage : Z) (place : option nat) : M nat :=
  fun s =>
    let b := next_bee s in
    Ok b (set_next_bee (S b)
            (set_beeObjs (fun m => <[b := mkBee armor damage place None]> m) s)).

Definition Bee_sting (b a : nat) : M bool :=
  d <- gets (fun s => b_damage (getB b s)) ;;
  Ant_reduceArmor a d.

Definition Bee_setStatus (b : nat) (status : option string) : M unit :=
  modify (updB b (with_b_status status)).

Definition Bee_act (b : nat) : M unit :=
  pl <- gets (fun s => b_place (getB b s)) ;;
  match pl with
  | None => throw
  | Some p =>
      blocker <- gets (Place_getAnt p) ;;
      status <- gets (fun s => b_status (getB b s)) ;;
      armor <- gets (fun s => b_armor (getB b s)) ;;
      (match blocker with
       | Some a =>
           if negb (bool_decide (status = Some "cold"%string))
           then Bee_sting b a ;;; ret tt
           else ret tt
       | None =>
           if 0 <? armor then
             if negb (bool_decide (status = Some "stuck"%string))
             then Place_exitBee p b
             else ret tt
           else ret tt
       end) ;;;
      Bee_setStatus b None
  end.

(** ** [class AntColony]: the economy *)

Definition AntColony_getFood (s : State) : Z := food s.

Definition AntColony_increaseFood (amount : Z) : M unit :=
  modify (fun s => set_food (JS.add (food s) amount) s).

(** [this.boosts[boost]]: an own property, else one inherited from
    [Object.prototype], else [undefined] ([None]). *)
Definition boosts_get (boost : string) (s : State) : option BoostVal :=
  match boosts s !! boost with
  | Some v => Some v
  | None => if bool_decide (boost ∈ JS.Object_prototype_keys) then Some BOther else None
  end.

Definition boost_succ (v : BoostVal) : BoostVal :=
  match v with
  | BNum n => BNum (JS.add n 1)
  | BOther => BOther
  end.

Definition AntColony_addBoost (boost : string) : M unit :=
  modify (fun s =>
    match boosts_get boost s with
    | None => set_boosts (<[boost := BNum (JS.add 0 1)]> (boosts s)) s
    | Some v => set_boosts (<[boost := boost_succ v]> (boosts s)) s
    end).

(** ** The ants *)

Definition new_Ant (k : AntKind) (armor cost : Z) (stomach : option nat) : M nat :=
  fun s =>
    let a := next_ant s in
    Ok a (set_next_ant (S a)
            (set_ants (fun m => <[a := mkAnt k armor cost None None 0 stomach]> m) s)).

Definition new_GrowerAnt : M nat := new_Ant Grower 1 1 None.
Definition new_ThrowerAnt : M nat := new_Ant Thrower 1 4 None.
Definition new_EaterAnt : M nat :=
  st <- new_Place false None ;;
  new_Ant Eater 2 4 (Some st).
Definition new_ScubaAnt : M nat := new_Ant Scuba 1 5 None.
Definition new_GuardAnt : M nat := new_Ant Guard 2 4 None.

Definition Ant_getFoodCost (a : nat) (s : State) : Z := a_foodCost (getA a s).

Definition Ant_setBoost (a : nat) (boost : string) : M unit :=
  modify (updA a (with_a_boost (Some boost))).

Definition GrowerAnt_act (a : nat) : M unit :=
  roll <- Math_random ;;
  if Qltb roll JS.lit_0_6 then AntColony_increaseFood 1
  else if Qltb roll JS.lit_0_7 then AntColony_addBoost "FlyingLeaf"
  else if Qltb roll JS.lit_0_8 then AntColony_addBoost "StickyLeaf"
  else if Qltb roll JS.lit_0_9 then AntColony_addBoost "IcyLeaf"
  else if Qltb roll JS.lit_0_95 then AntColony_addBoost "BugSpray"
  else ret tt.

Definition has_boost (boost : option string) (name : string) : bool :=
  bool_decide (boost = Some name).

(** The [while(target)] loop of the bug spray.  [n] bounds the number of
    iterations; [Diverge] when it is used up. *)
Fixpoint spray_loop (n : nat) (p : nat) : M unit :=
  fun s =>
    match Place_getClosestBee p 0 0 s with
    | None => Ok tt s
    | Some target =>
        match n with
        | O => Diverge
        | S n' => (Bee_reduceArmor target 10 ;;; spray_loop n' p) s
        end
    end.

(** Each pass of the loop that changes anything either kills the first bee
    of the place, which leaves its list, or lowers a positive armor, which
    lowers this sum.  A pass that changes nothing, because the rounding
    absorbs the 10, is followed by passes that change nothing either. *)
Definition spray_measure (p : nat) (s : State) : nat :=
  list_sum (map (fun b => S (Z.to_nat (b_armor (getB b s)))) (Place_getBees p s)).

(** The loop that ends does so within this many passes ([spray_bound_enough]
    below), so that [Diverge] is the loop that does not end. *)
Definition spray_bound (p : nat) (s : State) : nat := S (spray_measure p s).

Definition bug_spray (a : nat) : M unit :=
  pl <- gets (fun s => a_place (getA a s)) ;;
  match pl with
  | None => throw
  | Some p =>
      n <- gets (spray_bound p) ;;
      spray_loop n p ;;;
      Insect_reduceArmor_ant a 10 ;;; ret tt
  end.

(** [ThrowerAnt.act].  [this.boost] is read once: nothing between the reads
    of the source writes it. *)
Definition ThrowerAnt_act (a : nat) : M unit :=
  boost <- gets (fun s => a_boost (getA a s)) ;;
  if negb (has_boost boost "BugSpray") then
    pl <- gets (fun s => a_place (getA a s)) ;;
    match pl with
    | None => throw
    | Some p =>
        target <- gets (Place_getClosestBee p
                          (if has_boost boost "FlyingLeaf" then 5 else 3) 0) ;;
        match target with
        | Some t =>
            Bee_reduceArmor t 1 ;;;
            (if has_boost boost "StickyLeaf"
             then Bee_setStatus t (Some "stuck"%string) else ret tt) ;;;
            (if has_boost boost "IcyLeaf"
             then Bee_setStatus t (Some "cold"%string) else ret tt) ;;;
            modify (updA a (with_a_boost None))
        | None => ret tt
        end
    end
  else bug_spray a.

(** [ScubaAnt.act]: the same statements as [ThrowerAnt.act]. *)
Definition ScubaAnt_act (a : nat) : M unit :=
  boost <- gets (fun s => a_boost (getA a s)) ;;
  if negb (has_boost boost "BugSpray") then
    pl <- gets (fun s => a_place (getA a s)) ;;
    match pl with
    | None => throw
    | Some p =>
        target <- gets (Place_getClosestBee p
                          (if has_boost boost "FlyingLeaf" then 5 else 3) 0) ;;
        match target with
        | Some t =>
            Bee_reduceArmor t 1 ;;;
            (if has_boost boost "StickyLeaf"
             then Bee_setStatus t (Some "stuck"%string) else ret tt) ;;;
            (if has_boost boost "IcyLeaf"
             then Bee_setStatus t (Some "cold"%string) else ret tt) ;;;
            modify (updA a (with_a_boost None))
        | None => ret tt
        end
    end
  else bug_spray a.

Definition EaterAnt_isFull (a : nat) (s : State) : bool :=
  match a_stomach (getA a s) with
  | Some sp => (0 <? length (Place_getBees sp s))%nat
  | None => false
  end.

Definition EaterAnt_act (a : nat) : M unit :=
  te <- gets (fun s => a_turnsEating (getA a s)) ;;
  if te =? 0 then
    pl <- gets (fun s => a_place (getA a s)) ;;
    match pl with
    | None => throw
    | Some p =>
        target <- gets (Place_getClosestBee p 0 0) ;;
        match target with
        | Some t =>
            Place_removeBee p t ;;;
            st <- gets (fun s => a_stomach (getA a s)) ;;
            match st with
            | Some sp =>
                Place_addBee sp t ;;;
                modify (updA a (with_a_turnsEating 1))
            | None => throw
            end
        | None => ret tt
        end
    end
  else if 3 <? te then
    st <- gets (fun s => a_stomach (getA a s)) ;;
    match st with
    | Some sp =>
        first <- gets (fun s => head (Place_getBees sp s)) ;;
        (match first with
         | Some b => Place_removeBee sp b
         | None => ret tt
         end) ;;;
        modify (updA a (with_a_turnsEating 0))
    | None => throw
    end
  else modify (updA a (with_a_turnsEating (JS.add te 1))).

Definition GuardAnt_getGuarded (a : nat) : M (option nat) :=
  pl <- gets (fun s => a_place (getA a s)) ;;
  match pl with
  | Some p => gets (Place_getGuardedAnt p)
  | None => throw
  end.

Definition GuardAnt_act (a : nat) : M unit := ret tt.

(** The virtual call [ant.act(colony)]; the call is recorded in [acted]. *)
Definition Ant_act (a : nat) : M unit :=
  modify (fun s => set_acted (a :: acted s) s) ;;;
  k <- gets (fun s => a_kind (getA a s)) ;;
  match k with
  | Grower => GrowerAnt_act a
  | Thrower => ThrowerAnt_act a
  | Eater => EaterAnt_act a
  | Scuba => ScubaAnt_act a
  | Guard => GuardAnt_act a
  end.

(** ** [class AntColony]: the board *)

(** A value that reaches a parameter declared [place:Place] at run time. *)
Inductive jsval :=
| VUndefined
| VPlace (p : nat)
| VRow (r : list nat)
| VFunction    (* a built-in function *)
| VOther.      (* any other built-in: a number, a prototype object *)

(** [arr[k]] on an array. *)
Definition array_get {A} (wrap : A -> jsval) (arr : list A) (k : string) : jsval :=
  match JS.array_index k with
  | Some i => match arr !! i with Some x => wrap x | None => VUndefined end
  | None =>
      if bool_decide (k ∈ JS.Array_keys) then
        if bool_decide (k ∈ ["length"; "__proto__"]%string) then VOther
        else VFunction
      else VUndefined
  end.

(** [v[k]].  Reading a property of [undefined] raises, and so does reading
    [caller] or [arguments] of a built-in function.  Any other read of a
    built-in or of a place gives [undefined] or another built-in, which the
    callers treat alike, since no method of [Place] resolves on either. *)
Definition get_member (v : jsval) (k : string) : M jsval :=
  match v with
  | VUndefined => throw
  | VRow r => ret (array_get VPlace r k)
  | VFunction =>
      if bool_decide (k ∈ JS.poisoned_keys) then throw else ret VOther
  | VPlace _ | VOther => ret VOther
  end.

(** A method call [place.m(...)] on a value that should be a place. *)
Definition on_place {A} (v : jsval) (m : nat -> M A) : M A :=
  match v with
  | VPlace p => m p
  | _ => throw
  end.

(** The inner loop of the constructor: [n] steps remain, [step] is the
    column, [curr] the place built last, [row] the columns built so far. *)
Fixpoint build_tunnel (n step moatFrequency curr : nat) (row : list nat)
    : M (nat * list nat) :=
  match n with
  | O => ret (curr, row)
  | S n' =>
      let water := negb (moatFrequency =? 0)%nat
                   && ((S step) mod moatFrequency =? 0)%nat in
      let prev := curr in
      c <- new_Place water (Some prev) ;;
      Place_setEntrance prev c ;;;
      build_tunnel n' (S step) moatFrequency c (row ++ [c])
  end.

Fixpoint build_tunnels (n tunnelLength moatFrequency : nat) : M unit :=
  match n with
  | O => ret tt
  | S n' =>
      q <- gets queenPlace ;;
      r <- build_tunnel tunnelLength 0 moatFrequency q [] ;;
      modify (fun s => set_beeEntrances (beeEntrances s ++ [fst r])
                         (set_grid (grid s ++ [snd r]) s)) ;;;
      build_tunnels n' tunnelLength moatFrequency
  end.

Definition initial_boosts : gmap string BoostVal :=
  <["BugSpray"%string := BNum 0]>
    (<["IcyLeaf"%string := BNum 1]>
       (<["StickyLeaf"%string := BNum 1]>
          (<["FlyingLeaf"%string := BNum 1]> ∅))).

(** The store before any object exists; place 0 is the hive and place 1 the
    queen's place, both created by the field initialisers and constructors
    of [Hive] and [AntColony]. *)
Definition blank (rnd : nat -> Q) (startingFood beeArmor beeDamage : Z) : State :=
  mkState (<[1%nat := emptyPlace]> (<[0%nat := emptyPlace]> ∅)) ∅ ∅ 2 0 0
    startingFood [] [] 1 initial_boosts
    0 ∅ beeArmor beeDamage
    0 rnd 0 [].

(** [new AntColony(startingFood, numTunnels, tunnelLength, moatFrequency)] *)
Definition new_AntColony (numTunnels tunnelLength moatFrequency : nat) : M unit :=
  build_tunnels numTunnels tunnelLength moatFrequency.

Definition AntColony_getPlaces (s : State) : list (list nat) := grid s.
Definition AntColony_getEntrances (s : State) : list nat := beeEntrances s.
Definition AntColony_getQueenPlace (s : State) : nat := queenPlace s.

Definition AntColony_queenHasBees (s : State) : bool :=
  (0 <? length (Place_getBees (queenPlace s) s))%nat.

Definition str_occupied : string := "tunnel already occupied".
Definition str_no_food : string := "not enough food".
Definition str_no_boost : string := "no such boost".
Definition str_no_ant : string := "no Ant at location".
Definition str_unknown_ant : string := "unknown ant type".
Definition str_illegal : string := "illegal location".

(** [AntColony.deployAnt]; [None] is the [undefined] of a success. *)
Definition AntColony_deployAnt (a : nat) (place : jsval) : M (option string) :=
  f <- gets food ;;
  cost <- gets (Ant_getFoodCost a) ;;
  if cost <=? f then
    success <- on_place place (fun p => Place_addAnt p a) ;;
    if (success : bool) then
      modify (fun s => set_food (JS.sub (food s) (Ant_getFoodCost a s)) s) ;;;
      ret None
    else ret (Some str_occupied)
  else ret (Some str_no_food).

Definition AntColony_removeAnt (place : jsval) : M unit :=
  on_place place (fun p => Place_removeAnt p) ;;; ret tt.

Definition boost_missing (v : option BoostVal) : bool :=
  match v with
  | None => true                (* === undefined *)
  | Some (BNum n) => n <? 1
  | Some BOther => false        (* NaN < 1 *)
  end.

Definition AntColony_applyBoost (boost : string) (place : jsval) : M (option string) :=
  v <- gets (boosts_get boost) ;;
  if boost_missing v then ret (Some str_no_boost)
  else
    ant <- on_place place (fun p => gets (Place_getAnt p)) ;;
    match ant with
    | None => ret (Some str_no_ant)
    | Some a => Ant_setBoost a boost ;;; ret None
    end.

Definition AntColony_getAllAnts (s : State) : list nat :=
  omap (fun p => Place_getAnt p s) (concat (grid s)).

Definition AntColony_getAllBees (s : State) : list nat :=
  concat (map (fun p => Place_getBees p s) (concat (grid s))).

Definition AntColony_antsAct : M unit :=
  all <- gets AntColony_getAllAnts ;;
  forEach all (fun ant =>
    k <- gets (fun s => a_kind (getA ant s)) ;;
    (if decide (k = Guard) then
       guarded <- GuardAnt_getGuarded ant ;;
       match guarded with
       | Some g => Ant_act g
       | None => ret tt
       end
     else ret tt) ;;;
    Ant_act ant).

Definition AntColony_beesAct : M unit :=
  all <- gets AntColony_getAllBees ;;
  forEach all Bee_act.

Definition AntColony_placesAct : M unit :=
  cells <- gets (fun s => concat (grid s)) ;;
  forEach cells Place_act.

(** ** [class Hive] *)

(** The loop of [addWave]: [n] bees remain to be created. *)
Fixpoint addWave_loop (n : nat) (wave : list nat) : M (list nat) :=
  match n with
  | O => ret wave
  | S n' =>
      h <- gets hive ;;
      armor <- gets beeArmor ;;
      damage <- gets beeDamage ;;
      bee <- new_Bee armor damage (Some h) ;;
      Place_addBee h bee ;;;
      addWave_loop n' (wave ++ [bee])
  end.

Definition Hive_addWave (attackTurn : Z) (numBees : nat) : M unit :=
  wave <- addWave_loop numBees [] ;;
  modify (fun s => set_waves (<[attackTurn := wave]> (waves s)) s).

(** [Hive.invade].  The draw is a rational and its product with the number
    of entrances is taken exactly; the source rounds the product to a
    double before the floor, which changes the index only when the product
    is within a relative [2 ^ -53] of an integer. *)
Definition Hive_invade (currentTurn : Z) : M (list nat) :=
  w <- gets (fun s => waves s !! currentTurn) ;;
  match w with
  | Some wave =>
      forEach wave (fun bee =>
        h <- gets hive ;;
        Place_removeBee h bee ;;;
        entrances <- gets AntColony_getEntrances ;;
        r <- Math_random ;;
        let randEntrance := Qfloor (r * inject_Z (Z.of_nat (length entrances))) in
        if randEntrance <? 0 then throw
        else match entrances !! Z.to_nat randEntrance with
             | Some e => Place_addBee e bee
             | None => throw
             end) ;;;
      ret wave
  | None => ret []
  end.

(** ** [class AntGame] *)

Definition AntGame_takeTurn : M unit :=
  AntColony_antsAct ;;;
  AntColony_beesAct ;;;
  AntColony_placesAct ;;;
  t <- gets turn ;;
  Hive_invade t ;;;
  modify (fun s => set_turn (JS.add (turn s) 1) s).

Definition AntGame_getTurn (s : State) : Z := turn s.

(** [Some true] is won, [Some false] is lost, [None] is [undefined]. *)
Definition AntGame_gameIsWon (s : State) : option bool :=
  if AntColony_queenHasBees s then Some false
  else if (length (AntColony_getAllBees s) + length (Place_getBees (hive s) s)
           =? 0)%nat
       then Some true
       else None.

(** [this.colony.getPlaces()[coords[0]][coords[1]]] *)
Definition lookup_place (placeCoordinates : string) : M jsval :=
  let coords := JS.split_comma placeCoordinates in
  rows <- gets AntColony_getPlaces ;;
  get_member (array_get VRow rows (JS.key_at coords 0)) (JS.key_at coords 1).

Definition new_ant_of_type (antType : string) : option (M nat) :=
  let t := JS.toLowerCase antType in
  if String.eqb t "grower" then Some new_GrowerAnt
  else if String.eqb t "thrower" then Some new_ThrowerAnt
  else if String.eqb t "eater" then Some new_EaterAnt
  else if String.eqb t "scuba" then Some new_ScubaAnt
  else if String.eqb t "guard" then Some new_GuardAnt
  else None.

Definition AntGame_deployAnt (antType placeCoordinates : string) : M (option string) :=
  match new_ant_of_type antType with
  | None => ret (Some str_unknown_ant)
  | Some mk =>
      ant <- mk ;;
      try_catch
        (place <- lookup_place placeCoordinates ;;
         AntColony_deployAnt ant place)
        (ret (Some str_illegal))
  end.

Definition AntGame_removeAnt (placeCoordinates : string) : M (option string) :=
  try_catch
    (place <- lookup_place placeCoordinates ;;
     on_place place (fun p => Place_removeAnt p) ;;;
     ret None)
    (ret (Some str_illegal)).

Definition AntGame_boostAnt (boostType placeCoordinates : string) : M (option string) :=
  try_catch
    (place <- lookup_place placeCoordinates ;;
     AntColony_applyBoost boostType place)
    (ret (Some str_illegal)).

(** * Verification *)

(** ** Numbers *)

Lemma round_to_bounds u n :
  0 < u -> n / u * u <= JS.round_to u n <= (n / u + 1) * u.
Proof.
  intros Hu. unfold JS.round_to. cbv zeta.
  destruct (2 * (n mod u) <? u); [nia|].
  destruct (u <? 2 * (n mod u)); [nia|].
  destruct (Z.even (n / u)); nia.
Qed.

Lemma round_to_mono u n m :
  0 < u -> n <= m -> JS.round_to u n <= JS.round_to u m.
Proof.
  intros Hu Hnm.
  pose proof (Z.div_le_mono n m u Hu Hnm) as Hq.
  destruct (Z.eq_dec (n / u) (m / u)) as [Heq|Hne].
  - assert (Hr : n mod u <= m mod u).
    { rewrite !Z.mod_eq by lia. rewrite Heq. lia. }
    unfold JS.round_to. cbv zeta. rewrite Heq.
    destruct (Z.ltb_spec (2 * (n mod u)) u), (Z.ltb_spec (2 * (m mod u)) u);
      destruct (Z.ltb_spec u (2 * (n mod u))), (Z.ltb_spec u (2 * (m mod u)));
      destruct (Z.even (m / u)); nia.
  - pose proof (round_to_bounds u n Hu). pose proof (round_to_bounds u m Hu). nia.
Qed.

Lemma round_to_multiple u k : 0 < u -> JS.round_to u (k * u) = k * u.
Proof.
  intros Hu. unfold JS.round_to. cbv zeta.
  rewrite Z.mod_mul, Z.div_mul by lia.
  destruct (Z.ltb_spec (2 * 0) u); [reflexivity|lia].
Qed.

(** The binade of [n]. *)
Lemma binade n : 2 ^ 53 <= n ->
  1 <= Z.log2 n - 52 /\
  2 ^ 52 * 2 ^ (Z.log2 n - 52) <= n < 2 ^ 53 * 2 ^ (Z.log2 n - 52).
Proof.
  intros Hn. assert (H0 : 0 < n) by (pose proof (Z.pow_pos_nonneg 2 53); lia).
  pose proof (Z.log2_spec n H0) as [Hlo Hhi].
  assert (Hl : 53 <= Z.log2 n) by (apply Z.log2_le_pow2; lia).
  split; [lia|].
  rewrite <- !Z.pow_add_r by lia.
  replace (52 + (Z.log2 n - 52)) with (Z.log2 n) by lia.
  replace (53 + (Z.log2 n - 52)) with (Z.succ (Z.log2 n)) by lia. lia.
Qed.

Lemma round53_small n : n < 2 ^ 53 -> JS.round53 n = n.
Proof.
  intros Hn. unfold JS.round53. cbv zeta.
  destruct (Z.leb_spec (Z.log2 n - 52) 0) as [_|He]; [reflexivity|].
  exfalso. destruct (Z.le_gt_cases n 0) as [H0|H0].
  - rewrite Z.log2_nonpos in He by lia. lia.
  - assert (Z.log2 n < 53) by (apply Z.log2_lt_pow2; lia). lia.
Qed.

Lemma round53_large n : 2 ^ 53 <= n ->
  JS.round53 n = JS.round_to (2 ^ (Z.log2 n - 52)) n.
Proof.
  intros Hn. destruct (binade n Hn) as [He _].
  unfold JS.round53. cbv zeta.
  destruct (Z.leb_spec (Z.log2 n - 52) 0); [lia|reflexivity].
Qed.

(** A rounded number stays in the binade, its upper end included. *)
Lemma round53_range n : 2 ^ 53 <= n ->
  2 ^ 52 * 2 ^ (Z.log2 n - 52) <= JS.round53 n <= 2 ^ 53 * 2 ^ (Z.log2 n - 52).
Proof.
  intros Hn. rewrite round53_large by exact Hn.
  destruct (binade n Hn) as [He [Hlo Hhi]].
  set (u := 2 ^ (Z.log2 n - 52)) in *.
  assert (Hu : 0 < u) by (apply Z.pow_pos_nonneg; lia).
  pose proof (round_to_bounds u n Hu) as [Hl Hh].
  assert (2 ^ 52 <= n / u) by (apply Z.div_le_lower_bound; lia).
  assert (n / u < 2 ^ 53) by (apply Z.div_lt_upper_bound; lia).
  nia.
Qed.

Lemma round53_mono n m : n <= m -> JS.round53 n <= JS.round53 m.
Proof.
  intros Hnm.
  destruct (Z.lt_ge_cases m (2 ^ 53)) as [Hm|Hm].
  { rewrite !round53_small by lia. exact Hnm. }
  destruct (Z.lt_ge_cases n (2 ^ 53)) as [Hn|Hn].
  { rewrite (round53_small n) by lia.
    pose proof (round53_range m Hm) as [Hlo _].
    destruct (binade m Hm) as [He _].
    assert (H1 : 2 ^ 1 <= 2 ^ (Z.log2 m - 52)) by (apply Z.pow_le_mono_r; lia).
    change (2 ^ 1) with 2 in H1. change (2 ^ 53) with (2 ^ 52 * 2) in Hn.
    set (u := 2 ^ (Z.log2 m - 52)) in *. nia. }
  assert (Hl : Z.log2 n <= Z.log2 m) by (apply Z.log2_le_mono; exact Hnm).
  destruct (Z.eq_dec (Z.log2 n) (Z.log2 m)) as [Heq|Hne].
  - rewrite !round53_large by assumption. rewrite Heq.
    apply round_to_mono; [|exact Hnm].
    apply Z.pow_pos_nonneg; [lia|]. destruct (binade m Hm). lia.
  - pose proof (round53_range n Hn) as [_ Hhi].
    pose proof (round53_range m Hm) as [Hlo _].
    destruct (binade n Hn) as [He _].
    assert (2 ^ (Z.succ (Z.log2 n - 52)) <= 2 ^ (Z.log2 m - 52))
      by (apply Z.pow_le_mono_r; lia).
    rewrite Z.pow_succ_r in * by lia.
    change (2 ^ 53) with (2 * 2 ^ 52) in Hhi. nia.
Qed.

Lemma round53_form n : 2 ^ 53 <= n ->
  exists k, JS.round53 n = k * 2 ^ (Z.log2 n - 52) /\ 2 ^ 52 <= k <= 2 ^ 53.
Proof.
  intros Hn. pose proof (round53_range n Hn) as [Hlo Hhi].
  destruct (binade n Hn) as [He _].
  assert (Hu : 0 < 2 ^ (Z.log2 n - 52)) by (apply Z.pow_pos_nonneg; lia).
  rewrite round53_large in Hlo, Hhi |- * by exact Hn.
  unfold JS.round_to in *. cbv zeta in *.
  eexists. split; [reflexivity|].
  set (u := 2 ^ (Z.log2 n - 52)) in *. nia.
Qed.

Lemma round53_idem n : JS.round53 (JS.round53 n) = JS.round53 n.
Proof.
  destruct (Z.lt_ge_cases n (2 ^ 53)) as [Hn|Hn].
  { rewrite (round53_small n) by exact Hn. apply round53_small. exact Hn. }
  destruct (round53_form n Hn) as (k & Hk & Hk1).
  destruct (binade n Hn) as [He _].
  set (e := Z.log2 n - 52) in *.
  assert (Hu : 0 < 2 ^ e) by (apply Z.pow_pos_nonneg; lia).
  assert (H2 : 2 ^ 1 <= 2 ^ e) by (apply Z.pow_le_mono_r; lia).
  change (2 ^ 1) with 2 in H2.
  assert (Hv : 2 ^ 53 <= JS.round53 n).
  { rewrite Hk. change (2 ^ 53) with (2 ^ 52 * 2). nia. }
  rewrite (round53_large (JS.round53 n)) by exact Hv.
  destruct (Z.eq_dec k (2 ^ 53)) as [->|Hne].
  - assert (Hlog : Z.log2 (JS.round53 n) = 53 + e).
    { rewrite Hk, <- Z.pow_add_r by lia. apply Z.log2_pow2. lia. }
    rewrite Hlog. replace (53 + e - 52) with (Z.succ e) by lia.
    rewrite Hk. rewrite Z.pow_succ_r by lia.
    replace (2 ^ 53 * 2 ^ e) with (2 ^ 52 * (2 * 2 ^ e))
      by (change (2 ^ 53) with (2 ^ 52 * 2); ring).
    apply round_to_multiple. lia.
  - assert (Hlog : Z.log2 (JS.round53 n) = 52 + e).
    { apply Z.log2_unique; [lia|]. rewrite Hk.
      replace (Z.succ (52 + e)) with (53 + e) by lia.
      rewrite !Z.pow_add_r by lia.
      split; [apply Z.mul_le_mono_nonneg_r|apply Zmult_lt_compat_r]; lia. }
    rewrite Hlog. replace (52 + e - 52) with e by lia.
    rewrite Hk. apply round_to_multiple. lia.
Qed.

Lemma round53_pos n : 0 < n -> 0 < JS.round53 n.
Proof.
  intros Hn. destruct (Z.lt_ge_cases n (2 ^ 53)) as [H|H].
  - rewrite round53_small by exact H. exact Hn.
  - pose proof (round53_range n H) as [Hlo _].
    assert (0 < 2 ^ (Z.log2 n - 52)) by (apply Z.pow_pos_nonneg; destruct (binade n H); lia).
    assert (0 < 2 ^ 52) by reflexivity. nia.
Qed.

Lemma round53_0 : JS.round53 0 = 0.
Proof. reflexivity. Qed.

(** The magnitude of a rounded number. *)
Definition mag (v : Z) : Z := if JS.huge <=? v then JS.infinity else v.

Lemma huge_lt_infinity : JS.huge < JS.infinity.
Proof.
  unfold JS.huge, JS.infinity. apply Z.pow_lt_mono_r; lia.
Qed.

Lemma mag_mono v w : v <= w -> mag v <= mag w.
Proof.
  intros H. unfold mag. pose proof huge_lt_infinity.
  destruct (Z.leb_spec JS.huge v), (Z.leb_spec JS.huge w); lia.
Qed.

Lemma mag_pos v : 0 < v -> 0 < mag v.
Proof.
  intros H. unfold mag. destruct (Z.leb_spec JS.huge v); [|exact H].
  unfold JS.infinity. apply Z.pow_pos_nonneg; lia.
Qed.

Lemma fl_eq z : JS.fl z = Z.sgn z * mag (JS.round53 (Z.abs z)).
Proof. reflexivity. Qed.

Lemma fl_nonneg z : 0 <= z -> JS.fl z = mag (JS.round53 z).
Proof.
  intros H. rewrite fl_eq, Z.abs_eq by exact H.
  destruct (Z.eq_dec z 0) as [->|Hne]; [reflexivity|].
  rewrite Z.sgn_pos by lia. lia.
Qed.

Lemma fl_opp z : JS.fl (- z) = - JS.fl z.
Proof. rewrite !fl_eq, Z.abs_opp, Z.sgn_opp. ring. Qed.

Lemma fl_sgn z : Z.sgn (JS.fl z) = Z.sgn z.
Proof.
  rewrite fl_eq.
  destruct (Z.lt_trichotomy z 0) as [H|[->|H]]; [| reflexivity |].
  - assert (Hm : 0 < mag (JS.round53 (Z.abs z))) by (apply mag_pos, round53_pos; lia).
    rewrite (Z.sgn_neg z) by lia. apply Z.sgn_neg_iff. lia.
  - assert (Hm : 0 < mag (JS.round53 (Z.abs z))) by (apply mag_pos, round53_pos; lia).
    rewrite (Z.sgn_pos z) by lia. apply Z.sgn_pos_iff. lia.
Qed.

Lemma fl_pos z : 0 < JS.fl z <-> 0 < z.
Proof. rewrite <- !Z.sgn_pos_iff, fl_sgn. reflexivity. Qed.

Lemma fl_nonpos z : JS.fl z <= 0 <-> z <= 0.
Proof. pose proof (fl_pos z). lia. Qed.

Lemma fl_neg z : JS.fl z < 0 <-> z < 0.
Proof. rewrite <- !Z.sgn_neg_iff, fl_sgn. reflexivity. Qed.

Lemma fl_mono x y : x <= y -> JS.fl x <= JS.fl y.
Proof.
  intros H.
  destruct (Z.le_gt_cases 0 x) as [Hx|Hx].
  - rewrite !fl_nonneg by lia. apply mag_mono, round53_mono. exact H.
  - destruct (Z.le_gt_cases 0 y) as [Hy|Hy].
    + pose proof (proj2 (fl_neg x) Hx). pose proof (fl_neg y). lia.
    + assert (Ex : JS.fl x = - JS.fl (- x)) by (rewrite fl_opp; lia).
      assert (Ey : JS.fl y = - JS.fl (- y)) by (rewrite fl_opp; lia).
      rewrite Ex, Ey, !fl_nonneg by lia.
      assert (Hr : JS.round53 (- y) <= JS.round53 (- x)) by (apply round53_mono; lia).
      apply mag_mono in Hr. lia.
Qed.

Lemma fl_small z : Z.abs z <= JS.safe -> JS.fl z = z.
Proof.
  intros H. rewrite fl_eq.
  assert (Hr : JS.round53 (Z.abs z) = Z.abs z).
  { destruct (Z.eq_dec (Z.abs z) JS.safe) as [->|Hne]; [reflexivity|].
    apply round53_small. unfold JS.safe in *. lia. }
  rewrite Hr. unfold mag.
  destruct (Z.leb_spec JS.huge (Z.abs z)) as [Hh|_].
  - exfalso. assert (JS.safe < JS.huge) by (apply Z.pow_lt_mono_r; lia). lia.
  - rewrite Z.mul_comm. apply Z.abs_sgn.
Qed.

Lemma fl_idem z : JS.fl (JS.fl z) = JS.fl z.
Proof.
  assert (Hpos : forall n, 0 <= n -> JS.fl (JS.fl n) = JS.fl n).
  { intros n Hn. rewrite (fl_nonneg n) by exact Hn.
    assert (0 <= mag (JS.round53 n)).
    { destruct (Z.eq_dec n 0) as [->|]; [discriminate|].
      pose proof (mag_pos _ (round53_pos n ltac:(lia))). lia. }
    rewrite fl_nonneg by assumption.
    unfold mag at 2 3.
    destruct (Z.leb_spec JS.huge (JS.round53 n)) as [Hh|Hh].
    - reflexivity.
    - rewrite round53_idem. unfold mag.
      destruct (Z.leb_spec JS.huge (JS.round53 n)); [lia|reflexivity]. }
  destruct (Z.le_gt_cases 0 z) as [Hz|Hz]; [apply Hpos; exact Hz|].
  assert (E : JS.fl z = - JS.fl (- z)) by (rewrite fl_opp; lia).
  rewrite E, (fl_opp (JS.fl (- z))), Hpos by lia. reflexivity.
Qed.

Lemma fl_is_number z : JS.is_number (JS.fl z).
Proof. apply fl_idem. Qed.

Lemma small_is_number z : Z.abs z <= JS.safe -> JS.is_number z.
Proof. apply fl_small. Qed.

Lemma sub_is_number x y : JS.is_number (JS.sub x y).
Proof. apply fl_idem. Qed.

Lemma add_is_number x y : JS.is_number (JS.add x y).
Proof. apply fl_idem. Qed.

(** Within the safe range the arithmetic is exact. *)
Lemma sub_exact x y : Z.abs (x - y) <= JS.safe -> JS.sub x y = x - y.
Proof. apply fl_small. Qed.

Lemma add_exact x y : Z.abs (x + y) <= JS.safe -> JS.add x y = x + y.
Proof. apply fl_small. Qed.

Lemma sub_pos x y : 0 < JS.sub x y <-> y < x.
Proof. unfold JS.sub. rewrite fl_pos. lia. Qed.

Lemma sub_nonpos x y : JS.sub x y <= 0 <-> x <= y.
Proof. unfold JS.sub. rewrite fl_nonpos. lia. Qed.

(** Taking something from a number never raises it, and adding never
    lowers it. *)
Lemma sub_le x y : JS.is_number x -> 0 <= y -> JS.sub x y <= x.
Proof.
  intros Hx Hy. unfold JS.is_number in Hx. unfold JS.sub.
  pose proof (fl_mono (x - y) x ltac:(lia)). lia.
Qed.

Lemma add_ge x y : JS.is_number x -> 0 <= y -> x <= JS.add x y.
Proof.
  intros Hx Hy. unfold JS.is_number in Hx. unfold JS.add.
  pose proof (fl_mono x (x + y) ltac:(lia)). lia.
Qed.

Lemma sub_le_safe x y : x <= JS.safe -> 0 <= y -> JS.sub x y <= JS.safe.
Proof.
  intros Hx Hy. unfold JS.sub.
  pose proof (fl_mono (x - y) JS.safe ltac:(lia)) as H.
  rewrite (fl_small JS.safe) in H by (unfold JS.safe; lia). exact H.
Qed.

(** The side condition of [sub_exact] and [add_exact], on terms that [lia]
    bounds. *)
Ltac safe_range := apply Z.abs_le; unfold JS.safe; lia.

(** A positive number in the safe range is lowered by exactly what is
    taken from it, as long as the difference stays positive. *)
Lemma sub_exact_pos x y :
  x <= JS.safe -> 0 <= y -> 0 < JS.sub x y -> JS.sub x y = x - y.
Proof.
  intros Hx Hy Hp. apply (proj1 (sub_pos x y)) in Hp. apply sub_exact.
  rewrite Z.abs_eq; lia.
Qed.

(** ** The object stores *)

Lemma getP_updP p q f s :
  getP q (updP p f s) = if decide (p = q) then f (getP p s) else getP q s.
Proof.
  unfold getP, updP; simpl. destruct (decide (p = q)) as [->|Hne].
  - rewrite lookup_insert_eq. reflexivity.
  - rewrite lookup_insert_ne by assumption. reflexivity.
Qed.

Lemma getP_updP_eq p f s : getP p (updP p f s) = f (getP p s).
Proof. rewrite getP_updP. destruct (decide (p = p)); congruence. Qed.

Lemma getP_updP_ne p q f s : p <> q -> getP q (updP p f s) = getP q s.
Proof. intros H. rewrite getP_updP. destruct (decide (p = q)); congruence. Qed.

Lemma getA_updA a c f s :
  getA c (updA a f s) = if decide (a = c) then f (getA a s) else getA c s.
Proof.
  unfold getA, updA; simpl. destruct (decide (a = c)) as [->|Hne].
  - rewrite lookup_insert_eq. reflexivity.
  - rewrite lookup_insert_ne by assumption. reflexivity.
Qed.

Lemma getA_updA_eq a f s : getA a (updA a f s) = f (getA a s).
Proof. rewrite getA_updA. destruct (decide (a = a)); congruence. Qed.

Lemma getA_updA_ne a c f s : a <> c -> getA c (updA a f s) = getA c s.
Proof. intros H. rewrite getA_updA. destruct (decide (a = c)); congruence. Qed.

Lemma getB_updB b c f s :
  getB c (updB b f s) = if decide (b = c) then f (getB b s) else getB c s.
Proof.
  unfold getB, updB; simpl. destruct (decide (b = c)) as [->|Hne].
  - rewrite lookup_insert_eq. reflexivity.
  - rewrite lookup_insert_ne by assumption. reflexivity.
Qed.

Lemma getB_updB_eq b f s : getB b (updB b f s) = f (getB b s).
Proof. rewrite getB_updB. destruct (decide (b = b)); congruence. Qed.

Lemma getB_updB_ne b c f s : b <> c -> getB c (updB b f s) = getB c s.
Proof. intros H. rewrite getB_updB. destruct (decide (b = c)); congruence. Qed.

(** The three stores are disjoint. *)
Lemma getP_updA p a f s : getP p (updA a f s) = getP p s.
Proof. reflexivity. Qed.
Lemma getP_updB p b f s : getP p (updB b f s) = getP p s.
Proof. reflexivity. Qed.
Lemma getA_updP a p f s : getA a (updP p f s) = getA a s.
Proof. reflexivity. Qed.
Lemma getA_updB a b f s : getA a (updB b f s) = getA a s.
Proof. reflexivity. Qed.
Lemma getB_updP b p f s : getB b (updP p f s) = getB b s.
Proof. reflexivity. Qed.
Lemma getB_updA b a f s : getB b (updA a f s) = getB b s.
Proof. reflexivity. Qed.

(** A field setter of the colony, hive or game leaves the stores alone. *)
Ltac store_frame :=
  match goal with
  | |- context [getP ?p (?f ?x ?s)] =>
      progress change (getP p (f x s)) with (getP p s)
  | |- context [getA ?a (?f ?x ?s)] =>
      progress change (getA a (f x s)) with (getA a s)
  | |- context [getB ?b (?f ?x ?s)] =>
      progress change (getB b (f x s)) with (getB b s)
  | |- context [getP ?p (?f ?x ?y ?s)] =>
      progress change (getP p (f x y s)) with (getP p s)
  | |- context [getA ?a (?f ?x ?y ?s)] =>
      progress change (getA a (f x y s)) with (getA a s)
  | |- context [getB ?b (?f ?x ?y ?s)] =>
      progress change (getB b (f x y s)) with (getB b s)
  end.

Ltac store_simpl :=
  repeat first
    [ rewrite getP_updP_eq | rewrite getA_updA_eq | rewrite getB_updB_eq
    | store_frame ].

(** Reduce the applied lambdas and matches that unfolding a method leaves. *)
Ltac mred := cbv beta iota; store_simpl; cbv beta iota.

(** ** C2: the outcome query *)

Lemma getAllBees_empty s :
  AntColony_getAllBees s = [] <->
  (forall p, p ∈ concat (grid s) -> Place_getBees p s = []).
Proof.
  unfold AntColony_getAllBees. induction (concat (grid s)) as [|q l IH]; simpl.
  - split; [intros _ p Hp; inversion Hp | reflexivity].
  - split.
    + intros H p Hp. apply app_eq_nil in H as [Hq Hl].
      apply elem_of_cons in Hp as [->|Hp]; [assumption|]. apply IH; assumption.
    + intros H. rewrite (H q) by apply list_elem_of_here. simpl.
      apply IH. intros p Hp. apply H. apply list_elem_of_further. assumption.
Qed.

(** C2. [gameIsWon] reports lost whenever the queen's place holds a bee,
    whatever the rest of the state; with the queen's place clear it reports
    won exactly when no cell of the board and not the hive holds a bee, and
    is undecided in every other case. *)
Theorem C2_outcome (s : State) :
  (Place_getBees (queenPlace s) s <> [] -> AntGame_gameIsWon s = Some false) /\
  (Place_getBees (queenPlace s) s = [] ->
     (AntGame_gameIsWon s = Some true <->
        (forall p, p ∈ concat (grid s) -> Place_getBees p s = []) /\
        Place_getBees (hive s) s = []) /\
     (AntGame_gameIsWon s <> Some true -> AntGame_gameIsWon s = None)).
Proof.
  unfold AntGame_gameIsWon, AntColony_queenHasBees. split.
  - intros Hq. destruct (Place_getBees (queenPlace s) s); [congruence|reflexivity].
  - intros Hq. rewrite Hq. simpl. rewrite <- getAllBees_empty.
    destruct (AntColony_getAllBees s) as [|x l] eqn:HA;
      destruct (Place_getBees (hive s) s) as [|y h] eqn:HH; simpl.
    + split; [split; [intros _; split; reflexivity | intros _; reflexivity]
             | intros H; congruence].
    + split; [split; [intros H; discriminate | intros [_ H]; discriminate]
             | reflexivity].
    + split; [split; [intros H; discriminate | intros [H _]; discriminate]
             | reflexivity].
    + split; [split; [intros H; discriminate | intros [H _]; discriminate]
             | reflexivity].
Qed.

(** The state a call ends in. *)
Definition run {A} (m : M A) (s : State) : State :=
  match m s with
  | Ok _ s' => s'
  | Throw s' => s'
  | Diverge => s
  end.

(** A small colony for the examples: one tunnel of five cells (places 2 to
    6, place 4 under water), 10 food, bees of armor 2 and damage 1. *)
Definition demo0 : State :=
  Eval vm_compute in run (new_AntColony 1 5 3) (blank (fun _ => 0%Q) 10 2 1).

(** ** C3: [AntColony.deployAnt] *)

(** The slot of a place that an ant of kind [k] goes to. *)
Definition slot_of (k : AntKind) (P : PlaceRec) : option nat :=
  if decide (k = Guard) then p_guard P else p_ant P.

(** C3. With less food than the ant costs, [deployAnt] answers 'not enough
    food' and changes nothing; with enough food and the ant's slot of the
    place taken it answers 'tunnel already occupied' and changes nothing;
    otherwise it succeeds, the ant is in its slot of the place, and the food
    is the double nearest to the food less the ant's cost: exactly that
    difference whenever it is at most [2 ^ 53]. *)
Theorem C3_deployAnt (s : State) (a p : nat) :
  let cost := Ant_getFoodCost a s in
  let k := a_kind (getA a s) in
  (food s < cost ->
     AntColony_deployAnt a (VPlace p) s = Ok (Some str_no_food) s) /\
  (cost <= food s -> slot_of k (getP p s) <> None ->
     AntColony_deployAnt a (VPlace p) s = Ok (Some str_occupied) s) /\
  (cost <= food s -> slot_of k (getP p s) = None ->
     exists s', AntColony_deployAnt a (VPlace p) s = Ok None s' /\
       food s' = JS.sub (food s) cost /\
       (food s - cost <= JS.safe -> food s' = food s - cost) /\
       slot_of k (getP p s') = Some a /\
       a_place (getA a s') = Some p /\
       (forall q, q <> p -> getP q s' = getP q s) /\
       p_bees (getP p s') = p_bees (getP p s)).
Proof.
  intros cost k. subst cost k.
  unfold AntColony_deployAnt, Ant_getFoodCost, bind, gets, ret, on_place,
    Place_addAnt, modify, slot_of.
  split; [|split].
  - intros Hlt. destruct (Z.leb_spec (a_foodCost (getA a s)) (food s)); [lia|reflexivity].
  - intros Hle Hocc.
    destruct (Z.leb_spec (a_foodCost (getA a s)) (food s)); [|lia].
    destruct (decide (a_kind (getA a s) = Guard)).
    + destruct (p_guard (getP p s)); [reflexivity|congruence].
    + destruct (p_ant (getP p s)); [reflexivity|congruence].
  - intros Hle Hfree.
    destruct (Z.leb_spec (a_foodCost (getA a s)) (food s)); [|lia].
    destruct (decide (a_kind (getA a s) = Guard)) as [Hk|Hk]; rewrite Hfree.
    + eexists; split; [reflexivity|]. simpl. store_simpl.
      unfold Ant_getFoodCost. store_simpl. simpl.
      destruct (decide (a_kind (getA a s) = Guard)); [|congruence].
      split; [reflexivity|].
      split; [intros Hs; apply sub_exact; rewrite Z.abs_eq; lia|].
      split; [reflexivity|]. split; [reflexivity|].
      split; [|reflexivity].
      intros q Hq. store_simpl. rewrite getP_updP_ne by congruence. reflexivity.
    + eexists; split; [reflexivity|]. simpl. store_simpl.
      unfold Ant_getFoodCost. store_simpl. simpl.
      destruct (decide (a_kind (getA a s) = Guard)); [congruence|].
      split; [reflexivity|].
      split; [intros Hs; apply sub_exact; rewrite Z.abs_eq; lia|].
      split; [reflexivity|]. split; [reflexivity|].
      split; [|reflexivity].
      intros q Hq. store_simpl. rewrite getP_updP_ne by congruence. reflexivity.
Qed.

(** ** C4: the boost of a Thrower or Scuba *)




(** [getClosestBee] reads the places only. *)
Lemma closestBee_loop_ext n s s' p dist maxD minD :
  (forall q, getP q s' = getP q s) ->
  closestBee_loop n s' p dist maxD minD = closestBee_loop n s p dist maxD minD.
Proof.
  intros Hext. revert p dist.
  induction n as [|n IH]; intros p dist; simpl; [reflexivity|].
  destruct p as [q|]; [|reflexivity].
  rewrite Hext. rewrite IH. reflexivity.
Qed.

Lemma getClosestBee_ext s s' p maxD minD :
  (forall q, getP q s' = getP q s) ->
  Place_getClosestBee p maxD minD s' = Place_getClosestBee p maxD minD s.
Proof. intros H. apply closestBee_loop_ext. exact H. Qed.

(** The range of the leaf thrown under a given boost. *)
Definition leaf_range (boost : option string) : Z :=
  if has_boost boost "FlyingLeaf" then 5 else 3.



(** ** C5: the digestion of an Eater *)

(** The eater is left alone between [s] and [s']: its kind, its counter,
    its stomach and what the stomach holds are as they were.  The rest of
    the state may have changed. *)
Definition eater_untouched (a : nat) (s s' : State) : Prop :=
  a_kind (getA a s') = a_kind (getA a s) /\
  a_turnsEating (getA a s') = a_turnsEating (getA a s) /\
  a_stomach (getA a s') = a_stomach (getA a s) /\
  forall sp, a_stomach (getA a s) = Some sp ->
             Place_getBees sp s' = Place_getBees sp s.

(** [digesting a n s s']: from [s] the eater [a] has acted [n] times and has
    not been damaged, and the game has reached [s']. *)
Inductive digesting (a : nat) : nat -> State -> State -> Prop :=
| digesting_O s s' :
    eater_untouched a s s' -> digesting a O s s'
| digesting_S n s s1 s2 s3 :
    digesting a n s s1 ->
    Ant_act a s1 = Ok tt s2 ->
    eater_untouched a s2 s3 ->
    digesting a (S n) s s3.

Lemma indexOf_head b l : indexOf b (b :: l) = Some O.
Proof. simpl. destruct (decide (b = b)); congruence. Qed.

Lemma eater_swallow a p sp b rest s :
  a_kind (getA a s) = Eater ->
  a_turnsEating (getA a s) = 0 ->
  a_place (getA a s) = Some p ->
  a_stomach (getA a s) = Some sp ->
  sp <> p ->
  Place_getBees p s = b :: rest ->
  exists s', Ant_act a s = Ok tt s' /\
    a_kind (getA a s') = Eater /\
    a_turnsEating (getA a s') = 1 /\
    a_stomach (getA a s') = Some sp /\
    Place_getBees sp s' = Place_getBees sp s ++ [b] /\
    Place_getBees p s' = rest.
Proof.
  intros Hk Hte Hp Hsp Hne Hbees.
  unfold Ant_act, EaterAnt_act, bind, gets, modify, ret. store_simpl.
  rewrite Hk. cbv beta iota. store_simpl. rewrite Hte. cbn [Z.eqb]. cbv beta iota.
  store_simpl. rewrite Hp.
  assert (Hcb : Place_getClosestBee p 0 0 (set_acted (a :: acted s) s) = Some b).
  { unfold Place_getClosestBee. change (Z.to_nat (0 + 1)) with 1%nat.
    unfold closestBee_loop. store_simpl.
    unfold Place_getBees in Hbees. rewrite Hbees. reflexivity. }
  rewrite Hcb. cbv beta iota.
  unfold Place_getBees in *.
  unfold Place_removeBee. store_simpl.
  rewrite Hbees, indexOf_head. cbv beta iota. store_simpl. rewrite Hsp.
  unfold Place_addBee, modify.
  eexists; split; [reflexivity|].
  store_simpl. cbn [a_kind a_turnsEating a_stomach with_a_turnsEating].
  split; [assumption|]. split; [reflexivity|]. split; [assumption|].
  split.
  - cbn [p_bees with_bees]. rewrite getP_updP_ne by congruence. reflexivity.
  - rewrite getP_updP_ne by congruence. store_simpl.
    cbn [p_bees with_bees]. rewrite Hbees. reflexivity.
Qed.

Lemma eater_digest_step a sp s :
  a_kind (getA a s) = Eater ->
  a_stomach (getA a s) = Some sp ->
  a_turnsEating (getA a s) <> 0 ->
  exists s', Ant_act a s = Ok tt s' /\
    a_kind (getA a s') = Eater /\
    a_stomach (getA a s') = Some sp /\
    (a_turnsEating (getA a s) <= 3 ->
       a_turnsEating (getA a s') = JS.add (a_turnsEating (getA a s)) 1 /\
       Place_getBees sp s' = Place_getBees sp s) /\
    (3 < a_turnsEating (getA a s) ->
       a_turnsEating (getA a s') = 0 /\
       Place_getBees sp s' = tail (Place_getBees sp s) /\
       forall b, head (Place_getBees sp s) = Some b ->
                 b_place (getB b s') = None).
Proof.
  intros Hk Hsp Hte.
  unfold Ant_act, EaterAnt_act, bind, gets, modify, ret. mred.
  rewrite Hk. mred.
  destruct (Z.eqb_spec (a_turnsEating (getA a s)) 0) as [|_]; [congruence|].
  destruct (Z.ltb_spec 3 (a_turnsEating (getA a s))) as [Hgt|Hle]; mred.
  - rewrite Hsp. unfold Place_getBees. mred.
    destruct (p_bees (getP sp s)) as [|b l] eqn:Hb; cbn [head]; mred.
    + eexists; split; [reflexivity|]. mred.
      cbn [a_kind a_turnsEating a_stomach with_a_turnsEating].
      split; [assumption|]. split; [assumption|].
      split; [intros; lia|]. intros _. split; [reflexivity|].
      rewrite Hb. split; [reflexivity|]. intros b Hb'. discriminate.
    + unfold Place_removeBee. mred. rewrite Hb, indexOf_head.
      eexists; split; [reflexivity|]. mred.
      cbn [a_kind a_turnsEating a_stomach with_a_turnsEating p_bees with_bees].
      split; [assumption|]. split; [assumption|].
      split; [intros; lia|]. intros _. split; [reflexivity|].
      split; [rewrite Hb; reflexivity|].
      intros b' [= <-]. mred. reflexivity.
  - eexists; split; [reflexivity|]. mred.
    cbn [a_kind a_turnsEating a_stomach with_a_turnsEating].
    split; [assumption|]. split; [assumption|].
    split; [intros _; split; reflexivity | intros; lia].
Qed.

(** After [n <= 3] acts without damage the counter reads [1 + n] and the
    stomach still holds the swallowed bee. *)
Lemma digesting_counter a sp b n s0 s :
  a_kind (getA a s0) = Eater ->
  a_stomach (getA a s0) = Some sp ->
  a_turnsEating (getA a s0) = 1 ->
  Place_getBees sp s0 = [b] ->
  digesting a n s0 s ->
  (n <= 3)%nat ->
  a_kind (getA a s) = Eater /\
  a_stomach (getA a s) = Some sp /\
  a_turnsEating (getA a s) = 1 + Z.of_nat n /\
  Place_getBees sp s = [b].
Proof.
  intros Hk Hsp Hte Hb Hrun. induction Hrun as [s s' Hu | n s s1 s2 s3 Hrun IH Hact Hu];
    intros Hn.
  - destruct Hu as (Hk' & Hte' & Hsp' & Hbees).
    rewrite Hk', Hte', Hsp', (Hbees sp Hsp). auto.
  - destruct IH as (Hk1 & Hsp1 & Hte1 & Hb1); try assumption; [lia|].
    destruct (eater_digest_step a sp s1 Hk1 Hsp1) as (s2' & Hact' & Hk2 & Hsp2 & Hinc & _);
      [lia|].
    rewrite Hact in Hact'. injection Hact' as <-.
    destruct Hinc as [Hte2 Hb2]; [lia|].
    destruct Hu as (Hk' & Hte' & Hsp' & Hbees).
    rewrite Hk', Hte', Hsp', (Hbees sp Hsp2), Hk2, Hsp2, Hte2, Hb2, Hte1, Hb1.
    rewrite add_exact by safe_range.
    repeat split; auto. lia.
Qed.

(** C5. An Eater with an empty stomach and a bee in its place swallows the
    first bee: the counter goes from 0 to 1.  From there, as long as the
    Eater is not damaged, each of its next three acts returns and increments
    the counter (2, 3, 4) with the bee kept in the stomach, and the fourth
    act, the first one to find the counter above 3, removes the bee from the
    stomach (it is then in no place) and resets the counter to 0. *)
Theorem C5_eater_digestion (s : State) (a p sp b : nat) (rest : list nat) :
  a_kind (getA a s) = Eater ->
  a_turnsEating (getA a s) = 0 ->
  a_place (getA a s) = Some p ->
  a_stomach (getA a s) = Some sp ->
  sp <> p ->
  Place_getBees p s = b :: rest ->
  Place_getBees sp s = [] ->
  exists s0, Ant_act a s = Ok tt s0 /\
    a_turnsEating (getA a s0) = 1 /\
    Place_getBees sp s0 = [b] /\
    forall n s1, digesting a n s0 s1 -> (n <= 3)%nat ->
      a_turnsEating (getA a s1) = 1 + Z.of_nat n /\
      Place_getBees sp s1 = [b] /\
      exists s2, Ant_act a s1 = Ok tt s2 /\
        ((n < 3)%nat ->
           a_turnsEating (getA a s2) = 2 + Z.of_nat n /\
           Place_getBees sp s2 = [b]) /\
        (n = 3%nat ->
           a_turnsEating (getA a s2) = 0 /\
           Place_getBees sp s2 = [] /\
           b_place (getB b s2) = None).
Proof.
  intros Hk Hte Hp Hsp Hne Hbees Hempty.
  destruct (eater_swallow a p sp b rest s Hk Hte Hp Hsp Hne Hbees)
    as (s0 & Hact & Hk0 & Hte0 & Hsp0 & Hb0 & _).
  rewrite Hempty in Hb0. simpl in Hb0.
  exists s0. split; [assumption|]. split; [assumption|]. split; [assumption|].
  intros n s1 Hrun Hn.
  destruct (digesting_counter a sp b n s0 s1 Hk0 Hsp0 Hte0 Hb0 Hrun Hn)
    as (Hk1 & Hsp1 & Hte1 & Hb1).
  split; [assumption|]. split; [assumption|].
  destruct (eater_digest_step a sp s1 Hk1 Hsp1) as (s2 & Hact2 & _ & _ & Hinc & Hrel);
    [lia|].
  exists s2. split; [assumption|]. split.
  - intros Hlt. destruct Hinc as [H1 H2]; [lia|]. rewrite H1, H2, Hte1, Hb1.
    rewrite add_exact by safe_range.
    split; [lia|reflexivity].
  - intros ->. destruct Hrel as (H1 & H2 & H3); [rewrite Hte1; simpl; lia|].
    rewrite H1, H2, Hb1. split; [reflexivity|]. split; [reflexivity|].
    apply H3. rewrite Hb1. reflexivity.
Qed.

(** ** C9: [getClosestBee] *)

(** The place [d] entrance links away from [p], if the chain is that long. *)
Fixpoint at_distance (s : State) (p : nat) (d : nat) : option nat :=
  match d with
  | O => Some p
  | S d' =>
      match p_entrance (getP p s) with
      | Some q => at_distance s q d'
      | None => None
      end
  end.

(** [first_hit s p lo hi d q]: [q] is the place at distance [d] from [p],
    [d] lies in [lo, hi], [q] holds a bee, and no nearer place at a distance
    of at least [lo] holds one. *)
Definition first_hit (s : State) (p : nat) (lo hi : Z) (d q : nat) : Prop :=
  lo <= Z.of_nat d <= hi /\
  at_distance s p d = Some q /\
  Place_getBees q s <> [] /\
  forall j q', (j < d)%nat -> lo <= Z.of_nat j ->
               at_distance s p j = Some q' -> Place_getBees q' s = [].

Lemma closestBee_loop_spec n s : forall p dist maxD minD,
  maxD - dist + 1 <= Z.of_nat n ->
  match closestBee_loop n s (Some p) dist maxD minD with
  | Some b =>
      exists d q, first_hit s p (minD - dist) (maxD - dist) d q /\
                  head (Place_getBees q s) = Some b
  | None =>
      forall d q, minD - dist <= Z.of_nat d <= maxD - dist ->
                  at_distance s p d = Some q -> Place_getBees q s = []
  end.
Proof.
  unfold first_hit, Place_getBees.
  induction n as [|n IH]; intros p dist maxD minD Hn.
  - simpl. intros d q Hd _. lia.
  - cbn [closestBee_loop].
    destruct (Z.leb_spec dist maxD) as [Hle|Hgt]; [|intros d q Hd _; lia].
    destruct (Z.leb_spec minD dist) as [Hmin|Hmin];
      destruct (p_bees (getP p s)) as [|b l] eqn:Hb; cbn [andb length Z.of_nat Z.ltb Z.compare head].
    + (* in range, no bee here *)
      destruct (p_entrance (getP p s)) as [e|] eqn:He.
      * specialize (IH e (dist + 1) maxD minD ltac:(lia)).
        destruct (closestBee_loop n s (Some e) (dist + 1) maxD minD) as [b|].
        -- destruct IH as (d & q & (Hd & Hat & Hne & Hfirst) & Hhead).
           exists (S d), q. split; [|assumption].
           split; [lia|]. split; [cbn [at_distance]; rewrite He; assumption|].
           split; [assumption|].
           intros j q' Hj Hlo Hat'. destruct j as [|j].
           ++ cbn [at_distance] in Hat'. injection Hat' as <-. assumption.
           ++ cbn [at_distance] in Hat'. rewrite He in Hat'.
              apply (Hfirst j q'); [lia|lia|assumption].
        -- intros d q Hd Hat. destruct d as [|d].
           ++ cbn [at_distance] in Hat. injection Hat as <-. assumption.
           ++ cbn [at_distance] in Hat. rewrite He in Hat.
              apply (IH d q); [lia|assumption].
      * assert (Hend : closestBee_loop n s None (dist + 1) maxD minD = None)
          by (destruct n; reflexivity).
        rewrite Hend. intros d q Hd Hat. destruct d as [|d].
        -- cbn [at_distance] in Hat. injection Hat as <-. assumption.
        -- cbn [at_distance] in Hat. rewrite He in Hat. discriminate.
    + (* in range, a bee here *)
      exists O, p. rewrite Hb. split; [|reflexivity].
      split; [lia|]. split; [reflexivity|]. split; [discriminate|].
      intros j q' Hj. lia.
    + (* nearer than the minimum, no bee here *)
      destruct (p_entrance (getP p s)) as [e|] eqn:He.
      * specialize (IH e (dist + 1) maxD minD ltac:(lia)).
        destruct (closestBee_loop n s (Some e) (dist + 1) maxD minD) as [b|].
        -- destruct IH as (d & q & (Hd & Hat & Hne & Hfirst) & Hhead).
           exists (S d), q. split; [|assumption].
           split; [lia|]. split; [cbn [at_distance]; rewrite He; assumption|].
           split; [assumption|].
           intros j q' Hj Hlo Hat'. destruct j as [|j]; [simpl in Hlo; lia|].
           cbn [at_distance] in Hat'. rewrite He in Hat'.
           apply (Hfirst j q'); [lia|lia|assumption].
        -- intros d q Hd Hat. destruct d as [|d]; [simpl in Hd; lia|].
           cbn [at_distance] in Hat. rewrite He in Hat.
           apply (IH d q); [lia|assumption].
      * assert (Hend : closestBee_loop n s None (dist + 1) maxD minD = None)
          by (destruct n; reflexivity).
        rewrite Hend. intros d q Hd Hat. destruct d as [|d]; [simpl in Hd; lia|].
        cbn [at_distance] in Hat. rewrite He in Hat. discriminate.
    + (* nearer than the minimum, a bee here: skipped *)
      destruct (p_entrance (getP p s)) as [e|] eqn:He.
      * specialize (IH e (dist + 1) maxD minD ltac:(lia)).
        destruct (closestBee_loop n s (Some e) (dist + 1) maxD minD) as [b'|].
        -- destruct IH as (d & q & (Hd & Hat & Hne & Hfirst) & Hhead).
           exists (S d), q. split; [|assumption].
           split; [lia|]. split; [cbn [at_distance]; rewrite He; assumption|].
           split; [assumption|].
           intros j q' Hj Hlo Hat'. destruct j as [|j]; [simpl in Hlo; lia|].
           cbn [at_distance] in Hat'. rewrite He in Hat'.
           apply (Hfirst j q'); [lia|lia|assumption].
        -- intros d q Hd Hat. destruct d as [|d]; [simpl in Hd; lia|].
           cbn [at_distance] in Hat. rewrite He in Hat.
           apply (IH d q); [lia|assumption].
      * assert (Hend : closestBee_loop n s None (dist + 1) maxD minD = None)
          by (destruct n; reflexivity).
        rewrite Hend. intros d q Hd Hat. destruct d as [|d]; [simpl in Hd; lia|].
        cbn [at_distance] in Hat. rewrite He in Hat. discriminate.
Qed.

Lemma first_hit_unique s p lo hi d q d' q' :
  first_hit s p lo hi d q -> first_hit s p lo hi d' q' -> d = d' /\ q = q'.
Proof.
  intros (Hd & Hat & Hne & Hfirst) (Hd' & Hat' & Hne' & Hfirst').
  assert (d = d') as <-.
  { destruct (Nat.lt_trichotomy d d') as [Hlt|[Heq|Hgt]]; [|assumption|].
    - exfalso. apply Hne. apply (Hfirst' d q); [assumption|lia|assumption].
    - exfalso. apply Hne'. apply (Hfirst d' q'); [assumption|lia|assumption]. }
  split; [reflexivity|congruence].
Qed.

Lemma getClosestBee_spec s p maxD minD :
  match Place_getClosestBee p maxD minD s with
  | Some b =>
      exists d q, first_hit s p minD maxD d q /\ head (Place_getBees q s) = Some b
  | None =>
      forall d q, minD <= Z.of_nat d <= maxD ->
                  at_distance s p d = Some q -> Place_getBees q s = []
  end.
Proof.
  unfold Place_getClosestBee.
  pose proof (closestBee_loop_spec (Z.to_nat (maxD + 1)) s p 0 maxD minD) as H.
  rewrite !Z.sub_0_r in H. apply H. lia.
Qed.

(** C9. [getClosestBee(maxDistance, minDistance)] walks the entrance links
    from the place: it returns the first bee of the list (the earliest
    arrival) of the nearest place at a distance within
    [minDistance, maxDistance] that holds a bee, and [undefined] exactly when
    no place of the chain within that range holds one.  With a range of 3, a
    bee at distance 3 is returned when the nearer places are free of bees,
    and nothing is returned when the places up to distance 3 are free,
    whatever the place at distance 4 holds. *)
Theorem C9_getClosestBee (s : State) (p : nat) (maxD minD : Z) :
  (forall b, Place_getClosestBee p maxD minD s = Some b <->
     exists d q, first_hit s p minD maxD d q /\
                 head (Place_getBees q s) = Some b) /\
  (Place_getClosestBee p maxD minD s = None <->
     forall d q, minD <= Z.of_nat d <= maxD ->
                 at_distance s p d = Some q -> Place_getBees q s = []) /\
  (forall q b l,
     at_distance s p 3 = Some q -> Place_getBees q s = b :: l ->
     (forall j q', (j < 3)%nat -> at_distance s p j = Some q' ->
                   Place_getBees q' s = []) ->
     Place_getClosestBee p 3 0 s = Some b) /\
  ((forall j q', (j <= 3)%nat -> at_distance s p j = Some q' ->
                 Place_getBees q' s = []) ->
   Place_getClosestBee p 3 0 s = None).
Proof.
  assert (Hsome : forall hi lo b,
            (exists d q, first_hit s p lo hi d q /\
                         head (Place_getBees q s) = Some b) ->
            Place_getClosestBee p hi lo s = Some b).
  { intros hi lo b (d & q & Hhit & Hhead).
    pose proof (getClosestBee_spec s p hi lo) as H.
    destruct (Place_getClosestBee p hi lo s) as [b'|].
    - destruct H as (d' & q' & Hhit' & Hhead').
      destruct (first_hit_unique _ _ _ _ _ _ _ _ Hhit Hhit') as [<- <-].
      congruence.
    - destruct Hhit as (Hd & Hat & Hne & _). exfalso. apply Hne.
      apply (H d q); assumption. }
  assert (Hnone : forall hi lo,
            (forall d q, lo <= Z.of_nat d <= hi ->
                         at_distance s p d = Some q -> Place_getBees q s = []) ->
            Place_getClosestBee p hi lo s = None).
  { intros hi lo Hall.
    pose proof (getClosestBee_spec s p hi lo) as H.
    destruct (Place_getClosestBee p hi lo s) as [b'|]; [|reflexivity].
    destruct H as (d & q & (Hd & Hat & Hne & _) & _).
    exfalso. apply Hne. apply (Hall d q); assumption. }
  split; [|split; [|split]].
  - intros b. split.
    + intros Hres. pose proof (getClosestBee_spec s p maxD minD) as H.
      rewrite Hres in H. exact H.
    + apply Hsome.
  - split.
    + intros Hres. pose proof (getClosestBee_spec s p maxD minD) as H.
      rewrite Hres in H. exact H.
    + apply Hnone.
  - intros q b l Hat Hb Hfree. apply Hsome. exists 3%nat, q.
    split; [|rewrite Hb; reflexivity].
    split; [simpl; lia|]. split; [assumption|]. split; [rewrite Hb; discriminate|].
    intros j q' Hj _ Hat'. apply (Hfree j q'); assumption.
  - intros Hfree. apply Hnone. intros d q Hd Hat.
    apply (Hfree d q); [lia|assumption].
Qed.

(** ** C6: [AntColony.applyBoost] *)

(** What [applyBoost] does, case by case, on a place. *)
Lemma applyBoost_spec boost p s :
  (boost_missing (boosts_get boost s) = true ->
     AntColony_applyBoost boost (VPlace p) s = Ok (Some str_no_boost) s) /\
  (boost_missing (boosts_get boost s) = false -> Place_getAnt p s = None ->
     AntColony_applyBoost boost (VPlace p) s = Ok (Some str_no_ant) s) /\
  (forall a, boost_missing (boosts_get boost s) = false ->
     Place_getAnt p s = Some a ->
     AntColony_applyBoost boost (VPlace p) s
       = Ok None (updA a (with_a_boost (Some boost)) s)).
Proof.
  unfold AntColony_applyBoost, bind, gets, ret, on_place, Ant_setBoost, modify.
  split; [|split].
  - intros ->. reflexivity.
  - intros -> ->. reflexivity.
  - intros a -> ->. reflexivity.
Qed.

(** For a name that [Object.prototype] does not define, the guard of
    [applyBoost] is the inventory test: the name is absent or its count is
    below 1. *)
Lemma boost_missing_own boost s :
  boost ∉ JS.Object_prototype_keys ->
  boost_missing (boosts_get boost s) = true <->
  (boosts s !! boost = None \/
   exists n, boosts s !! boost = Some (BNum n) /\ n < 1).
Proof.
  intros Hown. unfold boosts_get.
  destruct (boosts s !! boost) as [[n|]|] eqn:E; cbn [boost_missing].
  - rewrite Z.ltb_lt. split.
    + intros H. right. exists n. auto.
    + intros [H|(m & [= ->] & H)]; [discriminate|assumption].
  - split; [discriminate|]. intros [H|(m & H & _)]; discriminate.
  - rewrite bool_decide_eq_false_2 by assumption. cbn [boost_missing].
    split; auto.
Qed.

(** The colony of [demo0] with a Thrower deployed at "0,4" (place 6). *)
Definition demo1 : State :=
  Eval vm_compute in run (AntGame_deployAnt "thrower" "0,4") demo0.

(** C6, at the failing input.  The inventory has no count for
    "constructor", yet [applyBoost] does not answer 'no such boost': the
    lookup finds the property every object inherits, and the Thrower at
    the place is given "constructor" as its boost. *)
Theorem C6_inherited_name_accepted :
  boosts demo1 !! "constructor"%string = None /\
  Place_getAnt 6 demo1 = Some 0%nat /\
  AntColony_applyBoost "constructor" (VPlace 6) demo1
    = Ok None (updA 0 (with_a_boost (Some "constructor"%string)) demo1) /\
  AntGame_boostAnt "constructor" "0,4" demo1
    = Ok None (updA 0 (with_a_boost (Some "constructor"%string)) demo1).
Proof. vm_compute. repeat split; reflexivity. Qed.

(** ** C7: the coordinates of a command *)

Lemma deployAnt_unknown_type antType coords s :
  new_ant_of_type antType = None ->
  AntGame_deployAnt antType coords s = Ok (Some str_unknown_ant) s.
Proof. intros H. unfold AntGame_deployAnt. rewrite H. reflexivity. Qed.

(** [removeAnt] answers 'illegal location' whenever the coordinates do not
    resolve to a place. *)
Lemma removeAnt_illegal coords s :
  (forall p, lookup_place coords s <> Ok (VPlace p) s) ->
  AntGame_removeAnt coords s = Ok (Some str_illegal) s.
Proof.
  intros Hno. unfold AntGame_removeAnt, try_catch, bind.
  unfold lookup_place, bind, gets, get_member in *.
  destruct (array_get VRow (AntColony_getPlaces s) _) as [|p|r| |]; try reflexivity.
  - unfold ret in *.
    destruct (array_get VPlace r _) as [|p|r'| |]; try reflexivity.
    exfalso. apply (Hno p). reflexivity.
  - destruct (bool_decide _); reflexivity.
Qed.

(** A coordinate lookup either raises or returns, and changes nothing. *)
Lemma lookup_place_cases coords s :
  lookup_place coords s = Throw s \/ exists v, lookup_place coords s = Ok v s.
Proof.
  unfold lookup_place, bind, gets, get_member.
  destruct (array_get VRow (AntColony_getPlaces s) _);
    try destruct (bool_decide _); unfold ret, throw;
    first [left; reflexivity | right; eexists; reflexivity].
Qed.

(** [boostAnt] at coordinates that do not resolve to a place: 'illegal
    location' when the lookup raises (no such row); when the lookup returns
    (the row exists, the column does not), 'no such boost' for a boost that
    the colony lacks and 'illegal location' for one it has. *)
Lemma boostAnt_no_row boost coords s :
  lookup_place coords s = Throw s ->
  AntGame_boostAnt boost coords s = Ok (Some str_illegal) s.
Proof.
  intros H. unfold AntGame_boostAnt, try_catch, bind. rewrite H. reflexivity.
Qed.

Lemma boostAnt_no_column boost coords s v :
  lookup_place coords s = Ok v s -> (forall p, v <> VPlace p) ->
  AntGame_boostAnt boost coords s
  = Ok (Some (if boost_missing (boosts_get boost s) then str_no_boost
              else str_illegal)) s.
Proof.
  intros H Hv. unfold AntGame_boostAnt, try_catch, bind. rewrite H.
  unfold AntColony_applyBoost, bind, gets.
  destruct (boost_missing (boosts_get boost s)); [reflexivity|].
  destruct v as [|p|r| |]; try reflexivity. exfalso. apply (Hv p). reflexivity.
Qed.

(** [deployAnt] likewise, once the ant [ant] has been created (state [s1]):
    'not enough food' comes before the place is looked at. *)
Lemma deployAnt_no_row antType coords mk ant s s1 :
  new_ant_of_type antType = Some mk -> mk s = Ok ant s1 ->
  lookup_place coords s1 = Throw s1 ->
  AntGame_deployAnt antType coords s = Ok (Some str_illegal) s1.
Proof.
  intros Hmk Hant H. unfold AntGame_deployAnt. rewrite Hmk.
  unfold bind at 1. rewrite Hant. unfold try_catch, bind. rewrite H. reflexivity.
Qed.

Lemma deployAnt_no_column antType coords mk ant s s1 v :
  new_ant_of_type antType = Some mk -> mk s = Ok ant s1 ->
  lookup_place coords s1 = Ok v s1 -> (forall p, v <> VPlace p) ->
  AntGame_deployAnt antType coords s
  = Ok (Some (if Ant_getFoodCost ant s1 <=? food s1 then str_illegal
              else str_no_food)) s1.
Proof.
  intros Hmk Hant H Hv. unfold AntGame_deployAnt. rewrite Hmk.
  unfold bind at 1. rewrite Hant. unfold try_catch, bind. rewrite H.
  unfold AntColony_deployAnt, bind, gets.
  destruct (Ant_getFoodCost ant s1 <=? food s1); [|reflexivity].
  destruct v as [|p|r| |]; try reflexivity. exfalso. apply (Hv p). reflexivity.
Qed.

(** The colony of [demo0] after two Throwers have been deployed: 2 food is
    left. *)
Definition demo2 : State :=
  Eval vm_compute in
    run (AntGame_deployAnt "thrower" "0,1") (run (AntGame_deployAnt "thrower" "0,0") demo0).

(** C7, at the failing inputs.  Column 99 does not exist in the tunnel of
    five cells.  With 2 food left, deploying a Thrower (cost 4) there is
    answered 'not enough food'; with 10 food the same command is answered
    'illegal location'.  Boosting there with BugSpray, of which the colony
    has none, is answered 'no such boost'; with FlyingLeaf it is 'illegal
    location'. *)
Theorem C7_out_of_range_column :
  food demo2 = 2 /\
  (exists s', AntGame_deployAnt "thrower" "0,99" demo2 = Ok (Some str_no_food) s') /\
  (exists s', AntGame_deployAnt "thrower" "0,99" demo0 = Ok (Some str_illegal) s') /\
  AntGame_boostAnt "BugSpray" "0,99" demo0 = Ok (Some str_no_boost) demo0 /\
  AntGame_boostAnt "FlyingLeaf" "0,99" demo0 = Ok (Some str_illegal) demo0.
Proof.
  split; [reflexivity|].
  split; [eexists; vm_compute; reflexivity|].
  split; [eexists; vm_compute; reflexivity|].
  split; vm_compute; reflexivity.
Qed.

(** ** Reasoning about method calls *)

(** [wp m Q E s]: started in [s], the call [m] returns a value and a state
    that satisfy [Q], or raises in a state that satisfies [E]. *)
Definition wp {A} (m : M A) (Q : A -> State -> Prop) (E : State -> Prop)
    (s : State) : Prop :=
  match m s with
  | Ok a s' => Q a s'
  | Throw s' => E s'
  | Diverge => True
  end.

Lemma wp_ret {A} (a : A) Q E s : Q a s -> wp (ret a) Q E s.
Proof. intros H. exact H. Qed.

Lemma wp_throw {A} (Q : A -> State -> Prop) E s : E s -> wp throw Q E s.
Proof. intros H. exact H. Qed.

Lemma wp_gets {A} (f : State -> A) Q E s : Q (f s) s -> wp (gets f) Q E s.
Proof. intros H. exact H. Qed.

Lemma wp_modify (f : State -> State) Q E s : Q tt (f s) -> wp (modify f) Q E s.
Proof. intros H. exact H. Qed.

Lemma wp_bind {A B} (m : M A) (k : A -> M B) Q E s :
  wp m (fun a s' => wp (k a) Q E s') E s -> wp (bind m k) Q E s.
Proof.
  unfold wp, bind. destruct (m s) as [a s'| s' |]; intros H; exact H.
Qed.

Lemma wp_mono {A} (m : M A) (Q Q' : A -> State -> Prop) (E E' : State -> Prop) s :
  wp m Q E s ->
  (forall a s', Q a s' -> Q' a s') ->
  (forall s', E s' -> E' s') ->
  wp m Q' E' s.
Proof.
  unfold wp. destruct (m s) as [a s'| s' |]; intros H HQ HE; auto.
Qed.

Lemma wp_conj {A} (m : M A) (Q1 Q2 : A -> State -> Prop) (E1 E2 : State -> Prop) s :
  wp m Q1 E1 s -> wp m Q2 E2 s ->
  wp m (fun a s' => Q1 a s' /\ Q2 a s') (fun s' => E1 s' /\ E2 s') s.
Proof.
  unfold wp. destruct (m s) as [a s'| s' |]; intros H1 H2; auto.
Qed.

Lemma wp_try_catch {A} (m h : M A) Q E s :
  wp m Q (fun s' => wp h Q E s') s -> wp (try_catch m h) Q E s.
Proof.
  unfold wp, try_catch. destruct (m s) as [a s'| s' |]; intros H; exact H.
Qed.

(** A loop that keeps [I], also when it is left by an exception. *)
Lemma wp_forEach {A} (l : list A) (f : A -> M unit) (I : State -> Prop) s :
  (forall x s', x ∈ l -> I s' -> wp (f x) (fun _ => I) I s') ->
  I s -> wp (forEach l f) (fun _ => I) I s.
Proof.
  revert s. induction l as [|x l IH]; intros s Hf HI.
  - exact HI.
  - cbn [forEach]. apply wp_bind.
    eapply wp_mono; [apply Hf; [apply list_elem_of_here|exact HI]| |auto].
    intros u s' HI'. apply IH; [|exact HI'].
    intros y s'' Hy. apply Hf. apply list_elem_of_further. exact Hy.
Qed.

(** What [run] ends in, from what [wp] says. *)
Lemma wp_run {A} (m : M A) (I : State -> Prop) s :
  I s -> wp m (fun _ => I) I s -> I (run m s).
Proof.
  unfold wp, run. destruct (m s) as [a s'| s' |]; intros H0 H; auto.
Qed.

(** ** Well-formed states *)

(** The occupant of a slot knows its place, is of the kind of the slot, and
    is an allocated ant. *)
Definition slots_ok (s : State) : Prop :=
  forall p a,
    (p_ant (getP p s) = Some a ->
       a_place (getA a s) = Some p /\ a_kind (getA a s) <> Guard /\
       (a < next_ant s)%nat) /\
    (p_guard (getP p s) = Some a ->
       a_place (getA a s) = Some p /\ a_kind (getA a s) = Guard /\
       (a < next_ant s)%nat).

(** The cells of the board are distinct allocated places; the hive is not
    one of them, is no entrance of the colony, and no link leads to it. *)
Definition board_ok (s : State) : Prop :=
  NoDup (concat (grid s)) /\
  (forall p, p ∈ concat (grid s) -> (p < next_place s)%nat /\ p <> hive s) /\
  (hive s ∉ beeEntrances s) /\
  (hive s < next_place s)%nat /\
  (forall p, p_entrance (getP p s) <> Some (hive s) /\
             p_exit (getP p s) <> Some (hive s)).

(** No ant stands in the hive or has it for a stomach. *)
Definition ants_ok (s : State) : Prop :=
  forall a, a_place (getA a s) <> Some (hive s) /\
            a_stomach (getA a s) <> Some (hive s).

(** The hive holds the bees [L], each once and nowhere else; the bees of
    every place and of every wave are allocated, and no bee is in two
    waves. *)
Definition hive_ok (L : list nat) (s : State) : Prop :=
  p_bees (getP (hive s) s) = L /\
  NoDup L /\
  (forall p b, b ∈ p_bees (getP p s) -> (b < next_bee s)%nat) /\
  (forall p b, b ∈ L -> p <> hive s -> b ∉ p_bees (getP p s)) /\
  (forall t w b, waves s !! t = Some w -> b ∈ w -> (b < next_bee s)%nat) /\
  (forall t t' w w' b, waves s !! t = Some w -> waves s !! t' = Some w' ->
                       t <> t' -> b ∈ w -> b ∉ w').

Definition inv (L : list nat) (s : State) : Prop :=
  slots_ok s /\ board_ok s /\ ants_ok s /\ hive_ok L s.

(** The invariant of the code that creates no bee and schedules no wave:
    the hive is [H], [N] bees exist and the waves are [W]. *)
Definition Inv (H N : nat) (W : gmap Z (list nat)) (L : list nat) (s : State) : Prop :=
  inv L s /\ next_bee s = N /\ hive s = H /\ waves s = W.

(** Writing a field of an ant other than its kind, place and stomach. *)
Lemma inv_updA L a f s :
  (forall A, a_kind (f A) = a_kind A /\ a_place (f A) = a_place A /\
             a_stomach (f A) = a_stomach A) ->
  inv L s -> inv L (updA a f s).
Proof.
  intros Hf (Hs & Hb & Ha & Hh).
  assert (Hget : forall c, a_kind (getA c (updA a f s)) = a_kind (getA c s) /\
                           a_place (getA c (updA a f s)) = a_place (getA c s) /\
                           a_stomach (getA c (updA a f s)) = a_stomach (getA c s)).
  { intros c. rewrite getA_updA. destruct (decide (a = c)) as [->|]; [apply Hf|auto]. }
  split; [|split; [|split]].
  - intros p c. destruct (Hget c) as (-> & -> & _). apply (Hs p c).
  - exact Hb.
  - intros c. destruct (Hget c) as (_ & -> & ->). apply (Ha c).
  - exact Hh.
Qed.

Lemma Inv_updA H N W L a f s :
  (forall A, a_kind (f A) = a_kind A /\ a_place (f A) = a_place A /\
             a_stomach (f A) = a_stomach A) ->
  Inv H N W L s -> Inv H N W L (updA a f s).
Proof. intros Hf [H1 H2]. split; [apply inv_updA; assumption|exact H2]. Qed.

(** Emptying a slot. *)
Lemma inv_clear_ant L p s : inv L s -> inv L (updP p (with_ant None) s).
Proof.
  intros (Hs & Hb & Ha & Hh). split; [|split; [|split]].
  - intros q c. rewrite getP_updP. destruct (decide (p = q)) as [->|].
    + cbn [p_ant p_guard with_ant]. split; [discriminate|apply (Hs q c)].
    + apply (Hs q c).
  - destruct Hb as (H1 & H2 & H3 & H4 & H5). repeat (split; [assumption|]).
    intros q. rewrite getP_updP. destruct (decide (p = q)) as [->|]; apply H5.
  - exact Ha.
  - destruct Hh as (H1 & H2 & H3 & H4 & H5 & H6).
    assert (Hbees : forall q, p_bees (getP q (updP p (with_ant None) s))
                              = p_bees (getP q s)).
    { intros q. rewrite getP_updP. destruct (decide (p = q)) as [->|]; reflexivity. }
    split; [rewrite Hbees; exact H1|]. split; [exact H2|].
    split; [intros q b; rewrite Hbees; apply H3|].
    split; [intros q b; rewrite Hbees; apply H4|].
    split; assumption.
Qed.

Lemma inv_clear_guard L p s : inv L s -> inv L (updP p (with_guard None) s).
Proof.
  intros (Hs & Hb & Ha & Hh). split; [|split; [|split]].
  - intros q c. rewrite getP_updP. destruct (decide (p = q)) as [->|].
    + cbn [p_ant p_guard with_guard]. split; [apply (Hs q c)|discriminate].
    + apply (Hs q c).
  - destruct Hb as (H1 & H2 & H3 & H4 & H5). repeat (split; [assumption|]).
    intros q. rewrite getP_updP. destruct (decide (p = q)) as [->|]; apply H5.
  - exact Ha.
  - destruct Hh as (H1 & H2 & H3 & H4 & H5 & H6).
    assert (Hbees : forall q, p_bees (getP q (updP p (with_guard None) s))
                              = p_bees (getP q s)).
    { intros q. rewrite getP_updP. destruct (decide (p = q)) as [->|]; reflexivity. }
    split; [rewrite Hbees; exact H1|]. split; [exact H2|].
    split; [intros q b; rewrite Hbees; apply H3|].
    split; [intros q b; rewrite Hbees; apply H4|].
    split; assumption.
Qed.

(** Replacing the bees of a place other than the hive by allocated bees
    that are not in the hive. *)
Lemma inv_set_bees L p (g : list nat -> list nat) s :
  inv L s -> p <> hive s ->
  (forall b, b ∈ g (p_bees (getP p s)) -> (b < next_bee s)%nat /\ b ∉ L) ->
  inv L (updP p (fun P => with_bees (g (p_bees P)) P) s).
Proof.
  intros (Hs & Hb & Ha & Hh) Hp Hl. split; [|split; [|split]].
  - intros q c. rewrite getP_updP. destruct (decide (p = q)) as [->|]; apply (Hs _ c).
  - destruct Hb as (H1 & H2 & H3 & H4 & H5). repeat (split; [assumption|]).
    intros q. rewrite getP_updP. destruct (decide (p = q)) as [->|]; apply H5.
  - exact Ha.
  - destruct Hh as (H1 & H2 & H3 & H4 & H5 & H6).
    split; [|split; [exact H2|split; [|split; [|split; assumption]]]].
    + change (hive (updP p _ s)) with (hive s).
      rewrite getP_updP_ne by assumption. exact H1.
    + intros q b. rewrite getP_updP. destruct (decide (p = q)) as [->|].
      * cbn [p_bees with_bees]. intros Hin. apply (Hl b Hin).
      * apply H3.
    + intros q b HbL Hq. rewrite getP_updP. destruct (decide (p = q)) as [->|].
      * cbn [p_bees with_bees]. intros Hin. apply (Hl b Hin). exact HbL.
      * apply H4; assumption.
Qed.

(** ** The calls keep the invariant *)

Lemma indexOf_Some b (l : list nat) (i : nat) :
  indexOf b l = Some i -> l !! i = Some b.
Proof.
  revert i. induction l as [|x l IH]; intros i; cbn [indexOf]; [discriminate|].
  destruct (decide (x = b)) as [->|Hne].
  - intros [= <-]. reflexivity.
  - destruct (indexOf b l) as [j|]; cbn; [|discriminate].
    intros [= <-]. cbn. apply IH. reflexivity.
Qed.

Lemma indexOf_None b l : indexOf b l = None -> b ∉ l.
Proof.
  induction l as [|x l IH]; cbn [indexOf]; intros H.
  - apply not_elem_of_nil.
  - destruct (decide (x = b)) as [->|Hne]; [discriminate|].
    destruct (indexOf b l) as [j|]; cbn in H; [discriminate|].
    apply not_elem_of_cons. split; [congruence|]. apply IH. reflexivity.
Qed.

Lemma indexOf_elem b l i : indexOf b l = Some i -> b ∈ l.
Proof. intros H. eapply list_elem_of_lookup_2, indexOf_Some, H. Qed.

(** In a list without duplicates, deleting the first occurrence of a bee
    removes the bee. *)
Lemma NoDup_delete_indexOf b (l : list nat) (i : nat) :
  NoDup l -> indexOf b l = Some i -> b ∉ delete i l.
Proof.
  revert i. induction l as [|x l IH]; intros i Hnd; cbn [indexOf]; [discriminate|].
  apply NoDup_cons in Hnd as [Hx Hnd].
  destruct (decide (x = b)) as [->|Hne].
  - intros [= <-]. exact Hx.
  - destruct (indexOf b l) as [j|] eqn:E; cbn; [|discriminate].
    intros [= <-]. cbn. apply not_elem_of_cons. split; [congruence|].
    apply IH; [assumption|reflexivity].
Qed.

Lemma elem_of_delete_other (x b : nat) (l : list nat) (i : nat) :
  l !! i = Some b -> x <> b -> x ∈ l -> x ∈ delete i l.
Proof.
  revert i. induction l as [|y l IH]; intros i Hi Hne Hin; [inversion Hin|].
  destruct i as [|i]; cbn in *.
  - injection Hi as ->. apply elem_of_cons in Hin as [->|Hin]; [congruence|assumption].
  - apply elem_of_cons in Hin as [->|Hin]; [apply list_elem_of_here|].
    apply list_elem_of_further. apply IH; assumption.
Qed.

Lemma Inv_removeAnt H N W L p s E :
  Inv H N W L s -> wp (Place_removeAnt p) (fun _ => Inv H N W L) E s.
Proof.
  intros [HI HN]. unfold wp, Place_removeAnt.
  destruct (p_guard (getP p s)).
  - split; [apply inv_clear_guard; assumption|exact HN].
  - split; [apply inv_clear_ant; assumption|exact HN].
Qed.

Lemma Inv_removeBee H N W L p b s E :
  Inv H N W L s -> p <> H \/ b ∉ L ->
  wp (Place_removeBee p b) (fun _ => Inv H N W L) E s.
Proof.
  intros [HI HN] Hside. rewrite <- (proj1 (proj2 HN)) in Hside.
  unfold wp, Place_removeBee.
  destruct (indexOf b (p_bees (getP p s))) as [i|] eqn:Hi; [|split; assumption].
  split; [|exact HN].
  change (inv L (updP p (fun P => with_bees (delete i (p_bees P)) P) s)).
  assert (Hp : p <> hive s).
  { destruct Hside as [Hp|Hb]; [assumption|]. intros ->.
    apply Hb. destruct HI as (_ & _ & _ & (H1 & _)). rewrite <- H1.
    eapply indexOf_elem, Hi. }
  apply (inv_set_bees L p (delete i) s HI Hp).
  intros x Hx. apply list_elem_of_delete_inv in Hx.
  destruct HI as (_ & _ & _ & (H1 & H2 & H3 & H4 & _)).
  split; [apply (H3 p x Hx)|]. intros HxL. apply (H4 p x HxL Hp Hx).
Qed.

Lemma Inv_addBee H N W L p b s E :
  Inv H N W L s -> p <> H -> b ∉ L -> (b < N)%nat ->
  wp (Place_addBee p b) (fun _ => Inv H N W L) E s.
Proof.
  intros [HI HN] Hp Hb Hlt. rewrite <- (proj1 (proj2 HN)) in Hp.
  rewrite <- (proj1 HN) in Hlt.
  unfold wp, Place_addBee, modify.
  split; [|exact HN].
  change (inv L (updP p (fun P => with_bees ((fun l => l ++ [b]) (p_bees P)) P) s)).
  apply (inv_set_bees L p (fun l => l ++ [b]) s HI Hp).
  intros x Hx. apply elem_of_app in Hx as [Hx|Hx].
  - destruct HI as (_ & _ & _ & (H1 & H2 & H3 & H4 & _)).
    split; [apply (H3 p x Hx)|]. intros HxL. apply (H4 p x HxL Hp Hx).
  - apply list_elem_of_singleton in Hx as ->. split; [lia|assumption].
Qed.

(** A bee listed in a place other than the hive is allocated and not in
    the hive. *)
Lemma bee_outside_hive H N W L p b s :
  Inv H N W L s -> p <> H -> b ∈ p_bees (getP p s) -> (b ∉ L) /\ (b < N)%nat.
Proof.
  intros [(_ & _ & _ & (H1 & H2 & H3 & H4 & _)) (HN & HH & _)] Hp Hb.
  rewrite <- HH in Hp. split.
  - intros HbL. apply (H4 p b HbL Hp Hb).
  - rewrite <- HN. apply (H3 p b Hb).
Qed.

(** The chain of entrances of a place other than the hive never reaches
    the hive. *)
Lemma at_distance_not_hive L s d : forall p q,
  inv L s -> p <> hive s -> at_distance s p d = Some q -> q <> hive s.
Proof.
  induction d as [|d IH]; intros p q HI Hp Hat; cbn [at_distance] in Hat.
  - injection Hat as <-. assumption.
  - destruct (p_entrance (getP p s)) as [e|] eqn:He; [|discriminate].
    apply (IH e q HI); [|assumption].
    destruct HI as (_ & (_ & _ & _ & _ & Hl) & _). intros ->.
    apply (proj1 (Hl p)). assumption.
Qed.

Lemma closest_outside_hive H N W L p hi lo t s :
  Inv H N W L s -> p <> H -> Place_getClosestBee p hi lo s = Some t ->
  (t ∉ L) /\ (t < N)%nat.
Proof.
  intros HI Hp Ht. pose proof (getClosestBee_spec s p hi lo) as Hs.
  rewrite Ht in Hs. destruct Hs as (d & q & (_ & Hat & _ & _) & Hhead).
  apply (bee_outside_hive H N W L q t s HI).
  - rewrite <- (proj1 (proj2 (proj2 HI))).
    apply (at_distance_not_hive L s d p q); [apply HI| |assumption].
    rewrite (proj1 (proj2 (proj2 HI))). assumption.
  - apply head_Some_elem_of. exact Hhead.
Qed.

Ltac wp_go :=
  repeat (cbv beta;
          lazymatch goal with
          | |- wp (bind _ _) _ _ _ => apply wp_bind
          | |- wp (ret _) _ _ _ => apply wp_ret
          | |- wp throw _ _ _ => apply wp_throw
          | |- wp (gets _) _ _ _ => apply wp_gets
          | |- wp (modify _) _ _ _ => apply wp_modify
          end).

Lemma Inv_Bee_reduceArmor H N W L b amount s :
  Inv H N W L s -> b ∉ L ->
  wp (Bee_reduceArmor b amount) (fun _ => Inv H N W L) (Inv H N W L) s.
Proof.
  intros HI Hb. unfold Bee_reduceArmor, Place_removeInsect_bee. wp_go.
  destruct (_ <=? 0); wp_go; [|exact HI].
  destruct (b_place _) as [p|]; wp_go; [|exact HI].
  eapply wp_mono; [apply (Inv_removeBee H N W L p b); [exact HI|right; exact Hb]| |].
  - intros u s' HI'. wp_go. exact HI'.
  - intros s' HI'. exact HI'.
Qed.

Lemma Inv_Insect_reduceArmor_ant H N W L a amount s :
  Inv H N W L s ->
  wp (Insect_reduceArmor_ant a amount) (fun _ => Inv H N W L) (Inv H N W L) s.
Proof.
  intros HI. unfold Insect_reduceArmor_ant, Place_removeInsect_ant. wp_go.
  assert (HI' : Inv H N W L (updA a (fun A => with_a_armor (JS.sub (a_armor A) amount) A) s))
    by (apply Inv_updA; [intros A; auto|exact HI]).
  destruct (_ <=? 0); wp_go; [|exact HI'].
  destruct (a_place _) as [p|]; wp_go; [|exact HI'].
  eapply wp_mono; [apply (Inv_removeAnt H N W L p); exact HI'| |].
  - intros u s' HI''. wp_go. exact HI''.
  - intros s' HI''. exact HI''.
Qed.

Lemma Inv_spray_loop H N W L p n : forall s,
  Inv H N W L s -> p <> H ->
  wp (spray_loop n p) (fun _ => Inv H N W L) (Inv H N W L) s.
Proof.
  induction n as [|n IH]; intros s HI Hp; unfold wp; cbn [spray_loop].
  - destruct (Place_getClosestBee p 0 0 s); [exact I|exact HI].
  - destruct (Place_getClosestBee p 0 0 s) as [t|] eqn:Ht; [|exact HI].
    destruct (closest_outside_hive H N W L p 0 0 t s HI Hp Ht) as [HtL _].
    change (wp (Bee_reduceArmor t 10 ;;; spray_loop n p)
              (fun _ => Inv H N W L) (Inv H N W L) s).
    apply wp_bind.
    eapply wp_mono; [apply (Inv_Bee_reduceArmor H N W L t 10 s HI HtL)| |auto].
    intros u s' HI'. apply IH; assumption.
Qed.

Lemma Inv_ant_place H N W L a p s :
  Inv H N W L s -> a_place (getA a s) = Some p -> p <> H.
Proof.
  intros [(_ & _ & Ha & _) (_ & HH & _)] Hp ->. apply (proj1 (Ha a)).
  rewrite Hp, HH. reflexivity.
Qed.

Lemma Inv_ant_stomach H N W L a sp s :
  Inv H N W L s -> a_stomach (getA a s) = Some sp -> sp <> H.
Proof.
  intros [(_ & _ & Ha & _) (_ & HH & _)] Hp ->. apply (proj2 (Ha a)).
  rewrite Hp, HH. reflexivity.
Qed.

Lemma Inv_leaf_act H N W L a s :
  Inv H N W L s -> wp (ThrowerAnt_act a) (fun _ => Inv H N W L) (Inv H N W L) s.
Proof.
  intros HI. unfold ThrowerAnt_act, bug_spray. wp_go.
  destruct (negb _); wp_go.
  - destruct (a_place (getA a s)) as [p|] eqn:Hp; wp_go; [|exact HI].
    pose proof (Inv_ant_place H N W L a p s HI Hp) as HpH.
    destruct (Place_getClosestBee p _ 0 s) as [t|] eqn:Ht; wp_go; [|exact HI].
    destruct (closest_outside_hive H N W L p _ 0 t s HI HpH Ht) as [HtL _].
    eapply wp_mono; [apply (Inv_Bee_reduceArmor H N W L t 1 s HI HtL)| |auto].
    intros u s1 HI1. wp_go.
    assert (Hstatus : forall st s', Inv H N W L s' ->
              wp (Bee_setStatus t st) (fun _ => Inv H N W L) (Inv H N W L) s')
      by (intros st s' HI'; exact HI').
    assert (Hclear : forall s', Inv H N W L s' ->
              Inv H N W L (updA a (with_a_boost None) s'))
      by (intros s' HI'; apply Inv_updA; [intros A; auto|exact HI']).
    destruct (has_boost _ "StickyLeaf"); destruct (has_boost _ "IcyLeaf"); wp_go;
      apply Hclear; exact HI1.
  - destruct (a_place (getA a s)) as [p|] eqn:Hp; wp_go; [|exact HI].
    pose proof (Inv_ant_place H N W L a p s HI Hp) as HpH.
    eapply wp_mono; [apply (Inv_spray_loop H N W L p _ s HI HpH)| |auto].
    intros u s1 HI1. wp_go.
    eapply wp_mono; [apply (Inv_Insect_reduceArmor_ant H N W L a 10 s1 HI1)| |auto].
    intros u' s2 HI2. wp_go. exact HI2.
Qed.

Lemma Inv_EaterAnt_act H N W L a s :
  Inv H N W L s -> wp (EaterAnt_act a) (fun _ => Inv H N W L) (Inv H N W L) s.
Proof.
  intros HI. unfold EaterAnt_act. wp_go.
  assert (Hset : forall z s', Inv H N W L s' ->
            Inv H N W L (updA a (with_a_turnsEating z) s'))
    by (intros z s' HI'; apply Inv_updA; [intros A; auto|exact HI']).
  destruct (_ =? 0); wp_go; [|destruct (3 <? _); wp_go].
  - destruct (a_place (getA a s)) as [p|] eqn:Hp; wp_go; [|exact HI].
    pose proof (Inv_ant_place H N W L a p s HI Hp) as HpH.
    destruct (Place_getClosestBee p 0 0 s) as [t|] eqn:Ht; wp_go; [|exact HI].
    destruct (closest_outside_hive H N W L p 0 0 t s HI HpH Ht) as [HtL HtN].
    eapply wp_mono;
      [apply (Inv_removeBee H N W L p t s (Inv H N W L) HI); right; exact HtL| |auto].
    intros u s1 HI1. wp_go.
    destruct (a_stomach (getA a s1)) as [sp|] eqn:Hsp; wp_go; [|exact HI1].
    pose proof (Inv_ant_stomach H N W L a sp s1 HI1 Hsp) as HspH.
    eapply wp_mono;
      [apply (Inv_addBee H N W L sp t s1 (Inv H N W L) HI1 HspH HtL HtN)| |auto].
    intros u' s2 HI2. wp_go. apply Hset. exact HI2.
  - destruct (a_stomach (getA a s)) as [sp|] eqn:Hsp; wp_go; [|exact HI].
    pose proof (Inv_ant_stomach H N W L a sp s HI Hsp) as HspH.
    destruct (head _) as [b|]; wp_go.
    + eapply wp_mono;
        [apply (Inv_removeBee H N W L sp b s (Inv H N W L) HI); left; exact HspH| |auto].
      intros u s1 HI1. wp_go. apply Hset. exact HI1.
    + apply Hset. exact HI.
  - apply Hset. exact HI.
Qed.

Lemma Inv_addBoost H N W L boost s :
  Inv H N W L s -> wp (AntColony_addBoost boost) (fun _ => Inv H N W L) (Inv H N W L) s.
Proof.
  intros HI. unfold AntColony_addBoost, wp, modify.
  destruct (boosts_get boost s); exact HI.
Qed.

Lemma Inv_GrowerAnt_act H N W L a s :
  Inv H N W L s -> wp (GrowerAnt_act a) (fun _ => Inv H N W L) (Inv H N W L) s.
Proof.
  intros HI. unfold GrowerAnt_act. apply wp_bind.
  unfold wp at 1, Math_random.
  assert (HI' : Inv H N W L (set_random_pos (S (random_pos s)) s)) by exact HI.
  repeat (destruct (Qltb _ _); [first [exact HI' | apply Inv_addBoost; exact HI']|]).
  exact HI'.
Qed.

Lemma Inv_Ant_act H N W L a s :
  Inv H N W L s -> wp (Ant_act a) (fun _ => Inv H N W L) (Inv H N W L) s.
Proof.
  intros HI. unfold Ant_act. wp_go.
  assert (HI' : Inv H N W L (set_acted (a :: acted s) s)) by exact HI.
  destruct (a_kind _).
  - apply Inv_GrowerAnt_act; exact HI'.
  - apply Inv_leaf_act; exact HI'.
  - apply Inv_EaterAnt_act; exact HI'.
  - apply (Inv_leaf_act H N W L a _ HI').
  - exact HI'.
Qed.

Lemma Inv_cough H N W L a s :
  Inv H N W L s -> wp (EaterAnt_cough a) (fun _ => Inv H N W L) (Inv H N W L) s.
Proof.
  intros HI. unfold EaterAnt_cough. wp_go.
  destruct (a_stomach (getA a s)) as [sp|] eqn:Hsp; wp_go; [|exact HI].
  pose proof (Inv_ant_stomach H N W L a sp s HI Hsp) as HspH.
  unfold Place_getBees.
  destruct (head (p_bees (getP sp s))) as [e|] eqn:He; wp_go; [|exact HI].
  destruct (bee_outside_hive H N W L sp e s HI HspH) as [HeL HeN];
    [apply head_Some_elem_of; exact He|].
  eapply wp_mono;
    [apply (Inv_removeBee H N W L sp e s (Inv H N W L) HI); left; exact HspH| |auto].
  intros u s1 HI1. wp_go.
  destruct (a_place (getA a s1)) as [p|] eqn:Hp; wp_go; [|exact HI1].
  pose proof (Inv_ant_place H N W L a p s1 HI1 Hp) as HpH.
  apply (Inv_addBee H N W L p e s1 (Inv H N W L) HI1 HpH HeL HeN).
Qed.

Lemma Inv_EaterAnt_reduceArmor H N W L a amount s :
  Inv H N W L s ->
  wp (EaterAnt_reduceArmor a amount) (fun _ => Inv H N W L) (Inv H N W L) s.
Proof.
  intros HI. unfold EaterAnt_reduceArmor. wp_go.
  assert (HI' : Inv H N W L (updA a (fun A => with_a_armor (JS.sub (a_armor A) amount) A) s))
    by (apply Inv_updA; [intros A; auto|exact HI]).
  destruct (0 <? _); wp_go.
  - destruct (_ =? 1); wp_go; [|exact HI'].
    eapply wp_mono; [apply (Inv_cough H N W L a _ HI')| |auto].
    intros u s1 HI1. wp_go.
    apply Inv_updA; [intros A; auto|exact HI1].
  - assert (Hfirst : wp (if (0 <? a_turnsEating
                               (getA a (updA a (fun A => with_a_armor (JS.sub (a_armor A) amount) A) s)))
                            && (a_turnsEating
                                  (getA a (updA a (fun A => with_a_armor (JS.sub (a_armor A) amount) A) s)) <=? 2)
                         then EaterAnt_cough a else ret tt)
                        (fun _ => Inv H N W L) (Inv H N W L)
                        (updA a (fun A => with_a_armor (JS.sub (a_armor A) amount) A) s)).
    { destruct (_ && _); [apply Inv_cough; exact HI'|exact HI']. }
    eapply wp_mono; [exact Hfirst| |auto].
    intros u s1 HI1. apply Inv_Insect_reduceArmor_ant. exact HI1.
Qed.

Lemma Inv_Ant_reduceArmor H N W L a amount s :
  Inv H N W L s ->
  wp (Ant_reduceArmor a amount) (fun _ => Inv H N W L) (Inv H N W L) s.
Proof.
  intros HI. unfold Ant_reduceArmor. wp_go.
  destruct (a_kind _);
    first [apply Inv_EaterAnt_reduceArmor | apply Inv_Insect_reduceArmor_ant];
    exact HI.
Qed.

Lemma Inv_exit H N W L p q s :
  Inv H N W L s -> p_exit (getP p s) = Some q -> q <> H.
Proof.
  intros [(_ & (_ & _ & _ & _ & Hl) & _) (_ & HH & _)] Hq ->.
  apply (proj2 (Hl p)). rewrite Hq, HH. reflexivity.
Qed.

Lemma Inv_exitBee H N W L p b s :
  Inv H N W L s -> b ∉ L -> (b < N)%nat ->
  wp (Place_exitBee p b) (fun _ => Inv H N W L) (Inv H N W L) s.
Proof.
  intros HI HbL HbN. unfold Place_exitBee. wp_go.
  eapply wp_mono;
    [apply (Inv_removeBee H N W L p b s (Inv H N W L) HI); right; exact HbL| |auto].
  intros u s1 HI1. wp_go. unfold Place_getExit.
  destruct (p_exit (getP p s1)) as [q|] eqn:Hq; wp_go; [|exact HI1].
  apply (Inv_addBee H N W L q b s1 (Inv H N W L) HI1); [|assumption|assumption].
  apply (Inv_exit H N W L p q s1 HI1 Hq).
Qed.

Lemma Inv_Bee_act H N W L b s :
  Inv H N W L s -> b ∉ L -> (b < N)%nat ->
  wp (Bee_act b) (fun _ => Inv H N W L) (Inv H N W L) s.
Proof.
  intros HI HbL HbN. unfold Bee_act, Bee_sting, Bee_setStatus. wp_go.
  destruct (b_place _) as [p|]; wp_go; [|exact HI].
  assert (Hdone : forall (u : unit) s', Inv H N W L s' ->
            wp (modify (updB b (with_b_status None)))
               (fun _ => Inv H N W L) (Inv H N W L) s')
    by (intros u s' HI'; exact HI').
  destruct (Place_getAnt p s) as [a|].
  - destruct (negb _); wp_go; [|exact HI].
    eapply wp_mono; [apply (Inv_Ant_reduceArmor H N W L a _ s HI)| |auto].
    intros r s1 HI1. wp_go. exact HI1.
  - destruct (0 <? _); wp_go; [|exact HI].
    destruct (negb _); wp_go; [|exact HI].
    eapply wp_mono; [apply (Inv_exitBee H N W L p b s HI HbL HbN)| |auto].
    intros u s1 HI1. wp_go. exact HI1.
Qed.

Lemma Inv_Place_act H N W L p s :
  Inv H N W L s -> wp (Place_act p) (fun _ => Inv H N W L) (Inv H N W L) s.
Proof.
  intros HI. unfold Place_act. wp_go.
  destruct (Place_isWater p s); wp_go; [|exact HI].
  assert (Hrm : forall s', Inv H N W L s' ->
            wp (Place_removeAnt p ;;; ret tt) (fun _ => Inv H N W L) (Inv H N W L) s').
  { intros s' HI'. wp_go.
    eapply wp_mono; [apply (Inv_removeAnt H N W L p s' (Inv H N W L) HI')| |auto].
    intros u s1 HI1. wp_go. exact HI1. }
  destruct (p_guard (getP p s)).
  - eapply wp_mono; [apply Hrm; exact HI| |auto].
    intros u s1 HI1. wp_go.
    destruct (negb _); [apply Hrm; exact HI1|wp_go; exact HI1].
  - wp_go. destruct (negb _); [apply Hrm; exact HI|wp_go; exact HI].
Qed.

Lemma getAllBees_elem x s :
  x ∈ AntColony_getAllBees s ->
  exists q, q ∈ concat (grid s) /\ x ∈ p_bees (getP q s).
Proof.
  unfold AntColony_getAllBees, Place_getBees.
  induction (concat (grid s)) as [|q l IH]; cbn; intros Hx.
  - inversion Hx.
  - apply elem_of_app in Hx as [Hx|Hx].
    + exists q. split; [apply list_elem_of_here|assumption].
    + destruct (IH Hx) as (q' & Hq' & Hin). exists q'.
      split; [apply list_elem_of_further|]; assumption.
Qed.

Lemma Inv_grid_cell H N W L p s :
  Inv H N W L s -> p ∈ concat (grid s) -> p <> H.
Proof.
  intros [(_ & (_ & Hg & _) & _) (_ & HH & _)] Hp. rewrite <- HH.
  apply (Hg p Hp).
Qed.

Lemma Inv_antsAct H N W L s :
  Inv H N W L s -> wp AntColony_antsAct (fun _ => Inv H N W L) (Inv H N W L) s.
Proof.
  intros HI. unfold AntColony_antsAct. wp_go.
  apply wp_forEach; [|exact HI].
  intros ant s' _ HI'. unfold GuardAnt_getGuarded. wp_go.
  destruct (decide _); wp_go; [|apply Inv_Ant_act; exact HI'].
  destruct (a_place _) as [p|]; wp_go; [|exact HI'].
  destruct (Place_getGuardedAnt p s') as [g|]; wp_go; [|apply Inv_Ant_act; exact HI'].
  eapply wp_mono; [apply (Inv_Ant_act H N W L g s' HI')| |auto].
  intros u s1 HI1. apply Inv_Ant_act. exact HI1.
Qed.

Lemma Inv_beesAct H N W L s :
  Inv H N W L s -> wp AntColony_beesAct (fun _ => Inv H N W L) (Inv H N W L) s.
Proof.
  intros HI. unfold AntColony_beesAct. wp_go.
  apply wp_forEach; [|exact HI].
  intros b s' Hb HI'.
  destruct (getAllBees_elem b s Hb) as (q & Hq & Hin).
  destruct (bee_outside_hive H N W L q b s HI) as [HbL HbN];
    [apply (Inv_grid_cell H N W L q s HI Hq)|exact Hin|].
  apply Inv_Bee_act; assumption.
Qed.

Lemma Inv_placesAct H N W L s :
  Inv H N W L s -> wp AntColony_placesAct (fun _ => Inv H N W L) (Inv H N W L) s.
Proof.
  intros HI. unfold AntColony_placesAct. wp_go.
  apply wp_forEach; [|exact HI].
  intros p s' _ HI'. apply Inv_Place_act. exact HI'.
Qed.

(** *** Allocation *)

Definition alloc_place (P : PlaceRec) (s : State) : State :=
  set_next_place (S (next_place s))
    (set_places (fun m => <[next_place s := P]> m) s).

Definition alloc_ant (A : AntRec) (s : State) : State :=
  set_next_ant (S (next_ant s))
    (set_ants (fun m => <[next_ant s := A]> m) s).

Lemma getP_alloc_place P s q :
  getP q (alloc_place P s) = if decide (next_place s = q) then P else getP q s.
Proof.
  unfold getP, alloc_place; simpl. destruct (decide (next_place s = q)) as [<-|Hne].
  - rewrite lookup_insert_eq. reflexivity.
  - rewrite lookup_insert_ne by assumption. reflexivity.
Qed.

Lemma getA_alloc_ant A s c :
  getA c (alloc_ant A s) = if decide (next_ant s = c) then A else getA c s.
Proof.
  unfold getA, alloc_ant; simpl. destruct (decide (next_ant s = c)) as [<-|Hne].
  - rewrite lookup_insert_eq. reflexivity.
  - rewrite lookup_insert_ne by assumption. reflexivity.
Qed.

(** A new place without occupants whose exit is not the hive. *)
Lemma inv_alloc_place L w e s :
  inv L s -> e <> Some (hive s) ->
  inv L (alloc_place (mkPlace w e None None None []) s).
Proof.
  intros (Hs & Hb & Ha & Hh) He.
  destruct Hb as (B1 & B2 & B3 & B4 & B5).
  assert (Hne : next_place s <> hive s) by lia.
  split; [|split; [|split]].
  - intros q c. rewrite getP_alloc_place.
    destruct (decide (next_place s = q)) as [<-|].
    + cbn. split; discriminate.
    + apply (Hs q c).
  - split; [exact B1|]. split.
    { intros q Hq. destruct (B2 q Hq) as [Hlt Hqh]. split; [cbn; lia|exact Hqh]. }
    split; [exact B3|]. split; [cbn; lia|].
    intros q. rewrite getP_alloc_place.
    destruct (decide (next_place s = q)) as [<-|]; [|apply B5].
    cbn. split; [discriminate|exact He].
  - exact Ha.
  - destruct Hh as (H1 & H2 & H3 & H4 & H5 & H6).
    split; [|split; [exact H2|split; [|split; [|split; assumption]]]].
    + change (hive (alloc_place _ s)) with (hive s).
      rewrite getP_alloc_place.
      destruct (decide (next_place s = hive s)); [contradiction|exact H1].
    + intros q b. rewrite getP_alloc_place.
      destruct (decide (next_place s = q)) as [<-|]; [|apply H3].
      cbn. intros Hin. inversion Hin.
    + intros q b HbL Hq. rewrite getP_alloc_place.
      destruct (decide (next_place s = q)) as [<-|]; [|apply H4; assumption].
      cbn. apply not_elem_of_nil.
Qed.

(** A new ant: it stands nowhere, occupies no slot, and its stomach, if it
    has one, is not the hive. *)
Lemma inv_alloc_ant L k armor cost st s :
  inv L s -> st <> Some (hive s) ->
  inv L (alloc_ant (mkAnt k armor cost None None 0 st) s) /\
  forall q, p_ant (getP q s) <> Some (next_ant s) /\
            p_guard (getP q s) <> Some (next_ant s).
Proof.
  intros (Hs & Hb & Ha & Hh) Hst.
  assert (Hfresh : forall q, p_ant (getP q s) <> Some (next_ant s) /\
                             p_guard (getP q s) <> Some (next_ant s)).
  { intros q. split; intros Hq.
    - destruct (proj1 (Hs q _) Hq) as (_ & _ & Hlt). lia.
    - destruct (proj2 (Hs q _) Hq) as (_ & _ & Hlt). lia. }
  split; [|exact Hfresh].
  split; [|split; [|split]].
  - intros q c. change (getP q (alloc_ant _ s)) with (getP q s).
    rewrite getA_alloc_ant.
    destruct (decide (next_ant s = c)) as [<-|Hne].
    + split; intros Hq; exfalso; [apply (proj1 (Hfresh q))|apply (proj2 (Hfresh q))];
        assumption.
    + destruct (Hs q c) as [H1 H2]. split; intros Hq.
      * destruct (H1 Hq) as (? & ? & ?). repeat split; [assumption..|cbn; lia].
      * destruct (H2 Hq) as (? & ? & ?). repeat split; [assumption..|cbn; lia].
  - exact Hb.
  - intros c. rewrite getA_alloc_ant.
    destruct (decide (next_ant s = c)) as [<-|Hne]; [|apply Ha].
    cbn. split; [discriminate|exact Hst].
  - exact Hh.
Qed.

(** The board and the hive read the bees and links of the places, not
    their slots. *)
Lemma board_hive_ext L s s' :
  (forall q, p_bees (getP q s') = p_bees (getP q s) /\
             p_entrance (getP q s') = p_entrance (getP q s) /\
             p_exit (getP q s') = p_exit (getP q s)) ->
  grid s' = grid s -> beeEntrances s' = beeEntrances s -> hive s' = hive s ->
  next_place s' = next_place s -> next_bee s' = next_bee s -> waves s' = waves s ->
  board_ok s -> hive_ok L s -> board_ok s' /\ hive_ok L s'.
Proof.
  intros Hp Hg He Hh Hnp Hnb Hw (B1 & B2 & B3 & B4 & B5) (H1 & H2 & H3 & H4 & H5 & H6).
  unfold board_ok, hive_ok. rewrite Hg, He, Hh, Hnp, Hnb, Hw.
  split.
  - repeat (split; [assumption|]). intros q.
    destruct (Hp q) as (_ & -> & ->). apply B5.
  - split; [rewrite (proj1 (Hp _)); exact H1|]. split; [exact H2|].
    split; [intros q b; rewrite (proj1 (Hp q)); apply H3|].
    split; [intros q b; rewrite (proj1 (Hp q)); apply H4|].
    split; assumption.
Qed.

Definition fresh_ant (a : nat) (s : State) : Prop :=
  (a < next_ant s)%nat /\
  forall q, p_ant (getP q s) <> Some a /\ p_guard (getP q s) <> Some a.

Lemma Inv_addAnt H N W L p a s E :
  Inv H N W L s -> fresh_ant a s -> p <> H ->
  wp (Place_addAnt p a) (fun _ => Inv H N W L) E s.
Proof.
  intros [HI HN] [Hlt Hfresh] Hp. unfold wp, Place_addAnt.
  destruct HI as (Hs & Hb & Ha & Hh).
  assert (Hants : forall f, (forall q, p_bees (f q) = p_bees q /\
                                       p_entrance (f q) = p_entrance q /\
                                       p_exit (f q) = p_exit q) ->
      let s' := updA a (with_a_place (Some p)) (updP p f s) in
      board_ok s' /\ ants_ok s' /\ hive_ok L s').
  { intros f Hf s'.
    assert (Hq : forall q, p_bees (getP q s') = p_bees (getP q s) /\
                           p_entrance (getP q s') = p_entrance (getP q s) /\
                           p_exit (getP q s') = p_exit (getP q s)).
    { intros q. subst s'. store_simpl. rewrite getP_updP.
      destruct (decide (p = q)) as [->|]; [apply Hf|auto]. }
    destruct (board_hive_ext L s s' Hq eq_refl eq_refl eq_refl eq_refl eq_refl
                eq_refl Hb Hh) as [B' H'].
    split; [exact B'|]. split; [|exact H'].
    intros c. subst s'. rewrite getA_updA.
    destruct (decide (a = c)) as [<-|].
    - cbn. split; [|apply (Ha a)].
      change (hive (updA a _ (updP p f s))) with (hive s).
      rewrite (proj1 (proj2 HN)). congruence.
    - apply (Ha c). }
  destruct (decide (a_kind (getA a s) = Guard)) as [Hk|Hk].
  - destruct (p_guard (getP p s)) eqn:Hg; [split; [exact (conj Hs (conj Hb (conj Ha Hh)))|exact HN]|].
    split; [|exact HN]. split; [|apply Hants; intros q; auto].
    intros q c. store_simpl. rewrite getP_updP, getA_updA.
    destruct (decide (p = q)) as [<-|Hq]; cbn [p_ant p_guard with_guard].
    + split.
      * intros Hq. destruct (decide (a = c)) as [<-|];
          [exfalso; apply (proj1 (Hfresh p)); assumption|].
        destruct (proj1 (Hs p c) Hq) as (? & ? & ?). auto.
      * intros [= <-]. destruct (decide (a = a)); [|congruence].
        cbn. auto.
    + destruct (decide (a = c)) as [<-|].
      * split; intros Hc; exfalso;
          [apply (proj1 (Hfresh q))|apply (proj2 (Hfresh q))]; assumption.
      * apply (Hs q c).
  - destruct (p_ant (getP p s)) eqn:Hg; [split; [exact (conj Hs (conj Hb (conj Ha Hh)))|exact HN]|].
    split; [|exact HN]. split; [|apply Hants; intros q; auto].
    intros q c. store_simpl. rewrite getP_updP, getA_updA.
    destruct (decide (p = q)) as [<-|Hq]; cbn [p_ant p_guard with_ant].
    + split.
      * intros [= <-]. destruct (decide (a = a)); [|congruence].
        cbn. auto.
      * intros Hq. destruct (decide (a = c)) as [<-|];
          [exfalso; apply (proj2 (Hfresh p)); assumption|].
        destruct (proj2 (Hs p c) Hq) as (? & ? & ?). auto.
    + destruct (decide (a = c)) as [<-|].
      * split; intros Hc; exfalso;
          [apply (proj1 (Hfresh q))|apply (proj2 (Hfresh q))]; assumption.
      * apply (Hs q c).
Qed.

(** *** The commands of the game *)

Lemma elem_of_concat_row (p : nat) (r : list nat) (rows : list (list nat)) :
  r ∈ rows -> p ∈ r -> p ∈ concat rows.
Proof.
  induction rows as [|r' rows IH]; intros Hr Hp; [inversion Hr|].
  cbn. apply elem_of_app. apply elem_of_cons in Hr as [->|Hr]; [left|right; apply IH];
    assumption.
Qed.

(** A coordinate lookup changes nothing, and a place it yields is a cell of
    the board. *)
Lemma lookup_place_spec coords s :
  wp (lookup_place coords)
     (fun v s' => s' = s /\ forall p, v = VPlace p -> p ∈ concat (grid s))
     (fun s' => s' = s) s.
Proof.
  unfold lookup_place, wp, bind, gets, get_member, AntColony_getPlaces, array_get.
  destruct (JS.array_index (JS.key_at (JS.split_comma coords) 0)) as [i|].
  - destruct (grid s !! i) as [r|] eqn:Hr; [|reflexivity].
    unfold ret. split; [reflexivity|]. intros p.
    destruct (JS.array_index (JS.key_at (JS.split_comma coords) 1)) as [j|].
    + destruct (r !! j) as [q|] eqn:Hq; [|discriminate].
      intros [= <-]. apply (elem_of_concat_row q r).
      * eapply list_elem_of_lookup_2, Hr.
      * eapply list_elem_of_lookup_2, Hq.
    + destruct (bool_decide _); [destruct (bool_decide _)|]; discriminate.
  - destruct (bool_decide _); [|reflexivity].
    destruct (bool_decide _).
    + unfold ret. split; [reflexivity|]. discriminate.
    + destruct (bool_decide _); [reflexivity|].
      unfold ret. split; [reflexivity|]. discriminate.
Qed.

Lemma new_ant_of_type_cases antType mk :
  new_ant_of_type antType = Some mk ->
  mk = new_EaterAnt \/
  exists k armor cost, mk = new_Ant k armor cost None.
Proof.
  unfold new_ant_of_type.
  repeat (destruct (String.eqb _ _);
          [intros [= <-]; first [left; reflexivity | right; eexists _, _, _; reflexivity]|]).
  discriminate.
Qed.

Lemma Inv_new_ant H N W L mk antType s :
  new_ant_of_type antType = Some mk ->
  Inv H N W L s ->
  wp mk (fun a s' => Inv H N W L s' /\ fresh_ant a s') (fun _ => False) s.
Proof.
  intros Hmk [HI HN].
  assert (Hplain : forall k armor cost st s0, inv L s0 -> st <> Some (hive s0) ->
            next_bee s0 = N /\ hive s0 = H /\ waves s0 = W ->
            wp (new_Ant k armor cost st)
               (fun a s' => Inv H N W L s' /\ fresh_ant a s') (fun _ => False) s0).
  { intros k armor cost st s0 HI0 Hst HN0. unfold wp, new_Ant.
    destruct (inv_alloc_ant L k armor cost st s0 HI0 Hst) as [HI' Hfresh].
    split; [split; [exact HI'|exact HN0]|].
    split; [cbn; lia|]. intros q. apply (Hfresh q). }
  destruct (new_ant_of_type_cases antType mk Hmk) as [->|(k & armor & cost & ->)].
  - unfold new_EaterAnt. apply wp_bind. unfold wp at 1, new_Place.
    apply Hplain.
    + apply (inv_alloc_place L false None s HI). discriminate.
    + cbn. destruct HI as (_ & (_ & _ & _ & Hlt & _) & _). intros [= Heq]. lia.
    + exact HN.
  - apply Hplain; [exact HI|discriminate|exact HN].
Qed.

Lemma Inv_AntColony_deployAnt H N W L a place s :
  Inv H N W L s -> fresh_ant a s ->
  (forall p, place = VPlace p -> p ∈ concat (grid s)) ->
  wp (AntColony_deployAnt a place) (fun _ => Inv H N W L) (Inv H N W L) s.
Proof.
  intros HI Hfresh Hplace. unfold AntColony_deployAnt, on_place. wp_go.
  destruct (_ <=? _); wp_go; [|exact HI].
  destruct place as [|p|r| |]; wp_go; try exact HI.
  eapply wp_mono;
    [apply (Inv_addAnt H N W L p a s (Inv H N W L) HI Hfresh)| |auto].
  - apply (Inv_grid_cell H N W L p s HI). apply Hplace. reflexivity.
  - intros [|] s1 HI1; wp_go; exact HI1.
Qed.

Lemma Inv_AntGame_deployAnt H N W L antType coords s :
  Inv H N W L s ->
  wp (AntGame_deployAnt antType coords) (fun _ => Inv H N W L) (Inv H N W L) s.
Proof.
  intros HI. unfold AntGame_deployAnt.
  destruct (new_ant_of_type antType) as [mk|] eqn:Hmk; [|exact HI].
  apply wp_bind.
  eapply wp_mono; [apply (Inv_new_ant H N W L mk antType s Hmk HI)| |contradiction].
  intros a s1 [HI1 Hfresh]. apply wp_try_catch. apply wp_bind.
  eapply wp_mono; [apply (lookup_place_spec coords s1)| |].
  - intros v s2 [-> Hv]. apply wp_mono with (Q := fun _ => Inv H N W L) (E := Inv H N W L).
    + apply Inv_AntColony_deployAnt; assumption.
    + auto.
    + intros s3 HI3. exact HI3.
  - intros s2 ->. exact HI1.
Qed.

Lemma Inv_AntGame_removeAnt H N W L coords s :
  Inv H N W L s ->
  wp (AntGame_removeAnt coords) (fun _ => Inv H N W L) (Inv H N W L) s.
Proof.
  intros HI. unfold AntGame_removeAnt. apply wp_try_catch. apply wp_bind.
  eapply wp_mono; [apply (lookup_place_spec coords s)| |].
  - intros v s2 [-> Hv]. unfold on_place. wp_go.
    destruct v as [|p|r| |]; wp_go; try exact HI.
    eapply wp_mono; [apply (Inv_removeAnt H N W L p s (Inv H N W L) HI)| |auto].
    intros u s1 HI1. wp_go. exact HI1.
  - intros s2 ->. exact HI.
Qed.

Lemma Inv_AntGame_boostAnt H N W L boost coords s :
  Inv H N W L s ->
  wp (AntGame_boostAnt boost coords) (fun _ => Inv H N W L) (Inv H N W L) s.
Proof.
  intros HI. unfold AntGame_boostAnt. apply wp_try_catch. apply wp_bind.
  eapply wp_mono; [apply (lookup_place_spec coords s)| |].
  - intros v s2 [-> Hv]. unfold AntColony_applyBoost, on_place, Ant_setBoost. wp_go.
    destruct (boost_missing _); wp_go; [exact HI|].
    destruct v as [|p|r| |]; wp_go; try exact HI.
    destruct (Place_getAnt p s) as [a|]; wp_go; [|exact HI].
    apply Inv_updA; [intros A; auto|exact HI].
  - intros s2 ->. exact HI.
Qed.

(** *** The hive *)

(** Replacing the bees of the hive by some of them. *)
Lemma inv_shrink_hive L L' s :
  inv L s -> NoDup L' -> (forall b, b ∈ L' -> b ∈ L) ->
  inv L' (updP (hive s) (with_bees L') s).
Proof.
  intros (Hs & Hb & Ha & Hh) Hnd Hsub. split; [|split; [|split]].
  - intros q c. rewrite getP_updP. destruct (decide (hive s = q)) as [<-|]; apply (Hs _ c).
  - destruct Hb as (H1 & H2 & H3 & H4 & H5). repeat (split; [assumption|]).
    intros q. rewrite getP_updP. destruct (decide (hive s = q)) as [<-|]; apply H5.
  - exact Ha.
  - destruct Hh as (H1 & H2 & H3 & H4 & H5 & H6).
    split; [|split; [exact Hnd|split; [|split; [|split; assumption]]]].
    + change (hive (updP _ _ s)) with (hive s). rewrite getP_updP_eq. reflexivity.
    + intros q b. rewrite getP_updP. destruct (decide (hive s = q)) as [<-|].
      * cbn [p_bees with_bees]. intros Hin. apply (H3 (hive s) b).
        rewrite H1. apply Hsub. exact Hin.
      * apply H3.
    + intros q b HbL Hq. change (hive (updP _ _ s)) with (hive s) in Hq.
      rewrite getP_updP_ne by congruence. apply H4; [apply Hsub; exact HbL|exact Hq].
Qed.

(** [L'] is what a release leaves of [L]: some of its bees, among them
    those that the wave [w] does not list. *)
Definition left_of (L w L' : list nat) : Prop :=
  (forall b, b ∈ L' -> b ∈ L) /\ (forall b, b ∈ L -> b ∉ w -> b ∈ L').

Lemma Inv_removeBee_hive H N W L L0 w x s E :
  Inv H N W L s -> left_of L0 w L -> x ∈ w ->
  wp (Place_removeBee H x)
     (fun _ s' => exists L', Inv H N W L' s' /\ left_of L0 w L' /\ x ∉ L') E s.
Proof.
  intros [HI (HN & HH & HW)] [Hsub Hkeep] Hx. unfold wp, Place_removeBee.
  pose proof HI as (_ & _ & _ & (H1 & H2 & _)).
  rewrite <- HH, H1.
  destruct (indexOf x L) as [i|] eqn:Hi.
  - exists (delete i L). split; [|split; [split|]].
    + split; [|repeat split; assumption].
      assert (Heq : updP (hive s) (fun P => with_bees (delete i (p_bees P)) P) s
                    = updP (hive s) (with_bees (delete i L)) s).
      { unfold updP. rewrite H1. reflexivity. }
      change (inv (delete i L)
                (updP (hive s) (fun P => with_bees (delete i (p_bees P)) P) s)).
      rewrite Heq. apply (inv_shrink_hive L); [exact HI| |].
      * eapply sublist_NoDup; [exact H2|apply sublist_delete].
      * intros b. apply list_elem_of_delete_inv.
    + intros b Hb. apply Hsub. eapply list_elem_of_delete_inv, Hb.
    + intros b Hb Hbw. apply (elem_of_delete_other b x L i).
      * apply indexOf_Some. exact Hi.
      * intros ->. contradiction.
      * apply Hkeep; assumption.
    + apply NoDup_delete_indexOf; assumption.
  - exists L. split; [split; [exact HI|repeat split; assumption]|].
    split; [split; assumption|]. apply indexOf_None. exact Hi.
Qed.

Lemma Inv_invade H N W L t s :
  Inv H N W L s ->
  wp (Hive_invade t)
     (fun _ s' => exists L', Inv H N W L' s' /\ left_of L (default [] (W !! t)) L')
     (fun s' => exists L', Inv H N W L' s' /\ left_of L (default [] (W !! t)) L') s.
Proof.
  intros HI. unfold Hive_invade. wp_go.
  assert (HW : waves s = W) by apply HI. rewrite HW.
  assert (Hrefl : left_of L (default [] (W !! t)) L) by (split; auto).
  destruct (W !! t) as [wave|] eqn:Hwave; wp_go; [|exists L; auto].
  cbn [default] in *.
  set (J := fun s' => exists L', Inv H N W L' s' /\ left_of L wave L').
  apply wp_mono with (Q := fun _ => J) (E := J); [|intros u s' HJ; wp_go; exact HJ|auto].
  apply wp_forEach; [|exists L; auto].
  intros x s1 Hx (L1 & HI1 & Hleft). wp_go.
  assert (HH : hive s1 = H) by apply HI1. rewrite HH.
  eapply wp_mono;
    [apply (Inv_removeBee_hive H N W L1 L wave x s1 J HI1 Hleft Hx)| |auto].
  intros u s2 (L2 & HI2 & Hleft2 & HxL2). wp_go.
  unfold wp at 1, Math_random.
  assert (HI2' : Inv H N W L2 (set_random_pos (S (random_pos s2)) s2)) by exact HI2.
  destruct (_ <? 0); wp_go; [exists L2; auto|].
  destruct (AntColony_getEntrances s2 !! _) as [e|] eqn:He; wp_go; [|exists L2; auto].
  apply wp_mono with (Q := fun _ => Inv H N W L2) (E := J);
    [|intros u' s3 HI3; exists L2; auto|auto].
  apply Inv_addBee; [exact HI2'| |exact HxL2|].
  - destruct HI2 as [(_ & (_ & _ & He' & _) & _) (_ & HH2 & _)].
    intros ->. apply He'. rewrite HH2.
    eapply list_elem_of_lookup_2, He.
  - destruct HI2 as [(_ & _ & _ & (_ & _ & _ & _ & Hw & _)) (HN2 & _ & HW2)].
    rewrite <- HN2. apply (Hw t wave x); [rewrite HW2; exact Hwave|exact Hx].
Qed.

(** [L'] keeps the bees of [L] that no wave of [W] lists. *)
Definition keeps_orphans (W : gmap Z (list nat)) (L L' : list nat) : Prop :=
  (forall b, b ∈ L' -> b ∈ L) /\
  (forall b, b ∈ L -> (forall t w, W !! t = Some w -> b ∉ w) -> b ∈ L').

Lemma keeps_orphans_refl W L : keeps_orphans W L L.
Proof. split; auto. Qed.

Lemma left_of_keeps W t L L' :
  left_of L (default [] (W !! t)) L' -> keeps_orphans W L L'.
Proof.
  intros [Hsub Hkeep]. split; [exact Hsub|].
  intros b Hb Hno. apply Hkeep; [exact Hb|].
  destruct (W !! t) as [w|] eqn:Hw; cbn; [apply (Hno t w Hw)|apply not_elem_of_nil].
Qed.

(** The states a command may end in, from a state with hive bees [L]. *)
Definition Kept (H N : nat) (W : gmap Z (list nat)) (L : list nat) (s : State) : Prop :=
  exists L', Inv H N W L' s /\ keeps_orphans W L L'.

Lemma Inv_Kept H N W L s : Inv H N W L s -> Kept H N W L s.
Proof. intros HI. exists L. split; [exact HI|apply keeps_orphans_refl]. Qed.

Lemma Inv_takeTurn H N W L s :
  Inv H N W L s ->
  wp AntGame_takeTurn (fun _ => Kept H N W L) (Kept H N W L) s.
Proof.
  intros HI. unfold AntGame_takeTurn. wp_go.
  eapply wp_mono; [apply (Inv_antsAct H N W L s HI)| |apply Inv_Kept].
  intros u s1 HI1. wp_go.
  eapply wp_mono; [apply (Inv_beesAct H N W L s1 HI1)| |apply Inv_Kept].
  intros u1 s2 HI2. wp_go.
  eapply wp_mono; [apply (Inv_placesAct H N W L s2 HI2)| |apply Inv_Kept].
  intros u2 s3 HI3. wp_go.
  eapply wp_mono; [apply (Inv_invade H N W L (turn s3) s3 HI3)| |].
  - intros w s4 (L' & HI4 & Hleft). wp_go. exists L'.
    split; [exact HI4|eapply left_of_keeps, Hleft].
  - intros s4 (L' & HI4 & Hleft). exists L'.
    split; [exact HI4|eapply left_of_keeps, Hleft].
Qed.

(** *** Scheduling a wave *)

Lemma inv_hive_new_bee L armor damage s :
  inv L s ->
  inv (L ++ [next_bee s])
    (updB (next_bee s) (with_b_place (Some (hive s)))
       (updP (hive s) (fun P => with_bees (p_bees P ++ [next_bee s]) P)
          (set_next_bee (S (next_bee s))
             (set_beeObjs
                (fun m => <[next_bee s := mkBee armor damage (Some (hive s)) None]> m)
                s)))).
Proof.
  intros (Hs & Hb & Ha & Hh).
  set (b := next_bee s). set (h := hive s).
  set (f := fun P => with_bees (p_bees P ++ [b]) P).
  assert (HgetP : forall q s0, getP q
             (updB b (with_b_place (Some h))
                (updP h f (set_next_bee (S b) (set_beeObjs s0 s))))
             = if decide (h = q) then f (getP h s) else getP q s).
  { intros q s0. store_simpl. apply (getP_updP h q f s). }
  destruct Hh as (H1 & H2 & H3 & H4 & H5 & H6).
  split; [|split; [|split]].
  - intros q c. rewrite HgetP. destruct (decide (h = q)) as [<-|]; apply (Hs _ c).
  - destruct Hb as (B1 & B2 & B3 & B4 & B5). repeat (split; [assumption|]).
    intros q. rewrite HgetP. destruct (decide (h = q)) as [<-|]; apply B5.
  - exact Ha.
  - split; [|split; [|split; [|split; [|split]]]].
    + change (hive _) with h. rewrite HgetP.
      destruct (decide (h = h)); [|congruence]. cbn. fold h in H1. rewrite H1.
      reflexivity.
    + apply NoDup_app. split; [exact H2|]. split; [|apply NoDup_singleton].
      intros x Hx Hx'. apply list_elem_of_singleton in Hx'. subst x.
      rewrite <- H1 in Hx. pose proof (H3 _ _ Hx). subst b. lia.
    + intros q x. rewrite HgetP. cbn [next_bee set_next_bee updB updP set_places].
      change (next_bee _) with (S b).
      destruct (decide (h = q)) as [<-|].
      * cbn. intros Hx. apply elem_of_app in Hx as [Hx|Hx].
        -- pose proof (H3 _ _ Hx). subst b. lia.
        -- apply list_elem_of_singleton in Hx. lia.
      * intros Hx. pose proof (H3 _ _ Hx). subst b. lia.
    + intros q x Hx Hq. change (hive _) with h in Hq. rewrite HgetP.
      destruct (decide (h = q)); [congruence|].
      apply elem_of_app in Hx as [Hx|Hx].
      * apply H4; assumption.
      * apply list_elem_of_singleton in Hx. subst x. intros Hin.
        pose proof (H3 _ _ Hin). subst b. lia.
    + intros t w x Hw Hx. change (next_bee _) with (S b).
      pose proof (H5 t w x Hw Hx). subst b. lia.
    + exact H6.
Qed.

(** The state after [new Bee] and [addBee] in the loop of [addWave]. *)
Definition hatch (s : State) : State :=
  updB (next_bee s) (with_b_place (Some (hive s)))
    (updP (hive s) (fun P => with_bees (p_bees P ++ [next_bee s]) P)
       (set_next_bee (S (next_bee s))
          (set_beeObjs
             (fun m => <[next_bee s := mkBee (beeArmor s) (beeDamage s)
                                         (Some (hive s)) None]> m)
             s))).

Lemma addWave_loop_step n wave s :
  addWave_loop (S n) wave s = addWave_loop n (wave ++ [next_bee s]) (hatch s).
Proof. reflexivity. Qed.

Lemma addWave_loop_spec n : forall wave s L,
  inv L s ->
  exists s',
    addWave_loop n wave s = Ok (wave ++ seq (next_bee s) n) s' /\
    inv (L ++ seq (next_bee s) n) s' /\
    next_bee s' = (next_bee s + n)%nat /\
    hive s' = hive s /\ waves s' = waves s /\ turn s' = turn s /\
    grid s' = grid s /\ queenPlace s' = queenPlace s.
Proof.
  induction n as [|n IH]; intros wave s L HI.
  - exists s. cbn [seq addWave_loop]. rewrite !app_nil_r.
    split; [reflexivity|]. split; [exact HI|].
    repeat split; lia.
  - rewrite addWave_loop_step.
    destruct (IH (wave ++ [next_bee s]) (hatch s) (L ++ [next_bee s]))
      as (s' & Hrun & HI' & HN & HH & HW & HT & HG & HQ).
    { apply inv_hive_new_bee. exact HI. }
    exists s'. change (next_bee (hatch s)) with (S (next_bee s)) in *.
    cbn [seq]. rewrite <- !app_assoc in *. cbn [app] in *.
    split; [exact Hrun|]. split; [exact HI'|].
    repeat split; try assumption. lia.
Qed.

Lemma inv_set_waves L t w s :
  inv L s ->
  (forall b, b ∈ w -> (b < next_bee s)%nat) ->
  (forall t' w' b, waves s !! t' = Some w' -> t' <> t -> b ∈ w' -> b ∉ w) ->
  inv L (set_waves (<[t := w]> (waves s)) s).
Proof.
  intros (Hs & Hb & Ha & Hh) Hlt Hdisj.
  split; [exact Hs|]. split; [exact Hb|]. split; [exact Ha|].
  destruct Hh as (H1 & H2 & H3 & H4 & H5 & H6).
  split; [exact H1|]. split; [exact H2|]. split; [exact H3|]. split; [exact H4|].
  cbn [waves set_waves next_bee]. split.
  - intros t' w' b. rewrite lookup_insert.
    destruct (decide (t = t')) as [<-|Hne].
    + intros [= <-]. apply Hlt.
    + apply H5.
  - intros t1 t2 w1 w2 b. rewrite !lookup_insert.
    destruct (decide (t = t1)) as [<-|Hne1]; destruct (decide (t = t2)) as [<-|Hne2].
    + intros _ _ Hne. congruence.
    + intros [= <-] Hw2 _ Hb1 Hb2. apply (Hdisj t2 w2 b Hw2); [congruence| |]; assumption.
    + intros Hw1 [= <-] _ Hb1. apply (Hdisj t1 w1 b Hw1); [congruence|assumption].
    + apply H6.
Qed.

(** [addWave] returns: it creates [numBees] bees, puts them in the hive and
    records them, and only them, under [attackTurn]. *)
Lemma Hive_addWave_spec L t n s :
  inv L s ->
  exists s',
    Hive_addWave t n s = Ok tt s' /\
    inv (L ++ seq (next_bee s) n) s' /\
    waves s' = <[t := seq (next_bee s) n]> (waves s) /\
    next_bee s' = (next_bee s + n)%nat /\
    hive s' = hive s /\ turn s' = turn s /\
    grid s' = grid s /\ queenPlace s' = queenPlace s.
Proof.
  intros HI.
  destruct (addWave_loop_spec n [] s L HI)
    as (s' & Hrun & HI' & HN & HH & HW & HT & HG & HQ).
  cbn [app] in Hrun.
  exists (set_waves (<[t := seq (next_bee s) n]> (waves s')) s').
  split; [unfold Hive_addWave, bind, modify; rewrite Hrun; reflexivity|].
  split.
  { apply inv_set_waves; [exact HI'| |].
    - intros b Hb. apply elem_of_seq in Hb. lia.
    - intros t' w' b Hw' _ Hb Hin. apply elem_of_seq in Hin.
      destruct HI as (_ & _ & _ & (_ & _ & _ & _ & H5 & _)).
      rewrite HW in Hw'. pose proof (H5 t' w' b Hw' Hb). lia. }
  cbn [waves set_waves]. rewrite HW.
  repeat split; assumption.
Qed.

(** *** The constructor of the colony *)

Lemma inv_set_entrance L p c s :
  inv L s -> c <> hive s -> inv L (updP p (with_entrance (Some c)) s).
Proof.
  intros (Hs & Hb & Ha & Hh) Hc. split; [|split; [|split]].
  - intros q a. rewrite getP_updP. destruct (decide (p = q)) as [<-|]; apply (Hs _ a).
  - destruct Hb as (H1 & H2 & H3 & H4 & H5). repeat (split; [assumption|]).
    intros q. rewrite getP_updP. destruct (decide (p = q)) as [<-|]; [|apply H5].
    cbn. split; [congruence|apply H5].
  - exact Ha.
  - destruct Hh as (H1 & H2 & H3 & H4 & H5 & H6).
    assert (Hbees : forall q, p_bees (getP q (updP p (with_entrance (Some c)) s))
                              = p_bees (getP q s)).
    { intros q. rewrite getP_updP. destruct (decide (p = q)) as [->|]; reflexivity. }
    split; [rewrite Hbees; exact H1|]. split; [exact H2|].
    split; [intros q b; rewrite Hbees; apply H3|].
    split; [intros q b; rewrite Hbees; apply H4|].
    split; assumption.
Qed.

(** While a tunnel is built: [row] holds its cells so far, which are not
    yet part of the grid, and [curr] is the place built last. *)
Definition building (row : list nat) (curr : nat) (s : State) : Prop :=
  inv [] s /\ curr <> hive s /\
  NoDup (concat (grid s) ++ row) /\
  (forall p, p ∈ row -> (p < next_place s)%nat /\ p <> hive s).

Lemma build_tunnel_spec n : forall step moat curr row s,
  building row curr s ->
  wp (build_tunnel n step moat curr row)
     (fun r s' => building (snd r) (fst r) s' /\ grid s' = grid s /\
                  beeEntrances s' = beeEntrances s /\
                  queenPlace s' = queenPlace s /\ hive s' = hive s)
     (fun _ => False) s.
Proof.
  induction n as [|n IH]; intros step moat curr row s HB; cbn [build_tunnel].
  - wp_go. cbn. auto.
  - apply wp_bind. unfold wp at 1, new_Place.
    set (w := negb (moat =? 0)%nat && (S step mod moat =? 0)%nat).
    change (set_next_place _ _) with (alloc_place (mkPlace w (Some curr) None None None []) s).
    set (s1 := alloc_place (mkPlace w (Some curr) None None None []) s).
    apply wp_bind. unfold Place_setEntrance. apply wp_modify.
    destruct HB as (HI & Hcurr & Hnd & Hrow).
    assert (Hhive : (hive s < next_place s)%nat)
      by (destruct HI as (_ & (_ & _ & _ & Hlt & _) & _); exact Hlt).
    eapply wp_mono; [apply IH| |auto].
    + split; [|split; [|split]].
      * apply inv_set_entrance; [|change (hive s1) with (hive s); lia].
        apply inv_alloc_place; [exact HI|congruence].
      * change (next_place s <> hive s). lia.
      * subst s1. cbn [grid updP set_places alloc_place set_next_place].
        rewrite app_assoc. apply NoDup_app. split; [exact Hnd|].
        split; [|apply NoDup_singleton].
        intros x Hx Hx'. apply list_elem_of_singleton in Hx'. subst x.
        apply elem_of_app in Hx as [Hx|Hx].
        -- destruct HI as (_ & (_ & Hg & _) & _). pose proof (Hg _ Hx). lia.
        -- pose proof (Hrow _ Hx). lia.
      * intros x Hx. subst s1.
        cbn [next_place hive updP set_places alloc_place set_next_place].
        apply elem_of_app in Hx as [Hx|Hx].
        -- destruct (Hrow _ Hx). split; [lia|assumption].
        -- apply list_elem_of_singleton in Hx. subst x. split; lia.
    + intros r s' (HB' & HG & HE & HQ & HH). auto.
Qed.

Lemma build_tunnels_spec n : forall len moat s,
  inv [] s -> queenPlace s <> hive s ->
  wp (build_tunnels n len moat) (fun _ s' => inv [] s') (fun _ => False) s.
Proof.
  induction n as [|n IH]; intros len moat s HI HQ; cbn [build_tunnels].
  - wp_go. exact HI.
  - wp_go.
    eapply wp_mono; [apply (build_tunnel_spec len 0 moat (queenPlace s) [] s)| |auto].
    + split; [exact HI|]. split; [exact HQ|]. rewrite app_nil_r.
      split; [apply HI|]. intros p Hp. inversion Hp.
    + intros [curr row] s1 ((HI1 & Hcurr & Hnd & Hrow) & HG & HE & HQ1 & HH1).
      cbn [fst snd] in *. wp_go.
      apply IH; [|cbn [queenPlace hive set_beeEntrances set_grid]; congruence].
      destruct HI1 as (Hs & Hb & Ha & Hh).
      split; [exact Hs|]. split; [|split; [exact Ha|exact Hh]].
      destruct Hb as (B1 & B2 & B3 & B4 & B5).
      unfold board_ok. cbn [grid set_grid set_beeEntrances beeEntrances].
      rewrite concat_app. cbn [concat]. rewrite app_nil_r.
      split; [exact Hnd|]. split.
      { intros p Hp. apply elem_of_app in Hp as [Hp|Hp]; [apply B2|apply Hrow]; exact Hp. }
      split.
      { intros Hin. apply elem_of_app in Hin as [Hin|Hin]; [apply B3; exact Hin|].
        apply list_elem_of_singleton in Hin. apply Hcurr. symmetry. exact Hin. }
      split; [exact B4|exact B5].
Qed.

Lemma inv_blank rnd startingFood armor damage :
  inv [] (blank rnd startingFood armor damage).
Proof.
  assert (HP : forall p, getP p (blank rnd startingFood armor damage) = emptyPlace).
  { intros p. unfold getP, blank; cbn [places].
    destruct (decide (p = 1%nat)) as [->|H1]; [rewrite lookup_insert_eq; reflexivity|].
    rewrite lookup_insert_ne by congruence.
    destruct (decide (p = 0%nat)) as [->|H0]; [rewrite lookup_insert_eq; reflexivity|].
    rewrite lookup_insert_ne by congruence. reflexivity. }
  assert (HA : forall a, getA a (blank rnd startingFood armor damage) = noAnt)
    by (intros a; reflexivity).
  split; [|split; [|split]].
  - intros p a. rewrite HP. cbn. split; discriminate.
  - split; [apply NoDup_nil_2|]. split; [intros p Hp; inversion Hp|].
    split; [apply not_elem_of_nil|]. split; [cbn; lia|].
    intros p. rewrite HP. cbn. split; discriminate.
  - intros a. rewrite HA. cbn. split; discriminate.
  - split; [rewrite HP; reflexivity|]. split; [apply NoDup_nil_2|].
    split; [intros p b; rewrite HP; cbn; intros Hb; inversion Hb|].
    split; [intros p b Hb; inversion Hb|].
    split; [intros t w b Hw; cbn in Hw; rewrite lookup_empty in Hw; discriminate|].
    intros t t' w w' b Hw. cbn in Hw. rewrite lookup_empty in Hw. discriminate.
Qed.

(** The game as the constructors leave it. *)
Definition initial (rnd : nat -> Q) (startingFood : Z)
    (numTunnels tunnelLength moatFrequency : nat) (armor damage : Z) : State :=
  run (new_AntColony numTunnels tunnelLength moatFrequency)
    (blank rnd startingFood armor damage).

Lemma inv_initial rnd food nT tL moat armor damage :
  inv [] (initial rnd food nT tL moat armor damage).
Proof.
  unfold initial, new_AntColony.
  pose proof (build_tunnels_spec nT tL moat (blank rnd food armor damage)
                (inv_blank rnd food armor damage)) as Hwp.
  unfold wp, run in *.
  destruct (build_tunnels nT tL moat (blank rnd food armor damage)) as [u s'|s'|].
  - apply Hwp. cbn. lia.
  - exfalso. apply Hwp. cbn. lia.
  - apply inv_blank.
Qed.

(** ** The states of a game *)

(** The calls that the shell, the set-up of a level and [takeTurn] make. *)
Inductive command :=
| TakeTurn
| Deploy (antType placeCoordinates : string)
| Remove (placeCoordinates : string)
| Boost (boostType placeCoordinates : string)
| AddWave (attackTurn : Z) (numBees : nat)
| AntsAct
| BeesAct
| PlacesAct
| Invade.

Definition call (c : command) : M unit :=
  match c with
  | TakeTurn => AntGame_takeTurn
  | Deploy antType coords => AntGame_deployAnt antType coords ;;; ret tt
  | Remove coords => AntGame_removeAnt coords ;;; ret tt
  | Boost boost coords => AntGame_boostAnt boost coords ;;; ret tt
  | AddWave attackTurn numBees => Hive_addWave attackTurn numBees
  | AntsAct => AntColony_antsAct
  | BeesAct => AntColony_beesAct
  | PlacesAct => AntColony_placesAct
  | Invade => t <- gets turn ;; Hive_invade t ;;; ret tt
  end.

(** The state after a command, also when the command raised.  From a
    state that a game reaches every command returns or raises
    ([call_returns] below). *)
Definition exec (c : command) (s : State) : State := run (call c) s.

Inductive reachable : State -> Prop :=
| reach_initial rnd food nT tL moat armor damage :
    reachable (initial rnd food nT tL moat armor damage)
| reach_step s c : reachable s -> reachable (exec c s).

(** [steps s s']: some commands lead from [s] to [s']. *)
Inductive steps : State -> State -> Prop :=
| steps_refl s : steps s s
| steps_next s s' c : steps s s' -> steps s (exec c s').

Definition wf (s : State) : Prop := exists L, inv L s.

Lemma wf_Inv s L : inv L s -> Inv (hive s) (next_bee s) (waves s) L s.
Proof. intros HI. split; [exact HI|auto]. Qed.

Definition is_AddWave (c : command) : bool :=
  match c with AddWave _ _ => true | _ => false end.

(** Every command but [addWave] keeps the invariant, the waves and the bees
    of the hive that no wave lists. *)
Lemma call_Kept H N W L c s :
  is_AddWave c = false -> Inv H N W L s ->
  wp (call c) (fun _ => Kept H N W L) (Kept H N W L) s.
Proof.
  intros Hc HI. destruct c; try discriminate; cbn [call].
  - apply Inv_takeTurn. exact HI.
  - apply wp_bind.
    eapply wp_mono; [apply (Inv_AntGame_deployAnt H N W L _ _ s HI)| |apply Inv_Kept].
    intros r s' HI'. apply wp_ret. apply Inv_Kept. exact HI'.
  - apply wp_bind.
    eapply wp_mono; [apply (Inv_AntGame_removeAnt H N W L _ s HI)| |apply Inv_Kept].
    intros r s' HI'. apply wp_ret. apply Inv_Kept. exact HI'.
  - apply wp_bind.
    eapply wp_mono; [apply (Inv_AntGame_boostAnt H N W L _ _ s HI)| |apply Inv_Kept].
    intros r s' HI'. apply wp_ret. apply Inv_Kept. exact HI'.
  - eapply wp_mono; [apply (Inv_antsAct H N W L s HI)| |apply Inv_Kept].
    intros r s' HI'. apply Inv_Kept. exact HI'.
  - eapply wp_mono; [apply (Inv_beesAct H N W L s HI)| |apply Inv_Kept].
    intros r s' HI'. apply Inv_Kept. exact HI'.
  - eapply wp_mono; [apply (Inv_placesAct H N W L s HI)| |apply Inv_Kept].
    intros r s' HI'. apply Inv_Kept. exact HI'.
  - wp_go.
    eapply wp_mono; [apply (Inv_invade H N W L (turn s) s HI)| |].
    + intros w s' (L' & HI' & Hleft). wp_go. exists L'.
      split; [exact HI'|eapply left_of_keeps, Hleft].
    + intros s' (L' & HI' & Hleft). exists L'.
      split; [exact HI'|eapply left_of_keeps, Hleft].
Qed.

Lemma exec_Kept H N W L c s :
  is_AddWave c = false -> Inv H N W L s -> Kept H N W L (exec c s).
Proof.
  intros Hc HI. unfold exec.
  apply (wp_run (call c) (Kept H N W L) s); [apply Inv_Kept; exact HI|].
  apply call_Kept; assumption.
Qed.

Lemma wf_exec c s : wf s -> wf (exec c s).
Proof.
  intros [L HI]. destruct (is_AddWave c) eqn:Hc.
  - destruct c; try discriminate. unfold exec, run. cbn [call].
    destruct (Hive_addWave_spec L attackTurn numBees s HI) as (s' & -> & HI' & _).
    eexists. exact HI'.
  - destruct (exec_Kept _ _ _ L c s Hc (wf_Inv s L HI)) as (L' & [HI' _] & _).
    exists L'. exact HI'.
Qed.

Lemma reachable_wf s : reachable s -> wf s.
Proof.
  induction 1 as [rnd food nT tL moat armor damage | s c Hr IH].
  - exists []. apply inv_initial.
  - apply wf_exec. exact IH.
Qed.

Lemma steps_reachable s s' : reachable s -> steps s s' -> reachable s'.
Proof. intros Hr Hs. induction Hs; [exact Hr|apply reach_step; auto]. Qed.

(** The colonies of the examples for C6 and C7 are states of a game. *)
Lemma demos_reachable : reachable demo0 /\ reachable demo1 /\ reachable demo2.
Proof.
  assert (H0 : reachable demo0).
  { change demo0 with (initial (fun _ => 0%Q) 10 1 5 3 2 1). apply reach_initial. }
  split; [exact H0|]. split.
  - change demo1 with (exec (Deploy "thrower" "0,4") demo0).
    apply reach_step. exact H0.
  - change demo2
      with (exec (Deploy "thrower" "0,1") (exec (Deploy "thrower" "0,0") demo0)).
    do 2 apply reach_step. exact H0.
Qed.

(** ** The occupancy of a cell *)

(** The defenders a place refers to, through either slot. *)
Definition occupants (p : nat) (s : State) : list nat :=
  option_list (p_ant (getP p s)) ++ option_list (p_guard (getP p s)).

Definition regular_defenders (p : nat) (s : State) : list nat :=
  filter (fun a => a_kind (getA a s) <> Guard) (occupants p s).

Definition guard_defenders (p : nat) (s : State) : list nat :=
  filter (fun a => a_kind (getA a s) = Guard) (occupants p s).

Definition occupancy_ok (s : State) : Prop :=
  forall p, (length (regular_defenders p s) <= 1)%nat /\
            (length (guard_defenders p s) <= 1)%nat.

Lemma slots_occupancy s : slots_ok s -> occupancy_ok s.
Proof.
  intros Hs p. unfold regular_defenders, guard_defenders, occupants.
  destruct (p_ant (getP p s)) as [a|] eqn:Ha;
    destruct (p_guard (getP p s)) as [g|] eqn:Hg;
    change (option_list (@None nat)) with (@nil nat);
    try change (option_list (Some a)) with [a];
    try change (option_list (Some g)) with [g]; cbn [app].
  - destruct (proj1 (Hs p a) Ha) as (_ & Hka & _).
    destruct (proj2 (Hs p g) Hg) as (_ & Hkg & _).
    rewrite !filter_cons, !filter_nil.
    repeat case_decide; try contradiction; cbn; lia.
  - rewrite !filter_cons, !filter_nil. repeat case_decide; cbn; lia.
  - rewrite !filter_cons, !filter_nil. repeat case_decide; cbn; lia.
  - rewrite !filter_nil. cbn. lia.
Qed.

(** *** A cell with as many bees as one likes *)

(** [addWave] writes to no place but the hive, and leaves the entrances and
    the random numbers as they are. *)
Lemma addWave_loop_frame n : forall wave s,
  match addWave_loop n wave s with
  | Ok _ s' =>
      beeEntrances s' = beeEntrances s /\ random_src s' = random_src s /\
      forall p, p <> hive s -> getP p s' = getP p s
  | _ => True
  end.
Proof.
  induction n as [|n IH]; intros wave s.
  - cbn. auto.
  - rewrite addWave_loop_step. specialize (IH (wave ++ [next_bee s]) (hatch s)).
    destruct (addWave_loop n _ (hatch s)) as [r s'| |]; [|exact I|exact I].
    destruct IH as (HE & HR & HP). split; [exact HE|]. split; [exact HR|].
    intros p Hp. rewrite (HP p Hp). unfold hatch.
    change (getP p (updB _ _ ?x)) with (getP p x).
    rewrite getP_updP_ne by congruence. reflexivity.
Qed.

(** With one entrance [e] and random numbers that are all 0, the release of
    the bees [l] that make up the hive moves them all to [e], in order. *)
Lemma release_one_entrance e : forall (l : list nat) s,
  beeEntrances s = [e] -> e <> hive s -> random_src s = (fun _ => 0%Q) ->
  p_bees (getP (hive s) s) = l ->
  exists s',
    forEach l (fun bee =>
      h <- gets hive ;;
      Place_removeBee h bee ;;;
      entrances <- gets AntColony_getEntrances ;;
      r <- Math_random ;;
      let randEntrance := Qfloor (r * inject_Z (Z.of_nat (length entrances))) in
      if randEntrance <? 0 then throw
      else match entrances !! Z.to_nat randEntrance with
           | Some e => Place_addBee e bee
           | None => throw
           end) s = Ok tt s' /\
    p_bees (getP e s') = p_bees (getP e s) ++ l /\
    grid s' = grid s.
Proof.
  induction l as [|b l IH]; intros s HE He HR HL.
  - exists s. cbn [forEach]. rewrite app_nil_r. auto.
  - set (s1 := updB b (with_b_place (Some e))
                 (updP e (fun P => with_bees (p_bees P ++ [b]) P)
                    (set_random_pos (S (random_pos s))
                       (updB b (with_b_place None)
                          (updP (hive s) (fun P => with_bees (delete O (p_bees P)) P)
                             s))))).
    destruct (IH s1) as (s' & Hrun & Hbees & Hgrid).
    + exact HE.
    + exact He.
    + exact HR.
    + unfold s1. change (hive (updB _ _ _)) with (hive s).
      change (getP (hive s) (updB _ _ ?x)) with (getP (hive s) x).
      rewrite getP_updP_ne by exact He.
      change (getP (hive s) (set_random_pos _ ?x)) with (getP (hive s) x).
      change (getP (hive s) (updB _ _ ?x)) with (getP (hive s) x).
      rewrite getP_updP_eq. cbn [p_bees with_bees]. rewrite HL. reflexivity.
    + exists s'. split; [|split].
      * cbn [forEach]. unfold bind at 1. unfold bind at 1, gets at 1.
        unfold bind at 1. unfold Place_removeBee at 1.
        rewrite HL, indexOf_head.
        unfold bind at 1, gets at 1, AntColony_getEntrances.
        change (beeEntrances (updB _ _ _)) with (beeEntrances s). rewrite HE.
        unfold bind at 1, Math_random at 1.
        change (random_src (updB _ _ _)) with (random_src s). rewrite HR.
        cbv beta zeta.
        change (Qfloor (0 * inject_Z (Z.of_nat (length [e]))) <? 0) with false.
        change ([e] !! Z.to_nat (Qfloor (0 * inject_Z (Z.of_nat (length [e])))))
          with (Some e).
        cbv iota. unfold Place_addBee, modify.
        change (random_pos (updB _ _ _)) with (random_pos s).
        fold s1. exact Hrun.
      * rewrite Hbees. unfold s1.
        change (getP e (updB _ _ ?x)) with (getP e x).
        rewrite getP_updP_eq. cbn [p_bees with_bees].
        change (getP e (set_random_pos _ ?x)) with (getP e x).
        change (getP e (updB _ _ ?x)) with (getP e x).
        rewrite getP_updP_ne by congruence.
        rewrite <- app_assoc. reflexivity.
      * rewrite Hgrid. reflexivity.
Qed.

(** A colony of one tunnel of one cell, whose random numbers are all 0. *)
Definition one_cell : State := initial (fun _ => 0%Q) 0 1 1 0 1 1.

(** The cell of [one_cell]. *)
Definition the_cell : nat := 2.

(** One wave of [n] bees, released at once, puts [n] bees on the cell. *)
Lemma crowd n :
  grid (exec Invade (exec (AddWave 0 n) one_cell)) = [[the_cell]] /\
  length (Place_getBees the_cell (exec Invade (exec (AddWave 0 n) one_cell))) = n.
Proof.
  destruct (Hive_addWave_spec [] 0 n one_cell (inv_initial _ _ _ _ _ _ _))
    as (s1 & Hrun & HI & HW & _ & HH & HT & HG & _).
  pose proof (addWave_loop_frame n [] one_cell) as Hframe.
  unfold Hive_addWave, bind in Hrun.
  destruct (addWave_loop n [] one_cell) as [w s1'| |] eqn:Hloop; try discriminate.
  unfold modify in Hrun. injection Hrun as <-.
  destruct Hframe as (HE & HR & HP).
  assert (Hex : exec (AddWave 0 n) one_cell
                = set_waves (<[0 := w]> (waves s1')) s1').
  { unfold exec, run. cbn [call]. unfold Hive_addWave, bind. rewrite Hloop.
    reflexivity. }
  rewrite Hex. set (s1 := set_waves _ s1') in *.
  destruct HI as (_ & _ & _ & (HL & _)). cbn [app] in HL.
  destruct (release_one_entrance the_cell (seq (next_bee one_cell) n) s1)
    as (s2 & Hrel & Hbees & Hgrid).
  - exact HE.
  - rewrite HH. vm_compute. discriminate.
  - exact HR.
  - exact HL.
  - assert (Hex2 : exec Invade s1 = s2).
    { unfold exec, run. cbn [call]. unfold bind at 1, gets at 1.
      unfold bind at 1, Hive_invade. unfold bind at 1, gets at 1.
      rewrite HT, HW. change (turn one_cell) with 0. rewrite lookup_insert_eq.
      cbv zeta in Hrel. unfold bind at 1. rewrite Hrel. reflexivity. }
    rewrite Hex2. split.
    + rewrite Hgrid, HG. reflexivity.
    + unfold Place_getBees. rewrite Hbees.
      change (getP the_cell s1) with (getP the_cell s1').
      rewrite HP by (vm_compute; discriminate).
      change (p_bees (getP the_cell one_cell)) with (@nil nat).
      cbn [app]. apply length_seq.
Qed.

(** ** The sweep of the defenders *)

(** What the act of an ant standing at [pl] leaves as it was in [s0]: the
    slots of every other place, and the kind and place of every ant.  [k] is
    the record of the calls. *)
Definition fp (s0 : State) (pl : option nat) (k : list nat) (s : State) : Prop :=
  acted s = k /\
  (forall q, pl <> Some q ->
     p_ant (getP q s) = p_ant (getP q s0) /\
     p_guard (getP q s) = p_guard (getP q s0)) /\
  (forall y, a_place (getA y s) = a_place (getA y s0) /\
             a_kind (getA y s) = a_kind (getA y s0)).

Lemma fp_set_bees s0 pl k p (g : list nat -> list nat) s :
  fp s0 pl k s -> fp s0 pl k (updP p (fun P => with_bees (g (p_bees P)) P) s).
Proof.
  intros (Hk & Hslots & Hants). split; [exact Hk|]. split; [|exact Hants].
  intros q Hq. rewrite getP_updP.
  destruct (decide (p = q)) as [<-|]; apply Hslots; exact Hq.
Qed.

Lemma fp_updA s0 pl k a f s :
  (forall A, a_kind (f A) = a_kind A /\ a_place (f A) = a_place A) ->
  fp s0 pl k s -> fp s0 pl k (updA a f s).
Proof.
  intros Hf (Hk & Hslots & Hants). split; [exact Hk|]. split; [exact Hslots|].
  intros y. rewrite getA_updA. destruct (decide (a = y)) as [<-|]; [|apply Hants].
  destruct (Hf (getA a s)) as [-> ->]. apply Hants.
Qed.

Lemma fp_removeBee s0 pl k p b s E :
  fp s0 pl k s -> wp (Place_removeBee p b) (fun _ => fp s0 pl k) E s.
Proof.
  intros HF. unfold wp, Place_removeBee.
  destruct (indexOf b (p_bees (getP p s))) as [i|]; [|exact HF].
  change (fp s0 pl k (updP p (fun P => with_bees (delete i (p_bees P)) P) s)).
  apply (fp_set_bees s0 pl k p (delete i)). exact HF.
Qed.

Lemma fp_addBee s0 pl k p b s E :
  fp s0 pl k s -> wp (Place_addBee p b) (fun _ => fp s0 pl k) E s.
Proof.
  intros HF. unfold wp, Place_addBee, modify.
  change (fp s0 pl k (updP p (fun P => with_bees ((fun l => l ++ [b]) (p_bees P)) P) s)).
  apply (fp_set_bees s0 pl k p (fun l => l ++ [b])). exact HF.
Qed.

Lemma fp_Bee_reduceArmor s0 pl k b amount s :
  fp s0 pl k s ->
  wp (Bee_reduceArmor b amount) (fun _ => fp s0 pl k) (fp s0 pl k) s.
Proof.
  intros HF. unfold Bee_reduceArmor, Place_removeInsect_bee. wp_go.
  destruct (_ <=? 0); wp_go; [|exact HF].
  destruct (b_place _) as [p|]; wp_go; [|exact HF].
  eapply wp_mono; [apply (fp_removeBee s0 pl k p b _ (fp s0 pl k)); exact HF| |auto].
  intros u s' HF'. wp_go. exact HF'.
Qed.

(** The ant [a] stands at [pl]: its death empties a slot of that place
    only. *)
Lemma fp_Insect_reduceArmor_ant s0 a k amount s :
  fp s0 (a_place (getA a s0)) k s ->
  wp (Insect_reduceArmor_ant a amount)
     (fun _ => fp s0 (a_place (getA a s0)) k) (fp s0 (a_place (getA a s0)) k) s.
Proof.
  intros HF. unfold Insect_reduceArmor_ant, Place_removeInsect_ant. wp_go.
  assert (HF' : fp s0 (a_place (getA a s0)) k
                  (updA a (fun A => with_a_armor (JS.sub (a_armor A) amount) A) s))
    by (apply fp_updA; [intros A; auto|exact HF]).
  destruct (_ <=? 0); wp_go; [|exact HF'].
  destruct (a_place (getA a (updA _ _ _))) as [p|] eqn:Hp; wp_go; [|exact HF'].
  assert (Hpl : a_place (getA a s0) = Some p).
  { rewrite <- Hp. symmetry. apply HF'. }
  unfold wp at 1, Place_removeAnt.
  set (s1 := updA a _ s) in *.
  destruct HF' as (Hk & Hslots & Hants).
  destruct (p_guard (getP p s1)); wp_go.
  - split; [exact Hk|]. split; [|exact Hants].
    intros q Hq. rewrite getP_updP_ne by congruence. apply Hslots. exact Hq.
  - split; [exact Hk|]. split; [|exact Hants].
    intros q Hq. rewrite getP_updP_ne by congruence. apply Hslots. exact Hq.
Qed.

Lemma fp_spray_loop s0 pl k p n : forall s,
  fp s0 pl k s -> wp (spray_loop n p) (fun _ => fp s0 pl k) (fp s0 pl k) s.
Proof.
  induction n as [|n IH]; intros s HF; unfold wp; cbn [spray_loop].
  - destruct (Place_getClosestBee p 0 0 s); [exact I|exact HF].
  - destruct (Place_getClosestBee p 0 0 s) as [t|]; [|exact HF].
    change (wp (Bee_reduceArmor t 10 ;;; spray_loop n p)
              (fun _ => fp s0 pl k) (fp s0 pl k) s).
    apply wp_bind.
    eapply wp_mono; [apply (fp_Bee_reduceArmor s0 pl k t 10 s HF)| |auto].
    intros u s' HF'. apply IH. exact HF'.
Qed.

Lemma fp_leaf_act s0 a k s :
  fp s0 (a_place (getA a s0)) k s ->
  wp (ThrowerAnt_act a)
     (fun _ => fp s0 (a_place (getA a s0)) k) (fp s0 (a_place (getA a s0)) k) s.
Proof.
  intros HF. unfold ThrowerAnt_act, bug_spray. wp_go.
  destruct (negb _); wp_go.
  - destruct (a_place (getA a s)) as [p|]; wp_go; [|exact HF].
    destruct (Place_getClosestBee p _ 0 s) as [t|]; wp_go; [|exact HF].
    eapply wp_mono; [apply (fp_Bee_reduceArmor s0 _ k t 1 s HF)| |auto].
    intros u s1 HF1. wp_go. unfold Bee_setStatus.
    assert (Hclear : forall s', fp s0 (a_place (getA a s0)) k s' ->
              fp s0 (a_place (getA a s0)) k (updA a (with_a_boost None) s'))
      by (intros s' HF'; apply fp_updA; [intros A; auto|exact HF']).
    destruct (has_boost _ "StickyLeaf"); destruct (has_boost _ "IcyLeaf"); wp_go;
      apply Hclear; exact HF1.
  - destruct (a_place (getA a s)) as [p|]; wp_go; [|exact HF].
    eapply wp_mono; [apply (fp_spray_loop s0 _ k p _ s HF)| |auto].
    intros u s1 HF1. wp_go.
    eapply wp_mono; [apply (fp_Insect_reduceArmor_ant s0 a k 10 s1 HF1)| |auto].
    intros u' s2 HF2. wp_go. exact HF2.
Qed.

Lemma fp_EaterAnt_act s0 pl a k s :
  fp s0 pl k s -> wp (EaterAnt_act a) (fun _ => fp s0 pl k) (fp s0 pl k) s.
Proof.
  intros HF. unfold EaterAnt_act. wp_go.
  assert (Hset : forall z s', fp s0 pl k s' ->
            fp s0 pl k (updA a (with_a_turnsEating z) s'))
    by (intros z s' HF'; apply fp_updA; [intros A; auto|exact HF']).
  destruct (_ =? 0); wp_go; [|destruct (3 <? _); wp_go].
  - destruct (a_place (getA a s)) as [p|]; wp_go; [|exact HF].
    destruct (Place_getClosestBee p 0 0 s) as [t|]; wp_go; [|exact HF].
    eapply wp_mono; [apply (fp_removeBee s0 pl k p t s (fp s0 pl k) HF)| |auto].
    intros u s1 HF1. wp_go.
    destruct (a_stomach (getA a s1)) as [sp|]; wp_go; [|exact HF1].
    eapply wp_mono; [apply (fp_addBee s0 pl k sp t s1 (fp s0 pl k) HF1)| |auto].
    intros u' s2 HF2. wp_go. apply Hset. exact HF2.
  - destruct (a_stomach (getA a s)) as [sp|]; wp_go; [|exact HF].
    destruct (head _) as [b|]; wp_go.
    + eapply wp_mono; [apply (fp_removeBee s0 pl k sp b s (fp s0 pl k) HF)| |auto].
      intros u s1 HF1. wp_go. apply Hset. exact HF1.
    + apply Hset. exact HF.
  - apply Hset. exact HF.
Qed.

Lemma fp_GrowerAnt_act s0 pl a k s :
  fp s0 pl k s -> wp (GrowerAnt_act a) (fun _ => fp s0 pl k) (fp s0 pl k) s.
Proof.
  intros HF. unfold GrowerAnt_act. apply wp_bind.
  unfold wp at 1, Math_random.
  assert (HF' : fp s0 pl k (set_random_pos (S (random_pos s)) s)) by exact HF.
  assert (Hboost : forall b, wp (AntColony_addBoost b) (fun _ => fp s0 pl k)
                               (fp s0 pl k) (set_random_pos (S (random_pos s)) s)).
  { intros b. unfold AntColony_addBoost, wp, modify.
    destruct (boosts_get b _); exact HF'. }
  repeat (destruct (Qltb _ _); [first [exact HF' | apply Hboost]|]).
  exact HF'.
Qed.

(** The act of [a] is recorded once and touches the slots of the place of
    [a] only. *)
Lemma fp_Ant_act a s :
  wp (Ant_act a)
     (fun _ => fp s (a_place (getA a s)) (a :: acted s))
     (fp s (a_place (getA a s)) (a :: acted s)) s.
Proof.
  unfold Ant_act. wp_go.
  assert (HF : fp s (a_place (getA a s)) (a :: acted s)
                 (set_acted (a :: acted s) s)).
  { split; [reflexivity|]. split; intros; split; reflexivity. }
  destruct (a_kind _).
  - apply fp_GrowerAnt_act; exact HF.
  - apply fp_leaf_act; exact HF.
  - apply fp_EaterAnt_act; exact HF.
  - apply (fp_leaf_act s a _ _ HF).
  - exact HF.
Qed.

(** How often the act of [a] has been called. *)
Definition times (a : nat) (l : list nat) : nat :=
  length (filter (fun x => x = a) l).

Lemma times_cons_ne a x l : x <> a -> times a (x :: l) = times a l.
Proof. intros H. unfold times. rewrite filter_cons. case_decide; [contradiction|reflexivity]. Qed.

Lemma times_cons_eq a l : times a (a :: l) = S (times a l).
Proof. unfold times. rewrite filter_cons. case_decide; [reflexivity|contradiction]. Qed.

Lemma forEach_app {A} (l1 l2 : list A) (f : A -> M unit) s :
  forEach (l1 ++ l2) f s = (forEach l1 f ;;; forEach l2 f) s.
Proof.
  revert s. induction l1 as [|x l1 IH]; intros s; cbn [app forEach].
  - reflexivity.
  - unfold bind in *. destruct (f x s) as [u s'|s'|]; [|reflexivity..].
    apply IH.
Qed.

(** The body of the loop of [antsAct]. *)
Definition antsAct_body (ant : nat) : M unit :=
  k <- gets (fun s => a_kind (getA ant s)) ;;
  (if decide (k = Guard) then
     guarded <- GuardAnt_getGuarded ant ;;
     match guarded with
     | Some g => Ant_act g
     | None => ret tt
     end
   else ret tt) ;;;
  Ant_act ant.

Lemma antsAct_unfold s :
  AntColony_antsAct s = forEach (AntColony_getAllAnts s) antsAct_body s.
Proof. reflexivity. Qed.

Section Sweep.

(** In [s0] the cell [p] holds the Guard [g] and, shielded by it, [a]. *)
Variables (H N : nat) (W : gmap Z (list nat)) (L : list nat).
Variables (s0 : State) (p g a : nat).
Hypothesis Hinv0 : Inv H N W L s0.
Hypothesis Hguard : p_guard (getP p s0) = Some g.
Hypothesis Hant : p_ant (getP p s0) = Some a.

(** During the sweep: the invariant holds, [a] has acted [n] times, and
    no ant has changed kind or place. *)
Definition sweeping (n : nat) (s : State) : Prop :=
  Inv H N W L s /\ times a (acted s) = n /\
  forall y, a_place (getA y s) = a_place (getA y s0) /\
            a_kind (getA y s) = a_kind (getA y s0).

(** The cell [p] still holds both. *)
Definition shielded (s : State) : Prop :=
  p_ant (getP p s) = Some a /\ p_guard (getP p s) = Some g.

Lemma a_stands_at_p : a_place (getA a s0) = Some p.
Proof. destruct Hinv0 as [(Hs & _) _]. apply (proj1 (Hs p a) Hant). Qed.

Lemma g_is_guard : a_place (getA g s0) = Some p /\ a_kind (getA g s0) = Guard.
Proof.
  destruct Hinv0 as [(Hs & _) _].
  destruct (proj2 (Hs p g) Hguard) as (? & ? & _). auto.
Qed.

Lemma a_not_guard : a_kind (getA a s0) <> Guard.
Proof. destruct Hinv0 as [(Hs & _) _]. apply (proj1 (Hs p a) Hant). Qed.

(** An ant that is not [a] acts: [a] has acted as often as before, and
    when the ant stands elsewhere than at [p] the cell [p] is as before. *)
Lemma sweeping_act z n s :
  sweeping n s -> z <> a ->
  wp (Ant_act z)
     (fun _ s' => sweeping n s' /\
                  (a_place (getA z s0) <> Some p -> shielded s -> shielded s'))
     (fun s' => sweeping n s' /\
                (a_place (getA z s0) <> Some p -> shielded s -> shielded s')) s.
Proof.
  intros (HI & Hn & Hsame) Hz.
  pose proof (wp_conj _ _ _ _ _ _ (Inv_Ant_act H N W L z s HI) (fp_Ant_act z s)) as Hwp.
  assert (Hpost : forall s', Inv H N W L s' /\
                    fp s (a_place (getA z s)) (z :: acted s) s' ->
                    sweeping n s' /\
                    (a_place (getA z s0) <> Some p -> shielded s -> shielded s')).
  { intros s' (HI' & Hk & Hslots & Hants). split.
    - split; [exact HI'|]. split; [rewrite Hk, times_cons_ne; assumption|].
      intros y. destruct (Hants y) as [-> ->]. apply Hsame.
    - intros Hpl [Ha Hg]. rewrite (proj1 (Hsame z)) in Hslots.
      unfold shielded. destruct (Hslots p Hpl) as [-> ->]. split; assumption. }
  eapply wp_mono; [exact Hwp| |]; cbv beta; auto.
Qed.

(** The body of the loop on the ant of a cell [q] other than [p]. *)
Lemma sweeping_body_other x q n s :
  a_place (getA x s0) = Some q -> q <> p ->
  sweeping n s ->
  wp (antsAct_body x)
     (fun _ s' => sweeping n s' /\ (shielded s -> shielded s'))
     (fun s' => sweeping n s' /\ (shielded s -> shielded s')) s.
Proof.
  intros Hx Hq HS.
  assert (Hxa : x <> a) by (intros ->; rewrite a_stands_at_p in Hx; congruence).
  assert (Hxp : a_place (getA x s0) <> Some p) by congruence.
  assert (Hlast : forall s1, sweeping n s1 -> (shielded s -> shielded s1) ->
            wp (Ant_act x)
               (fun _ s' => sweeping n s' /\ (shielded s -> shielded s'))
               (fun s' => sweeping n s' /\ (shielded s -> shielded s')) s1).
  { intros s1 HS1 Hsh. eapply wp_mono; [apply (sweeping_act x n s1 HS1 Hxa)| |];
      cbv beta; intros; intuition. }
  unfold antsAct_body, GuardAnt_getGuarded. wp_go.
  destruct (decide _); wp_go; [|apply Hlast; auto].
  destruct (a_place (getA x s)) as [q'|] eqn:Hq'; wp_go; [|auto].
  assert (q' = q) as -> by (destruct HS as (_ & _ & Hsame);
                            rewrite (proj1 (Hsame x)) in Hq'; congruence).
  destruct (Place_getGuardedAnt q s) as [y|] eqn:Hy; wp_go; [|apply Hlast; auto].
  assert (Hyq : a_place (getA y s0) = Some q).
  { destruct HS as ([(Hs & _) _] & _ & Hsame).
    rewrite <- (proj1 (Hsame y)). apply (proj1 (Hs q y) Hy). }
  assert (Hya : y <> a) by (intros ->; rewrite a_stands_at_p in Hyq; congruence).
  eapply wp_mono; [apply (sweeping_act y n s HS Hya)| |].
  - cbv beta. intros u s1 [HS1 Hsh]. apply Hlast; [exact HS1|].
    apply Hsh. congruence.
  - cbv beta. intros s1 [HS1 Hsh]. split; [exact HS1|]. apply Hsh. congruence.
Qed.

(** The shielded ant acts: one more call of its act. *)
Lemma sweeping_act_shielded n s :
  sweeping n s ->
  wp (Ant_act a) (fun _ => sweeping (S n)) (sweeping (S n)) s.
Proof.
  intros (HI & Hn & Hsame).
  pose proof (wp_conj _ _ _ _ _ _ (Inv_Ant_act H N W L a s HI) (fp_Ant_act a s)) as Hwp.
  assert (Hpost : forall s', Inv H N W L s' /\
                    fp s (a_place (getA a s)) (a :: acted s) s' ->
                    sweeping (S n) s').
  { intros s' (HI' & Hk & Hslots & Hants).
    split; [exact HI'|]. split; [rewrite Hk, times_cons_eq, Hn; reflexivity|].
    intros y. destruct (Hants y) as [-> ->]. apply Hsame. }
  eapply wp_mono; [exact Hwp| |]; cbv beta; auto.
Qed.

(** The body of the loop on the Guard of [p]: the shielded ant acts, then
    the Guard. *)
Lemma sweeping_body_guard n s :
  sweeping n s -> shielded s ->
  wp (antsAct_body g)
     (fun _ => sweeping (S n))
     (fun s' => sweeping n s' \/ sweeping (S n) s') s.
Proof.
  intros HS [Ha Hg].
  destruct g_is_guard as [Hgp Hgk].
  assert (Hga : g <> a) by (intros ->; apply a_not_guard; exact Hgk).
  pose proof HS as (_ & _ & Hsame).
  unfold antsAct_body, GuardAnt_getGuarded. wp_go.
  rewrite (proj2 (Hsame g)), Hgk.
  destruct (decide (Guard = Guard)); [|congruence]. wp_go.
  rewrite (proj1 (Hsame g)), Hgp. wp_go.
  unfold Place_getGuardedAnt. rewrite Ha. wp_go.
  eapply wp_mono; [apply (sweeping_act_shielded n s HS)| |auto].
  cbv beta. intros u s1 HS1.
  eapply wp_mono; [apply (sweeping_act g (S n) s1 HS1 Hga)| |];
    cbv beta; intros; intuition.
Qed.

Lemma sweep_others l n s :
  (forall x, x ∈ l -> exists q, a_place (getA x s0) = Some q /\ q <> p) ->
  sweeping n s ->
  wp (forEach l antsAct_body)
     (fun _ s' => sweeping n s' /\ (shielded s -> shielded s'))
     (fun s' => sweeping n s' /\ (shielded s -> shielded s')) s.
Proof.
  intros Hl HS.
  apply (wp_forEach l antsAct_body
           (fun s' => sweeping n s' /\ (shielded s -> shielded s'))); [|auto].
  intros x s1 Hx [HS1 Hsh]. destruct (Hl x Hx) as (q & Hq & Hne).
  eapply wp_mono; [apply (sweeping_body_other x q n s1 Hq Hne HS1)| |];
    cbv beta; intros; intuition.
Qed.

(** The ant that [getAllAnts] lists for a cell stands in that cell. *)
Lemma listed_ant_place q x :
  Place_getAnt q s0 = Some x -> a_place (getA x s0) = Some q.
Proof.
  destruct Hinv0 as [(Hs & _) _]. unfold Place_getAnt.
  destruct (p_guard (getP q s0)) as [c|] eqn:Hc.
  - intros [= <-]. apply (proj2 (Hs q c) Hc).
  - intros Hx. apply (proj1 (Hs q x) Hx).
Qed.

Lemma sweep_cells pre post :
  concat (grid s0) = pre ++ p :: post -> p ∉ pre -> p ∉ post ->
  wp AntColony_antsAct
     (fun _ s' => times a (acted s') = S (times a (acted s0)))
     (fun s' => (times a (acted s') <= S (times a (acted s0)))%nat) s0.
Proof.
  intros Hcells Hpre Hpost.
  unfold wp. rewrite antsAct_unfold. unfold AntColony_getAllAnts.
  rewrite Hcells, omap_app. cbn [omap list_omap].
  assert (Hg : Place_getAnt p s0 = Some g) by (unfold Place_getAnt; rewrite Hguard; reflexivity).
  rewrite Hg. rewrite forEach_app. cbn [forEach].
  set (n := times a (acted s0)).
  assert (HS0 : sweeping n s0) by (split; [exact Hinv0|split; [reflexivity|auto]]).
  assert (Hsh0 : shielded s0) by (split; assumption).
  assert (Hother : forall (l : list nat) x, p ∉ l ->
            x ∈ omap (fun q => Place_getAnt q s0) l ->
            exists q, a_place (getA x s0) = Some q /\ q <> p).
  { intros l x Hp Hx. apply list_elem_of_omap in Hx as (q & Hq & Hx).
    exists q. split; [apply listed_ant_place; exact Hx|].
    intros ->. contradiction. }
  change (wp (forEach (omap (fun q => Place_getAnt q s0) pre) antsAct_body ;;;
              antsAct_body g ;;;
              forEach (omap (fun q => Place_getAnt q s0) post) antsAct_body)
            (fun _ s' => times a (acted s') = S n)
            (fun s' => (times a (acted s') <= S n)%nat) s0).
  apply wp_bind.
  eapply wp_mono; [apply (sweep_others _ n s0 (fun x => Hother pre x Hpre) HS0)| |].
  - cbv beta. intros u s1 [HS1 Hsh]. apply wp_bind.
    eapply wp_mono; [apply (sweeping_body_guard n s1 HS1 (Hsh Hsh0))| |].
    + cbv beta. intros u1 s2 HS2.
      eapply wp_mono; [apply (sweep_others _ (S n) s2 (fun x => Hother post x Hpost) HS2)| |].
      * cbv beta. intros u2 s3 [(_ & Hn & _) _]. exact Hn.
      * cbv beta. intros s3 [(_ & Hn & _) _]. lia.
    + cbv beta. intros s2 [(_ & Hn & _)|(_ & Hn & _)]; lia.
  - cbv beta. intros s1 [(_ & Hn & _) _]. lia.
Qed.

End Sweep.

(** ** The loop of the bug spray ends within its bound, or never *)

Lemma closest_here p s : Place_getClosestBee p 0 0 s = head (p_bees (getP p s)).
Proof.
  unfold Place_getClosestBee. change (Z.to_nat (0 + 1)) with 1%nat.
  cbn [closestBee_loop]. change (0 <=? 0) with true. cbv iota. cbn [andb].
  destruct (p_bees (getP p s)); reflexivity.
Qed.

Lemma Bee_reduceArmor_returns b amount s :
  Bee_reduceArmor b amount s <> Diverge.
Proof.
  unfold Bee_reduceArmor, bind, modify, gets, ret, throw, Place_removeInsect_bee,
    Place_removeBee.
  destruct (_ <=? 0); [|discriminate].
  destruct (b_place _); [|discriminate].
  destruct (indexOf _ _); discriminate.
Qed.

(** More passes than needed change nothing. *)
Lemma spray_loop_mono p n : forall s m,
  spray_loop n p s <> Diverge -> (n <= m)%nat ->
  spray_loop m p s = spray_loop n p s.
Proof.
  induction n as [|n IH]; intros s m Hnd Hle.
  - cbn [spray_loop] in *. destruct m; cbn [spray_loop];
      destruct (Place_getClosestBee p 0 0 s); congruence.
  - destruct m as [|m]; [lia|]. cbn [spray_loop] in *.
    destruct (Place_getClosestBee p 0 0 s) as [t|]; [|reflexivity].
    unfold bind in *. destruct (Bee_reduceArmor t 10 s) as [r s1|s1|]; try reflexivity.
    apply IH; [exact Hnd|lia].
Qed.

Definition spray_cost (s : State) (b : nat) : nat := S (Z.to_nat (b_armor (getB b s))).

Lemma spray_measure_eq p s :
  spray_measure p s = list_sum (map (spray_cost s) (p_bees (getP p s))).
Proof. reflexivity. Qed.

Lemma list_sum_map_le (f g : nat -> nat) (l : list nat) :
  (forall b, (f b <= g b)%nat) ->
  (list_sum (map f l) <= list_sum (map g l))%nat.
Proof.
  intros H. unfold list_sum. induction l as [|x l IH]; cbn [map fold_right]; [lia|].
  specialize (H x). lia.
Qed.

(** [Insect.reduceArmor] on a bee, in one piece. *)
Lemma Bee_reduceArmor_eq b amount s :
  Bee_reduceArmor b amount s =
  let sa := updB b (fun B => with_b_armor (JS.sub (b_armor B) amount) B) s in
  if JS.sub (b_armor (getB b s)) amount <=? 0 then
    match b_place (getB b s) with
    | Some p =>
        match indexOf b (p_bees (getP p s)) with
        | Some i =>
            Ok true (updB b (with_b_place None)
                       (updP p (fun P => with_bees (delete i (p_bees P)) P) sa))
        | None => Ok true sa
        end
    | None => Throw sa
    end
  else Ok false sa.
Proof.
  unfold Bee_reduceArmor, Place_removeInsect_bee, Place_removeBee.
  unfold bind, modify, gets, ret, throw. cbv beta zeta.
  rewrite getB_updB_eq. cbn [b_armor with_b_armor].
  destruct (_ <=? 0); [|reflexivity].
  cbv beta. rewrite getB_updB_eq. cbn [b_place with_b_armor].
  destruct (b_place (getB b s)) as [p|]; [|reflexivity].
  cbv beta. change (getP p (updB b _ s)) with (getP p s).
  destruct (indexOf b (p_bees (getP p s))); reflexivity.
Qed.

(** An armor that a hit does not lower is not lowered by the next hit
    either: the hit is absorbed by the rounding. *)
Lemma sub_absorbed a y :
  0 <= y -> a <= JS.sub a y -> JS.sub (JS.sub a y) y = JS.sub a y.
Proof.
  intros Hy Ha. unfold JS.sub in *.
  pose proof (fl_mono (a - y) (JS.fl (a - y) - y) ltac:(lia)) as H1.
  pose proof (fl_mono (JS.fl (a - y) - y) (JS.fl (a - y)) ltac:(lia)) as H2.
  rewrite fl_idem in H2. lia.
Qed.

(** A bee past saving, whose place does not list it: the loop hits it for
    ever. *)
Lemma spray_stuck p t q m : forall s,
  head (p_bees (getP p s)) = Some t ->
  b_armor (getB t s) <= 10 ->
  b_place (getB t s) = Some q ->
  indexOf t (p_bees (getP q s)) = None ->
  spray_loop m p s = Diverge.
Proof.
  induction m as [|m IH]; intros s Hhead Harm Hpl Hidx; cbn [spray_loop];
    rewrite closest_here, Hhead; [reflexivity|].
  unfold bind. rewrite Bee_reduceArmor_eq. cbv zeta.
  pose proof (proj2 (sub_nonpos (b_armor (getB t s)) 10) Harm) as Hd.
  destruct (Z.leb_spec (JS.sub (b_armor (getB t s)) 10) 0) as [_|Hgt]; [|lia].
  rewrite Hpl, Hidx.
  apply IH; store_simpl; cbn [b_armor b_place with_b_armor]; try assumption. lia.
Qed.

(** A bee whose armor the hit does not lower: the loop hits it for ever. *)
Lemma spray_absorbed p t m : forall s,
  head (p_bees (getP p s)) = Some t ->
  0 < b_armor (getB t s) ->
  JS.sub (b_armor (getB t s)) 10 = b_armor (getB t s) ->
  spray_loop m p s = Diverge.
Proof.
  induction m as [|m IH]; intros s Hhead Hpos Hfix; cbn [spray_loop];
    rewrite closest_here, Hhead; [reflexivity|].
  unfold bind. rewrite Bee_reduceArmor_eq. cbv zeta.
  destruct (Z.leb_spec (JS.sub (b_armor (getB t s)) 10) 0) as [Hd|_]; [lia|].
  apply IH; store_simpl; cbn [b_armor with_b_armor]; try assumption.
  - rewrite Hfix. exact Hpos.
  - rewrite Hfix. exact Hfix.
Qed.

Lemma spray_diverges p n : forall s,
  (spray_measure p s < n)%nat ->
  spray_loop n p s = Diverge ->
  forall m, spray_loop m p s = Diverge.
Proof.
  induction n as [|n IH]; intros s Hmu Hdiv; [lia|].
  cbn [spray_loop] in Hdiv. rewrite closest_here in Hdiv.
  destruct (p_bees (getP p s)) as [|t l] eqn:Hl; [discriminate|].
  cbn [head] in Hdiv.
  assert (Hstep : forall r s1, Bee_reduceArmor t 10 s = Ok r s1 ->
            (forall k, spray_loop k p s1 = Diverge) ->
            forall k, spray_loop k p s = Diverge).
  { intros r s1 Hr Hall k. destruct k as [|k]; cbn [spray_loop];
      rewrite closest_here, Hl; [reflexivity|].
    cbn [head]. unfold bind. rewrite Hr. apply Hall. }
  set (sa := updB t (fun B => with_b_armor (JS.sub (b_armor B) 10) B) s).
  assert (Hcost : JS.sub (b_armor (getB t s)) 10 <= b_armor (getB t s) ->
                  forall b, (spray_cost sa b <= spray_cost s b)%nat).
  { intros Hlow b. unfold spray_cost, sa. rewrite getB_updB.
    destruct (decide (t = b)) as [<-|]; [|lia]. cbn [b_armor with_b_armor]. lia. }
  assert (Hmu_s : spray_measure p s
                  = (spray_cost s t + list_sum (map (spray_cost s) l))%nat)
    by (rewrite spray_measure_eq, Hl; reflexivity).
  unfold bind in Hdiv. rewrite Bee_reduceArmor_eq in Hdiv, Hstep.
  cbv zeta in Hdiv, Hstep. fold sa in Hdiv, Hstep.
  destruct (Z.leb_spec (JS.sub (b_armor (getB t s)) 10) 0) as [Hdead|Halive].
  - destruct (b_place (getB t s)) as [q|] eqn:Hpl; [|discriminate].
    destruct (indexOf t (p_bees (getP q s))) as [i|] eqn:Hidx.
    + set (s1 := updB t (with_b_place None)
                   (updP q (fun P => with_bees (delete i (p_bees P)) P) sa)) in *.
      apply (Hstep true s1 eq_refl).
      destruct (decide (q = p)) as [->|Hqp].
      * (* the bee leaves the list of the place *)
        apply IH; [|exact Hdiv].
        rewrite Hl, indexOf_head in Hidx. injection Hidx as <-.
        assert (Hl1 : p_bees (getP p s1) = l).
        { unfold s1. store_simpl. cbn [p_bees with_bees].
          change (getP p sa) with (getP p s). rewrite Hl. reflexivity. }
        assert (Hc : forall b, (spray_cost s1 b <= spray_cost s b)%nat).
        { intros b. unfold spray_cost, s1, sa. rewrite getB_updB.
          destruct (decide (t = b)) as [<-|].
          - change (getB t (updP p _ ?x)) with (getB t x).
            rewrite getB_updB_eq. cbn [b_armor with_b_place with_b_armor]. lia.
          - change (getB b (updP p _ ?x)) with (getB b x).
            rewrite getB_updB_ne by assumption. reflexivity. }
        rewrite spray_measure_eq, Hl1.
        pose proof (list_sum_map_le (spray_cost s1) (spray_cost s) l Hc) as Hle.
        unfold spray_cost at 1 in Hmu_s. lia.
      * (* the bee leaves another list: the next pass raises *)
        exfalso. destruct n as [|n].
        -- unfold spray_cost in Hmu_s. lia.
        -- cbn [spray_loop] in Hdiv. rewrite closest_here in Hdiv.
           assert (Hl1 : p_bees (getP p s1) = t :: l).
           { unfold s1. store_simpl. rewrite getP_updP_ne by assumption.
             change (getP p sa) with (getP p s). exact Hl. }
           rewrite Hl1 in Hdiv. cbn [head] in Hdiv.
           unfold bind in Hdiv. rewrite Bee_reduceArmor_eq in Hdiv. cbv zeta in Hdiv.
           assert (Ha1 : b_armor (getB t s1) = JS.sub (b_armor (getB t s)) 10).
           { unfold s1, sa. rewrite getB_updB_eq.
             change (getB t (updP q _ ?x)) with (getB t x).
             rewrite getB_updB_eq. reflexivity. }
           assert (Hp1 : b_place (getB t s1) = None).
           { unfold s1. rewrite getB_updB_eq. reflexivity. }
           rewrite Ha1, Hp1 in Hdiv.
           pose proof (proj2 (sub_nonpos (JS.sub (b_armor (getB t s)) 10) 10)
                         ltac:(lia)).
           destruct (Z.leb_spec (JS.sub (JS.sub (b_armor (getB t s)) 10) 10) 0);
             [discriminate|lia].
    + apply (Hstep true sa eq_refl).
      intros k. apply (spray_stuck p t q k sa).
      * change (getP p sa) with (getP p s). rewrite Hl. reflexivity.
      * unfold sa. rewrite getB_updB_eq. cbn [b_armor with_b_armor]. lia.
      * unfold sa. rewrite getB_updB_eq. exact Hpl.
      * change (getP q sa) with (getP q s). exact Hidx.
  - apply (Hstep false sa eq_refl).
    destruct (Z.lt_ge_cases (JS.sub (b_armor (getB t s)) 10) (b_armor (getB t s)))
      as [Hlow|Hkept].
    + (* the armor is lowered *)
      apply IH; [|exact Hdiv].
      rewrite spray_measure_eq. change (getP p sa) with (getP p s). rewrite Hl.
      cbn [map]. change (list_sum (?x :: ?r)) with (x + list_sum r)%nat.
      pose proof (list_sum_map_le (spray_cost sa) (spray_cost s) l
                    (Hcost ltac:(lia))) as Hle.
      assert (spray_cost sa t < spray_cost s t)%nat.
      { unfold spray_cost, sa. store_simpl. cbn [b_armor with_b_armor]. lia. }
      lia.
    + (* the hit is absorbed, now and for ever *)
      intros k. apply (spray_absorbed p t k sa).
      * change (getP p sa) with (getP p s). rewrite Hl. reflexivity.
      * unfold sa. rewrite getB_updB_eq. cbn [b_armor with_b_armor]. exact Halive.
      * unfold sa. rewrite getB_updB_eq. cbn [b_armor with_b_armor].
        apply sub_absorbed; lia.
Qed.

(** The bound is enough: whatever number of passes lets the loop end, the
    bound lets it end in the same way. *)
Lemma spray_bound_enough p s m :
  spray_loop m p s <> Diverge ->
  spray_loop (spray_bound p s) p s = spray_loop m p s.
Proof.
  intros Hm.
  assert (Hb : spray_loop (spray_bound p s) p s <> Diverge).
  { intros Hdiv. apply Hm.
    apply (spray_diverges p (spray_bound p s) s); [unfold spray_bound; lia|exact Hdiv]. }
  destruct (Nat.le_ge_cases m (spray_bound p s)) as [Hle|Hge].
  - apply spray_loop_mono; assumption.
  - symmetry. apply spray_loop_mono; assumption.
Qed.

(** The armor that the rounding keeps out of reach of the spray: from
    [2 ^ 57 + 32] on, taking 10 changes nothing. *)
Lemma spray_absorbs_1e18 : JS.sub (10 ^ 18) 10 = 10 ^ 18.
Proof. vm_compute. reflexivity. Qed.

(** ** Every call returns or raises *)

(** [wp] says nothing of a call that does not return.  [twp d] asks [d] of
    it: [twp False] is for the calls that return or raise, [twp True] is
    [wp]. *)
Definition twp {A} (d : Prop) (m : M A) (Q : A -> State -> Prop)
    (E : State -> Prop) (s : State) : Prop :=
  match m s with
  | Ok a s' => Q a s'
  | Throw s' => E s'
  | Diverge => d
  end.

Lemma twp_ret {A} d (a : A) Q E s : Q a s -> twp d (ret a) Q E s.
Proof. intros H. exact H. Qed.

Lemma twp_throw {A} d (Q : A -> State -> Prop) E s : E s -> twp d throw Q E s.
Proof. intros H. exact H. Qed.

Lemma twp_gets {A} d (f : State -> A) Q E s : Q (f s) s -> twp d (gets f) Q E s.
Proof. intros H. exact H. Qed.

Lemma twp_modify d (f : State -> State) Q E s : Q tt (f s) -> twp d (modify f) Q E s.
Proof. intros H. exact H. Qed.

Lemma twp_bind {A B} d (m : M A) (k : A -> M B) Q E s :
  twp d m (fun a s' => twp d (k a) Q E s') E s -> twp d (bind m k) Q E s.
Proof.
  unfold twp, bind. destruct (m s) as [a s'| s' |]; intros H; exact H.
Qed.

Lemma twp_mono {A} d (m : M A) (Q Q' : A -> State -> Prop) (E E' : State -> Prop) s :
  twp d m Q E s ->
  (forall a s', Q a s' -> Q' a s') ->
  (forall s', E s' -> E' s') ->
  twp d m Q' E' s.
Proof.
  unfold twp. destruct (m s) as [a s'| s' |]; intros H HQ HE; auto.
Qed.

Lemma twp_try_catch {A} d (m h : M A) Q E s :
  twp d m Q (fun s' => twp d h Q E s') s -> twp d (try_catch m h) Q E s.
Proof.
  unfold twp, try_catch. destruct (m s) as [a s'| s' |]; intros H; exact H.
Qed.

Lemma twp_forEach {A} d (l : list A) (f : A -> M unit) (I : State -> Prop) s :
  (forall x s', x ∈ l -> I s' -> twp d (f x) (fun _ => I) I s') ->
  I s -> twp d (forEach l f) (fun _ => I) I s.
Proof.
  revert s. induction l as [|x l IH]; intros s Hf HI.
  - exact HI.
  - cbn [forEach]. apply twp_bind.
    eapply twp_mono; [apply Hf; [apply list_elem_of_here|exact HI]| |auto].
    intros u s' HI'. apply IH; [|exact HI'].
    intros y s'' Hy. apply Hf. apply list_elem_of_further. exact Hy.
Qed.

Lemma twp_returns {A} (m : M A) Q E s : twp False m Q E s -> m s <> Diverge.
Proof. unfold twp. destruct (m s); [discriminate|discriminate|contradiction]. Qed.

Lemma twp_wp {A} d (m : M A) Q E s : twp d m Q E s -> wp m Q E s.
Proof. unfold twp, wp. destruct (m s); auto. Qed.

(** What a call that returns or raises ends in. *)
Lemma twp_run {A} d (m : M A) (I : State -> Prop) s :
  I s -> twp d m (fun _ => I) I s -> I (run m s).
Proof. intros H0 H. apply wp_run; [exact H0|]. apply (twp_wp d). exact H. Qed.

Ltac twp_go :=
  repeat (cbv beta;
          lazymatch goal with
          | |- twp _ (bind _ _) _ _ _ => apply twp_bind
          | |- twp _ (ret _) _ _ _ => apply twp_ret
          | |- twp _ throw _ _ _ => apply twp_throw
          | |- twp _ (gets _) _ _ _ => apply twp_gets
          | |- twp _ (modify _) _ _ _ => apply twp_modify
          end).

(** What the loop of the bug spray needs in order to end: a bee that names
    a place is in the list of that place.  The rest keeps this true when a
    place is created: every reference to a place is to one that exists, and
    a place that does not exist yet has no bees. *)
Record tidy (s : State) : Prop := mkTidy {
  tidy_listed : forall b q, b_place (getB b s) = Some q -> b ∈ p_bees (getP q s);
  tidy_fresh : forall q, (next_place s <= q)%nat -> p_bees (getP q s) = [];
  tidy_exit : forall p e, p_exit (getP p s) = Some e -> (e < next_place s)%nat;
  tidy_entrances : forall e, e ∈ beeEntrances s -> (e < next_place s)%nat;
  tidy_hive : (hive s < next_place s)%nat;
  tidy_stomach : forall a sp, a_stomach (getA a s) = Some sp -> (sp < next_place s)%nat;
  tidy_stands : forall a p, a_place (getA a s) = Some p -> (p < next_place s)%nat;
  tidy_grid : forall p, p ∈ concat (grid s) -> (p < next_place s)%nat;
  tidy_queen : (queenPlace s < next_place s)%nat
}.

Lemma tidy_updA a f s :
  (forall A, a_place (f A) = a_place A /\ a_stomach (f A) = a_stomach A) ->
  tidy s -> tidy (updA a f s).
Proof.
  intros Hf [H1 H2 H3 H4 H5 H6 H7 H8 H9].
  split; try assumption.
  - intros c sp. rewrite getA_updA. destruct (decide (a = c)) as [<-|Hne]; [|apply H6].
    rewrite (proj2 (Hf _)). apply H6.
  - intros c p. rewrite getA_updA. destruct (decide (a = c)) as [<-|Hne]; [|apply H7].
    rewrite (proj1 (Hf _)). apply H7.
Qed.

Lemma tidy_set_place a p s :
  (p < next_place s)%nat -> tidy s -> tidy (updA a (with_a_place (Some p)) s).
Proof.
  intros Hp [H1 H2 H3 H4 H5 H6 H7 H8 H9].
  split; try assumption.
  - intros c sp. rewrite getA_updA. destruct (decide (a = c)) as [<-|Hne]; apply H6.
  - intros c q. rewrite getA_updA. destruct (decide (a = c)) as [<-|Hne]; [|apply H7].
    cbn [a_place with_a_place]. intros [= <-]. exact Hp.
Qed.

Lemma tidy_updP p f s :
  (forall P, p_bees (f P) = p_bees P /\ p_exit (f P) = p_exit P) ->
  tidy s -> tidy (updP p f s).
Proof.
  intros Hf [H1 H2 H3 H4 H5 H6 H7 H8 H9].
  assert (Hb : forall q, p_bees (getP q (updP p f s)) = p_bees (getP q s)).
  { intros q. rewrite getP_updP. destruct (decide (p = q)) as [<-|]; [|reflexivity].
    apply Hf. }
  assert (He : forall q, p_exit (getP q (updP p f s)) = p_exit (getP q s)).
  { intros q. rewrite getP_updP. destruct (decide (p = q)) as [<-|]; [|reflexivity].
    apply Hf. }
  split; try assumption.
  - intros b q. rewrite Hb. apply H1.
  - intros q. rewrite Hb. apply H2.
  - intros q e. rewrite He. apply H3.
Qed.

Lemma tidy_updB b f s :
  (forall B, b_place (f B) = b_place B) -> tidy s -> tidy (updB b f s).
Proof.
  intros Hf [H1 H2 H3 H4 H5 H6 H7 H8 H9].
  split; try assumption.
  intros c q. rewrite getB_updB. destruct (decide (b = c)) as [<-|Hne]; [|apply H1].
  rewrite Hf. apply H1.
Qed.

(** The state of [addBee]. *)
Lemma tidy_addBee p b s :
  (p < next_place s)%nat -> tidy s ->
  tidy (updB b (with_b_place (Some p))
          (updP p (fun P => with_bees (p_bees P ++ [b]) P) s)).
Proof.
  intros Hp [H1 H2 H3 H4 H5 H6 H7 H8 H9].
  set (s1 := updP p (fun P => with_bees (p_bees P ++ [b]) P) s).
  assert (Hb : forall q, p_bees (getP q (updB b (with_b_place (Some p)) s1))
                         = if decide (p = q) then p_bees (getP p s) ++ [b]
                           else p_bees (getP q s)).
  { intros q. change (getP q (updB _ _ s1)) with (getP q s1). unfold s1.
    rewrite getP_updP. destruct (decide (p = q)); reflexivity. }
  assert (He : forall q, p_exit (getP q (updB b (with_b_place (Some p)) s1))
                         = p_exit (getP q s)).
  { intros q. change (getP q (updB _ _ s1)) with (getP q s1). unfold s1.
    rewrite getP_updP. destruct (decide (p = q)) as [<-|]; reflexivity. }
  split; try assumption.
  - intros c q. rewrite getB_updB, Hb.
    destruct (decide (b = c)) as [<-|Hne].
    + cbn [b_place with_b_place]. intros [= <-].
      destruct (decide (p = p)); [|congruence].
      apply elem_of_app. right. apply list_elem_of_here.
    + change (getB c s1) with (getB c s). intros Hc.
      destruct (decide (p = q)) as [<-|]; [|apply H1; exact Hc].
      apply elem_of_app. left. apply H1. exact Hc.
  - intros q Hq. rewrite Hb. change (next_place _) with (next_place s) in Hq.
    destruct (decide (p = q)) as [<-|]; [lia|apply H2; exact Hq].
  - intros q e. rewrite He. apply H3.
Qed.

(** The state of a [removeBee] that finds the bee. *)
Lemma tidy_removeBee p b (i : nat) s :
  indexOf b (p_bees (getP p s)) = Some i -> tidy s ->
  tidy (updB b (with_b_place None)
          (updP p (fun P => with_bees (delete i (p_bees P)) P) s)).
Proof.
  intros Hi [H1 H2 H3 H4 H5 H6 H7 H8 H9].
  set (s1 := updP p (fun P => with_bees (delete i (p_bees P)) P) s).
  assert (Hb : forall q, p_bees (getP q (updB b (with_b_place None) s1))
                         = if decide (p = q) then delete i (p_bees (getP p s))
                           else p_bees (getP q s)).
  { intros q. change (getP q (updB _ _ s1)) with (getP q s1). unfold s1.
    rewrite getP_updP. destruct (decide (p = q)); reflexivity. }
  assert (He : forall q, p_exit (getP q (updB b (with_b_place None) s1))
                         = p_exit (getP q s)).
  { intros q. change (getP q (updB _ _ s1)) with (getP q s1). unfold s1.
    rewrite getP_updP. destruct (decide (p = q)) as [<-|]; reflexivity. }
  split; try assumption.
  - intros c q. rewrite getB_updB, Hb.
    destruct (decide (b = c)) as [<-|Hne]; [discriminate|].
    change (getB c s1) with (getB c s). intros Hc.
    destruct (decide (p = q)) as [<-|]; [|apply H1; exact Hc].
    apply (elem_of_delete_other c b); [apply indexOf_Some; exact Hi|congruence|].
    apply H1. exact Hc.
  - intros q Hq. rewrite Hb. change (next_place _) with (next_place s) in Hq.
    destruct (decide (p = q)) as [<-|]; [|apply H2; exact Hq].
    rewrite (H2 p Hq). destruct i; reflexivity.
  - intros q e. rewrite He. apply H3.
Qed.

(** A new place, whose exit exists, and a new ant, whose stomach exists. *)
Lemma tidy_alloc_place w e s :
  (forall x, e = Some x -> (x < next_place s)%nat) ->
  tidy s -> tidy (alloc_place (mkPlace w e None None None []) s).
Proof.
  intros Hx [H1 H2 H3 H4 H5 H6 H7 H8 H9].
  split; change (next_place (alloc_place _ s)) with (S (next_place s)).
  - intros b q. change (getB b (alloc_place _ s)) with (getB b s). intros Hb.
    rewrite getP_alloc_place. pose proof (H1 b q Hb) as Hin.
    destruct (decide (next_place s = q)) as [<-|]; [|exact Hin].
    rewrite (H2 (next_place s)) in Hin by lia. inversion Hin.
  - intros q Hq. rewrite getP_alloc_place.
    destruct (decide (next_place s = q)); [reflexivity|apply H2; lia].
  - intros p x. rewrite getP_alloc_place.
    destruct (decide (next_place s = p)).
    + cbn [p_exit]. intros ->. pose proof (Hx x eq_refl). lia.
    + intros Hp. pose proof (H3 p x Hp). lia.
  - intros x Hin. pose proof (H4 x Hin). lia.
  - change (hive (alloc_place _ s)) with (hive s). lia.
  - intros a sp Ha. pose proof (H6 a sp Ha). lia.
  - intros a p Ha. pose proof (H7 a p Ha). lia.
  - intros p Hp. pose proof (H8 p Hp). lia.
  - change (queenPlace (alloc_place _ s)) with (queenPlace s). lia.
Qed.

Lemma tidy_alloc_ant k armor cost st s :
  (forall sp, st = Some sp -> (sp < next_place s)%nat) ->
  tidy s -> tidy (alloc_ant (mkAnt k armor cost None None 0 st) s).
Proof.
  intros Hst [H1 H2 H3 H4 H5 H6 H7 H8 H9].
  split; try assumption.
  - intros c sp. rewrite getA_alloc_ant.
    destruct (decide (next_ant s = c)); [cbn [a_stomach]; apply Hst|apply H6].
  - intros c p. rewrite getA_alloc_ant.
    destruct (decide (next_ant s = c)); [discriminate|apply H7].
Qed.

(** The state after [new Bee] and [addBee] in [addWave]. *)
Lemma tidy_hatch s : tidy s -> tidy (hatch s).
Proof.
  intros [H1 H2 H3 H4 H5 H6 H7 H8 H9]. unfold hatch.
  set (b := next_bee s).
  set (s0 := set_next_bee (S b)
               (set_beeObjs (fun m => <[b := mkBee (beeArmor s) (beeDamage s)
                                                (Some (hive s)) None]> m) s)).
  assert (HB : forall c, c <> b -> getB c s0 = getB c s).
  { intros c Hc. unfold getB, s0; simpl. rewrite lookup_insert_ne by congruence.
    reflexivity. }
  split.
  - intros c q. rewrite getB_updB.
    change (getP q (updB _ _ ?x)) with (getP q x). rewrite getP_updP.
    change (getP ?x s0) with (getP x s).
    destruct (decide (b = c)) as [<-|Hne].
    + cbn [b_place with_b_place]. intros [= <-].
      destruct (decide (hive s = hive s)); [|congruence].
      cbn [p_bees with_bees]. apply elem_of_app. right. apply list_elem_of_here.
    + change (getB c (updP _ _ s0)) with (getB c s0). rewrite HB by congruence.
      intros Hc. destruct (decide (hive s = q)) as [<-|]; [|apply H1; exact Hc].
      cbn [p_bees with_bees]. apply elem_of_app. left. apply H1. exact Hc.
  - intros q Hq. change (getP q (updB _ _ ?x)) with (getP q x). rewrite getP_updP.
    change (getP ?x s0) with (getP x s). change (next_place _) with (next_place s) in Hq.
    destruct (decide (hive s = q)) as [<-|]; [lia|apply H2; exact Hq].
  - intros p e. change (getP p (updB _ _ ?x)) with (getP p x). rewrite getP_updP.
    change (getP ?x s0) with (getP x s).
    destruct (decide (hive s = p)) as [<-|]; apply H3.
  - exact H4.
  - exact H5.
  - exact H6.
  - exact H7.
  - exact H8.
  - exact H9.
Qed.

(** A write to a field of the colony, the hive or the game that the
    invariant does not read. *)
Lemma tidy_colony_fields f s :
  (forall s, places (f s) = places s /\ ants (f s) = ants s /\
             beeObjs (f s) = beeObjs s /\ next_place (f s) = next_place s /\
             grid (f s) = grid s /\ beeEntrances (f s) = beeEntrances s /\
             hive (f s) = hive s /\ queenPlace (f s) = queenPlace s) ->
  tidy s -> tidy (f s).
Proof.
  intros Hf [H1 H2 H3 H4 H5 H6 H7 H8 H9].
  destruct (Hf s) as (EP & EA & EB & EN & EG & EE & EH & EQ).
  assert (HP : forall q, getP q (f s) = getP q s)
    by (intros q; unfold getP; rewrite EP; reflexivity).
  assert (HA : forall a, getA a (f s) = getA a s)
    by (intros a; unfold getA; rewrite EA; reflexivity).
  assert (HB : forall b, getB b (f s) = getB b s)
    by (intros b; unfold getB; rewrite EB; reflexivity).
  split; rewrite ?EN, ?EG, ?EE, ?EH, ?EQ; try assumption.
  - intros b q. rewrite HB, HP. apply H1.
  - intros q. rewrite HP. apply H2.
  - intros p e. rewrite HP. apply H3.
  - intros a sp. rewrite HA. apply H6.
  - intros a p. rewrite HA. apply H7.
Qed.

(** The calls are followed once for two ends.  [unending] is what is asked
    of a call that does not return, and [K] is what the numbers of the
    state are assumed to satisfy, beside the shape that [tidy] describes;
    [K] reads the bees and the armor that the hive gives to a new bee. *)
Section Returning.

Variable unending : Prop.
Variable K : State -> Prop.

Hypothesis K_same : forall s s',
  beeObjs s' = beeObjs s -> beeArmor s' = beeArmor s -> K s -> K s'.
Hypothesis K_updB : forall b f s,
  (forall B, b_armor (f B) = b_armor B) -> K s -> K (updB b f s).
Hypothesis K_hit : forall b amount s,
  0 <= amount -> K s ->
  K (updB b (fun B => with_b_armor (JS.sub (b_armor B) amount) B) s).
Hypothesis K_hatch : forall s, K s -> K (hatch s).
Hypothesis K_spray : forall b s,
  K s -> 0 < JS.sub (b_armor (getB b s)) 10 ->
  unending \/ JS.sub (b_armor (getB b s)) 10 < b_armor (getB b s).

(** A steady state: tidy, and its numbers are as [K] says. *)
Definition steady (s : State) : Prop := tidy s /\ K s.

Lemma steady_updA a f s :
  (forall A, a_place (f A) = a_place A /\ a_stomach (f A) = a_stomach A) ->
  steady s -> steady (updA a f s).
Proof.
  intros Hf [HT HK]. split; [apply tidy_updA; assumption|].
  apply (K_same s); [reflexivity|reflexivity|exact HK].
Qed.

Lemma steady_set_place a p s :
  (p < next_place s)%nat -> steady s -> steady (updA a (with_a_place (Some p)) s).
Proof.
  intros Hp [HT HK]. split; [apply tidy_set_place; assumption|].
  apply (K_same s); [reflexivity|reflexivity|exact HK].
Qed.

Lemma steady_updP p f s :
  (forall P, p_bees (f P) = p_bees P /\ p_exit (f P) = p_exit P) ->
  steady s -> steady (updP p f s).
Proof.
  intros Hf [HT HK]. split; [apply tidy_updP; assumption|].
  apply (K_same s); [reflexivity|reflexivity|exact HK].
Qed.

Lemma steady_updB b f s :
  (forall B, b_place (f B) = b_place B /\ b_armor (f B) = b_armor B) ->
  steady s -> steady (updB b f s).
Proof.
  intros Hf [HT HK]. split.
  - apply tidy_updB; [intros B; apply Hf|exact HT].
  - apply K_updB; [intros B; apply Hf|exact HK].
Qed.

Lemma steady_hit b amount s :
  0 <= amount -> steady s ->
  steady (updB b (fun B => with_b_armor (JS.sub (b_armor B) amount) B) s).
Proof.
  intros Ha [HT HK]. split.
  - apply tidy_updB; [reflexivity|exact HT].
  - apply K_hit; assumption.
Qed.

Lemma steady_addBee p b s :
  (p < next_place s)%nat -> steady s ->
  steady (updB b (with_b_place (Some p))
       (updP p (fun P => with_bees (p_bees P ++ [b]) P) s)).
Proof.
  intros Hp [HT HK]. split; [apply tidy_addBee; assumption|].
  apply K_updB; [reflexivity|].
  apply (K_same s); [reflexivity|reflexivity|exact HK].
Qed.

Lemma steady_removeBee p b (i : nat) s :
  indexOf b (p_bees (getP p s)) = Some i -> steady s ->
  steady (updB b (with_b_place None)
       (updP p (fun P => with_bees (delete i (p_bees P)) P) s)).
Proof.
  intros Hi [HT HK]. split; [apply tidy_removeBee; assumption|].
  apply K_updB; [reflexivity|].
  apply (K_same s); [reflexivity|reflexivity|exact HK].
Qed.

Lemma steady_alloc_place w e s :
  (forall x, e = Some x -> (x < next_place s)%nat) ->
  steady s -> steady (alloc_place (mkPlace w e None None None []) s).
Proof.
  intros Hx [HT HK]. split; [apply tidy_alloc_place; assumption|].
  apply (K_same s); [reflexivity|reflexivity|exact HK].
Qed.

Lemma steady_alloc_ant k armor cost st s :
  (forall sp, st = Some sp -> (sp < next_place s)%nat) ->
  steady s -> steady (alloc_ant (mkAnt k armor cost None None 0 st) s).
Proof.
  intros Hst [HT HK]. split; [apply tidy_alloc_ant; assumption|].
  apply (K_same s); [reflexivity|reflexivity|exact HK].
Qed.

Lemma steady_hatch s : steady s -> steady (hatch s).
Proof. intros [HT HK]. split; [apply tidy_hatch|apply K_hatch]; assumption. Qed.

Lemma steady_colony_fields f s :
  (forall s, places (f s) = places s /\ ants (f s) = ants s /\
             beeObjs (f s) = beeObjs s /\ next_place (f s) = next_place s /\
             grid (f s) = grid s /\ beeEntrances (f s) = beeEntrances s /\
             hive (f s) = hive s /\ queenPlace (f s) = queenPlace s /\
             beeArmor (f s) = beeArmor s) ->
  steady s -> steady (f s).
Proof.
  intros Hf [HT HK]. split.
  - apply tidy_colony_fields; [|exact HT]. intros s0.
    destruct (Hf s0) as (? & ? & ? & ? & ? & ? & ? & ? & ?). auto 10.
  - destruct (Hf s) as (_ & _ & EB & _ & _ & _ & _ & _ & EA).
    apply (K_same s); assumption.
Qed.

(** [keeps m]: from a steady state [m] returns or raises, in a steady
    state, or [unending] holds. *)
Definition keeps {A} (m : M A) : Prop :=
  forall s, steady s -> twp unending m (fun _ => steady) steady s.

Lemma keeps_bind {A B} (m : M A) (k : A -> M B) :
  keeps m -> (forall a, keeps (k a)) -> keeps (bind m k).
Proof.
  intros Hm Hk s HT. apply twp_bind.
  eapply twp_mono; [apply Hm; exact HT| |auto].
  intros a s' HT'. apply Hk. exact HT'.
Qed.

Lemma keeps_ret {A} (a : A) : keeps (ret a).
Proof. intros s HT. exact HT. Qed.

Lemma keeps_throw {A} : keeps (@throw A).
Proof. intros s HT. exact HT. Qed.

Lemma keeps_gets {A} (f : State -> A) : keeps (gets f).
Proof. intros s HT. exact HT. Qed.

Lemma keeps_forEach {A} (l : list A) (f : A -> M unit) :
  (forall x, keeps (f x)) -> keeps (forEach l f).
Proof.
  intros Hf s HT. apply twp_forEach; [|exact HT].
  intros x s' _ HT'. apply Hf. exact HT'.
Qed.

Lemma keeps_try_catch {A} (m h : M A) : keeps m -> keeps h -> keeps (try_catch m h).
Proof.
  intros Hm Hh s HT. apply twp_try_catch.
  eapply twp_mono; [apply Hm; exact HT|auto|].
  intros s' HT'. apply Hh. exact HT'.
Qed.

(** *** [class Place] *)

Lemma keeps_removeAnt p : keeps (Place_removeAnt p).
Proof.
  intros s HT. unfold twp, Place_removeAnt.
  destruct (p_guard (getP p s)); (apply steady_updP; [intros; split; reflexivity|exact HT]).
Qed.

Lemma steady_addAnt p a s :
  (p < next_place s)%nat -> steady s ->
  twp unending (Place_addAnt p a) (fun _ => steady) steady s.
Proof.
  intros Hp HT. unfold twp, Place_addAnt.
  destruct (decide (a_kind (getA a s) = Guard)).
  - destruct (p_guard (getP p s)); [exact HT|].
    apply steady_set_place; [exact Hp|].
    apply steady_updP; [intros; split; reflexivity|exact HT].
  - destruct (p_ant (getP p s)); [exact HT|].
    apply steady_set_place; [exact Hp|].
    apply steady_updP; [intros; split; reflexivity|exact HT].
Qed.

Lemma twp_addBee p b s :
  (p < next_place s)%nat -> steady s ->
  twp unending (Place_addBee p b) (fun _ => steady) steady s.
Proof. intros Hp HT. apply twp_modify. apply steady_addBee; assumption. Qed.

Lemma keeps_removeBee p b : keeps (Place_removeBee p b).
Proof.
  intros s HT. unfold twp, Place_removeBee.
  destruct (indexOf b (p_bees (getP p s))) as [i|] eqn:Hi; [|exact HT].
  apply steady_removeBee; assumption.
Qed.

Lemma keeps_exitBee p b : keeps (Place_exitBee p b).
Proof.
  intros s HT. unfold Place_exitBee. apply twp_bind.
  eapply twp_mono; [apply keeps_removeBee; exact HT| |auto].
  intros u s1 HT1. twp_go. unfold Place_getExit.
  destruct (p_exit (getP p s1)) as [q|] eqn:Hq; [|exact HT1].
  apply twp_addBee; [|exact HT1]. apply (tidy_exit s1 (proj1 HT1) p q Hq).
Qed.

Lemma keeps_Place_act p : keeps (Place_act p).
Proof.
  unfold Place_act. apply keeps_bind; [apply keeps_gets|]. intros w.
  destruct w; [|apply keeps_ret].
  apply keeps_bind; [apply keeps_gets|]. intros g.
  apply keeps_bind.
  - destruct g; [|apply keeps_ret].
    apply keeps_bind; [apply keeps_removeAnt|intros; apply keeps_ret].
  - intros _. apply keeps_bind; [apply keeps_gets|]. intros sc.
    destruct (negb sc); [|apply keeps_ret].
    apply keeps_bind; [apply keeps_removeAnt|intros; apply keeps_ret].
Qed.

(** *** The insects *)

Lemma keeps_Bee_reduceArmor b amount :
  0 <= amount -> keeps (Bee_reduceArmor b amount).
Proof.
  intros Hamount. unfold Bee_reduceArmor. apply keeps_bind.
  { intros s HT. apply twp_modify. apply steady_hit; assumption. }
  intros _. apply keeps_bind; [apply keeps_gets|]. intros armor.
  destruct (armor <=? 0); [|apply keeps_ret].
  apply keeps_bind; [apply keeps_gets|]. intros pl.
  destruct pl as [p|]; [|apply keeps_throw].
  apply keeps_bind; [apply keeps_removeBee|intros; apply keeps_ret].
Qed.

Lemma keeps_Insect_reduceArmor_ant a amount : keeps (Insect_reduceArmor_ant a amount).
Proof.
  unfold Insect_reduceArmor_ant. apply keeps_bind.
  { intros s HT. apply twp_modify.
    apply steady_updA; [intros; split; reflexivity|exact HT]. }
  intros _. apply keeps_bind; [apply keeps_gets|]. intros armor.
  destruct (armor <=? 0); [|apply keeps_ret].
  apply keeps_bind; [apply keeps_gets|]. intros pl.
  destruct pl as [p|]; [|apply keeps_throw].
  apply keeps_bind; [|intros; apply keeps_ret].
  unfold Place_removeInsect_ant.
  apply keeps_bind; [apply keeps_removeAnt|intros; apply keeps_ret].
Qed.

Lemma keeps_cough a : keeps (EaterAnt_cough a).
Proof.
  intros s HT. unfold EaterAnt_cough. twp_go.
  destruct (a_stomach (getA a s)) as [sp|]; [|exact HT]. twp_go.
  destruct (head (Place_getBees sp s)) as [e|]; [|exact HT]. twp_go.
  eapply twp_mono; [apply keeps_removeBee; exact HT| |auto].
  intros u s1 HT1. twp_go.
  destruct (a_place (getA a s1)) as [p|] eqn:Hp; [|exact HT1].
  apply twp_addBee; [|exact HT1]. apply (tidy_stands s1 (proj1 HT1) a p Hp).
Qed.

Lemma keeps_set_turnsEating a z : keeps (modify (updA a (with_a_turnsEating z))).
Proof.
  intros s HT. apply twp_modify.
  apply steady_updA; [intros; split; reflexivity|exact HT].
Qed.

Lemma keeps_EaterAnt_reduceArmor a amount : keeps (EaterAnt_reduceArmor a amount).
Proof.
  unfold EaterAnt_reduceArmor. apply keeps_bind.
  { intros s HT. apply twp_modify.
    apply steady_updA; [intros; split; reflexivity|exact HT]. }
  intros _. apply keeps_bind; [apply keeps_gets|]. intros armor.
  apply keeps_bind; [apply keeps_gets|]. intros te.
  destruct (0 <? armor).
  - destruct (te =? 1); [|apply keeps_ret].
    apply keeps_bind; [apply keeps_cough|]. intros _.
    apply keeps_bind; [apply keeps_set_turnsEating|intros; apply keeps_ret].
  - apply keeps_bind; [|intros; apply keeps_Insect_reduceArmor_ant].
    destruct (_ && _); [apply keeps_cough|apply keeps_ret].
Qed.

Lemma keeps_Ant_reduceArmor a amount : keeps (Ant_reduceArmor a amount).
Proof.
  unfold Ant_reduceArmor. apply keeps_bind; [apply keeps_gets|]. intros k.
  destruct k; first [apply keeps_EaterAnt_reduceArmor|apply keeps_Insect_reduceArmor_ant].
Qed.

Lemma keeps_Bee_setStatus b st : keeps (Bee_setStatus b st).
Proof.
  intros s HT. apply twp_modify. apply steady_updB; [intros; split; reflexivity|exact HT].
Qed.

Lemma keeps_Bee_act b : keeps (Bee_act b).
Proof.
  unfold Bee_act. apply keeps_bind; [apply keeps_gets|]. intros pl.
  destruct pl as [p|]; [|apply keeps_throw].
  apply keeps_bind; [apply keeps_gets|]. intros blocker.
  apply keeps_bind; [apply keeps_gets|]. intros status.
  apply keeps_bind; [apply keeps_gets|]. intros armor.
  apply keeps_bind; [|intros; apply keeps_Bee_setStatus].
  destruct blocker as [a|].
  - destruct (negb _); [|apply keeps_ret].
    apply keeps_bind; [|intros; apply keeps_ret].
    unfold Bee_sting. apply keeps_bind; [apply keeps_gets|].
    intros dmg. apply keeps_Ant_reduceArmor.
  - destruct (0 <? armor); [|apply keeps_ret].
    destruct (negb _); [apply keeps_exitBee|apply keeps_ret].
Qed.

(** *** The ants *)

Lemma keeps_increaseFood amount : keeps (AntColony_increaseFood amount).
Proof.
  intros s HT. apply twp_modify.
  apply (steady_colony_fields (fun s => set_food (JS.add (food s) amount) s));
    [intros; repeat split|exact HT].
Qed.

Lemma keeps_addBoost boost : keeps (AntColony_addBoost boost).
Proof.
  intros s HT. apply twp_modify.
  apply (steady_colony_fields (fun s =>
           match boosts_get boost s with
           | None => set_boosts (<[boost := BNum (JS.add 0 1)]> (boosts s)) s
           | Some v => set_boosts (<[boost := boost_succ v]> (boosts s)) s
           end)); [|exact HT].
  intros s0. destruct (boosts_get boost s0); repeat split.
Qed.

Lemma keeps_Math_random : keeps Math_random.
Proof.
  intros s HT. unfold twp, Math_random.
  apply (steady_colony_fields (fun s => set_random_pos (S (random_pos s)) s));
    [intros; repeat split|exact HT].
Qed.

Lemma keeps_GrowerAnt_act a : keeps (GrowerAnt_act a).
Proof.
  unfold GrowerAnt_act. apply keeps_bind; [apply keeps_Math_random|]. intros roll.
  repeat (destruct (Qltb roll _);
          [first [apply keeps_increaseFood|apply keeps_addBoost]|]).
  apply keeps_ret.
Qed.

(** When [unending] holds, nothing is asked of the passes of the bug
    spray but that they keep the state steady. *)
Lemma spray_loop_steady p : unending -> forall n s,
  steady s -> twp unending (spray_loop n p) (fun _ => steady) steady s.
Proof.
  intros Hu. induction n as [|n IH]; intros s HT; unfold twp; cbn [spray_loop];
    destruct (Place_getClosestBee p 0 0 s) as [t|]; try exact HT; [exact Hu|].
  change (twp unending (Bee_reduceArmor t 10 ;;; spray_loop n p) (fun _ => steady) steady s).
  apply twp_bind.
  eapply twp_mono; [apply keeps_Bee_reduceArmor; [lia|exact HT]| |auto].
  intros r s1 HT1. apply IH. exact HT1.
Qed.

(** In a steady state the loop of the bug spray ends, or [unending] holds:
    a bee that dies leaves the list of its place, which is this place or,
    if it is another one, stops the loop by an exception at the next pass;
    a bee that lives has lost armor. *)
Lemma twp_spray_loop p : forall n s,
  steady s -> (spray_measure p s < n)%nat ->
  twp unending (spray_loop n p) (fun _ => steady) steady s.
Proof.
  induction n as [|n IH]; intros s HT Hmu; [lia|].
  unfold twp. cbn [spray_loop]. rewrite closest_here.
  destruct (p_bees (getP p s)) as [|t l] eqn:Hl; cbn [head]; [exact HT|].
  unfold bind. rewrite Bee_reduceArmor_eq. cbv zeta.
  set (sa := updB t (fun B => with_b_armor (JS.sub (b_armor B) 10) B) s).
  assert (HTa : steady sa) by (apply steady_hit; [lia|exact HT]).
  assert (Hcost : JS.sub (b_armor (getB t s)) 10 <= b_armor (getB t s) ->
                  forall b, (spray_cost sa b <= spray_cost s b)%nat).
  { intros Hlow b. unfold spray_cost, sa. rewrite getB_updB.
    destruct (decide (t = b)) as [<-|]; [|lia]. cbn [b_armor with_b_armor]. lia. }
  assert (Hmu_s : spray_measure p s
                  = (spray_cost s t + list_sum (map (spray_cost s) l))%nat)
    by (rewrite spray_measure_eq, Hl; reflexivity).
  destruct (Z.leb_spec (JS.sub (b_armor (getB t s)) 10) 0) as [Hdead|Halive].
  - destruct (b_place (getB t s)) as [q|] eqn:Hpl; [|exact HTa].
    pose proof (tidy_listed s (proj1 HT) t q Hpl) as Hin.
    destruct (indexOf t (p_bees (getP q s))) as [i|] eqn:Hidx;
      [|apply indexOf_None in Hidx; contradiction].
    set (s1 := updB t (with_b_place None)
                 (updP q (fun P => with_bees (delete i (p_bees P)) P) sa)).
    assert (HT1 : steady s1) by (apply steady_removeBee; [exact Hidx|exact HTa]).
    change (twp unending (spray_loop n p) (fun _ => steady) steady s1).
    destruct (decide (q = p)) as [->|Hqp].
    + apply IH; [exact HT1|].
      rewrite Hl, indexOf_head in Hidx. injection Hidx as <-.
      assert (Hl1 : p_bees (getP p s1) = l).
      { unfold s1. store_simpl. cbn [p_bees with_bees].
        change (getP p sa) with (getP p s). rewrite Hl. reflexivity. }
      assert (Hc : forall b, (spray_cost s1 b <= spray_cost s b)%nat).
      { intros b. unfold spray_cost, s1, sa. rewrite getB_updB.
        destruct (decide (t = b)) as [<-|].
        - change (getB t (updP p _ ?x)) with (getB t x).
          rewrite getB_updB_eq. cbn [b_armor with_b_place with_b_armor]. lia.
        - change (getB b (updP p _ ?x)) with (getB b x).
          rewrite getB_updB_ne by assumption. reflexivity. }
      rewrite spray_measure_eq, Hl1.
      pose proof (list_sum_map_le (spray_cost s1) (spray_cost s) l Hc) as Hle.
      unfold spray_cost at 1 in Hmu_s. lia.
    + destruct n as [|n]; [unfold spray_cost in Hmu_s; lia|].
      unfold twp. cbn [spray_loop]. rewrite closest_here.
      assert (Hl1 : p_bees (getP p s1) = t :: l).
      { unfold s1. store_simpl. rewrite getP_updP_ne by assumption.
        change (getP p sa) with (getP p s). exact Hl. }
      rewrite Hl1. cbn [head]. unfold bind. rewrite Bee_reduceArmor_eq. cbv zeta.
      assert (Ha1 : b_armor (getB t s1) = JS.sub (b_armor (getB t s)) 10).
      { unfold s1, sa. rewrite getB_updB_eq.
        change (getB t (updP q _ ?x)) with (getB t x).
        rewrite getB_updB_eq. reflexivity. }
      assert (Hp1 : b_place (getB t s1) = None).
      { unfold s1. rewrite getB_updB_eq. reflexivity. }
      rewrite Ha1, Hp1.
      pose proof (proj2 (sub_nonpos (JS.sub (b_armor (getB t s)) 10) 10)
                    ltac:(lia)).
      destruct (Z.leb_spec (JS.sub (JS.sub (b_armor (getB t s)) 10) 10) 0); [|lia].
      apply steady_hit; [lia|exact HT1].
  - change (twp unending (spray_loop n p) (fun _ => steady) steady sa).
    destruct (K_spray t s (proj2 HT) Halive) as [Hu|Hlow].
    { apply spray_loop_steady; assumption. }
    apply IH; [exact HTa|].
    rewrite spray_measure_eq. change (getP p sa) with (getP p s). rewrite Hl.
    cbn [map]. change (list_sum (?x :: ?r)) with (x + list_sum r)%nat.
    pose proof (list_sum_map_le (spray_cost sa) (spray_cost s) l
                  (Hcost ltac:(lia))) as Hle.
    assert (spray_cost sa t < spray_cost s t)%nat.
    { unfold spray_cost, sa. store_simpl. cbn [b_armor with_b_armor]. lia. }
    lia.
Qed.

Lemma keeps_bug_spray a : keeps (bug_spray a).
Proof.
  intros s HT. unfold bug_spray. twp_go.
  destruct (a_place (getA a s)) as [p|]; [|exact HT]. twp_go.
  eapply twp_mono;
    [apply (twp_spray_loop p (spray_bound p s) s HT); unfold spray_bound; lia| |auto].
  intros u s1 HT1. twp_go.
  eapply twp_mono; [apply keeps_Insect_reduceArmor_ant; exact HT1| |auto].
  intros r s2 HT2. twp_go. exact HT2.
Qed.

Lemma keeps_clear_boost a : keeps (modify (updA a (with_a_boost None))).
Proof.
  intros s HT. apply twp_modify.
  apply steady_updA; [intros; split; reflexivity|exact HT].
Qed.

Lemma keeps_ThrowerAnt_act a : keeps (ThrowerAnt_act a).
Proof.
  unfold ThrowerAnt_act. apply keeps_bind; [apply keeps_gets|]. intros boost.
  destruct (negb _); [|apply keeps_bug_spray].
  apply keeps_bind; [apply keeps_gets|]. intros pl.
  destruct pl as [p|]; [|apply keeps_throw].
  apply keeps_bind; [apply keeps_gets|]. intros target.
  destruct target as [t|]; [|apply keeps_ret].
  apply keeps_bind; [apply keeps_Bee_reduceArmor; lia|]. intros _.
  apply keeps_bind;
    [destruct (has_boost _ _); [apply keeps_Bee_setStatus|apply keeps_ret]|].
  intros _. apply keeps_bind;
    [destruct (has_boost _ _); [apply keeps_Bee_setStatus|apply keeps_ret]|].
  intros _. apply keeps_clear_boost.
Qed.

Lemma keeps_ScubaAnt_act a : keeps (ScubaAnt_act a).
Proof. exact (keeps_ThrowerAnt_act a). Qed.

Lemma keeps_EaterAnt_act a : keeps (EaterAnt_act a).
Proof.
  intros s HT. unfold EaterAnt_act. twp_go.
  destruct (_ =? 0).
  - twp_go. destruct (a_place (getA a s)) as [p|]; [|exact HT]. twp_go.
    destruct (Place_getClosestBee p 0 0 s) as [t|]; [|exact HT]. twp_go.
    eapply twp_mono; [apply keeps_removeBee; exact HT| |auto].
    intros u s1 HT1. twp_go.
    destruct (a_stomach (getA a s1)) as [sp|] eqn:Hsp; [|exact HT1]. twp_go.
    apply steady_updA; [intros; split; reflexivity|].
    apply steady_addBee; [|exact HT1]. apply (tidy_stomach s1 (proj1 HT1) a sp Hsp).
  - destruct (3 <? _).
    + twp_go. destruct (a_stomach (getA a s)) as [sp|]; [|exact HT]. twp_go.
      destruct (head (Place_getBees sp s)) as [b|].
      * eapply twp_mono; [apply keeps_removeBee; exact HT| |auto].
        intros u s1 HT1. apply keeps_set_turnsEating. exact HT1.
      * twp_go. apply steady_updA; [intros; split; reflexivity|exact HT].
    + apply keeps_set_turnsEating. exact HT.
Qed.

Lemma keeps_getGuarded a : keeps (GuardAnt_getGuarded a).
Proof.
  unfold GuardAnt_getGuarded. apply keeps_bind; [apply keeps_gets|]. intros pl.
  destruct pl; [apply keeps_gets|apply keeps_throw].
Qed.

Lemma keeps_Ant_act a : keeps (Ant_act a).
Proof.
  unfold Ant_act. apply keeps_bind.
  { intros s HT. apply twp_modify.
    apply (steady_colony_fields (fun s => set_acted (a :: acted s) s));
      [intros; repeat split|exact HT]. }
  intros _. apply keeps_bind; [apply keeps_gets|]. intros k.
  destruct k;
    [apply keeps_GrowerAnt_act|apply keeps_ThrowerAnt_act|apply keeps_EaterAnt_act
    |apply keeps_ScubaAnt_act|apply keeps_ret].
Qed.

(** *** The sweeps, the hive and the commands *)

Lemma keeps_antsAct : keeps AntColony_antsAct.
Proof.
  unfold AntColony_antsAct. apply keeps_bind; [apply keeps_gets|]. intros all.
  apply keeps_forEach. intros ant.
  apply keeps_bind; [apply keeps_gets|]. intros k.
  apply keeps_bind; [|intros; apply keeps_Ant_act].
  destruct (decide (k = Guard)); [|apply keeps_ret].
  apply keeps_bind; [apply keeps_getGuarded|]. intros guarded.
  destruct guarded; [apply keeps_Ant_act|apply keeps_ret].
Qed.

Lemma keeps_beesAct : keeps AntColony_beesAct.
Proof.
  unfold AntColony_beesAct. apply keeps_bind; [apply keeps_gets|]. intros all.
  apply keeps_forEach. intros b. apply keeps_Bee_act.
Qed.

Lemma keeps_placesAct : keeps AntColony_placesAct.
Proof.
  unfold AntColony_placesAct. apply keeps_bind; [apply keeps_gets|]. intros cells.
  apply keeps_forEach. intros p. apply keeps_Place_act.
Qed.

Lemma keeps_addWave_loop n : forall wave, keeps (addWave_loop n wave).
Proof.
  induction n as [|n IH]; intros wave s HT.
  - exact HT.
  - unfold twp. rewrite addWave_loop_step. apply IH. apply steady_hatch. exact HT.
Qed.

Lemma keeps_addWave t n : keeps (Hive_addWave t n).
Proof.
  unfold Hive_addWave. apply keeps_bind; [apply keeps_addWave_loop|]. intros wave.
  intros s HT. apply twp_modify.
  apply (steady_colony_fields (fun s => set_waves (<[t := wave]> (waves s)) s));
    [intros; repeat split|exact HT].
Qed.

Lemma keeps_invade t : keeps (Hive_invade t).
Proof.
  unfold Hive_invade. apply keeps_bind; [apply keeps_gets|]. intros w.
  destruct w as [wave|]; [|apply keeps_ret].
  apply keeps_bind; [|intros; apply keeps_ret].
  apply keeps_forEach. intros bee.
  apply keeps_bind; [apply keeps_gets|]. intros h.
  apply keeps_bind; [apply keeps_removeBee|]. intros _.
  intros s HT. twp_go. unfold twp at 1, Math_random.
  assert (HT' : steady (set_random_pos (S (random_pos s)) s)).
  { apply (steady_colony_fields (fun s => set_random_pos (S (random_pos s)) s));
      [intros; repeat split|exact HT]. }
  cbv zeta. destruct (_ <? 0); [exact HT'|].
  destruct (AntColony_getEntrances s !! _) as [e|] eqn:He; [|exact HT'].
  apply twp_addBee; [|exact HT'].
  apply (tidy_entrances s (proj1 HT) e). eapply list_elem_of_lookup_2, He.
Qed.

Lemma keeps_takeTurn : keeps AntGame_takeTurn.
Proof.
  unfold AntGame_takeTurn.
  apply keeps_bind; [apply keeps_antsAct|]. intros _.
  apply keeps_bind; [apply keeps_beesAct|]. intros _.
  apply keeps_bind; [apply keeps_placesAct|]. intros _.
  apply keeps_bind; [apply keeps_gets|]. intros t.
  apply keeps_bind; [apply keeps_invade|]. intros _.
  intros s HT. apply twp_modify.
  apply (steady_colony_fields (fun s => set_turn (JS.add (turn s) 1) s));
    [intros; repeat split|exact HT].
Qed.

Lemma lookup_place_returns coords s : lookup_place coords s <> Diverge.
Proof.
  unfold lookup_place, bind, gets, get_member.
  destruct (array_get VRow (AntColony_getPlaces s) _);
    try destruct (bool_decide _); discriminate.
Qed.

Lemma twp_lookup_place coords s :
  steady s ->
  twp unending (lookup_place coords)
      (fun v s' => steady s' /\ forall p, v = VPlace p -> (p < next_place s')%nat)
      steady s.
Proof.
  intros HT. pose proof (lookup_place_spec coords s) as Hwp.
  pose proof (lookup_place_returns coords s) as Hret.
  unfold wp in Hwp. unfold twp.
  destruct (lookup_place coords s) as [v s'|s'|]; [| |congruence].
  - destruct Hwp as [-> Hv]. split; [exact HT|].
    intros p Hp. apply (tidy_grid s (proj1 HT)). apply Hv. exact Hp.
  - subst s'. exact HT.
Qed.

Lemma twp_colony_deployAnt a v s :
  (forall p, v = VPlace p -> (p < next_place s)%nat) -> steady s ->
  twp unending (AntColony_deployAnt a v) (fun _ => steady) steady s.
Proof.
  intros Hv HT. unfold AntColony_deployAnt. twp_go.
  destruct (_ <=? _); [|exact HT]. twp_go.
  unfold on_place. destruct v as [|p|r| |]; try exact HT.
  eapply twp_mono; [apply steady_addAnt; [apply Hv; reflexivity|exact HT]| |auto].
  intros success s1 HT1. destruct success; twp_go; [|exact HT1].
  apply (steady_colony_fields (fun s => set_food (JS.sub (food s) (Ant_getFoodCost a s)) s));
    [intros; repeat split|exact HT1].
Qed.

Lemma keeps_applyBoost boost v : keeps (AntColony_applyBoost boost v).
Proof.
  unfold AntColony_applyBoost. apply keeps_bind; [apply keeps_gets|]. intros x.
  destruct (boost_missing x); [apply keeps_ret|].
  apply keeps_bind.
  - unfold on_place. destruct v; first [apply keeps_throw|apply keeps_gets].
  - intros ant. destruct ant as [a|]; [|apply keeps_ret].
    apply keeps_bind; [|intros; apply keeps_ret].
    intros s HT. apply twp_modify.
    apply steady_updA; [intros; split; reflexivity|exact HT].
Qed.

Lemma keeps_new_Ant k armor cost : keeps (new_Ant k armor cost None).
Proof.
  intros s HT. unfold twp, new_Ant.
  apply (steady_alloc_ant k armor cost None s); [discriminate|exact HT].
Qed.

Lemma keeps_new_EaterAnt : keeps new_EaterAnt.
Proof.
  intros s HT. unfold twp, new_EaterAnt, bind, new_Place, new_Ant.
  apply (steady_alloc_ant Eater 2 4 (Some (next_place s))
           (alloc_place (mkPlace false None None None None []) s)).
  - intros sp [= <-]. cbn. lia.
  - apply steady_alloc_place; [discriminate|exact HT].
Qed.

Lemma keeps_AntGame_deployAnt antType coords : keeps (AntGame_deployAnt antType coords).
Proof.
  unfold AntGame_deployAnt.
  destruct (new_ant_of_type antType) as [mk|] eqn:Hmk; [|apply keeps_ret].
  apply keeps_bind.
  - destruct (new_ant_of_type_cases _ _ Hmk) as [->|(k & armor & cost & ->)];
      [apply keeps_new_EaterAnt|apply keeps_new_Ant].
  - intros ant. apply keeps_try_catch; [|apply keeps_ret].
    intros s HT. apply twp_bind.
    eapply twp_mono; [apply twp_lookup_place; exact HT| |auto].
    intros v s1 [HT1 Hv]. apply twp_colony_deployAnt; assumption.
Qed.

Lemma keeps_AntGame_removeAnt coords : keeps (AntGame_removeAnt coords).
Proof.
  unfold AntGame_removeAnt. apply keeps_try_catch; [|apply keeps_ret].
  apply keeps_bind.
  - intros s HT. eapply twp_mono; [apply twp_lookup_place; exact HT| |auto].
    intros v s1 [HT1 _]. exact HT1.
  - intros v. apply keeps_bind; [|intros; apply keeps_ret].
    unfold on_place. destruct v; first [apply keeps_throw|apply keeps_removeAnt].
Qed.

Lemma keeps_AntGame_boostAnt boost coords : keeps (AntGame_boostAnt boost coords).
Proof.
  unfold AntGame_boostAnt. apply keeps_try_catch; [|apply keeps_ret].
  apply keeps_bind.
  - intros s HT. eapply twp_mono; [apply twp_lookup_place; exact HT| |auto].
    intros v s1 [HT1 _]. exact HT1.
  - intros v. apply keeps_applyBoost.
Qed.

Lemma keeps_call c : keeps (call c).
Proof.
  destruct c; cbn [call].
  - apply keeps_takeTurn.
  - apply keeps_bind; [apply keeps_AntGame_deployAnt|intros; apply keeps_ret].
  - apply keeps_bind; [apply keeps_AntGame_removeAnt|intros; apply keeps_ret].
  - apply keeps_bind; [apply keeps_AntGame_boostAnt|intros; apply keeps_ret].
  - apply keeps_addWave.
  - apply keeps_antsAct.
  - apply keeps_beesAct.
  - apply keeps_placesAct.
  - apply keeps_bind; [apply keeps_gets|]. intros t.
    apply keeps_bind; [apply keeps_invade|intros; apply keeps_ret].
Qed.

End Returning.

(** *** The constructors leave a tidy state *)

Lemma tidy_blank rnd startingFood armor damage :
  tidy (blank rnd startingFood armor damage).
Proof.
  assert (HP : forall p, getP p (blank rnd startingFood armor damage) = emptyPlace).
  { intros p. unfold getP, blank; cbn [places].
    destruct (decide (p = 1%nat)) as [->|H1]; [rewrite lookup_insert_eq; reflexivity|].
    rewrite lookup_insert_ne by congruence.
    destruct (decide (p = 0%nat)) as [->|H0]; [rewrite lookup_insert_eq; reflexivity|].
    rewrite lookup_insert_ne by congruence. reflexivity. }
  split.
  - intros b q. discriminate.
  - intros q _. rewrite HP. reflexivity.
  - intros p e. rewrite HP. discriminate.
  - intros e He. inversion He.
  - cbn. lia.
  - intros a sp. discriminate.
  - intros a p. discriminate.
  - intros p Hp. inversion Hp.
  - cbn. lia.
Qed.

Lemma twp_build_tunnel n : forall step moat curr row s,
  tidy s -> (curr < next_place s)%nat ->
  (forall x, x ∈ row -> (x < next_place s)%nat) ->
  twp False (build_tunnel n step moat curr row)
      (fun r s' => tidy s' /\ (fst r < next_place s')%nat /\
                   forall x, x ∈ snd r -> (x < next_place s')%nat)
      (fun _ => False) s.
Proof.
  induction n as [|n IH]; intros step moat curr row s HT Hc Hrow.
  - cbn [build_tunnel]. apply twp_ret. cbn [fst snd]. auto.
  - cbn [build_tunnel]. cbv zeta. apply twp_bind. unfold twp at 1, new_Place.
    cbv zeta. apply twp_bind. apply twp_modify.
    set (w := negb (moat =? 0)%nat && (S step mod moat =? 0)%nat).
    change (set_next_place _ (set_places _ s))
      with (alloc_place (mkPlace w (Some curr) None None None []) s).
    apply IH.
    + apply tidy_updP; [intros; split; reflexivity|].
      apply tidy_alloc_place; [|exact HT]. intros x [= <-]. exact Hc.
    + cbn. lia.
    + intros x Hx. change (next_place (updP _ _ _)) with (S (next_place s)).
      apply elem_of_app in Hx as [Hx|Hx]; [pose proof (Hrow x Hx); lia|].
      apply list_elem_of_singleton in Hx. subst x. lia.
Qed.

Lemma twp_build_tunnels n tunnelLength moat : forall s,
  tidy s -> twp False (build_tunnels n tunnelLength moat) (fun _ => tidy) (fun _ => False) s.
Proof.
  induction n as [|n IH]; intros s HT.
  - exact HT.
  - cbn [build_tunnels]. twp_go.
    eapply twp_mono;
      [apply (twp_build_tunnel tunnelLength 0 moat (queenPlace s) [] s HT);
       [apply (tidy_queen s HT)|intros x Hx; inversion Hx]| |auto].
    intros r s1 (HT1 & Hfst & Hsnd). twp_go. apply IH.
    destruct HT1 as [H1 H2 H3 H4 H5 H6 H7 H8 H9].
    split; try assumption.
    + intros e He. apply elem_of_app in He as [He|He]; [apply H4; exact He|].
      apply list_elem_of_singleton in He. subst e. exact Hfst.
    + intros p Hp. cbn [grid set_grid set_beeEntrances] in Hp.
      rewrite concat_app in Hp. cbn [concat] in Hp. rewrite app_nil_r in Hp.
      apply elem_of_app in Hp as [Hp|Hp]; [apply H8; exact Hp|apply Hsnd; exact Hp].
Qed.

Lemma tidy_initial rnd food nT tL moat armor damage :
  tidy (initial rnd food nT tL moat armor damage).
Proof.
  unfold initial, new_AntColony.
  pose proof (twp_build_tunnels nT tL moat (blank rnd food armor damage)
                (tidy_blank rnd food armor damage)) as H.
  unfold twp, run in *.
  destruct (build_tunnels nT tL moat (blank rnd food armor damage));
    [exact H|contradiction|contradiction].
Qed.

(** The shape of the state is kept by every command, also by one that
    does not return. *)
Lemma tidy_call c s : tidy s -> wp (call c) (fun _ => tidy) tidy s.
Proof.
  intros HT.
  assert (H : twp True (call c) (fun _ s' => steady (fun _ => True) s')
                (steady (fun _ => True)) s).
  { apply (keeps_call True (fun _ => True)); auto. split; [exact HT|exact I]. }
  apply (twp_wp True) in H.
  eapply wp_mono; [exact H| |].
  - intros u s' Hs. apply Hs.
  - intros s' Hs. apply Hs.
Qed.

Lemma tidy_exec c s : tidy s -> tidy (exec c s).
Proof.
  intros HT. unfold exec. apply wp_run; [exact HT|]. apply tidy_call. exact HT.
Qed.

Lemma reachable_tidy s : reachable s -> tidy s.
Proof.
  induction 1 as [rnd food nT tL moat armor damage | s c Hr IH].
  - apply tidy_initial.
  - apply tidy_exec. exact IH.
Qed.

(** The constructor returns. *)
Lemma new_AntColony_returns rnd food nT tL moat armor damage :
  exists s, new_AntColony nT tL moat (blank rnd food armor damage) = Ok tt s.
Proof.
  unfold new_AntColony.
  pose proof (twp_build_tunnels nT tL moat (blank rnd food armor damage)
                (tidy_blank rnd food armor damage)) as H.
  unfold twp in H.
  destruct (build_tunnels nT tL moat (blank rnd food armor damage)) as [[] s| |];
    [eexists; reflexivity|contradiction|contradiction].
Qed.

(** *** The armor of the bees *)

(** The armor that the hive gives to a new bee is [A]. *)
Definition hive_armor (A : Z) (s : State) : Prop := beeArmor s = A.

(** No command changes the armor that the hive gives to a new bee. *)
Lemma exec_beeArmor c s : tidy s -> beeArmor (exec c s) = beeArmor s.
Proof.
  intros HT.
  assert (H : twp True (call c) (fun _ s' => steady (hive_armor (beeArmor s)) s')
                (steady (hive_armor (beeArmor s))) s).
  { apply (keeps_call True (hive_armor (beeArmor s))); unfold hive_armor; auto.
    - intros s0 s' _ E H. congruence.
    - split; [exact HT|reflexivity]. }
  unfold exec. apply (twp_run True (call c) (steady (hive_armor (beeArmor s))) s) in H.
  - apply H.
  - split; [exact HT|reflexivity].
Qed.

(** [calm s]: the armor of every bee, and of the bees to come, is in the
    range where the arithmetic on it is exact. *)
Definition calm (s : State) : Prop :=
  beeArmor s <= JS.safe /\ forall b, b_armor (getB b s) <= JS.safe.

Lemma calm_same s s' :
  beeObjs s' = beeObjs s -> beeArmor s' = beeArmor s -> calm s -> calm s'.
Proof.
  intros EB EA [H1 H2]. split; [rewrite EA; exact H1|].
  intros b. unfold getB. rewrite EB. apply H2.
Qed.

Lemma calm_updB b f s :
  (forall B, b_armor (f B) <= Z.max (b_armor B) 0) -> calm s -> calm (updB b f s).
Proof.
  intros Hf [H1 H2]. split; [exact H1|].
  intros c. rewrite getB_updB. destruct (decide (b = c)) as [<-|]; [|apply H2].
  specialize (Hf (getB b s)). specialize (H2 b).
  assert (0 <= JS.safe) by (unfold JS.safe; lia). lia.
Qed.

Lemma calm_hit b amount s :
  0 <= amount -> calm s ->
  calm (updB b (fun B => with_b_armor (JS.sub (b_armor B) amount) B) s).
Proof.
  intros Ha [H1 H2]. split; [exact H1|].
  intros c. rewrite getB_updB. destruct (decide (b = c)) as [<-|]; [|apply H2].
  cbn [b_armor with_b_armor]. apply sub_le_safe; [apply H2|exact Ha].
Qed.

Lemma calm_hatch s : calm s -> calm (hatch s).
Proof.
  intros [H1 H2]. split; [exact H1|].
  intros c. unfold hatch. rewrite getB_updB.
  change (getB ?x (updP _ _ ?y)) with (getB x y).
  assert (HB : forall x,
            b_armor (getB x (set_next_bee (S (next_bee s))
                       (set_beeObjs
                          (fun m => <[next_bee s := mkBee (beeArmor s) (beeDamage s)
                                                      (Some (hive s)) None]> m) s)))
            <= JS.safe).
  { intros x. unfold getB; simpl.
    destruct (decide (next_bee s = x)) as [<-|Hne].
    - rewrite lookup_insert_eq. exact H1.
    - rewrite lookup_insert_ne by assumption. apply H2. }
  destruct (decide (next_bee s = c)) as [<-|]; [|apply HB].
  cbn [b_armor with_b_place]. apply HB.
Qed.

(** The hit of the spray lowers an armor in the exact range that it does
    not bring to 0. *)
Lemma calm_spray b s :
  calm s -> 0 < JS.sub (b_armor (getB b s)) 10 ->
  False \/ JS.sub (b_armor (getB b s)) 10 < b_armor (getB b s).
Proof.
  intros [_ H2] Hpos. right.
  rewrite (sub_exact_pos _ 10 (H2 b)) by (lia || exact Hpos). lia.
Qed.

(** From a tidy and calm state every command returns or raises, and leaves
    such a state. *)
Lemma calm_call c s :
  tidy s -> calm s ->
  twp False (call c) (fun _ s' => tidy s' /\ calm s') (fun s' => tidy s' /\ calm s') s.
Proof.
  intros HT HC.
  apply (keeps_call False calm).
  - apply calm_same.
  - intros b f s0 Hf. apply calm_updB. intros B. rewrite Hf. lia.
  - apply calm_hit.
  - apply calm_hatch.
  - apply calm_spray.
  - split; assumption.
Qed.

(** The constructor of the colony creates no bee. *)
Lemma build_tunnel_bees k : forall step moat curr row s,
  wp (build_tunnel k step moat curr row)
     (fun _ s' => beeObjs s' = beeObjs s /\ beeArmor s' = beeArmor s)
     (fun _ => False) s.
Proof.
  induction k as [|k IH]; intros step moat curr row s.
  - cbn [build_tunnel]. apply wp_ret. split; reflexivity.
  - cbn [build_tunnel]. cbv zeta. apply wp_bind. unfold wp at 1, new_Place.
    cbv zeta. apply wp_bind. apply wp_modify.
    eapply wp_mono; [apply IH| |auto].
    intros r s' [E1 E2]. rewrite E1, E2. split; reflexivity.
Qed.

Lemma build_tunnels_bees n tL moat : forall s,
  wp (build_tunnels n tL moat)
     (fun _ s' => beeObjs s' = beeObjs s /\ beeArmor s' = beeArmor s)
     (fun _ => False) s.
Proof.
  induction n as [|n IH]; intros s.
  - cbn [build_tunnels]. apply wp_ret. split; reflexivity.
  - cbn [build_tunnels]. apply wp_bind. apply wp_gets. apply wp_bind.
    eapply wp_mono; [apply build_tunnel_bees| |auto].
    intros r s1 [E1 E2]. apply wp_bind. apply wp_modify.
    eapply wp_mono; [apply IH| |auto].
    intros u s2 [E3 E4]. rewrite E3, E4. cbn [beeObjs beeArmor set_beeEntrances set_grid].
    split; assumption.
Qed.

Lemma initial_bees rnd food nT tL moat armor damage :
  beeObjs (initial rnd food nT tL moat armor damage) = ∅ /\
  beeArmor (initial rnd food nT tL moat armor damage) = armor.
Proof.
  unfold initial, new_AntColony, run.
  pose proof (build_tunnels_bees nT tL moat (blank rnd food armor damage)) as H.
  unfold wp in H.
  destruct (build_tunnels nT tL moat (blank rnd food armor damage));
    [exact H|contradiction|split; reflexivity].
Qed.

Lemma calm_initial rnd food nT tL moat armor damage :
  armor <= JS.safe -> calm (initial rnd food nT tL moat armor damage).
Proof.
  intros Ha. destruct (initial_bees rnd food nT tL moat armor damage) as [EB EA].
  split; [rewrite EA; exact Ha|].
  intros b. unfold getB. rewrite EB, lookup_empty. cbn. unfold JS.safe. lia.
Qed.

(** In a game whose bees are given an armor of at most [2 ^ 53], the armor
    of every bee stays in that range. *)
Lemma reachable_calm s : reachable s -> beeArmor s <= JS.safe -> calm s.
Proof.
  induction 1 as [rnd food nT tL moat armor damage | s c Hr IH]; intros Ha.
  - apply calm_initial.
    rewrite (proj2 (initial_bees rnd food nT tL moat armor damage)) in Ha. exact Ha.
  - pose proof (reachable_tidy s Hr) as HT.
    rewrite (exec_beeArmor c s HT) in Ha. specialize (IH Ha).
    pose proof (calm_call c s HT IH) as H.
    unfold exec. apply (twp_run False (call c) (fun s' => tidy s' /\ calm s') s) in H.
    + apply H.
    + split; assumption.
Qed.

(** In a game whose bees are given an armor of at most [2 ^ 53], every
    command returns or raises: the loop of the bug spray ends. *)
Lemma call_returns c s :
  reachable s -> beeArmor s <= JS.safe -> call c s <> Diverge.
Proof.
  intros Hr Ha.
  apply (twp_returns (call c) (fun _ s' => tidy s' /\ calm s')
           (fun s' => tidy s' /\ calm s')).
  apply calm_call; [apply reachable_tidy; exact Hr|apply reachable_calm; assumption].
Qed.
(** ** C8: the occupancy of a cell, in every state of a game *)

(** C8. In every state that a game reaches, each place refers to at most
    one defender that is not a Guard and to at most one Guard, and every
    command run from such a state (deploy, remove, boost, each of the three
    sweeps, the release of a wave, a whole turn) leaves such a state: when
    it returns, when it raises, and when it does neither.  It returns or
    raises in every game whose bees are given an armor of at most [2 ^ 53].
    The bees of a place are a list, whose length is a natural number, and
    [addBee] always lengthens it by one: no bound is enforced, and for
    every [n] a game reaches a state in which a cell of the board holds [n]
    bees. *)
Theorem C8_occupancy :
  (forall s, reachable s -> occupancy_ok s) /\
  (forall s c, reachable s ->
     occupancy_ok (exec c s) /\
     match call c s with
     | Ok _ s' => occupancy_ok s'
     | Throw s' => occupancy_ok s'
     | Diverge => JS.safe < beeArmor s
     end) /\
  (forall s p b,
     length (Place_getBees p (run (Place_addBee p b) s))
     = S (length (Place_getBees p s))) /\
  (forall n, exists s p,
     reachable s /\ p ∈ concat (grid s) /\ length (Place_getBees p s) = n).
Proof.
  assert (H : forall s, reachable s -> occupancy_ok s).
  { intros s Hr. destruct (reachable_wf s Hr) as [L (Hs & _)].
    apply slots_occupancy. exact Hs. }
  split; [exact H|]. split; [|split].
  - intros s c Hr.
    pose proof (H _ (reach_step s c Hr)) as Hnext.
    split; [exact Hnext|].
    pose proof (call_returns c s Hr) as Hret.
    unfold exec, run in Hnext.
    destruct (call c s); [exact Hnext|exact Hnext|].
    destruct (Z.lt_ge_cases JS.safe (beeArmor s)) as [Hbig|Hsmall]; [exact Hbig|].
    exfalso. apply Hret; [lia|reflexivity].
  - intros s p b. unfold run, Place_addBee, modify, Place_getBees.
    store_simpl. cbn [p_bees with_bees]. rewrite length_app. cbn. lia.
  - intros n. exists (exec Invade (exec (AddWave 0 n) one_cell)), the_cell.
    split; [do 2 apply reach_step; apply reach_initial|].
    destruct (crowd n) as [Hg Hn].
    split; [|exact Hn].
    rewrite Hg. cbn [concat app]. apply list_elem_of_here.
Qed.

(** ** C1: the shielded defender acts once *)

(** The board of the examples with a Thrower (ant 0) at "0,0" (place 2)
    and a Guard (ant 1) over it. *)
Definition demo_board : State := initial (fun _ => 0%Q) 10 1 5 3 2 1.

Definition demo_guarded : State :=
  exec (Deploy "guard" "0,0") (exec (Deploy "thrower" "0,0") demo_board).

(** C1, as stated, fails here: in the sweep over [demo_guarded] the act of
    the shielded Thrower is called once, not twice. *)
Lemma C1_counterexample :
  p_guard (getP 2 demo_guarded) = Some 1%nat /\
  p_ant (getP 2 demo_guarded) = Some 0%nat /\
  exists s', AntColony_antsAct demo_guarded = Ok tt s' /\
             acted demo_guarded = [] /\
             acted s' = [1%nat; 0%nat] /\
             times 0 (acted s') <> (times 0 (acted demo_guarded) + 2)%nat.
Proof.
  split; [vm_compute; reflexivity|]. split; [vm_compute; reflexivity|].
  eexists. split; [vm_compute; reflexivity|].
  split; [vm_compute; reflexivity|]. split; [vm_compute; reflexivity|].
  vm_compute. discriminate.
Qed.

(** C1, amended.  In a state that a game reaches, let a cell of the board
    hold a Guard and a shielded defender.  [getAllAnts] lists the Guard for
    that cell and does not list the shielded defender.  A sweep that
    returns has called the act of the shielded defender exactly once, when
    it came to the Guard.  A sweep that is left by an exception has called
    it at most once: not at all when the exception is raised before the
    sweep comes to the cell.  The sweep returns or raises unless the bees
    are given an armor above [2 ^ 53]. *)
Theorem C1_shielded_acts_once (s : State) (p g a : nat) :
  reachable s ->
  p ∈ concat (grid s) ->
  p_guard (getP p s) = Some g ->
  p_ant (getP p s) = Some a ->
  Place_getAnt p s = Some g /\
  (a ∉ AntColony_getAllAnts s) /\
  match AntColony_antsAct s with
  | Ok _ s' => times a (acted s') = S (times a (acted s))
  | Throw s' => (times a (acted s') <= S (times a (acted s)))%nat
  | Diverge => JS.safe < beeArmor s
  end.
Proof.
  intros Hr Hp Hg Ha.
  destruct (reachable_wf s Hr) as [L HI].
  pose proof (wf_Inv s L HI) as HInv.
  split; [unfold Place_getAnt; rewrite Hg; reflexivity|].
  split.
  - unfold AntColony_getAllAnts. intros Hin.
    apply list_elem_of_omap in Hin as (q & Hq & Hx).
    pose proof (listed_ant_place _ _ _ _ s HInv q a Hx) as Hqa.
    pose proof (a_stands_at_p _ _ _ _ s p a HInv Ha) as Hpa.
    assert (q = p) as -> by congruence.
    unfold Place_getAnt in Hx. rewrite Hg in Hx. injection Hx as ->.
    apply (a_not_guard _ _ _ _ s p a HInv Ha).
    apply (g_is_guard _ _ _ _ s p a HInv Hg).
  - pose proof (call_returns AntsAct s Hr) as Hret. cbn [call] in Hret.
    assert (Hsweep : match AntColony_antsAct s with
                     | Ok _ s' => times a (acted s') = S (times a (acted s))
                     | Throw s' => (times a (acted s') <= S (times a (acted s)))%nat
                     | Diverge => True
                     end).
    { apply list_elem_of_split in Hp as (pre & post & Hcells).
      assert (Hnd : NoDup (pre ++ p :: post))
        by (rewrite <- Hcells; apply HI).
      apply NoDup_app in Hnd as (_ & Hpre & Hnd).
      apply NoDup_cons in Hnd as [Hpost _].
      apply (sweep_cells _ _ _ _ s p g a HInv Hg Ha pre post Hcells); [|exact Hpost].
      intros Hin. apply (Hpre p Hin). apply list_elem_of_here. }
    destruct (AntColony_antsAct s); [exact Hsweep|exact Hsweep|].
    destruct (Z.lt_ge_cases JS.safe (beeArmor s)) as [Hbig|Hsmall]; [exact Hbig|].
    exfalso. apply Hret; [lia|reflexivity].
Qed.

Lemma demo_guarded_reachable : reachable demo_guarded.
Proof. repeat apply reach_step. apply reach_initial. Qed.

(** ** C10: a wave scheduled twice for the same turn *)

Definition hive_bees (s : State) : list nat := Place_getBees (hive s) s.







(** ** The theorems at work on the board of the examples *)

Lemma C1_witness :
  Place_getAnt 2 demo_guarded = Some 1%nat /\
  (0%nat ∉ AntColony_getAllAnts demo_guarded) /\
  match AntColony_antsAct demo_guarded with
  | Ok _ s' => times 0 (acted s') = S (times 0 (acted demo_guarded))
  | Throw s' => (times 0 (acted s') <= S (times 0 (acted demo_guarded)))%nat
  | Diverge => JS.safe < beeArmor demo_guarded
  end.
Proof.
  apply (C1_shielded_acts_once demo_guarded 2 1 0).
  - apply demo_guarded_reachable.
  - vm_compute. apply list_elem_of_here.
  - vm_compute. reflexivity.
  - vm_compute. reflexivity.
Defined.

(** A Thrower (ant 0) at "0,1" (place 3) and a bee (bee 0) that has just
    entered at "0,4" (place 6), three cells away. *)
Definition demo_thrower : State :=
  exec TakeTurn (exec (AddWave 0 1) (exec (Deploy "thrower" "0,1") demo_board)).

(** The Thrower of [demo_thrower] with a StickyLeaf. *)
Definition demo_sticky : State := exec (Boost "StickyLeaf" "0,1") demo_thrower.









(** An Eater (ant 0, stomach place 7) at "0,4" (place 6) and a bee (bee 0)
    that has just entered there. *)
Definition demo_eater : State :=
  exec TakeTurn (exec (AddWave 0 1) (exec (Deploy "eater" "0,4") demo_board)).

Lemma C5_witness :
  exists s0, Ant_act 0 demo_eater = Ok tt s0 /\
    a_turnsEating (getA 0 s0) = 1 /\
    Place_getBees 7 s0 = [0%nat] /\
    forall n s1, digesting 0 n s0 s1 -> (n <= 3)%nat ->
      a_turnsEating (getA 0 s1) = 1 + Z.of_nat n /\
      Place_getBees 7 s1 = [0%nat] /\
      exists s2, Ant_act 0 s1 = Ok tt s2 /\
        ((n < 3)%nat ->
           a_turnsEating (getA 0 s2) = 2 + Z.of_nat n /\
           Place_getBees 7 s2 = [0%nat]) /\
        (n = 3%nat ->
           a_turnsEating (getA 0 s2) = 0 /\
           Place_getBees 7 s2 = [] /\
           b_place (getB 0 s2) = None).
Proof.
  apply (C5_eater_digestion demo_eater 0 6 7 0 []).
  - vm_compute. reflexivity.
  - vm_compute. reflexivity.
  - vm_compute. reflexivity.
  - vm_compute. reflexivity.
  - discriminate.
  - vm_compute. reflexivity.
  - vm_compute. reflexivity.
Defined.

(** A colony with [10 ^ 16] food, and a Grower (ant 0) that is not yet on
    the board. *)
Definition demo_rich_board : State := initial (fun _ => 0%Q) (10 ^ 16) 1 5 3 2 1.

Definition demo_rich : State := run new_GrowerAnt demo_rich_board.

(** C3, as stated, fails here: the Grower, which costs 1, is deployed, and
    the food is what it was.  The command of the game does the same. *)
Lemma C3_counterexample :
  food demo_rich = 10 ^ 16 /\
  Ant_getFoodCost 0 demo_rich = 1 /\
  (exists s', AntColony_deployAnt 0 (VPlace 2) demo_rich = Ok None s' /\
              p_ant (getP 2 s') = Some 0%nat /\
              food s' = food demo_rich /\
              food s' <> food demo_rich - Ant_getFoodCost 0 demo_rich) /\
  reachable (exec (Deploy "grower" "0,0") demo_rich_board) /\
  p_ant (getP 2 (exec (Deploy "grower" "0,0") demo_rich_board)) = Some 0%nat /\
  food (exec (Deploy "grower" "0,0") demo_rich_board) = food demo_rich_board.
Proof.
  split; [vm_compute; reflexivity|]. split; [vm_compute; reflexivity|].
  split.
  - eexists. split; [vm_compute; reflexivity|].
    split; [vm_compute; reflexivity|]. split; [vm_compute; reflexivity|].
    vm_compute. discriminate.
  - split; [apply reach_step; apply reach_initial|].
    split; vm_compute; reflexivity.
Qed.

(** *** A bug spray that never ends *)

(** A Thrower or Scuba with the bug spray, in a place whose first bee has
    an armor that the hit does not lower: its act does not return. *)
Lemma sprayer_never_returns a p t s :
  a_kind (getA a s) = Thrower \/ a_kind (getA a s) = Scuba ->
  a_boost (getA a s) = Some "BugSpray"%string ->
  a_place (getA a s) = Some p ->
  head (p_bees (getP p s)) = Some t ->
  0 < b_armor (getB t s) ->
  JS.sub (b_armor (getB t s)) 10 = b_armor (getB t s) ->
  Ant_act a s = Diverge.
Proof.
  intros Hk Hb Hp Hhead Hpos Hfix.
  set (s0 := set_acted (a :: acted s) s).
  assert (Hloop : forall n, spray_loop n p s0 = Diverge)
    by (intros n; apply (spray_absorbed p t n s0); assumption).
  assert (Hspray : bug_spray a s0 = Diverge).
  { unfold bug_spray, bind, gets. change (getA a s0) with (getA a s).
    rewrite Hp. rewrite Hloop. reflexivity. }
  assert (Hact : ThrowerAnt_act a s0 = Diverge).
  { unfold ThrowerAnt_act, bind, gets. change (getA a s0) with (getA a s).
    rewrite Hb. exact Hspray. }
  unfold Ant_act, bind, modify, gets. fold s0. change (getA a s0) with (getA a s).
  destruct Hk as [-> | ->]; exact Hact.
Qed.

(** A game whose bees are given an armor of [10 ^ 18]: a Grower finds a
    bug spray and is removed, a Thrower at the entrance, "0,4" (place 6),
    is given the spray, and a bee (bee 0) enters there. *)
Definition demo_armored : State :=
  exec Invade (exec (AddWave 0 1)
    (exec (Boost "BugSpray" "0,4") (exec (Deploy "thrower" "0,4")
       (exec (Remove "0,0") (exec AntsAct (exec (Deploy "grower" "0,0")
          (initial (fun _ => 59 # 64) 10 1 5 3 (10 ^ 18) 1))))))).

(** The sweep of the defenders does not return from there. *)
Lemma spray_never_ends :
  reachable demo_armored /\
  beeArmor demo_armored = 10 ^ 18 /\
  call AntsAct demo_armored = Diverge.
Proof.
  split; [repeat apply reach_step; apply reach_initial|].
  split; [vm_compute; reflexivity|].
  cbn [call]. rewrite antsAct_unfold.
  assert (Hall : AntColony_getAllAnts demo_armored = [1%nat])
    by (vm_compute; reflexivity).
  rewrite Hall. cbn [forEach]. unfold bind at 1.
  assert (Hbody : antsAct_body 1 demo_armored = Diverge).
  { unfold antsAct_body, bind at 1, gets at 1.
    assert (Hk : a_kind (getA 1 demo_armored) = Thrower) by (vm_compute; reflexivity).
    rewrite Hk. destruct (decide (Thrower = Guard)) as [E|_]; [discriminate|].
    unfold bind at 1, ret at 1.
    apply (sprayer_never_returns 1 6 0 demo_armored).
    - left. exact Hk.
    - vm_compute. reflexivity.
    - vm_compute. reflexivity.
    - vm_compute. reflexivity.
    - vm_compute. reflexivity.
    - vm_compute. reflexivity. }
  rewrite Hbody. reflexivity.
Qed.
(** * Further properties of the engine *)

(** ** Water: [Place.act] *)

(** X1. [Place.act] returns.  On a dry place it changes nothing.  On a
    water place it leaves no Guard, and in the other slot only a Scuba: the
    Guard of a Scuba drowns, the Scuba stays.  No other place, no ant and no
    bee is written, and the bees of the place stay. *)
Theorem Place_act_drowns (p : nat) (s : State) :
  exists s', Place_act p s = Ok tt s' /\
    (forall q, q <> p -> getP q s' = getP q s) /\
    (forall a, getA a s' = getA a s) /\
    (forall b, getB b s' = getB b s) /\
    p_bees (getP p s') = p_bees (getP p s) /\
    if Place_isWater p s then
      p_guard (getP p s') = None /\
      p_ant (getP p s')
      = (if is_scuba (p_ant (getP p s)) s then p_ant (getP p s) else None)
    else s' = s.
Proof.
  unfold Place_act, bind, gets, ret, Place_removeAnt, Place_isWater. cbv beta.
  destruct (p_water (getP p s)) eqn:Hw; [|exists s; repeat split; reflexivity].
  cbv beta iota.
  destruct (p_guard (getP p s)) as [g|] eqn:Hg; cbv beta iota;
    rewrite ?Hg; cbv beta iota.
  - rewrite getP_updP_eq. cbn [p_ant p_guard with_guard].
    change (is_scuba ?o (updP p _ s)) with (is_scuba o s).
    destruct (is_scuba (p_ant (getP p s)) s) eqn:Hsc; cbn [negb]; cbv beta iota.
    + eexists. split; [reflexivity|].
      split; [intros q Hq; rewrite getP_updP_ne by congruence; reflexivity|].
      split; [reflexivity|]. split; [reflexivity|].
      rewrite getP_updP_eq. cbn. auto.
    + rewrite getP_updP_eq. cbn [p_guard with_guard].
      eexists. split; [reflexivity|].
      split; [intros q Hq; rewrite !getP_updP_ne by congruence; reflexivity|].
      split; [reflexivity|]. split; [reflexivity|].
      rewrite !getP_updP_eq. cbn. auto.
  - destruct (is_scuba (p_ant (getP p s)) s) eqn:Hsc; cbn [negb]; cbv beta iota.
    + exists s. repeat split; try reflexivity. exact Hg.
    + rewrite Hg. eexists. split; [reflexivity|].
      split; [intros q Hq; rewrite getP_updP_ne by congruence; reflexivity|].
      split; [reflexivity|]. split; [reflexivity|].
      rewrite !getP_updP_eq. cbn. auto.
Qed.

(** ** Removing a defender *)

(** X2. At coordinates that resolve to a place, [AntGame.removeAnt] always
    succeeds, also when the place is empty.  It gives no food back, takes
    the Guard when there is one and leaves the defender under it, and takes
    the defender otherwise.  The ant that is taken is not written: it still
    names the place. *)
Theorem removeAnt_takes_guard_first (coords : string) (p : nat) (s : State) :
  lookup_place coords s = Ok (VPlace p) s ->
  exists s', AntGame_removeAnt coords s = Ok None s' /\
    food s' = food s /\
    (forall a, getA a s' = getA a s) /\
    (forall q, q <> p -> getP q s' = getP q s) /\
    p_bees (getP p s') = p_bees (getP p s) /\
    p_guard (getP p s') = None /\
    p_ant (getP p s')
    = match p_guard (getP p s) with
      | Some _ => p_ant (getP p s)
      | None => None
      end.
Proof.
  intros Hl. unfold AntGame_removeAnt, try_catch, bind. rewrite Hl.
  unfold on_place, Place_removeAnt, ret.
  destruct (p_guard (getP p s)) as [g|] eqn:Hg.
  - eexists. split; [reflexivity|]. split; [reflexivity|]. split; [reflexivity|].
    split; [intros q Hq; rewrite getP_updP_ne by congruence; reflexivity|].
    rewrite getP_updP_eq. cbn. auto.
  - eexists. split; [reflexivity|]. split; [reflexivity|]. split; [reflexivity|].
    split; [intros q Hq; rewrite getP_updP_ne by congruence; reflexivity|].
    rewrite getP_updP_eq. cbn. auto.
Qed.

Lemma removeAnt_takes_guard_first_witness :
  lookup_place "0,0" demo_guarded = Ok (VPlace 2) demo_guarded /\
  exists s', AntGame_removeAnt "0,0" demo_guarded = Ok None s' /\
    food s' = food demo_guarded /\
    (forall a, getA a s' = getA a demo_guarded) /\
    (forall q, q <> 2%nat -> getP q s' = getP q demo_guarded) /\
    p_bees (getP 2 s') = p_bees (getP 2 demo_guarded) /\
    p_guard (getP 2 s') = None /\
    p_ant (getP 2 s')
    = match p_guard (getP 2 demo_guarded) with
      | Some _ => p_ant (getP 2 demo_guarded)
      | None => None
      end.
Proof.
  split; [vm_compute; reflexivity|].
  apply (removeAnt_takes_guard_first "0,0" 2 demo_guarded).
  vm_compute. reflexivity.
Defined.

(** Unfold the plumbing of the monad. *)
Ltac mcbv := cbv beta iota zeta delta [bind gets ret modify throw try_catch].

(** The sign of a rounded difference is the sign of the difference. *)
Ltac sub_sign :=
  repeat match goal with
         | H : context [JS.sub ?x ?y] |- _ =>
             lazymatch goal with
             | _ : JS.sub x y <= 0 <-> x <= y |- _ => fail
             | _ => pose proof (sub_nonpos x y); pose proof (sub_pos x y)
             end
         end;
  lia.

(** Read a store after a chain of writes, the keys being told apart by the
    hypotheses. *)
Ltac store_ne :=
  repeat first
    [ rewrite getP_updP_eq | rewrite getA_updA_eq | rewrite getB_updB_eq
    | rewrite getP_updP_ne by congruence
    | rewrite getA_updA_ne by congruence
    | rewrite getB_updB_ne by congruence
    | store_frame ].

(** ** A bee acts *)

(** X3. A bee at a place with a Guard stings the Guard, unless it is cold:
    the Guard loses the bee's damage in armor (the difference is rounded as
    a double, which changes nothing up to [2 ^ 53], see [sub_exact]), and
    leaves its slot when its armor is used up.  The defender under the
    Guard is not touched, the bee stays where it is, and its status is
    cleared. *)
Theorem guard_takes_the_sting (b p g : nat) (s : State) :
  b_place (getB b s) = Some p ->
  p_guard (getP p s) = Some g ->
  a_kind (getA g s) = Guard ->
  a_place (getA g s) = Some p ->
  b_status (getB b s) <> Some "cold"%string ->
  exists s', Bee_act b s = Ok tt s' /\
    a_armor (getA g s') = JS.sub (a_armor (getA g s)) (b_damage (getB b s)) /\
    (Z.abs (a_armor (getA g s) - b_damage (getB b s)) <= JS.safe ->
       a_armor (getA g s') = a_armor (getA g s) - b_damage (getB b s)) /\
    (forall x, x <> g -> getA x s' = getA x s) /\
    p_ant (getP p s') = p_ant (getP p s) /\
    p_guard (getP p s')
    = (if JS.sub (a_armor (getA g s)) (b_damage (getB b s)) <=? 0
       then None else Some g) /\
    (forall q, p_bees (getP q s') = p_bees (getP q s)) /\
    b_place (getB b s') = Some p /\
    b_status (getB b s') = None /\
    food s' = food s.
Proof.
  intros Hb Hg Hk Hpl Hst.
  unfold Bee_act, Bee_sting, Ant_reduceArmor, Insect_reduceArmor_ant,
    Place_removeInsect_ant, Place_removeAnt, Bee_setStatus, Place_getAnt.
  mcbv. rewrite Hb. mcbv. rewrite Hg. mcbv.
  rewrite (bool_decide_eq_false_2 _ Hst). cbn [negb]. mcbv.
  rewrite Hk. mcbv. rewrite getA_updA_eq. cbn [a_armor a_place with_a_armor].
  destruct (JS.sub (a_armor (getA g s)) (b_damage (getB b s)) <=? 0); mcbv.
  - rewrite getA_updA_eq. cbn [a_place with_a_armor]. rewrite Hpl. mcbv.
    change (getP p (updA g _ s)) with (getP p s). rewrite Hg. mcbv.
    eexists. split; [reflexivity|].
    rewrite getB_updB_eq.
    change (getA ?x (updB _ _ (updP _ _ ?y))) with (getA x y).
    change (getP ?x (updB _ _ ?y)) with (getP x y).
    split; [rewrite getA_updA_eq; reflexivity|].
    split; [intros Hx; rewrite getA_updA_eq; apply sub_exact; exact Hx|].
    split; [intros x Hx; rewrite getA_updA_ne by congruence; reflexivity|].
    rewrite getP_updP_eq.
    change (getP p (updA g _ s)) with (getP p s).
    split; [reflexivity|]. split; [reflexivity|].
    split.
    { intros q. rewrite getP_updP. destruct (decide (p = q)) as [<-|]; reflexivity. }
    split; [cbn; exact Hb|]. split; reflexivity.
  - eexists. split; [reflexivity|].
    rewrite getB_updB_eq.
    change (getA ?x (updB _ _ ?y)) with (getA x y).
    change (getP ?x (updB _ _ (updA _ _ ?y))) with (getP x y).
    split; [rewrite getA_updA_eq; reflexivity|].
    split; [intros Hx; rewrite getA_updA_eq; apply sub_exact; exact Hx|].
    split; [intros x Hx; rewrite getA_updA_ne by congruence; reflexivity|].
    split; [reflexivity|]. split; [exact Hg|].
    split; [reflexivity|]. split; [cbn; exact Hb|]. split; reflexivity.
Qed.

(** X4. A bee that no defender blocks, that is alive and not stuck, moves
    one place towards the queen: it leaves the list of its place, joins the
    end of the list of the exit, and names the exit.  Nothing else moves,
    and no ant is touched. *)
Theorem bee_advances (b p q i : nat) (s : State) :
  b_place (getB b s) = Some p ->
  Place_getAnt p s = None ->
  0 < b_armor (getB b s) ->
  b_status (getB b s) <> Some "stuck"%string ->
  p_exit (getP p s) = Some q ->
  q <> p ->
  indexOf b (p_bees (getP p s)) = Some i ->
  exists s', Bee_act b s = Ok tt s' /\
    p_bees (getP p s') = delete i (p_bees (getP p s)) /\
    p_bees (getP q s') = p_bees (getP q s) ++ [b] /\
    (forall x, x <> p -> x <> q -> p_bees (getP x s') = p_bees (getP x s)) /\
    b_place (getB b s') = Some q /\
    b_status (getB b s') = None /\
    b_armor (getB b s') = b_armor (getB b s) /\
    (forall c, c <> b -> getB c s' = getB c s) /\
    (forall a, getA a s' = getA a s).
Proof.
  intros Hb Hfree Harm Hst Hex Hqp Hi.
  unfold Bee_act, Place_exitBee, Place_removeBee, Place_addBee, Bee_setStatus,
    Place_getExit.
  mcbv. rewrite Hb. mcbv. rewrite Hfree. mcbv.
  destruct (Z.ltb_spec 0 (b_armor (getB b s))) as [_|]; [|lia].
  rewrite (bool_decide_eq_false_2 _ Hst). cbn [negb]. mcbv.
  rewrite Hi. mcbv.
  change (getP p (updB b _ ?y)) with (getP p y). rewrite getP_updP_eq.
  cbn [p_exit with_bees]. rewrite Hex. mcbv.
  eexists. split; [reflexivity|].
  split; [store_ne; reflexivity|].
  split; [store_ne; cbn [p_bees with_bees]; store_ne; reflexivity|].
  split; [intros x Hxp Hxq; store_ne; reflexivity|].
  split; [store_ne; reflexivity|]. split; [store_ne; reflexivity|].
  split; [store_ne; reflexivity|].
  split; [intros c Hc; store_ne; reflexivity|].
  intros a. reflexivity.
Qed.

(** X5.  A bee at a place without an exit (the queen's place, a stomach)
    that is free to move does not return from its act: the call raises,
    after the bee has left the list of its place. *)
Theorem bee_without_exit_raises (b p i : nat) (s : State) :
  b_place (getB b s) = Some p ->
  Place_getAnt p s = None ->
  0 < b_armor (getB b s) ->
  b_status (getB b s) <> Some "stuck"%string ->
  p_exit (getP p s) = None ->
  indexOf b (p_bees (getP p s)) = Some i ->
  exists s', Bee_act b s = Throw s' /\
    p_bees (getP p s') = delete i (p_bees (getP p s)) /\
    b_place (getB b s') = None.
Proof.
  intros Hb Hfree Harm Hst Hex Hi.
  unfold Bee_act, Place_exitBee, Place_removeBee, Place_addBee, Bee_setStatus,
    Place_getExit.
  mcbv. rewrite Hb. mcbv. rewrite Hfree. mcbv.
  destruct (Z.ltb_spec 0 (b_armor (getB b s))) as [_|]; [|lia].
  rewrite (bool_decide_eq_false_2 _ Hst). cbn [negb]. mcbv.
  rewrite Hi. mcbv.
  change (getP p (updB b _ ?y)) with (getP p y). rewrite getP_updP_eq.
  cbn [p_exit with_bees]. rewrite Hex. mcbv.
  eexists. split; [reflexivity|].
  rewrite getB_updB_eq. change (getP p (updB b _ ?y)) with (getP p y).
  rewrite getP_updP_eq. split; reflexivity.
Qed.

(** ** A leaf is thrown *)

(** The mark that a leaf leaves on the bee it hits. *)
Definition leaf_mark (boost : option string) (t : nat) (s : State) : State :=
  let s2 := if has_boost boost "StickyLeaf"
            then updB t (with_b_status (Some "stuck"%string)) s else s in
  if has_boost boost "IcyLeaf"
  then updB t (with_b_status (Some "cold"%string)) s2 else s2.

Definition leaf_status (boost : option string) (old : option string) : option string :=
  if has_boost boost "IcyLeaf" then Some "cold"%string
  else if has_boost boost "StickyLeaf" then Some "stuck"%string
  else old.

Lemma leaf_mark_getB boost t c s :
  getB c (leaf_mark boost t s)
  = if decide (t = c)
    then with_b_status (leaf_status boost (b_status (getB t s))) (getB t s)
    else getB c s.
Proof.
  unfold leaf_mark, leaf_status. cbv zeta.
  destruct (has_boost boost "IcyLeaf"); destruct (has_boost boost "StickyLeaf");
    rewrite ?getB_updB; repeat case_decide; subst; try congruence;
    try reflexivity; destruct (getB _ s); reflexivity.
Qed.

Lemma leaf_mark_getP boost t q s : getP q (leaf_mark boost t s) = getP q s.
Proof.
  unfold leaf_mark. cbv zeta.
  destruct (has_boost boost "IcyLeaf"); destruct (has_boost boost "StickyLeaf");
    reflexivity.
Qed.

Lemma leaf_mark_getA boost t a s : getA a (leaf_mark boost t s) = getA a s.
Proof.
  unfold leaf_mark. cbv zeta.
  destruct (has_boost boost "IcyLeaf"); destruct (has_boost boost "StickyLeaf");
    reflexivity.
Qed.

Lemma leaf_mark_food boost t s : food (leaf_mark boost t s) = food s.
Proof.
  unfold leaf_mark. cbv zeta.
  destruct (has_boost boost "IcyLeaf"); destruct (has_boost boost "StickyLeaf");
    reflexivity.
Qed.

(** The act of a Thrower or Scuba that finds a target, in one piece. *)
Lemma leaf_throw a p t r s s1 :
  a_kind (getA a s) = Thrower \/ a_kind (getA a s) = Scuba ->
  a_boost (getA a s) <> Some "BugSpray"%string ->
  a_place (getA a s) = Some p ->
  Place_getClosestBee p (leaf_range (a_boost (getA a s))) 0 s = Some t ->
  Bee_reduceArmor t 1 (set_acted (a :: acted s) s) = Ok r s1 ->
  Ant_act a s
  = Ok tt (updA a (with_a_boost None) (leaf_mark (a_boost (getA a s)) t s1)).
Proof.
  intros Hk Hb Hp Ht Hr.
  assert (Hbody : Ant_act a s = ThrowerAnt_act a (set_acted (a :: acted s) s)).
  { unfold Ant_act. mcbv. change (getA a (set_acted _ s)) with (getA a s).
    destruct Hk as [-> | ->]; reflexivity. }
  rewrite Hbody. unfold ThrowerAnt_act, Bee_setStatus. mcbv.
  change (getA a (set_acted _ s)) with (getA a s).
  assert (Hs : has_boost (a_boost (getA a s)) "BugSpray" = false)
    by (unfold has_boost; apply bool_decide_eq_false; assumption).
  rewrite Hs. cbn [negb]. mcbv. store_simpl. rewrite Hp. mcbv.
  rewrite (getClosestBee_ext s (set_acted (a :: acted s) s)) by reflexivity.
  unfold leaf_range in Ht. rewrite Ht. mcbv. rewrite Hr. mcbv.
  unfold leaf_mark. cbv zeta.
  destruct (has_boost (a_boost (getA a s)) "StickyLeaf");
    destruct (has_boost (a_boost (getA a s)) "IcyLeaf"); reflexivity.
Qed.

(** X6. The leaf of a Thrower or Scuba costs the nearest bee in range one
    point of armor and marks it: cold under IcyLeaf, stuck under StickyLeaf.
    A bee that had more than one point stays where it is; a bee that had
    one point or less leaves the list of its place and names no place.  No
    other bee and no other ant is written, and the food stays. *)
Theorem leaf_hits_the_nearest_bee (a p t q i : nat) (s : State) :
  a_kind (getA a s) = Thrower \/ a_kind (getA a s) = Scuba ->
  a_boost (getA a s) <> Some "BugSpray"%string ->
  a_place (getA a s) = Some p ->
  Place_getClosestBee p (leaf_range (a_boost (getA a s))) 0 s = Some t ->
  b_place (getB t s) = Some q ->
  indexOf t (p_bees (getP q s)) = Some i ->
  exists s', Ant_act a s = Ok tt s' /\
    b_armor (getB t s') = JS.sub (b_armor (getB t s)) 1 /\
    (Z.abs (b_armor (getB t s) - 1) <= JS.safe ->
       b_armor (getB t s') = b_armor (getB t s) - 1) /\
    b_status (getB t s') = leaf_status (a_boost (getA a s)) (b_status (getB t s)) /\
    (forall c, c <> t -> getB c s' = getB c s) /\
    (forall x, x <> a -> getA x s' = getA x s) /\
    food s' = food s /\
    (forall x, x <> q -> getP x s' = getP x s) /\
    if 1 <? b_armor (getB t s)
    then getP q s' = getP q s /\ b_place (getB t s') = Some q
    else p_bees (getP q s') = delete i (p_bees (getP q s)) /\
         b_place (getB t s') = None.
Proof.
  intros Hk Hb Hp Ht Hq Hi.
  set (s0 := set_acted (a :: acted s) s).
  pose proof (Bee_reduceArmor_eq t 1 s0) as Heq. cbv zeta in Heq.
  change (getB t s0) with (getB t s) in Heq. rewrite Hq in Heq.
  change (getP q s0) with (getP q s) in Heq. rewrite Hi in Heq.
  destruct (Z.ltb_spec 1 (b_armor (getB t s))) as [Hlive|Hdead].
  - destruct (Z.leb_spec (JS.sub (b_armor (getB t s)) 1) 0) as [|_]; [sub_sign|].
    rewrite (leaf_throw a p t _ s _ Hk Hb Hp Ht Heq).
    eexists. split; [reflexivity|].
    change (getB ?c (updA a _ ?y)) with (getB c y).
    change (getP ?c (updA a _ ?y)) with (getP c y).
    rewrite leaf_mark_getB. destruct (decide (t = t)); [|congruence].
    rewrite getB_updB_eq. change (getB t s0) with (getB t s).
    split; [reflexivity|].
    split; [intros Hx; rewrite <- (sub_exact _ _ Hx); reflexivity|].
    split; [reflexivity|].
    split.
    { intros c Hc. rewrite leaf_mark_getB. destruct (decide (t = c)); [congruence|].
      rewrite getB_updB_ne by congruence. reflexivity. }
    split.
    { intros x Hx. rewrite getA_updA_ne by congruence. rewrite leaf_mark_getA.
      reflexivity. }
    split; [change (food (updA a _ ?y)) with (food y); rewrite leaf_mark_food;
            reflexivity|].
    split; [intros x Hx; rewrite leaf_mark_getP; reflexivity|].
    split; [rewrite leaf_mark_getP; reflexivity|exact Hq].
  - destruct (Z.leb_spec (JS.sub (b_armor (getB t s)) 1) 0) as [_|]; [|sub_sign].
    rewrite (leaf_throw a p t _ s _ Hk Hb Hp Ht Heq).
    eexists. split; [reflexivity|].
    change (getB ?c (updA a _ ?y)) with (getB c y).
    change (getP ?c (updA a _ ?y)) with (getP c y).
    rewrite leaf_mark_getB. destruct (decide (t = t)); [|congruence].
    store_ne. change (getB t s0) with (getB t s).
    split; [reflexivity|].
    split; [intros Hx; rewrite <- (sub_exact _ _ Hx); reflexivity|].
    split; [reflexivity|].
    split.
    { intros c Hc. rewrite leaf_mark_getB. destruct (decide (t = c)); [congruence|].
      store_ne. reflexivity. }
    split.
    { intros x Hx. rewrite getA_updA_ne by congruence. rewrite leaf_mark_getA.
      reflexivity. }
    split; [change (food (updA a _ ?y)) with (food y); rewrite leaf_mark_food;
            reflexivity|].
    split; [intros x Hx; rewrite leaf_mark_getP; store_ne; reflexivity|].
    split; [rewrite leaf_mark_getP; store_ne; reflexivity|reflexivity].
Qed.

(** X7. A bee hit by a sticky leaf that it survives does not move at its
    next act, although no defender blocks it: after the two acts every
    place is as it was, and the bee is no longer stuck. *)
Theorem sticky_leaf_holds_the_bee (a p t q : nat) (s : State) :
  a_kind (getA a s) = Thrower \/ a_kind (getA a s) = Scuba ->
  a_boost (getA a s) = Some "StickyLeaf"%string ->
  a_place (getA a s) = Some p ->
  Place_getClosestBee p 3 0 s = Some t ->
  b_place (getB t s) = Some q ->
  1 < b_armor (getB t s) ->
  Place_getAnt q s = None ->
  exists s1 s2,
    Ant_act a s = Ok tt s1 /\ b_status (getB t s1) = Some "stuck"%string /\
    Bee_act t s1 = Ok tt s2 /\
    (forall x, getP x s2 = getP x s) /\
    b_place (getB t s2) = Some q /\
    b_armor (getB t s2) = JS.sub (b_armor (getB t s)) 1 /\
    (b_armor (getB t s) <= JS.safe ->
       b_armor (getB t s2) = b_armor (getB t s) - 1) /\
    b_status (getB t s2) = None.
Proof.
  intros Hk Hb Hp Ht Hq Harm Hfree.
  set (s0 := set_acted (a :: acted s) s).
  pose proof (Bee_reduceArmor_eq t 1 s0) as Heq. cbv zeta in Heq.
  change (getB t s0) with (getB t s) in Heq.
  destruct (Z.leb_spec (JS.sub (b_armor (getB t s)) 1) 0) as [|_]; [sub_sign|].
  assert (Hnb : a_boost (getA a s) <> Some "BugSpray"%string)
    by (rewrite Hb; discriminate).
  assert (Ht' : Place_getClosestBee p (leaf_range (a_boost (getA a s))) 0 s = Some t)
    by (rewrite Hb; exact Ht).
  pose proof (leaf_throw a p t _ s _ Hk Hnb Hp Ht' Heq) as Hact.
  rewrite Hb in Hact.
  change (leaf_mark (Some "StickyLeaf"%string) t ?y)
    with (updB t (with_b_status (Some "stuck"%string)) y) in Hact.
  eexists _, _. split; [exact Hact|].
  split; [store_ne; reflexivity|].
  split.
  { unfold Bee_act, Bee_setStatus, Place_getAnt. mcbv. store_ne.
    cbn [b_place b_status b_armor with_b_status with_b_armor].
    change (getB t s0) with (getB t s). rewrite Hq. mcbv. store_ne.
    change (getP q s0) with (getP q s).
    unfold Place_getAnt in Hfree. rewrite Hfree. mcbv. store_ne.
    cbn [b_place b_status b_armor with_b_status with_b_armor].
    change (getB t s0) with (getB t s).
    destruct (Z.ltb_spec 0 (JS.sub (b_armor (getB t s)) 1)) as [_|]; [|sub_sign].
    change (negb (bool_decide (Some "stuck"%string = Some "stuck"%string)))
      with false.
    mcbv. reflexivity. }
  split; [intros x; reflexivity|].
  store_ne. cbn [b_place b_armor b_status with_b_status with_b_armor].
  change (getB t s0) with (getB t s).
  split; [exact Hq|]. split; [reflexivity|]. split; [|reflexivity].
  intros Hx. apply sub_exact. apply Z.abs_le. unfold JS.safe in *. lia.
Qed.

(** X8. A bee hit by an icy leaf that it survives does not sting at its next
    act, although a defender blocks it: no ant other than the thrower is
    written by the two acts, the bee stays and is no longer cold. *)
Theorem icy_leaf_stops_the_sting (a p t q x : nat) (s : State) :
  a_kind (getA a s) = Thrower \/ a_kind (getA a s) = Scuba ->
  a_boost (getA a s) = Some "IcyLeaf"%string ->
  a_place (getA a s) = Some p ->
  Place_getClosestBee p 3 0 s = Some t ->
  b_place (getB t s) = Some q ->
  1 < b_armor (getB t s) ->
  Place_getAnt q s = Some x ->
  exists s1 s2,
    Ant_act a s = Ok tt s1 /\ b_status (getB t s1) = Some "cold"%string /\
    Bee_act t s1 = Ok tt s2 /\
    (forall y, y <> a -> getA y s2 = getA y s) /\
    (forall y, getP y s2 = getP y s) /\
    b_place (getB t s2) = Some q /\
    b_status (getB t s2) = None.
Proof.
  intros Hk Hb Hp Ht Hq Harm Hblock.
  set (s0 := set_acted (a :: acted s) s).
  pose proof (Bee_reduceArmor_eq t 1 s0) as Heq. cbv zeta in Heq.
  change (getB t s0) with (getB t s) in Heq.
  destruct (Z.leb_spec (JS.sub (b_armor (getB t s)) 1) 0) as [|_]; [sub_sign|].
  assert (Hnb : a_boost (getA a s) <> Some "BugSpray"%string)
    by (rewrite Hb; discriminate).
  assert (Ht' : Place_getClosestBee p (leaf_range (a_boost (getA a s))) 0 s = Some t)
    by (rewrite Hb; exact Ht).
  pose proof (leaf_throw a p t _ s _ Hk Hnb Hp Ht' Heq) as Hact.
  rewrite Hb in Hact.
  change (leaf_mark (Some "IcyLeaf"%string) t ?y)
    with (updB t (with_b_status (Some "cold"%string)) y) in Hact.
  eexists _, _. split; [exact Hact|].
  split; [store_ne; reflexivity|].
  split.
  { unfold Bee_act, Bee_setStatus, Place_getAnt. mcbv. store_ne.
    cbn [b_place b_status b_armor with_b_status with_b_armor].
    change (getB t s0) with (getB t s). rewrite Hq. mcbv. store_ne.
    change (getP q s0) with (getP q s).
    unfold Place_getAnt in Hblock. rewrite Hblock. mcbv. store_ne.
    cbn [b_place b_status b_armor with_b_status with_b_armor].
    change (negb (bool_decide (Some "cold"%string = Some "cold"%string)))
      with false.
    mcbv. reflexivity. }
  split; [intros y Hy; store_ne; reflexivity|].
  split; [intros y; reflexivity|].
  store_ne. cbn. auto.
Qed.

(** ** The bug spray *)

(** A hit on an armor of at most [2 ^ 53]. *)
Lemma hit_le a y :
  a <= JS.safe -> 0 <= y -> (Z.to_nat (JS.sub a y) <= Z.to_nat a)%nat.
Proof.
  intros Ha Hy. destruct (Z.le_gt_cases (JS.sub a y) 0) as [H0|H0]; [lia|].
  rewrite (sub_exact_pos a y Ha Hy H0). lia.
Qed.

Lemma hit_lt a y :
  a <= JS.safe -> 0 < y -> 0 < JS.sub a y ->
  (Z.to_nat (JS.sub a y) < Z.to_nat a)%nat.
Proof.
  intros Ha Hy H0. rewrite (sub_exact_pos a y Ha ltac:(lia) H0).
  apply (proj1 (sub_pos a y)) in H0. lia.
Qed.

(** The loop of the bug spray on a place whose bees are listed once, name
    the place and have an armor of at most [2 ^ 53]: it returns, having
    emptied the list of the place and written its bees only. *)
Lemma spray_loop_clears p : forall n s,
  NoDup (p_bees (getP p s)) ->
  (forall b, b ∈ p_bees (getP p s) -> b_place (getB b s) = Some p) ->
  (forall b, b ∈ p_bees (getP p s) -> b_armor (getB b s) <= JS.safe) ->
  (spray_measure p s < n)%nat ->
  exists s', spray_loop n p s = Ok tt s' /\
    getP p s' = with_bees [] (getP p s) /\
    (forall q, q <> p -> getP q s' = getP q s) /\
    (forall a, getA a s' = getA a s) /\
    (forall b, b ∉ p_bees (getP p s) -> getB b s' = getB b s) /\
    (forall b, b ∈ p_bees (getP p s) ->
       b_place (getB b s') = None /\ b_armor (getB b s') <= 0) /\
    food s' = food s /\ boosts s' = boosts s /\ acted s' = acted s.
Proof.
  induction n as [|n IH]; intros s Hnd Hpl Hsafe Hmu; [lia|].
  cbn [spray_loop]. rewrite closest_here.
  destruct (p_bees (getP p s)) as [|t l] eqn:Hl; cbn [head].
  { exists s. split; [reflexivity|].
    split; [destruct (getP p s) eqn:E; cbn in Hl; subst; reflexivity|].
    split; [reflexivity|]. split; [reflexivity|]. split; [reflexivity|].
    split; [intros b Hb; inversion Hb|]. auto. }
  unfold bind. rewrite Bee_reduceArmor_eq. cbv zeta.
  set (sa := updB t (fun B => with_b_armor (JS.sub (b_armor B) 10) B) s).
  pose proof (Hsafe t (list_elem_of_here _ _)) as Hsafe_t.
  assert (Hcost : forall b, (spray_cost sa b <= spray_cost s b)%nat).
  { intros b. unfold spray_cost, sa. rewrite getB_updB.
    destruct (decide (t = b)) as [<-|]; [|lia]. cbn [b_armor with_b_armor].
    pose proof (hit_le (b_armor (getB t s)) 10 Hsafe_t ltac:(lia)). lia. }
  assert (Hmu_s : spray_measure p s
                  = (spray_cost s t + list_sum (map (spray_cost s) l))%nat)
    by (rewrite spray_measure_eq, Hl; reflexivity).
  apply NoDup_cons in Hnd as [Htl Hndl].
  destruct (Z.leb_spec (JS.sub (b_armor (getB t s)) 10) 0) as [Hdead|Halive].
  - rewrite (Hpl t) by apply list_elem_of_here.
    rewrite Hl, indexOf_head.
    set (s1 := updB t (with_b_place None)
                 (updP p (fun P => with_bees (delete 0%nat (p_bees P)) P) sa)).
    assert (Hl1 : p_bees (getP p s1) = l).
    { unfold s1. store_simpl. cbn [p_bees with_bees].
      change (getP p sa) with (getP p s). rewrite Hl. reflexivity. }
    assert (HB1 : forall b, b <> t -> getB b s1 = getB b s).
    { intros b Hb. unfold s1, sa. store_ne. reflexivity. }
    destruct (IH s1) as (s' & Hrun & HP & HQ & HA & HBout & HBin & HF & HBo & HAc).
    + rewrite Hl1. exact Hndl.
    + rewrite Hl1. intros b Hb. rewrite HB1 by (intros ->; contradiction).
      apply Hpl. apply list_elem_of_further. exact Hb.
    + rewrite Hl1. intros b Hb. rewrite HB1 by (intros ->; contradiction).
      apply Hsafe. apply list_elem_of_further. exact Hb.
    + rewrite spray_measure_eq, Hl1.
      assert (Hc : forall b, (spray_cost s1 b <= spray_cost s b)%nat).
      { intros b. etransitivity; [|apply Hcost].
        unfold spray_cost, s1. rewrite getB_updB.
        destruct (decide (t = b)) as [<-|]; [|reflexivity].
        cbn [b_armor with_b_place]. reflexivity. }
      pose proof (list_sum_map_le (spray_cost s1) (spray_cost s) l Hc) as Hle.
      unfold spray_cost at 1 in Hmu_s. lia.
    + exists s'. split; [exact Hrun|].
      split.
      { rewrite HP. unfold s1. store_simpl. change (getP p sa) with (getP p s).
        reflexivity. }
      split.
      { intros q Hq. rewrite HQ by exact Hq. unfold s1. store_ne. reflexivity. }
      split; [intros a; rewrite HA; reflexivity|].
      split.
      { intros b Hb. apply not_elem_of_cons in Hb as [Hbt Hbl].
        rewrite HBout by (rewrite Hl1; exact Hbl). apply HB1. exact Hbt. }
      split.
      { intros b Hb. apply elem_of_cons in Hb as [->|Hb].
        - rewrite HBout by (rewrite Hl1; exact Htl).
          unfold s1, sa. store_ne. cbn [b_place b_armor with_b_place with_b_armor].
          split; [reflexivity|exact Hdead].
        - apply HBin. rewrite Hl1. exact Hb. }
      rewrite HF, HBo, HAc. repeat split.
  - assert (Hla : p_bees (getP p sa) = t :: l) by exact Hl.
    destruct (IH sa) as (s' & Hrun & HP & HQ & HA & HBout & HBin & HF & HBo & HAc).
    + rewrite Hla. apply NoDup_cons. split; assumption.
    + rewrite Hla. intros b Hb. unfold sa. rewrite getB_updB.
      destruct (decide (t = b)) as [<-|].
      * cbn [b_place with_b_armor]. apply Hpl. apply list_elem_of_here.
      * apply Hpl. exact Hb.
    + rewrite Hla. intros b Hb. unfold sa. rewrite getB_updB.
      destruct (decide (t = b)) as [<-|].
      * cbn [b_armor with_b_armor]. apply sub_le_safe; [exact Hsafe_t|lia].
      * apply Hsafe. exact Hb.
    + rewrite spray_measure_eq, Hla. cbn [map].
      change (list_sum (?x :: ?r)) with (x + list_sum r)%nat.
      pose proof (list_sum_map_le (spray_cost sa) (spray_cost s) l Hcost) as Hle.
      assert (spray_cost sa t < spray_cost s t)%nat.
      { unfold spray_cost, sa. store_simpl. cbn [b_armor with_b_armor].
        pose proof (hit_lt (b_armor (getB t s)) 10 Hsafe_t ltac:(lia) Halive). lia. }
      lia.
    + exists s'. split; [exact Hrun|].
      split; [rewrite HP; reflexivity|].
      split; [intros q Hq; rewrite HQ by exact Hq; reflexivity|].
      split; [intros a; rewrite HA; reflexivity|].
      split.
      { intros b Hb. rewrite HBout by (rewrite Hla; exact Hb).
        unfold sa. apply getB_updB_ne. intros ->. apply Hb. apply list_elem_of_here. }
      split; [intros b Hb; apply HBin; rewrite Hla; exact Hb|].
      rewrite HF, HBo, HAc. repeat split.
Qed.

(** [Insect.reduceArmor] on an ant, in one piece: the ant that dies calls
    [removeAnt] on its place, which takes the Guard when there is one. *)
Lemma Insect_reduceArmor_ant_eq a amount s :
  Insect_reduceArmor_ant a amount s =
  let sa := updA a (fun A => with_a_armor (JS.sub (a_armor A) amount) A) s in
  if JS.sub (a_armor (getA a s)) amount <=? 0 then
    match a_place (getA a s) with
    | Some p =>
        match p_guard (getP p s) with
        | Some _ => Ok true (updP p (with_guard None) sa)
        | None => Ok true (updP p (with_ant None) sa)
        end
    | None => Throw sa
    end
  else Ok false sa.
Proof.
  unfold Insect_reduceArmor_ant, Place_removeInsect_ant, Place_removeAnt.
  unfold bind, modify, gets, ret, throw. cbv beta zeta.
  rewrite getA_updA_eq. cbn [a_armor with_a_armor].
  destruct (_ <=? 0); [|reflexivity].
  cbv beta. rewrite getA_updA_eq. cbn [a_place with_a_armor].
  destruct (a_place (getA a s)) as [p|]; [|reflexivity].
  cbv beta. change (getP p (updA a _ s)) with (getP p s).
  destruct (p_guard (getP p s)); reflexivity.
Qed.

(** The act of a Thrower or Scuba under BugSpray, in one piece: [s1] is the
    state that the loop leaves. *)
Lemma bug_spray_act a p s :
  a_kind (getA a s) = Thrower \/ a_kind (getA a s) = Scuba ->
  a_boost (getA a s) = Some "BugSpray"%string ->
  a_place (getA a s) = Some p ->
  NoDup (p_bees (getP p s)) ->
  (forall b, b ∈ p_bees (getP p s) -> b_place (getB b s) = Some p) ->
  (forall b, b ∈ p_bees (getP p s) -> b_armor (getB b s) <= JS.safe) ->
  exists s1,
    getP p s1 = with_bees [] (getP p s) /\
    (forall q, q <> p -> getP q s1 = getP q s) /\
    (forall x, getA x s1 = getA x s) /\
    (forall b, b ∉ p_bees (getP p s) -> getB b s1 = getB b s) /\
    (forall b, b ∈ p_bees (getP p s) ->
       b_place (getB b s1) = None /\ b_armor (getB b s1) <= 0) /\
    food s1 = food s /\ boosts s1 = boosts s /\
    Ant_act a s
    = Ok tt
        (let sa := updA a (fun A => with_a_armor (JS.sub (a_armor A) 10) A) s1 in
         if JS.sub (a_armor (getA a s)) 10 <=? 0 then
           match p_guard (getP p s) with
           | Some _ => updP p (with_guard None) sa
           | None => updP p (with_ant None) sa
           end
         else sa).
Proof.
  intros Hk Hb Hp Hnd Hpl Hsafe.
  set (s0 := set_acted (a :: acted s) s).
  destruct (spray_loop_clears p (spray_bound p s0) s0)
    as (s1 & Hrun & HP & HQ & HA & HBout & HBin & HF & HBo & _).
  { exact Hnd. } { exact Hpl. } { exact Hsafe. } { unfold spray_bound. lia. }
  exists s1. split; [exact HP|]. split; [exact HQ|]. split; [exact HA|].
  split; [exact HBout|]. split; [exact HBin|]. split; [exact HF|].
  split; [exact HBo|].
  assert (Hbody : Ant_act a s = ThrowerAnt_act a s0).
  { unfold Ant_act. mcbv. change (getA a (set_acted _ s)) with (getA a s).
    destruct Hk as [-> | ->]; reflexivity. }
  rewrite Hbody. unfold ThrowerAnt_act, bug_spray. mcbv.
  change (getA a s0) with (getA a s). rewrite Hb.
  change (negb (has_boost (Some "BugSpray"%string) "BugSpray")) with false.
  mcbv. change (getA a s0) with (getA a s). rewrite Hp. mcbv. rewrite Hrun. mcbv.
  rewrite Insect_reduceArmor_ant_eq. cbv zeta. rewrite HA.
  change (getA a s0) with (getA a s). rewrite Hp, HP.
  change (getP p s0) with (getP p s). cbn [p_guard with_bees].
  destruct (JS.sub (a_armor (getA a s)) 10 <=? 0); [|reflexivity].
  destruct (p_guard (getP p s)); reflexivity.
Qed.

(** X9. Let the bees of the place of a Thrower or Scuba be listed there
    once each, name that place, and have an armor of at most [2 ^ 53].
    Under BugSpray the Thrower or Scuba kills every bee of its own place
    and no other: its act returns, the list of the place is empty
    afterwards, each of its bees has no armor left and names no place, and
    the bees and the lists of every other place of the tunnel are as they
    were.  The boost is not used up, and the sprayer loses 10 points of
    armor (rounded as a double). *)
Theorem bug_spray_clears_own_place_only (a p : nat) (s : State) :
  a_kind (getA a s) = Thrower \/ a_kind (getA a s) = Scuba ->
  a_boost (getA a s) = Some "BugSpray"%string ->
  a_place (getA a s) = Some p ->
  NoDup (p_bees (getP p s)) ->
  (forall b, b ∈ p_bees (getP p s) -> b_place (getB b s) = Some p) ->
  (forall b, b ∈ p_bees (getP p s) -> b_armor (getB b s) <= JS.safe) ->
  exists s', Ant_act a s = Ok tt s' /\
    Place_getBees p s' = [] /\
    (forall q, q <> p -> getP q s' = getP q s) /\
    (forall b, b ∈ p_bees (getP p s) ->
       b_place (getB b s') = None /\ b_armor (getB b s') <= 0) /\
    (forall b, b ∉ p_bees (getP p s) -> getB b s' = getB b s) /\
    a_boost (getA a s') = Some "BugSpray"%string /\
    a_armor (getA a s') = JS.sub (a_armor (getA a s)) 10 /\
    (forall x, x <> a -> getA x s' = getA x s).
Proof.
  intros Hk Hb Hp Hnd Hpl Hsafe.
  destruct (bug_spray_act a p s Hk Hb Hp Hnd Hpl Hsafe)
    as (s1 & HP & HQ & HA & HBout & HBin & _ & _ & Hact).
  rewrite Hact. cbv zeta. eexists. split; [reflexivity|].
  unfold Place_getBees.
  destruct (JS.sub (a_armor (getA a s)) 10 <=? 0); [destruct (p_guard (getP p s))|];
    store_ne; rewrite ?HP, ?HA;
    (split; [reflexivity|]);
    (split; [intros q Hq; store_ne; apply HQ; exact Hq|]);
    (split; [exact HBin|]); (split; [exact HBout|]);
    (split; [cbn; exact Hb|]); (split; [reflexivity|]);
    intros x Hx; store_ne; apply HA.
Qed.

(** X10. Let the bees of the place of a Thrower or Scuba be listed there
    once each, name that place, and have an armor of at most [2 ^ 53].
    When the sprayer stands under a Guard and the spray uses up its armor
    (10 points or less), it is the Guard that leaves the place: the act
    returns, and the sprayer stays in its slot, without armor and with the
    boost still set. *)
Theorem dying_sprayer_evicts_its_guard (a p g : nat) (s : State) :
  a_kind (getA a s) = Thrower \/ a_kind (getA a s) = Scuba ->
  a_boost (getA a s) = Some "BugSpray"%string ->
  a_place (getA a s) = Some p ->
  p_ant (getP p s) = Some a ->
  p_guard (getP p s) = Some g ->
  a_armor (getA a s) <= 10 ->
  NoDup (p_bees (getP p s)) ->
  (forall b, b ∈ p_bees (getP p s) -> b_place (getB b s) = Some p) ->
  (forall b, b ∈ p_bees (getP p s) -> b_armor (getB b s) <= JS.safe) ->
  exists s', Ant_act a s = Ok tt s' /\
    p_guard (getP p s') = None /\
    p_ant (getP p s') = Some a /\
    Place_getAnt p s' = Some a /\
    a_armor (getA a s') <= 0 /\
    a_boost (getA a s') = Some "BugSpray"%string /\
    (forall x, x <> a -> getA x s' = getA x s).
Proof.
  intros Hk Hb Hp Hant Hg Harm Hnd Hpl Hsafe.
  destruct (bug_spray_act a p s Hk Hb Hp Hnd Hpl Hsafe)
    as (s1 & HP & HQ & HA & HBout & HBin & _ & _ & Hact).
  rewrite Hact. cbv zeta. rewrite Hg.
  destruct (Z.leb_spec (JS.sub (a_armor (getA a s)) 10) 0) as [Hdead|]; [|sub_sign].
  eexists. split; [reflexivity|]. unfold Place_getAnt.
  rewrite getP_updP_eq. change (getP p (updA a _ s1)) with (getP p s1).
  rewrite HP. cbn [p_guard p_ant with_guard with_bees].
  change (getA ?x (updP p _ ?y)) with (getA x y).
  rewrite getA_updA_eq, HA. cbn [a_armor a_boost with_a_armor].
  split; [reflexivity|]. split; [exact Hant|]. split; [exact Hant|].
  split; [exact Hdead|]. split; [exact Hb|].
  intros x Hx. change (getA x (updP p _ ?y)) with (getA x y).
  rewrite getA_updA_ne by congruence. apply HA.
Qed.

(** ** The theorems above at work *)

(** A Guard (ant 0) at "0,4" (place 6) and a bee (bee 0) that has just
    entered there. *)
Definition demo_sting : State :=
  exec TakeTurn (exec (AddWave 0 1) (exec (Deploy "guard" "0,4") demo_board)).

Lemma guard_takes_the_sting_witness :
  exists s', Bee_act 0 demo_sting = Ok tt s' /\
    a_armor (getA 0 demo_sting) = 2 /\ a_armor (getA 0 s') = 1 /\
    p_guard (getP 6 s') = Some 0%nat /\ b_place (getB 0 s') = Some 6%nat.
Proof.
  destruct (guard_takes_the_sting 0 6 0 demo_sting)
    as (s' & Hact & Harm & _ & _ & _ & Hg & _ & Hpl & _).
  - vm_compute. reflexivity.
  - vm_compute. reflexivity.
  - vm_compute. reflexivity.
  - vm_compute. reflexivity.
  - vm_compute. discriminate.
  - exists s'. split; [exact Hact|]. split; [vm_compute; reflexivity|].
    split; [rewrite Harm; vm_compute; reflexivity|].
    split; [rewrite Hg; vm_compute; reflexivity|exact Hpl].
Defined.

Lemma bee_advances_witness :
  exists s', Bee_act 0 demo_thrower = Ok tt s' /\
    p_bees (getP 6 demo_thrower) = [0%nat] /\
    p_bees (getP 6 s') = [] /\ p_bees (getP 5 s') = [0%nat] /\
    b_place (getB 0 s') = Some 5%nat.
Proof.
  destruct (bee_advances 0 6 5 0 demo_thrower)
    as (s' & Hact & H6 & H5 & _ & Hpl & _).
  - vm_compute. reflexivity.
  - vm_compute. reflexivity.
  - vm_compute. reflexivity.
  - vm_compute. discriminate.
  - vm_compute. reflexivity.
  - discriminate.
  - vm_compute. reflexivity.
  - exists s'. split; [exact Hact|]. split; [vm_compute; reflexivity|].
    split; [rewrite H6; vm_compute; reflexivity|].
    split; [rewrite H5; vm_compute; reflexivity|exact Hpl].
Defined.

(** A bee (bee 0) that has walked down the empty tunnel to the queen's place
    (place 1). *)
Definition demo_queen : State :=
  exec BeesAct (exec BeesAct (exec BeesAct (exec BeesAct (exec BeesAct
    (exec Invade (exec (AddWave 0 1) demo_board)))))).

Lemma bee_without_exit_raises_witness :
  p_bees (getP 1 demo_queen) = [0%nat] /\
  exists s', Bee_act 0 demo_queen = Throw s' /\
    p_bees (getP 1 s') = [] /\ b_place (getB 0 s') = None.
Proof.
  split; [vm_compute; reflexivity|].
  destruct (bee_without_exit_raises 0 1 0 demo_queen) as (s' & Hact & Hl & Hpl).
  - vm_compute. reflexivity.
  - vm_compute. reflexivity.
  - vm_compute. reflexivity.
  - vm_compute. discriminate.
  - vm_compute. reflexivity.
  - vm_compute. reflexivity.
  - exists s'. split; [exact Hact|].
    split; [rewrite Hl; vm_compute; reflexivity|exact Hpl].
Defined.

Lemma leaf_hits_the_nearest_bee_witness :
  exists s', Ant_act 0 demo_thrower = Ok tt s' /\
    b_armor (getB 0 demo_thrower) = 2 /\ b_armor (getB 0 s') = 1 /\
    b_status (getB 0 s') = None.
Proof.
  destruct (leaf_hits_the_nearest_bee 0 3 0 6 0 demo_thrower)
    as (s' & Hact & Harm & _ & Hst & _).
  - left. vm_compute. reflexivity.
  - vm_compute. discriminate.
  - vm_compute. reflexivity.
  - vm_compute. reflexivity.
  - vm_compute. reflexivity.
  - vm_compute. reflexivity.
  - exists s'. split; [exact Hact|]. split; [vm_compute; reflexivity|].
    split; [rewrite Harm; vm_compute; reflexivity|].
    rewrite Hst. vm_compute. reflexivity.
Defined.

Lemma sticky_leaf_holds_the_bee_witness :
  a_boost (getA 0 demo_sticky) = Some "StickyLeaf"%string /\
  exists s1 s2,
    Ant_act 0 demo_sticky = Ok tt s1 /\ Bee_act 0 s1 = Ok tt s2 /\
    p_bees (getP 6 s2) = [0%nat] /\ b_place (getB 0 s2) = Some 6%nat.
Proof.
  split; [vm_compute; reflexivity|].
  destruct (sticky_leaf_holds_the_bee 0 3 0 6 demo_sticky)
    as (s1 & s2 & Hact & _ & Hbee & HP & Hpl & _).
  - left. vm_compute. reflexivity.
  - vm_compute. reflexivity.
  - vm_compute. reflexivity.
  - vm_compute. reflexivity.
  - vm_compute. reflexivity.
  - vm_compute. reflexivity.
  - vm_compute. reflexivity.
  - exists s1, s2. split; [exact Hact|]. split; [exact Hbee|].
    split; [rewrite HP; vm_compute; reflexivity|exact Hpl].
Defined.

(** A Thrower (ant 0) with an IcyLeaf at "0,1" (place 3), a Guard (ant 1) at
    "0,4" (place 6) and a bee (bee 0) that has just entered there. *)
Definition demo_icy : State :=
  exec Invade (exec (AddWave 0 1)
    (exec (Boost "IcyLeaf" "0,1")
       (exec (Deploy "guard" "0,4") (exec (Deploy "thrower" "0,1") demo_board)))).

Lemma icy_leaf_stops_the_sting_witness :
  Place_getAnt 6 demo_icy = Some 1%nat /\
  exists s1 s2,
    Ant_act 0 demo_icy = Ok tt s1 /\ Bee_act 0 s1 = Ok tt s2 /\
    a_armor (getA 1 s2) = 2 /\ b_status (getB 0 s2) = None.
Proof.
  split; [vm_compute; reflexivity|].
  destruct (icy_leaf_stops_the_sting 0 3 0 6 1 demo_icy)
    as (s1 & s2 & Hact & _ & Hbee & HA & _ & _ & Hst).
  - left. vm_compute. reflexivity.
  - vm_compute. reflexivity.
  - vm_compute. reflexivity.
  - vm_compute. reflexivity.
  - vm_compute. reflexivity.
  - vm_compute. reflexivity.
  - vm_compute. reflexivity.
  - exists s1, s2. split; [exact Hact|]. split; [exact Hbee|].
    split; [rewrite HA by discriminate; vm_compute; reflexivity|exact Hst].
Defined.

(** A colony whose random numbers are all 59/64, so that its Grower (ant 0,
    at "0,0") finds a BugSpray; a Thrower (ant 1) with that BugSpray at "0,4"
    (place 6) under a Guard (ant 2), and two bees (0 and 1) that have just
    entered there. *)
Definition demo_spray : State :=
  exec Invade (exec (AddWave 0 2)
    (exec (Deploy "guard" "0,4")
       (exec (Boost "BugSpray" "0,4")
          (exec (Deploy "thrower" "0,4")
             (exec AntsAct
                (exec (Deploy "grower" "0,0")
                   (initial (fun _ => 59 # 64) 10 1 5 3 2 1))))))).

Lemma demo_spray_bees :
  p_bees (getP 6 demo_spray) = [0%nat; 1%nat].
Proof. vm_compute. reflexivity. Qed.

Lemma demo_spray_listed b :
  b ∈ p_bees (getP 6 demo_spray) -> b_place (getB b demo_spray) = Some 6%nat.
Proof.
  rewrite demo_spray_bees. intros Hb.
  apply elem_of_cons in Hb as [->|Hb]; [vm_compute; reflexivity|].
  apply elem_of_cons in Hb as [->|Hb]; [vm_compute; reflexivity|].
  inversion Hb.
Qed.

Lemma demo_spray_safe b :
  b ∈ p_bees (getP 6 demo_spray) -> b_armor (getB b demo_spray) <= JS.safe.
Proof.
  rewrite demo_spray_bees. intros Hb.
  apply elem_of_cons in Hb as [->|Hb]; [vm_compute; discriminate|].
  apply elem_of_cons in Hb as [->|Hb]; [vm_compute; discriminate|].
  inversion Hb.
Qed.

Lemma demo_spray_NoDup : NoDup (p_bees (getP 6 demo_spray)).
Proof.
  rewrite demo_spray_bees. apply NoDup_cons. split.
  - intros H. apply list_elem_of_singleton in H. discriminate.
  - apply NoDup_singleton.
Qed.

Lemma bug_spray_clears_own_place_only_witness :
  Place_getBees 6 demo_spray = [0%nat; 1%nat] /\
  exists s', Ant_act 1 demo_spray = Ok tt s' /\
    Place_getBees 6 s' = [] /\
    b_place (getB 0 s') = None /\ b_place (getB 1 s') = None.
Proof.
  split; [exact demo_spray_bees|].
  destruct (bug_spray_clears_own_place_only 1 6 demo_spray)
    as (s' & Hact & Hl & _ & Hin & _).
  - left. vm_compute. reflexivity.
  - vm_compute. reflexivity.
  - vm_compute. reflexivity.
  - exact demo_spray_NoDup.
  - exact demo_spray_listed.
  - exact demo_spray_safe.
  - exists s'. split; [exact Hact|]. split; [exact Hl|].
    split; apply Hin; rewrite demo_spray_bees.
    + apply list_elem_of_here.
    + apply list_elem_of_further, list_elem_of_here.
Defined.

Lemma dying_sprayer_evicts_its_guard_witness :
  p_guard (getP 6 demo_spray) = Some 2%nat /\
  exists s', Ant_act 1 demo_spray = Ok tt s' /\
    p_guard (getP 6 s') = None /\ p_ant (getP 6 s') = Some 1%nat /\
    a_boost (getA 1 s') = Some "BugSpray"%string.
Proof.
  split; [vm_compute; reflexivity|].
  destruct (dying_sprayer_evicts_its_guard 1 6 2 demo_spray)
    as (s' & Hact & Hg & Ha & _ & _ & Hb & _).
  - left. vm_compute. reflexivity.
  - vm_compute. reflexivity.
  - vm_compute. reflexivity.
  - vm_compute. reflexivity.
  - vm_compute. reflexivity.
  - vm_compute. discriminate.
  - exact demo_spray_NoDup.
  - exact demo_spray_listed.
  - exact demo_spray_safe.
  - exists s'. split; [exact Hact|]. split; [exact Hg|]. split; [exact Ha|exact Hb].
Defined.

(** ** An Eater is stung *)

(** The state in which the first bee [b] of the stomach [sp] is back at the
    place [p]. *)
Definition coughed (sp p b : nat) (s : State) : State :=
  updB b (with_b_place (Some p))
    (updP p (fun P => with_bees (p_bees P ++ [b]) P)
       (updB b (with_b_place None)
          (updP sp (fun P => with_bees (delete 0%nat (p_bees P)) P) s))).

Lemma EaterAnt_cough_eq a sp p b rest s :
  a_stomach (getA a s) = Some sp ->
  a_place (getA a s) = Some p ->
  Place_getBees sp s = b :: rest ->
  EaterAnt_cough a s = Ok tt (coughed sp p b s).
Proof.
  intros Hsp Hp Hl. unfold EaterAnt_cough, Place_removeBee, Place_addBee.
  mcbv. rewrite Hsp. mcbv. rewrite Hl. cbn [head]. mcbv.
  unfold Place_getBees in Hl. rewrite Hl, indexOf_head. mcbv.
  store_simpl. rewrite Hp. reflexivity.
Qed.

Lemma coughed_bees sp p b rest s :
  sp <> p -> p_bees (getP sp s) = b :: rest ->
  p_bees (getP sp (coughed sp p b s)) = rest /\
  p_bees (getP p (coughed sp p b s)) = p_bees (getP p s) ++ [b] /\
  (forall q, q <> sp -> q <> p -> getP q (coughed sp p b s) = getP q s) /\
  b_place (getB b (coughed sp p b s)) = Some p /\
  (forall c, c <> b -> getB c (coughed sp p b s) = getB c s) /\
  (forall x, getA x (coughed sp p b s) = getA x s) /\
  p_ant (getP p (coughed sp p b s)) = p_ant (getP p s) /\
  p_guard (getP p (coughed sp p b s)) = p_guard (getP p s).
Proof.
  intros Hne Hl. unfold coughed.
  split; [store_ne; cbn [p_bees with_bees]; rewrite Hl; reflexivity|].
  split; [store_ne; cbn [p_bees with_bees]; store_ne; reflexivity|].
  split; [intros q H1 H2; store_ne; reflexivity|].
  split; [store_ne; reflexivity|].
  split; [intros c Hc; store_ne; reflexivity|].
  split; [intros x; reflexivity|].
  split; store_ne; cbn [p_ant p_guard with_bees]; store_ne; reflexivity.
Qed.

(** An Eater with counter 3 and an empty stomach acts twice to bring the
    counter back to 0; the places and the bees are not written. *)
Lemma eater_waits a sp s :
  a_kind (getA a s) = Eater ->
  a_turnsEating (getA a s) = 3 ->
  a_stomach (getA a s) = Some sp ->
  Place_getBees sp s = [] ->
  exists s1 s2,
    Ant_act a s = Ok tt s1 /\ a_turnsEating (getA a s1) = 4 /\
    Ant_act a s1 = Ok tt s2 /\ a_turnsEating (getA a s2) = 0 /\
    (forall q, getP q s2 = getP q s) /\ (forall c, getB c s2 = getB c s).
Proof.
  intros Hk Hte Hsp Hl.
  set (s1 := updA a (with_a_turnsEating 4) (set_acted (a :: acted s) s)).
  set (s2 := updA a (with_a_turnsEating 0) (set_acted (a :: acted s1) s1)).
  exists s1, s2.
  assert (H1 : Ant_act a s = Ok tt s1).
  { unfold Ant_act. mcbv. store_simpl. rewrite Hk.
    unfold EaterAnt_act. mcbv. store_simpl. rewrite Hte. reflexivity. }
  assert (HA1 : getA a s1 = with_a_turnsEating 4 (getA a s))
    by (unfold s1; rewrite getA_updA_eq; reflexivity).
  assert (H2 : Ant_act a s1 = Ok tt s2).
  { unfold Ant_act. mcbv. store_simpl. rewrite HA1.
    cbn [a_kind with_a_turnsEating]. rewrite Hk.
    unfold EaterAnt_act. mcbv. store_simpl. rewrite HA1.
    cbn [a_turnsEating with_a_turnsEating].
    change (4 =? 0) with false. change (3 <? 4) with true. mcbv.
    store_simpl. rewrite HA1. cbn [a_stomach with_a_turnsEating]. rewrite Hsp.
    mcbv.
    change (Place_getBees sp (set_acted _ s1)) with (Place_getBees sp s).
    rewrite Hl. reflexivity. }
  split; [exact H1|]. split; [rewrite HA1; reflexivity|].
  split; [exact H2|].
  split; [unfold s2; rewrite getA_updA_eq; reflexivity|].
  split; intros; reflexivity.
Qed.

(** X11. An Eater that is stung on the act after it swallowed (counter 1)
    and survives coughs the bee up: the bee leaves the stomach and joins the
    end of the list of the Eater's place, alive.  The counter is set to 3,
    so that the Eater acts twice before it can eat again. *)
Theorem stung_eater_coughs_up (a sp p b : nat) (amount : Z) (s : State) :
  a_kind (getA a s) = Eater ->
  a_turnsEating (getA a s) = 1 ->
  a_stomach (getA a s) = Some sp ->
  a_place (getA a s) = Some p ->
  sp <> p ->
  Place_getBees sp s = [b] ->
  amount < a_armor (getA a s) ->
  exists s', Ant_reduceArmor a amount s = Ok false s' /\
    a_armor (getA a s') = JS.sub (a_armor (getA a s)) amount /\
    (a_armor (getA a s) - amount <= JS.safe ->
       a_armor (getA a s') = a_armor (getA a s) - amount) /\
    a_turnsEating (getA a s') = 3 /\
    Place_getBees sp s' = [] /\
    Place_getBees p s' = Place_getBees p s ++ [b] /\
    b_place (getB b s') = Some p /\
    b_armor (getB b s') = b_armor (getB b s) /\
    p_ant (getP p s') = p_ant (getP p s) /\
    exists s1 s2,
      Ant_act a s' = Ok tt s1 /\ a_turnsEating (getA a s1) = 4 /\
      Ant_act a s1 = Ok tt s2 /\ a_turnsEating (getA a s2) = 0 /\
      (forall q, getP q s2 = getP q s').
Proof.
  intros Hk Hte Hsp Hp Hne Hl Harm.
  set (sa := updA a (fun A => with_a_armor (JS.sub (a_armor A) amount) A) s).
  assert (Hc : EaterAnt_cough a sa = Ok tt (coughed sp p b sa))
    by (apply (EaterAnt_cough_eq a sp p b []); unfold sa; store_simpl;
        assumption).
  destruct (coughed_bees sp p b [] sa Hne Hl)
    as (C1 & C2 & C3 & C4 & C5 & C6 & C7 & C8).
  set (s' := updA a (with_a_turnsEating 3) (coughed sp p b sa)).
  assert (Hrun : Ant_reduceArmor a amount s = Ok false s').
  { unfold Ant_reduceArmor. mcbv. rewrite Hk.
    unfold EaterAnt_reduceArmor. mcbv. fold sa.
    unfold sa at 1 2. rewrite !getA_updA_eq.
    cbn [a_armor a_turnsEating with_a_armor]. rewrite Hte.
    destruct (Z.ltb_spec 0 (JS.sub (a_armor (getA a s)) amount)) as [_|]; [|sub_sign].
    change (1 =? 1) with true. mcbv. rewrite Hc. reflexivity. }
  assert (HA : getA a s' = with_a_turnsEating 3 (getA a sa))
    by (unfold s'; rewrite getA_updA_eq, C6; reflexivity).
  assert (HAa : getA a sa = with_a_armor (JS.sub (a_armor (getA a s)) amount) (getA a s))
    by (unfold sa; rewrite getA_updA_eq; reflexivity).
  exists s'. split; [exact Hrun|].
  split; [rewrite HA, HAa; reflexivity|].
  split; [intros Hx; rewrite HA, HAa; apply sub_exact; rewrite Z.abs_eq; lia|].
  split; [rewrite HA; reflexivity|].
  split; [exact C1|]. split; [exact C2|]. split; [exact C4|].
  split; [unfold s', coughed; store_ne; reflexivity|].
  split; [exact C7|].
  destruct (eater_waits a sp s') as (s1 & s2 & H1 & T1 & H2 & T2 & HP & _).
  - rewrite HA, HAa. exact Hk.
  - rewrite HA. reflexivity.
  - rewrite HA, HAa. exact Hsp.
  - exact C1.
  - exists s1, s2. auto.
Qed.

(** X12. An Eater without a Guard whose armor a sting uses up leaves its
    place.  The bee in its stomach is set free at that place when the
    counter is 1 or 2, and stays in the stomach, where no sweep finds it,
    when the counter is 3 or more.  The armor is lowered twice by the
    amount of the sting. *)
Theorem dying_eater_frees_a_fresh_meal (a sp p b : nat) (amount : Z) (s : State) :
  a_kind (getA a s) = Eater ->
  a_stomach (getA a s) = Some sp ->
  a_place (getA a s) = Some p ->
  sp <> p ->
  Place_getBees sp s = [b] ->
  p_guard (getP p s) = None ->
  0 <= amount ->
  a_armor (getA a s) <= amount ->
  exists s', Ant_reduceArmor a amount s = Ok true s' /\
    p_ant (getP p s') = None /\
    a_armor (getA a s') = JS.sub (JS.sub (a_armor (getA a s)) amount) amount /\
    (- JS.safe <= a_armor (getA a s) - amount - amount ->
       a_armor (getA a s') = a_armor (getA a s) - amount - amount) /\
    if (0 <? a_turnsEating (getA a s)) && (a_turnsEating (getA a s) <=? 2)
    then Place_getBees sp s' = [] /\
         Place_getBees p s' = Place_getBees p s ++ [b] /\
         b_place (getB b s') = Some p
    else Place_getBees sp s' = [b] /\
         Place_getBees p s' = Place_getBees p s /\
         getB b s' = getB b s.
Proof.
  intros Hk Hsp Hp Hne Hl Hg Hamt Harm.
  set (sa := updA a (fun A => with_a_armor (JS.sub (a_armor A) amount) A) s).
  assert (HAa : getA a sa = with_a_armor (JS.sub (a_armor (getA a s)) amount) (getA a s))
    by (unfold sa; rewrite getA_updA_eq; reflexivity).
  assert (Hhead : Ant_reduceArmor a amount s
          = ((if (0 <? a_turnsEating (getA a s)) && (a_turnsEating (getA a s) <=? 2)
              then EaterAnt_cough a else ret tt) ;;;
             Insect_reduceArmor_ant a amount) sa).
  { unfold Ant_reduceArmor. mcbv. rewrite Hk.
    unfold EaterAnt_reduceArmor. mcbv. fold sa. rewrite HAa.
    cbn [a_armor a_turnsEating with_a_armor].
    destruct (Z.ltb_spec 0 (JS.sub (a_armor (getA a s)) amount)) as [|_]; [sub_sign|].
    reflexivity. }
  rewrite Hhead. unfold Place_getBees in *.
  assert (Hexact : - JS.safe <= a_armor (getA a s) - amount - amount ->
            a_armor (with_a_armor (JS.sub (JS.sub (a_armor (getA a s)) amount) amount)
                       (getA a s))
            = a_armor (getA a s) - amount - amount).
  { intros Hx. cbn [a_armor with_a_armor].
    rewrite (sub_exact (a_armor (getA a s)) amount)
      by (apply Z.abs_le; unfold JS.safe in *; lia).
    apply sub_exact. apply Z.abs_le. unfold JS.safe in *. lia. }
  destruct ((0 <? a_turnsEating (getA a s)) && (a_turnsEating (getA a s) <=? 2)).
  - assert (Hc : EaterAnt_cough a sa = Ok tt (coughed sp p b sa))
      by (apply (EaterAnt_cough_eq a sp p b []); unfold sa; store_simpl;
          assumption).
    destruct (coughed_bees sp p b [] sa Hne Hl)
      as (C1 & C2 & C3 & C4 & C5 & C6 & C7 & C8).
    unfold bind. rewrite Hc, Insect_reduceArmor_ant_eq. cbv zeta.
    rewrite C6, HAa. cbn [a_armor a_place with_a_armor]. rewrite Hp, C8.
    change (p_guard (getP p sa)) with (p_guard (getP p s)). rewrite Hg.
    destruct (Z.leb_spec (JS.sub (JS.sub (a_armor (getA a s)) amount) amount) 0) as [_|]; [|sub_sign].
    eexists. split; [reflexivity|].
    split; [store_ne; reflexivity|].
    split; [store_ne; rewrite ?C6, ?HAa; reflexivity|].
    split; [intros Hx; store_ne; rewrite ?C6, ?HAa; apply Hexact; exact Hx|].
    split; [store_ne; exact C1|].
    split; [store_ne; cbn [p_bees with_ant]; store_ne; exact C2|].
    store_ne. exact C4.
  - unfold bind, ret. rewrite Insect_reduceArmor_ant_eq. cbv zeta.
    rewrite HAa. cbn [a_armor a_place with_a_armor]. rewrite Hp.
    change (p_guard (getP p sa)) with (p_guard (getP p s)). rewrite Hg.
    destruct (Z.leb_spec (JS.sub (JS.sub (a_armor (getA a s)) amount) amount) 0) as [_|]; [|sub_sign].
    eexists. split; [reflexivity|].
    split; [store_ne; reflexivity|].
    split; [store_ne; rewrite HAa; reflexivity|].
    split; [intros Hx; store_ne; rewrite HAa; apply Hexact; exact Hx|].
    split; [store_ne; exact Hl|].
    split; [store_ne; cbn [p_bees with_ant]; reflexivity|].
    reflexivity.
Qed.

(** The Eater of [demo_eater] after its act: it has swallowed the bee
    (counter 1, armor 2). *)
Definition demo_fed : State := exec AntsAct demo_eater.

Lemma stung_eater_coughs_up_witness :
  exists s', Ant_reduceArmor 0 1 demo_fed = Ok false s' /\
    a_armor (getA 0 s') = JS.sub (a_armor (getA 0 demo_fed)) 1 /\
    (a_armor (getA 0 demo_fed) - 1 <= JS.safe ->
       a_armor (getA 0 s') = a_armor (getA 0 demo_fed) - 1) /\
    a_turnsEating (getA 0 s') = 3 /\
    Place_getBees 7 s' = [] /\
    Place_getBees 6 s' = Place_getBees 6 demo_fed ++ [0%nat] /\
    b_place (getB 0 s') = Some 6%nat /\
    b_armor (getB 0 s') = b_armor (getB 0 demo_fed) /\
    p_ant (getP 6 s') = p_ant (getP 6 demo_fed) /\
    exists s1 s2,
      Ant_act 0 s' = Ok tt s1 /\ a_turnsEating (getA 0 s1) = 4 /\
      Ant_act 0 s1 = Ok tt s2 /\ a_turnsEating (getA 0 s2) = 0 /\
      (forall q, getP q s2 = getP q s').
Proof.
  apply (stung_eater_coughs_up 0 7 6 0 1 demo_fed).
  - vm_compute. reflexivity.
  - vm_compute. reflexivity.
  - vm_compute. reflexivity.
  - vm_compute. reflexivity.
  - discriminate.
  - vm_compute. reflexivity.
  - vm_compute. reflexivity.
Defined.

Lemma dying_eater_frees_a_fresh_meal_witness :
  a_turnsEating (getA 0 demo_fed) = 1 /\
  exists s', Ant_reduceArmor 0 2 demo_fed = Ok true s' /\
    p_ant (getP 6 s') = None /\
    a_armor (getA 0 s') = -2 /\
    Place_getBees 7 s' = [] /\
    Place_getBees 6 s' = [0%nat] /\
    b_place (getB 0 s') = Some 6%nat.
Proof.
  split; [vm_compute; reflexivity|].
  destruct (dying_eater_frees_a_fresh_meal 0 7 6 0 2 demo_fed)
    as (s' & Hrun & Hant & Harm & _ & Hb).
  - vm_compute. reflexivity.
  - vm_compute. reflexivity.
  - vm_compute. reflexivity.
  - discriminate.
  - vm_compute. reflexivity.
  - vm_compute. reflexivity.
  - lia.
  - vm_compute. discriminate.
  - change ((0 <? a_turnsEating (getA 0 demo_fed))
            && (a_turnsEating (getA 0 demo_fed) <=? 2)) with true in Hb.
    destruct Hb as (H7 & H6 & Hpl).
    exists s'. split; [exact Hrun|]. split; [exact Hant|].
    split; [rewrite Harm; vm_compute; reflexivity|].
    split; [exact H7|]. split; [rewrite H6; vm_compute; reflexivity|exact Hpl].
Defined.

(** ** What no call changes *)

(** A property [J] of the state that the writes of the sweeps keep: a write
    to a place that leaves its water and links, to an ant that leaves its
    kind, cost and stomach, to a bee that leaves its damage; one more food,
    one more of a boost that a Grower finds, one more random number drawn,
    one more act recorded. *)
Definition grower_boosts : list string :=
  ["FlyingLeaf"; "StickyLeaf"; "IcyLeaf"; "BugSpray"]%string.

Section Kept_by_calls.

Variable J : State -> Prop.

Hypothesis J_updP : forall p f s,
  (forall P, p_water (f P) = p_water P /\ p_exit (f P) = p_exit P /\
             p_entrance (f P) = p_entrance P) ->
  J s -> J (updP p f s).
Hypothesis J_updA : forall a f s,
  (forall A, a_kind (f A) = a_kind A /\ a_foodCost (f A) = a_foodCost A /\
             a_stomach (f A) = a_stomach A) ->
  J s -> J (updA a f s).
Hypothesis J_updB : forall b f s,
  (forall B, b_damage (f B) = b_damage B) -> J s -> J (updB b f s).
Hypothesis J_food_up : forall s, J s -> J (set_food (JS.add (food s) 1) s).
Hypothesis J_boost : forall name v s,
  name ∈ grower_boosts ->
  v = match boosts_get name s with None => BNum (JS.add 0 1) | Some v => boost_succ v end ->
  J s -> J (set_boosts (<[name := v]> (boosts s)) s).
Hypothesis J_random : forall n s, J s -> J (set_random_pos n s).
Hypothesis J_acted : forall l s, J s -> J (set_acted l s).

(** [pres m]: the call [m] keeps [J], also when it raises. *)
Definition pres {A} (m : M A) : Prop :=
  forall s, J s -> wp m (fun _ => J) J s.

Lemma pres_bind {A B} (m : M A) (k : A -> M B) :
  pres m -> (forall a, pres (k a)) -> pres (bind m k).
Proof.
  intros Hm Hk s HI. apply wp_bind.
  eapply wp_mono; [apply Hm; exact HI| |auto].
  intros a s' HI'. apply Hk. exact HI'.
Qed.

Lemma pres_ret {A} (a : A) : pres (ret a).
Proof. intros s HI. exact HI. Qed.

Lemma pres_throw {A} : pres (@throw A).
Proof. intros s HI. exact HI. Qed.

Lemma pres_gets {A} (f : State -> A) : pres (gets f).
Proof. intros s HI. exact HI. Qed.

Lemma pres_forEach {A} (l : list A) (f : A -> M unit) :
  (forall x, pres (f x)) -> pres (forEach l f).
Proof.
  intros Hf s HI. apply wp_forEach; [|exact HI].
  intros x s' _ HI'. apply Hf. exact HI'.
Qed.

Lemma pres_try_catch {A} (m h : M A) : pres m -> pres h -> pres (try_catch m h).
Proof.
  intros Hm Hh s HI. apply wp_try_catch.
  eapply wp_mono; [apply Hm; exact HI|auto|].
  intros s' HI'. apply Hh. exact HI'.
Qed.

Ltac field_ok := intros; repeat split; reflexivity.

Lemma pres_removeAnt p : pres (Place_removeAnt p).
Proof.
  intros s HI. unfold wp, Place_removeAnt.
  destruct (p_guard (getP p s)); (apply J_updP; [field_ok|exact HI]).
Qed.

Lemma pres_addAnt p a : pres (Place_addAnt p a).
Proof.
  intros s HI. unfold wp, Place_addAnt.
  destruct (decide (a_kind (getA a s) = Guard)).
  - destruct (p_guard (getP p s)); [exact HI|].
    apply J_updA; [field_ok|]. apply J_updP; [field_ok|exact HI].
  - destruct (p_ant (getP p s)); [exact HI|].
    apply J_updA; [field_ok|]. apply J_updP; [field_ok|exact HI].
Qed.

Lemma pres_addBee p b : pres (Place_addBee p b).
Proof.
  intros s HI. apply wp_modify.
  apply J_updB; [field_ok|]. apply J_updP; [field_ok|exact HI].
Qed.

Lemma pres_removeBee p b : pres (Place_removeBee p b).
Proof.
  intros s HI. unfold wp, Place_removeBee.
  destruct (indexOf b (p_bees (getP p s))); [|exact HI].
  apply J_updB; [field_ok|]. apply J_updP; [field_ok|exact HI].
Qed.

Lemma pres_exitBee p b : pres (Place_exitBee p b).
Proof.
  unfold Place_exitBee. apply pres_bind; [apply pres_removeBee|]. intros _.
  apply pres_bind; [apply pres_gets|]. intros e.
  destruct e; [apply pres_addBee|apply pres_throw].
Qed.

Lemma pres_Place_act p : pres (Place_act p).
Proof.
  unfold Place_act. apply pres_bind; [apply pres_gets|]. intros w.
  destruct w; [|apply pres_ret].
  apply pres_bind; [apply pres_gets|]. intros g.
  apply pres_bind.
  - destruct g; [|apply pres_ret].
    apply pres_bind; [apply pres_removeAnt|intros; apply pres_ret].
  - intros _. apply pres_bind; [apply pres_gets|]. intros sc.
    destruct (negb sc); [|apply pres_ret].
    apply pres_bind; [apply pres_removeAnt|intros; apply pres_ret].
Qed.

Lemma pres_Bee_reduceArmor b amount : pres (Bee_reduceArmor b amount).
Proof.
  unfold Bee_reduceArmor. apply pres_bind.
  { intros s HI. apply wp_modify. apply J_updB; [field_ok|exact HI]. }
  intros _. apply pres_bind; [apply pres_gets|]. intros armor.
  destruct (armor <=? 0); [|apply pres_ret].
  apply pres_bind; [apply pres_gets|]. intros pl.
  destruct pl as [p|]; [|apply pres_throw].
  apply pres_bind; [apply pres_removeBee|intros; apply pres_ret].
Qed.

Lemma pres_Insect_reduceArmor_ant a amount : pres (Insect_reduceArmor_ant a amount).
Proof.
  unfold Insect_reduceArmor_ant. apply pres_bind.
  { intros s HI. apply wp_modify. apply J_updA; [field_ok|exact HI]. }
  intros _. apply pres_bind; [apply pres_gets|]. intros armor.
  destruct (armor <=? 0); [|apply pres_ret].
  apply pres_bind; [apply pres_gets|]. intros pl.
  destruct pl as [p|]; [|apply pres_throw].
  apply pres_bind; [|intros; apply pres_ret].
  unfold Place_removeInsect_ant.
  apply pres_bind; [apply pres_removeAnt|intros; apply pres_ret].
Qed.

Lemma pres_cough a : pres (EaterAnt_cough a).
Proof.
  unfold EaterAnt_cough. apply pres_bind; [apply pres_gets|]. intros st.
  destruct st as [sp|]; [|apply pres_throw].
  apply pres_bind; [apply pres_gets|]. intros eaten.
  destruct eaten as [e|]; [|apply pres_throw].
  apply pres_bind; [apply pres_removeBee|]. intros _.
  apply pres_bind; [apply pres_gets|]. intros pl.
  destruct pl; [apply pres_addBee|apply pres_throw].
Qed.

Lemma pres_set_turnsEating a z : pres (modify (updA a (with_a_turnsEating z))).
Proof. intros s HI. apply wp_modify. apply J_updA; [field_ok|exact HI]. Qed.

Lemma pres_EaterAnt_reduceArmor a amount : pres (EaterAnt_reduceArmor a amount).
Proof.
  unfold EaterAnt_reduceArmor. apply pres_bind.
  { intros s HI. apply wp_modify. apply J_updA; [field_ok|exact HI]. }
  intros _. apply pres_bind; [apply pres_gets|]. intros armor.
  apply pres_bind; [apply pres_gets|]. intros te.
  destruct (0 <? armor).
  - destruct (te =? 1); [|apply pres_ret].
    apply pres_bind; [apply pres_cough|]. intros _.
    apply pres_bind; [apply pres_set_turnsEating|intros; apply pres_ret].
  - apply pres_bind; [|intros; apply pres_Insect_reduceArmor_ant].
    destruct (_ && _); [apply pres_cough|apply pres_ret].
Qed.

Lemma pres_Ant_reduceArmor a amount : pres (Ant_reduceArmor a amount).
Proof.
  unfold Ant_reduceArmor. apply pres_bind; [apply pres_gets|]. intros k.
  destruct k; first [apply pres_EaterAnt_reduceArmor|apply pres_Insect_reduceArmor_ant].
Qed.

Lemma pres_Bee_setStatus b st : pres (Bee_setStatus b st).
Proof. intros s HI. apply wp_modify. apply J_updB; [field_ok|exact HI]. Qed.

Lemma pres_Bee_act b : pres (Bee_act b).
Proof.
  unfold Bee_act. apply pres_bind; [apply pres_gets|]. intros pl.
  destruct pl as [p|]; [|apply pres_throw].
  apply pres_bind; [apply pres_gets|]. intros blocker.
  apply pres_bind; [apply pres_gets|]. intros status.
  apply pres_bind; [apply pres_gets|]. intros armor.
  apply pres_bind; [|intros; apply pres_Bee_setStatus].
  destruct blocker as [a|].
  - destruct (negb _); [|apply pres_ret].
    apply pres_bind; [|intros; apply pres_ret].
    unfold Bee_sting. apply pres_bind; [apply pres_gets|].
    intros d. apply pres_Ant_reduceArmor.
  - destruct (0 <? armor); [|apply pres_ret].
    destruct (negb _); [apply pres_exitBee|apply pres_ret].
Qed.

Lemma pres_addBoost name : name ∈ grower_boosts -> pres (AntColony_addBoost name).
Proof.
  intros Hn s HI. apply wp_modify.
  destruct (boosts_get name s) eqn:E;
    (apply J_boost; [exact Hn|rewrite E; reflexivity|exact HI]).
Qed.

Lemma pres_GrowerAnt_act a : pres (GrowerAnt_act a).
Proof.
  unfold GrowerAnt_act. apply pres_bind.
  { intros s HI. unfold wp, Math_random. apply J_random. exact HI. }
  intros roll.
  destruct (Qltb roll _).
  { intros s HI. apply wp_modify. apply J_food_up. exact HI. }
  repeat (destruct (Qltb roll _);
          [apply pres_addBoost; unfold grower_boosts;
           repeat first [apply list_elem_of_here|apply list_elem_of_further]|]).
  apply pres_ret.
Qed.

Lemma pres_spray_loop p n : pres (spray_loop n p).
Proof.
  induction n as [|n IH]; intros s HI; unfold wp; cbn [spray_loop];
    destruct (Place_getClosestBee p 0 0 s) as [t|]; try exact HI; [exact Logic.I|].
  change (wp (Bee_reduceArmor t 10 ;;; spray_loop n p) (fun _ => J) J s).
  apply pres_bind; [apply pres_Bee_reduceArmor|intros; exact IH|exact HI].
Qed.

Lemma pres_leaf_act a : pres (ThrowerAnt_act a).
Proof.
  unfold ThrowerAnt_act. apply pres_bind; [apply pres_gets|]. intros boost.
  destruct (negb _).
  - apply pres_bind; [apply pres_gets|]. intros pl.
    destruct pl as [p|]; [|apply pres_throw].
    apply pres_bind; [apply pres_gets|]. intros target.
    destruct target as [t|]; [|apply pres_ret].
    apply pres_bind; [apply pres_Bee_reduceArmor|]. intros _.
    apply pres_bind;
      [destruct (has_boost _ _); [apply pres_Bee_setStatus|apply pres_ret]|].
    intros _. apply pres_bind;
      [destruct (has_boost _ _); [apply pres_Bee_setStatus|apply pres_ret]|].
    intros _ s HI. apply wp_modify. apply J_updA; [field_ok|exact HI].
  - unfold bug_spray. apply pres_bind; [apply pres_gets|]. intros pl.
    destruct pl as [p|]; [|apply pres_throw].
    apply pres_bind; [apply pres_gets|]. intros n.
    apply pres_bind; [apply pres_spray_loop|]. intros _.
    apply pres_bind; [apply pres_Insect_reduceArmor_ant|intros; apply pres_ret].
Qed.

Lemma pres_EaterAnt_act a : pres (EaterAnt_act a).
Proof.
  unfold EaterAnt_act. apply pres_bind; [apply pres_gets|]. intros te.
  destruct (te =? 0).
  - apply pres_bind; [apply pres_gets|]. intros pl.
    destruct pl as [p|]; [|apply pres_throw].
    apply pres_bind; [apply pres_gets|]. intros target.
    destruct target as [t|]; [|apply pres_ret].
    apply pres_bind; [apply pres_removeBee|]. intros _.
    apply pres_bind; [apply pres_gets|]. intros st.
    destruct st as [sp|]; [|apply pres_throw].
    apply pres_bind; [apply pres_addBee|]. intros _. apply pres_set_turnsEating.
  - destruct (3 <? te); [|apply pres_set_turnsEating].
    apply pres_bind; [apply pres_gets|]. intros st.
    destruct st as [sp|]; [|apply pres_throw].
    apply pres_bind; [apply pres_gets|]. intros first.
    apply pres_bind; [|intros; apply pres_set_turnsEating].
    destruct first; [apply pres_removeBee|apply pres_ret].
Qed.

Lemma pres_Ant_act a : pres (Ant_act a).
Proof.
  unfold Ant_act. apply pres_bind.
  { intros s HI. apply wp_modify. apply J_acted. exact HI. }
  intros _. apply pres_bind; [apply pres_gets|]. intros k.
  destruct k;
    [apply pres_GrowerAnt_act|apply pres_leaf_act|apply pres_EaterAnt_act
    |apply pres_leaf_act|apply pres_ret].
Qed.

Lemma pres_antsAct : pres AntColony_antsAct.
Proof.
  unfold AntColony_antsAct. apply pres_bind; [apply pres_gets|]. intros all.
  apply pres_forEach. intros ant.
  apply pres_bind; [apply pres_gets|]. intros k.
  apply pres_bind; [|intros; apply pres_Ant_act].
  destruct (decide (k = Guard)); [|apply pres_ret].
  apply pres_bind.
  - unfold GuardAnt_getGuarded. apply pres_bind; [apply pres_gets|]. intros pl.
    destruct pl; [apply pres_gets|apply pres_throw].
  - intros guarded. destruct guarded; [apply pres_Ant_act|apply pres_ret].
Qed.

Lemma pres_beesAct : pres AntColony_beesAct.
Proof.
  unfold AntColony_beesAct. apply pres_bind; [apply pres_gets|]. intros all.
  apply pres_forEach. intros b. apply pres_Bee_act.
Qed.

Lemma pres_placesAct : pres AntColony_placesAct.
Proof.
  unfold AntColony_placesAct. apply pres_bind; [apply pres_gets|]. intros cells.
  apply pres_forEach. intros p. apply pres_Place_act.
Qed.

Lemma pres_invade t : pres (Hive_invade t).
Proof.
  unfold Hive_invade. apply pres_bind; [apply pres_gets|]. intros w.
  destruct w as [wave|]; [|apply pres_ret].
  apply pres_bind; [|intros; apply pres_ret].
  apply pres_forEach. intros bee.
  apply pres_bind; [apply pres_gets|]. intros h.
  apply pres_bind; [apply pres_removeBee|]. intros _.
  apply pres_bind; [apply pres_gets|]. intros entrances.
  apply pres_bind.
  { intros s HI. unfold wp, Math_random. apply J_random. exact HI. }
  intros r. cbv zeta. destruct (_ <? 0); [apply pres_throw|].
  destruct (entrances !! _); [apply pres_addBee|apply pres_throw].
Qed.

Lemma pres_removeAnt_at coords : pres (AntGame_removeAnt coords).
Proof.
  unfold AntGame_removeAnt. apply pres_try_catch; [|apply pres_ret].
  apply pres_bind.
  - intros s HI. pose proof (lookup_place_spec coords s) as H.
    eapply wp_mono; [exact H| |]; cbv beta.
    + intros v s' [-> _]. exact HI.
    + intros s' ->. exact HI.
  - intros v. apply pres_bind; [|intros; apply pres_ret].
    unfold on_place. destruct v; first [apply pres_throw|apply pres_removeAnt].
Qed.

Lemma pres_boostAnt boost coords : pres (AntGame_boostAnt boost coords).
Proof.
  unfold AntGame_boostAnt. apply pres_try_catch; [|apply pres_ret].
  apply pres_bind.
  - intros s HI. pose proof (lookup_place_spec coords s) as H.
    eapply wp_mono; [exact H| |]; cbv beta.
    + intros v s' [-> _]. exact HI.
    + intros s' ->. exact HI.
  - intros v. unfold AntColony_applyBoost.
    apply pres_bind; [apply pres_gets|]. intros x.
    destruct (boost_missing x); [apply pres_ret|].
    apply pres_bind.
    + unfold on_place. destruct v; first [apply pres_throw|apply pres_gets].
    + intros ant. destruct ant as [a|]; [|apply pres_ret].
      apply pres_bind; [|intros; apply pres_ret].
      intros s HI. apply wp_modify. apply J_updA; [field_ok|exact HI].
Qed.

(** [takeTurn], when [J] also allows the turn to be counted. *)
Lemma pres_takeTurn :
  (forall s, J s -> J (set_turn (JS.add (turn s) 1) s)) -> pres AntGame_takeTurn.
Proof.
  intros J_turn. unfold AntGame_takeTurn.
  apply pres_bind; [apply pres_antsAct|]. intros _.
  apply pres_bind; [apply pres_beesAct|]. intros _.
  apply pres_bind; [apply pres_placesAct|]. intros _.
  apply pres_bind; [apply pres_gets|]. intros t.
  apply pres_bind; [apply pres_invade|]. intros _.
  intros s HI. apply wp_modify. apply J_turn. exact HI.
Qed.

(** [deployAnt], when [J] also allows a new ant, a new stomach and the
    payment. *)
Lemma pres_deployAnt antType coords :
  (forall k armor cost st s, J s -> J (alloc_ant (mkAnt k armor cost None None 0 st) s)) ->
  (forall s, J s -> J (alloc_place (mkPlace false None None None None []) s)) ->
  (forall z s, J s -> J (set_food z s)) ->
  pres (AntGame_deployAnt antType coords).
Proof.
  intros J_ant J_place J_pay. unfold AntGame_deployAnt.
  destruct (new_ant_of_type antType) as [mk|] eqn:Hmk; [|apply pres_ret].
  apply pres_bind.
  - destruct (new_ant_of_type_cases _ _ Hmk) as [->|(k & armor & cost & ->)].
    + intros s HJ. unfold wp, new_EaterAnt, bind, new_Place, new_Ant.
      apply (J_ant Eater 2 4 (Some (next_place s))
               (alloc_place (mkPlace false None None None None []) s)).
      apply J_place. exact HJ.
    + intros s HJ. unfold wp, new_Ant. apply (J_ant k armor cost None s). exact HJ.
  - intros ant. apply pres_try_catch; [|apply pres_ret].
    apply pres_bind.
    + intros s HJ. pose proof (lookup_place_spec coords s) as H.
      eapply wp_mono; [exact H| |]; cbv beta.
      * intros v s' [-> _]. exact HJ.
      * intros s' ->. exact HJ.
    + intros v. unfold AntColony_deployAnt.
      apply pres_bind; [apply pres_gets|]. intros f.
      apply pres_bind; [apply pres_gets|]. intros cost.
      destruct (cost <=? f); [|apply pres_ret].
      apply pres_bind.
      * unfold on_place. destruct v; first [apply pres_throw|apply pres_addAnt].
      * intros success. destruct success; [|apply pres_ret].
        apply pres_bind; [|intros; apply pres_ret].
        intros s HJ. apply wp_modify. apply J_pay. exact HJ.
Qed.

(** [addWave], when [J] also allows a new bee in the hive and a new
    schedule. *)
Lemma pres_addWave t n :
  (forall s, J s -> J (hatch s)) ->
  (forall w s, J s -> J (set_waves w s)) ->
  pres (Hive_addWave t n).
Proof.
  intros J_hatch J_waves. unfold Hive_addWave. apply pres_bind.
  - generalize (@nil nat). induction n as [|n IH]; intros wave s HJ.
    + exact HJ.
    + unfold wp. rewrite addWave_loop_step. apply IH. apply J_hatch. exact HJ.
  - intros wave s HJ. apply wp_modify. apply J_waves. exact HJ.
Qed.

End Kept_by_calls.

(** X13. No command rebuilds the board: the grid, the entrances of the
    bees, the queen's place and the hive are the same objects afterwards,
    and every place that exists keeps its water and its two links. *)
Theorem board_is_never_rebuilt (c : command) (s : State) :
  grid (exec c s) = grid s /\
  beeEntrances (exec c s) = beeEntrances s /\
  queenPlace (exec c s) = queenPlace s /\
  hive (exec c s) = hive s /\
  forall p, (p < next_place s)%nat ->
    p_water (getP p (exec c s)) = p_water (getP p s) /\
    p_exit (getP p (exec c s)) = p_exit (getP p s) /\
    p_entrance (getP p (exec c s)) = p_entrance (getP p s).
Proof.
  set (J := fun s' : State =>
    (grid s' = grid s /\ beeEntrances s' = beeEntrances s /\
     queenPlace s' = queenPlace s /\ hive s' = hive s) /\
    (next_place s <= next_place s')%nat /\
    forall p, (p < next_place s)%nat ->
      p_water (getP p s') = p_water (getP p s) /\
      p_exit (getP p s') = p_exit (getP p s) /\
      p_entrance (getP p s') = p_entrance (getP p s)).
  assert (J_updP : forall p f s',
    (forall P, p_water (f P) = p_water P /\ p_exit (f P) = p_exit P /\
               p_entrance (f P) = p_entrance P) ->
    J s' -> J (updP p f s')).
  { intros p f s' Hf (H1 & H2 & H3). split; [exact H1|]. split; [exact H2|].
    intros q Hq. rewrite getP_updP. destruct (decide (p = q)) as [<-|]; [|apply H3; exact Hq].
    destruct (Hf (getP p s')) as (-> & -> & ->). apply H3. exact Hq. }
  assert (J_updA : forall a f s',
    (forall A, a_kind (f A) = a_kind A /\ a_foodCost (f A) = a_foodCost A /\
               a_stomach (f A) = a_stomach A) ->
    J s' -> J (updA a f s')) by (intros a f s' _ H; exact H).
  assert (J_updB : forall b f s',
    (forall B, b_damage (f B) = b_damage B) -> J s' -> J (updB b f s'))
    by (intros b f s' _ H; exact H).
  assert (J_food_up : forall s', J s' -> J (set_food (JS.add (food s') 1) s'))
    by (intros s' H; exact H).
  assert (J_boost : forall name v s', name ∈ grower_boosts ->
    v = match boosts_get name s' with
        | None => BNum (JS.add 0 1) | Some v => boost_succ v end ->
    J s' -> J (set_boosts (<[name := v]> (boosts s')) s'))
    by (intros name v s' _ _ H; exact H).
  assert (J_random : forall n s', J s' -> J (set_random_pos n s'))
    by (intros n s' H; exact H).
  assert (J_acted : forall l s', J s' -> J (set_acted l s'))
    by (intros l s' H; exact H).
  assert (J_place : forall s',
    J s' -> J (alloc_place (mkPlace false None None None None []) s')).
  { intros s' (H1 & H2 & H3). split; [exact H1|].
    split; [cbn; lia|]. intros q Hq. rewrite getP_alloc_place.
    destruct (decide (next_place s' = q)); [lia|apply H3; exact Hq]. }
  assert (J_hatch : forall s', J s' -> J (hatch s')).
  { intros s' (H1 & H2 & H3). split; [exact H1|]. split; [exact H2|].
    intros q Hq. unfold hatch.
    change (getP q (updB _ _ ?x)) with (getP q x). rewrite getP_updP.
    destruct (decide (hive s' = q)) as [<-|]; apply H3; exact Hq. }
  assert (J0 : J s) by (unfold J; repeat split; auto).
  assert (HJ : J (exec c s)).
  { unfold exec. apply wp_run; [exact J0|].
    destruct c; cbn [call].
    - apply (pres_takeTurn J); auto; intros; assumption.
    - apply wp_bind.
      eapply wp_mono; [apply (pres_deployAnt J); auto; intros; assumption| |auto].
      intros r s' H. exact H.
    - apply wp_bind. eapply wp_mono; [apply (pres_removeAnt_at J); auto| |auto].
      intros r s' H. exact H.
    - apply wp_bind. eapply wp_mono; [apply (pres_boostAnt J); auto| |auto].
      intros r s' H. exact H.
    - apply (pres_addWave J); auto; intros; assumption.
    - apply (pres_antsAct J); auto.
    - apply (pres_beesAct J); auto.
    - apply (pres_placesAct J); auto.
    - apply wp_bind. apply wp_gets. apply wp_bind.
      eapply wp_mono; [apply (pres_invade J); auto| |auto].
      intros r s' H. exact H. }
  destruct HJ as ((H1 & H2 & H3 & H4) & _ & H5). auto.
Qed.

(** X14. The turn counter counts the turns that were completed: a
    [takeTurn] that returns adds one (as doubles: [turn + 1] up to [2 ^ 53],
    see [add_exact]), a [takeTurn] that raises adds nothing, and no other
    command writes the counter. *)
Theorem turn_counts_completed_turns (c : command) (s : State) :
  match call c s with
  | Ok _ s' =>
      turn s' = match c with TakeTurn => JS.add (turn s) 1 | _ => turn s end /\
      (Z.abs (turn s + 1) <= JS.safe ->
       turn s' = match c with TakeTurn => turn s + 1 | _ => turn s end)
  | Throw s' => turn s' = turn s
  | Diverge => True
  end.
Proof.
  set (J := fun s' : State => turn s' = turn s).
  assert (J0 : J s) by reflexivity.
  assert (Hwp : wp (call c)
            (fun _ s' => turn s' = match c with TakeTurn => JS.add (turn s) 1 | _ => turn s end)
            J s).
  { destruct c; cbn [call].
    - unfold AntGame_takeTurn. apply wp_bind.
      eapply wp_mono; [apply (pres_antsAct J); auto; intros; assumption| |auto].
      intros u1 s1 H1. apply wp_bind.
      eapply wp_mono; [apply (pres_beesAct J); auto; intros; assumption| |auto].
      intros u2 s2 H2. apply wp_bind.
      eapply wp_mono; [apply (pres_placesAct J); auto; intros; assumption| |auto].
      intros u3 s3 H3. apply wp_bind. apply wp_gets. apply wp_bind.
      eapply wp_mono; [apply (pres_invade J); auto; intros; assumption| |auto].
      intros w s4 H4. apply wp_modify. cbn [turn set_turn]. rewrite H4. reflexivity.
    - apply wp_bind.
      eapply wp_mono; [apply (pres_deployAnt J); auto; intros; assumption| |auto].
      intros r s' H. exact H.
    - apply wp_bind.
      eapply wp_mono; [apply (pres_removeAnt_at J); auto; intros; assumption| |auto].
      intros r s' H. exact H.
    - apply wp_bind.
      eapply wp_mono; [apply (pres_boostAnt J); auto; intros; assumption| |auto].
      intros r s' H. exact H.
    - apply (pres_addWave J); auto; intros; assumption.
    - apply (pres_antsAct J); auto; intros; assumption.
    - apply (pres_beesAct J); auto; intros; assumption.
    - apply (pres_placesAct J); auto; intros; assumption.
    - apply wp_bind. apply wp_gets. apply wp_bind.
      eapply wp_mono; [apply (pres_invade J); auto; intros; assumption| |auto].
      intros r s' H. exact H. }
  unfold wp in Hwp. destruct (call c s); try exact Hwp.
  split; [exact Hwp|]. intros Hx. rewrite Hwp.
  destruct c; try reflexivity. apply add_exact. exact Hx.
Qed.

(** The loop of [addWave] lists the bees it creates and leaves the schedule
    alone. *)
Lemma addWave_loop_list n : forall wave s,
  exists s', addWave_loop n wave s = Ok (wave ++ seq (next_bee s) n) s' /\
             waves s' = waves s /\ food s' = food s.
Proof.
  induction n as [|n IH]; intros wave s.
  - exists s. cbn [addWave_loop seq]. rewrite app_nil_r. auto.
  - rewrite addWave_loop_step.
    destruct (IH (wave ++ [next_bee s]) (hatch s)) as (s' & Hrun & HW & HF).
    exists s'. rewrite Hrun. change (next_bee (hatch s)) with (S (next_bee s)).
    cbn [seq]. rewrite <- app_assoc. auto.
Qed.

(** X15. The schedule of the waves is written by [addWave] only, which
    records the bees it has just created under the turn it is given.  A
    release leaves the wave it has released on the schedule. *)
Theorem schedule_is_written_by_addWave_only (c : command) (s : State) :
  waves (exec c s)
  = match c with
    | AddWave t n => <[t := seq (next_bee s) n]> (waves s)
    | _ => waves s
    end.
Proof.
  set (J := fun s' : State => waves s' = waves s).
  assert (J0 : J s) by reflexivity.
  destruct c; unfold exec;
    try (apply (wp_run _ J); [exact J0|]; cbn [call]).
  - apply (pres_takeTurn J); auto; intros; assumption.
  - apply wp_bind.
    eapply wp_mono; [apply (pres_deployAnt J); auto; intros; assumption| |auto].
    intros r s' H. exact H.
  - apply wp_bind.
    eapply wp_mono; [apply (pres_removeAnt_at J); auto; intros; assumption| |auto].
    intros r s' H. exact H.
  - apply wp_bind.
    eapply wp_mono; [apply (pres_boostAnt J); auto; intros; assumption| |auto].
    intros r s' H. exact H.
  - unfold run. cbn [call]. unfold Hive_addWave, bind, modify.
    destruct (addWave_loop_list numBees [] s) as (s' & -> & HW & _).
    cbn [app waves set_waves]. rewrite HW. reflexivity.
  - apply (pres_antsAct J); auto; intros; assumption.
  - apply (pres_beesAct J); auto; intros; assumption.
  - apply (pres_placesAct J); auto; intros; assumption.
  - apply wp_bind. apply wp_gets. apply wp_bind.
    eapply wp_mono; [apply (pres_invade J); auto; intros; assumption| |auto].
    intros r s' H. exact H.
Qed.

(** ** The food *)

(** A new ant of one of the five types costs food, and creating it costs
    none. *)
Lemma new_ant_cost antType mk s :
  new_ant_of_type antType = Some mk ->
  exists s1, mk s = Ok (next_ant s) s1 /\ food s1 = food s /\
             0 < Ant_getFoodCost (next_ant s) s1.
Proof.
  unfold new_ant_of_type.
  repeat (destruct (String.eqb _ _);
          [intros [= <-]; eexists; split; [reflexivity|]; split; [reflexivity|];
           unfold Ant_getFoodCost, getA; cbn; rewrite lookup_insert_eq; cbn; lia|]).
  discriminate.
Qed.

Lemma deployAnt_food antType coords s :
  JS.is_number (food s) ->
  exists r s', AntGame_deployAnt antType coords s = Ok r s' /\
    food s' <= food s /\ (0 <= food s -> 0 <= food s') /\
    JS.is_number (food s').
Proof.
  intros Hnum. unfold AntGame_deployAnt.
  destruct (new_ant_of_type antType) as [mk|] eqn:Hmk;
    [|eexists _, _; split; [reflexivity|auto with zarith]].
  destruct (new_ant_cost antType mk s Hmk) as (s1 & Hant & Hf & Hcost).
  unfold bind at 1. rewrite Hant. unfold try_catch, bind at 1.
  assert (Hsame : forall s2, food s2 = food s1 ->
            food s2 <= food s /\ (0 <= food s -> 0 <= food s2) /\
            JS.is_number (food s2)).
  { intros s2 E. rewrite E, Hf. split; [lia|]. split; [auto|exact Hnum]. }
  destruct (lookup_place_cases coords s1) as [->|[v ->]].
  { eexists _, _; split; [reflexivity|apply Hsame; reflexivity]. }
  unfold AntColony_deployAnt. mcbv.
  destruct (Ant_getFoodCost (next_ant s) s1 <=? food s1) eqn:Hle;
    [|eexists _, _; split; [reflexivity|apply Hsame; reflexivity]].
  apply Z.leb_le in Hle.
  destruct v as [|p|r| |]; cbn [on_place];
    try (eexists _, _; split; [reflexivity|apply Hsame; reflexivity]).
  assert (Hspent : forall s2, food s2 = food s1 ->
            Ant_getFoodCost (next_ant s) s2 = Ant_getFoodCost (next_ant s) s1 ->
            let s3 := set_food (JS.sub (food s2) (Ant_getFoodCost (next_ant s) s2)) s2 in
            food s3 <= food s /\ (0 <= food s -> 0 <= food s3) /\
            JS.is_number (food s3)).
  { intros s2 E Ec. cbv zeta. cbn [food set_food]. rewrite E, Ec, Hf in *.
    split; [apply sub_le; [exact Hnum|lia]|].
    split; [|apply sub_is_number].
    intros _. pose proof (sub_pos (food s) (Ant_getFoodCost (next_ant s) s1)).
    pose proof (sub_nonpos (food s) (Ant_getFoodCost (next_ant s) s1)).
    destruct (Z.eq_dec (food s) (Ant_getFoodCost (next_ant s) s1)) as [Heq|Hne].
    - rewrite Heq. unfold JS.sub. rewrite Z.sub_diag. discriminate.
    - lia. }
  unfold Place_addAnt.
  destruct (decide (a_kind (getA (next_ant s) s1) = Guard));
    [destruct (p_guard (getP p s1))|destruct (p_ant (getP p s1))];
    (eexists _, _; split; [reflexivity|]);
    try (apply Hsame; reflexivity);
    (apply Hspent;
       [reflexivity
       |unfold Ant_getFoodCost; rewrite getA_updA_eq; store_simpl; reflexivity]).
Qed.

(** X16. Food is spent by deploying only, and a deploy never takes it below
    zero: a deploy leaves at most the food there was, and a stock that is
    not negative stays so; the ants' sweep and a turn never lower it; every
    other command leaves it as it is.  The food is a double, as it is in
    every state of the program. *)
Theorem food_is_spent_by_deploying_only (c : command) (s : State) :
  JS.is_number (food s) ->
  match c with
  | Deploy _ _ => food (exec c s) <= food s /\ (0 <= food s -> 0 <= food (exec c s))
  | TakeTurn | AntsAct => food s <= food (exec c s)
  | _ => food (exec c s) = food s
  end.
Proof.
  intros Hnum.
  set (J := fun s' : State => food s' = food s).
  set (K := fun s' : State => food s <= food s').
  set (K' := fun s' : State => food s <= food s' /\ JS.is_number (food s')).
  assert (J0 : J s) by reflexivity.
  assert (K0 : K' s) by (unfold K'; split; [lia|exact Hnum]).
  assert (K_up : forall s', K' s' -> K' (set_food (JS.add (food s') 1) s')).
  { unfold K'. cbn [food set_food]. intros s' [H1 H2].
    pose proof (add_ge (food s') 1 H2 ltac:(lia)).
    split; [lia|apply add_is_number]. }
  assert (HK : forall s', K' s' -> K s') by (intros s' H; apply H).
  destruct c;
    try (destruct (deployAnt_food antType placeCoordinates s Hnum)
           as (r & s' & Hrun & Hf & Hz & _);
         unfold exec, run; cbn [call]; unfold bind; rewrite Hrun; split; assumption);
    unfold exec;
    first [apply (wp_run _ J); [exact J0|]
          | apply HK; apply (wp_run _ K'); [exact K0|]];
    cbn [call].
  - apply (pres_takeTurn K'); auto; intros; assumption.
  - apply wp_bind.
    eapply wp_mono; [apply (pres_removeAnt_at J); auto; intros; assumption| |auto].
    intros r s' H. exact H.
  - apply wp_bind.
    eapply wp_mono; [apply (pres_boostAnt J); auto; intros; assumption| |auto].
    intros r s' H. exact H.
  - apply (pres_addWave J); auto; intros; assumption.
  - apply (pres_antsAct K'); auto; intros; assumption.
  - apply (pres_beesAct J); auto; intros; assumption.
  - apply (pres_placesAct J); auto; intros; assumption.
  - apply wp_bind. apply wp_gets. apply wp_bind.
    eapply wp_mono; [apply (pres_invade J); auto; intros; assumption| |auto].
    intros r s' H. exact H.
Qed.

Lemma food_is_spent_by_deploying_only_witness :
  JS.is_number (food demo_board) /\
  food demo_board = 10 /\
  food (exec (Deploy "thrower" "0,1") demo_board) = 6 /\
  food (exec (Deploy "thrower" "0,1") demo_board) <= food demo_board.
Proof.
  split; [vm_compute; reflexivity|].
  split; [vm_compute; reflexivity|].
  split; [vm_compute; reflexivity|].
  refine (proj1 (food_is_spent_by_deploying_only
                   (Deploy "thrower" "0,1") demo_board _)).
  vm_compute. reflexivity.
Defined.

(** ** The board that the constructor builds *)

(** Whether the section at column [step] holds water. *)
Definition water_at (moatFrequency step : nat) : bool :=
  negb (moatFrequency =? 0)%nat && (S step mod moatFrequency =? 0)%nat.

(** The state without its places. *)
Definition off_places (s : State) : State :=
  set_next_place 0 (set_places (fun _ => ∅) s).

(** The state without its places, grid and entrances. *)
Definition off_board (s : State) : State :=
  set_beeEntrances [] (set_grid [] (off_places s)).

Lemma build_tunnel_step n step moat curr row s :
  build_tunnel (S n) step moat curr row s
  = build_tunnel n (S step) moat (next_place s) (row ++ [next_place s])
      (updP curr (with_entrance (Some (next_place s)))
         (alloc_place (mkPlace (water_at moat step) (Some curr) None None None []) s)).
Proof. reflexivity. Qed.

(** One tunnel: [n] sections are allocated in a row after the place
    [curr]; each has the one before it as its exit and the one after it as
    its entrance, and the last has no entrance. *)
Lemma build_tunnel_layout n : forall step moat curr row s,
  (curr < next_place s)%nat ->
  exists s',
    build_tunnel n step moat curr row s
    = Ok (match n with O => curr | S m => (next_place s + m)%nat end,
          row ++ seq (next_place s) n) s' /\
    next_place s' = (next_place s + n)%nat /\
    off_places s' = off_places s /\
    (forall i, (i < n)%nat ->
       getP (next_place s + i) s'
       = mkPlace (water_at moat (step + i))
           (Some (match i with O => curr | S j => (next_place s + j)%nat end))
           (if (S i <? n)%nat then Some (next_place s + S i)%nat else None)
           None None []) /\
    (forall q, (q < next_place s)%nat -> q <> curr -> getP q s' = getP q s) /\
    getP curr s'
    = match n with
      | O => getP curr s
      | S _ => with_entrance (Some (next_place s)) (getP curr s)
      end.
Proof.
  induction n as [|n IH]; intros step moat curr row s Hc.
  - exists s. cbn [build_tunnel seq]. rewrite app_nil_r, Nat.add_0_r.
    split; [reflexivity|]. split; [reflexivity|]. split; [reflexivity|].
    split; [intros i Hi; lia|]. split; reflexivity.
  - rewrite build_tunnel_step.
    set (N := next_place s) in *.
    set (P0 := mkPlace (water_at moat step) (Some curr) None None None []).
    set (s2 := updP curr (with_entrance (Some N)) (alloc_place P0 s)).
    assert (HN2 : next_place s2 = S N) by reflexivity.
    assert (Hget2 : forall q, getP q s2
              = if decide (curr = q) then with_entrance (Some N) (getP q s)
                else if decide (N = q) then P0 else getP q s).
    { intros q. unfold s2. rewrite getP_updP.
      destruct (decide (curr = q)) as [<-|Hne].
      - rewrite getP_alloc_place. fold N.
        destruct (decide (N = curr)); [lia|reflexivity].
      - rewrite getP_alloc_place. reflexivity. }
    destruct (IH (S step) moat N (row ++ [N]) s2) as (s' & Hrun & Hnext & Hoff & Hcells & Hold & Hcurr).
    { rewrite HN2. lia. }
    rewrite HN2 in *.
    exists s'. split.
    { rewrite Hrun. f_equal. f_equal.
      - destruct n; lia.
      - rewrite <- app_assoc. reflexivity. }
    split; [lia|]. split; [rewrite Hoff; reflexivity|].
    split; [|split].
    + intros i Hi. destruct i as [|i].
      * rewrite Nat.add_0_r, Hcurr, Hget2.
        destruct (decide (curr = N)); [lia|].
        destruct (decide (N = N)); [|congruence].
        destruct n as [|n]; unfold P0, with_entrance; cbn; rewrite ?Nat.add_0_r;
          repeat f_equal; lia.
      * replace (N + S i)%nat with (S N + i)%nat by lia.
        rewrite Hcells by lia.
        replace (S step + i)%nat with (step + S i)%nat by lia.
        f_equal.
        -- destruct i; f_equal; lia.
        -- change (S (S i) <? S n)%nat with (S i <? n)%nat.
           destruct (S i <? n)%nat; [f_equal; lia|reflexivity].
    + intros q Hq Hne. rewrite Hold by lia. rewrite Hget2.
      destruct (decide (curr = q)); [congruence|].
      destruct (decide (N = q)); [lia|reflexivity].
    + rewrite Hold by lia. rewrite Hget2.
      destruct (decide (curr = curr)); [reflexivity|congruence].
Qed.

Lemma build_tunnels_step n len moat s :
  build_tunnels (S n) len moat s
  = match build_tunnel len 0 moat (queenPlace s) [] s with
    | Ok r s1 =>
        build_tunnels n len moat
          (set_beeEntrances (beeEntrances s1 ++ [fst r]) (set_grid (grid s1 ++ [snd r]) s1))
    | Throw s1 => Throw s1
    | Diverge => Diverge
    end.
Proof.
  cbn [build_tunnels]. unfold bind, gets, modify.
  destruct (build_tunnel len 0 moat (queenPlace s) [] s); reflexivity.
Qed.

(** The tunnels: [n] rows of [len] sections each, allocated one row after
    the other.  Every row starts at the queen's place, so the entrance of
    the queen's place is the first section of the last row. *)
Lemma build_tunnels_layout n : forall len moat s,
  (queenPlace s < next_place s)%nat ->
  exists s',
    build_tunnels n len moat s = Ok tt s' /\
    next_place s' = (next_place s + n * len)%nat /\
    off_board s' = off_board s /\
    grid s' = grid s ++ map (fun t => seq (next_place s + t * len) len) (seq 0 n) /\
    beeEntrances s'
    = beeEntrances s
      ++ map (fun t => match len with
                       | O => queenPlace s
                       | S m => (next_place s + t * len + m)%nat
                       end) (seq 0 n) /\
    (forall t j, (t < n)%nat -> (j < len)%nat ->
       getP (next_place s + t * len + j) s'
       = mkPlace (water_at moat j)
           (Some (match j with
                  | O => queenPlace s
                  | S i => (next_place s + t * len + i)%nat
                  end))
           (if (S j <? len)%nat then Some (next_place s + t * len + S j)%nat else None)
           None None []) /\
    (forall q, (q < next_place s)%nat -> q <> queenPlace s -> getP q s' = getP q s) /\
    getP (queenPlace s) s'
    = match n, len with
      | S m, S _ => with_entrance (Some (next_place s + m * len)%nat) (getP (queenPlace s) s)
      | _, _ => getP (queenPlace s) s
      end.
Proof.
  induction n as [|n IH]; intros len moat s HQ.
  - exists s. cbn [build_tunnels seq map]. rewrite !app_nil_r.
    split; [reflexivity|]. split; [lia|]. split; [reflexivity|].
    split; [reflexivity|]. split; [reflexivity|].
    split; [intros t j Ht; lia|]. split; reflexivity.
  - rewrite build_tunnels_step.
    destruct (build_tunnel_layout len 0 moat (queenPlace s) [] s HQ)
      as (s1 & Hrun & Hnext & Hoff & Hcells & Hold & Hqueen).
    rewrite Hrun. cbn [fst snd app].
    set (N := next_place s) in *. set (Q := queenPlace s) in *.
    set (last := match len with O => Q | S m => (N + m)%nat end) in *.
    set (s2 := set_beeEntrances (beeEntrances s1 ++ [last])
                 (set_grid (grid s1 ++ [seq N len]) s1)).
    assert (Hq1 : queenPlace s1 = Q) by exact (f_equal queenPlace Hoff).
    assert (Hg1 : grid s1 = grid s) by exact (f_equal grid Hoff).
    assert (He1 : beeEntrances s1 = beeEntrances s) by exact (f_equal beeEntrances Hoff).
    destruct (IH len moat s2) as (s' & Hrun' & Hnext' & Hoff' & Hgrid & Hent & Hcells' & Hold' & Hqueen').
    { change (queenPlace s2) with (queenPlace s1). change (next_place s2) with (next_place s1).
      rewrite Hq1, Hnext. lia. }
    change (queenPlace s2) with (queenPlace s1) in *.
    change (next_place s2) with (next_place s1) in *.
    change (grid s2) with (grid s1 ++ [seq N len]) in Hgrid.
    change (beeEntrances s2) with (beeEntrances s1 ++ [last]) in Hent.
    rewrite Hq1, Hnext in *. rewrite Hg1 in Hgrid. rewrite He1 in Hent.
    exists s'. split; [exact Hrun'|]. split; [rewrite Hnext'; lia|].
    split.
    { rewrite Hoff'.
      change (off_board s2) with (set_beeEntrances [] (set_grid [] (off_places s1))).
      rewrite Hoff. reflexivity. }
    split.
    { rewrite Hgrid, <- app_assoc. f_equal. cbn [seq map app].
      rewrite Nat.add_0_r. f_equal. rewrite <- seq_shift, map_map.
      apply map_ext. intros t. f_equal. lia. }
    split.
    { rewrite Hent, <- app_assoc. f_equal. cbn [seq map app].
      f_equal; [unfold last; destruct len; [reflexivity|f_equal; lia]|].
      rewrite <- seq_shift, map_map. apply map_ext. intros t.
      destruct len; [reflexivity|lia]. }
    split; [|split].
    + intros t j Ht Hj. destruct t as [|t].
      * cbn [Nat.mul]. rewrite Nat.add_0_r.
        rewrite Hold' by lia.
        change (getP (N + j) s2) with (getP (N + j) s1).
        rewrite Hcells by assumption. cbn [Nat.add]. reflexivity.
      * replace (N + S t * len + j)%nat with (N + len + t * len + j)%nat by lia.
        rewrite Hcells' by lia. f_equal.
        -- destruct j; f_equal; lia.
        -- destruct (S j <? len)%nat; f_equal; lia.
    + intros q Hq Hne. rewrite Hold' by lia.
      change (getP q s2) with (getP q s1). apply Hold; assumption.
    + rewrite Hqueen'. change (getP Q s2) with (getP Q s1). rewrite Hqueen.
      destruct len as [|len]; [destruct n; reflexivity|].
      destruct n as [|n].
      * cbn [Nat.mul]. rewrite Nat.add_0_r. reflexivity.
      * replace (N + S len + n * S len)%nat with (N + S n * S len)%nat by lia.
        reflexivity.
Qed.

Lemma seq_as_map a n : forall k, seq (a + k) n = map (Nat.add a) (seq k n).
Proof.
  induction n as [|n IH]; intros k; cbn [seq map]; [reflexivity|].
  f_equal. rewrite <- IH. f_equal. lia.
Qed.

(** The constructor writes places, the grid and the entrances only. *)
Lemma new_colony_off_board rnd startingFood nT tL moat armor damage :
  off_board (initial rnd startingFood nT tL moat armor damage)
  = off_board (blank rnd startingFood armor damage).
Proof.
  unfold initial, run, new_AntColony.
  destruct (build_tunnels_layout nT tL moat (blank rnd startingFood armor damage))
    as (s' & Hrun & _ & Hoff & _); [cbn; lia|].
  rewrite Hrun. exact Hoff.
Qed.

Lemma initial_stock rnd startingFood nT tL moat armor damage :
  boosts (initial rnd startingFood nT tL moat armor damage) = initial_boosts.
Proof.
  exact (f_equal boosts (new_colony_off_board rnd startingFood nT tL moat armor damage)).
Qed.

(** The place of the section at column [step] of the tunnel [tunnel]. *)
Definition cell (tunnelLength tunnel step : nat) : nat :=
  (2 + tunnel * tunnelLength + step)%nat.

(** X17. The board of a new colony: [numTunnels] rows of [tunnelLength]
    sections; a section holds water when its column plus one is a multiple
    of a non-zero [moatFrequency]; it leads out to the section before it
    (the first one to the queen's place) and in from the section after it
    (the last one from nowhere).  The bees enter at the last section of
    each row.  The queen's place leads in from the first section of the
    last row only.  The colony starts with the food it is given, one of
    each leaf, no bug spray, no ants and no bees. *)
Theorem new_colony_layout (rnd : nat -> Q) (startingFood : Z)
    (numTunnels tunnelLength moatFrequency : nat) (armor damage : Z) :
  let s := initial rnd startingFood numTunnels tunnelLength moatFrequency armor damage in
  grid s = map (fun t => map (cell tunnelLength t) (seq 0 tunnelLength)) (seq 0 numTunnels) /\
  beeEntrances s
  = map (fun t => match tunnelLength with
                  | O => queenPlace s
                  | S m => cell tunnelLength t m
                  end) (seq 0 numTunnels) /\
  (forall t j, (t < numTunnels)%nat -> (j < tunnelLength)%nat ->
     getP (cell tunnelLength t j) s
     = mkPlace (negb (moatFrequency =? 0)%nat && ((j + 1) mod moatFrequency =? 0)%nat)
         (Some (match j with O => queenPlace s | S i => cell tunnelLength t i end))
         (if (S j <? tunnelLength)%nat then Some (cell tunnelLength t (S j)) else None)
         None None []) /\
  getP (queenPlace s) s
  = mkPlace false None
      (match numTunnels, tunnelLength with
       | S m, S _ => Some (cell tunnelLength m 0)
       | _, _ => None
       end) None None [] /\
  getP (hive s) s = emptyPlace /\ queenPlace s <> hive s /\
  food s = startingFood /\ boosts s = initial_boosts /\ turn s = 0 /\
  waves s = ∅ /\ ants s = ∅ /\ beeObjs s = ∅.
Proof.
  cbv zeta. unfold initial, run, new_AntColony.
  set (s0 := blank rnd startingFood armor damage).
  destruct (build_tunnels_layout numTunnels tunnelLength moatFrequency s0)
    as (s' & Hrun & Hnext & Hoff & Hgrid & Hent & Hcells & Hold & Hqueen).
  { cbn. lia. }
  rewrite Hrun.
  assert (Hq : queenPlace s' = 1%nat) by exact (f_equal queenPlace Hoff).
  assert (Hh : hive s' = 0%nat) by exact (f_equal hive Hoff).
  change (next_place s0) with 2%nat in *. change (queenPlace s0) with 1%nat in *.
  change (grid s0) with (@nil (list nat)) in *.
  change (beeEntrances s0) with (@nil nat) in *.
  rewrite Hq, Hh.
  split.
  { rewrite Hgrid. cbn [app]. apply map_ext. intros t.
    rewrite <- (Nat.add_0_r (2 + t * tunnelLength)). apply seq_as_map. }
  split; [rewrite Hent; reflexivity|].
  split.
  { intros t j Ht Hj. unfold cell. rewrite Hcells by assumption.
    unfold water_at. rewrite (Nat.add_1_r j). reflexivity. }
  split.
  { rewrite Hqueen. destruct numTunnels, tunnelLength; try reflexivity.
    unfold cell. rewrite Nat.add_0_r. reflexivity. }
  split; [rewrite Hold by lia; reflexivity|].
  split; [discriminate|].
  split; [exact (f_equal food Hoff)|].
  split; [exact (f_equal boosts Hoff)|].
  split; [exact (f_equal turn Hoff)|].
  split; [exact (f_equal waves Hoff)|].
  split; [exact (f_equal ants Hoff)|exact (f_equal beeObjs Hoff)].
Qed.

(** ** The stock of boosts *)

(** A property that every write of the engine keeps is kept by every
    command. *)
Lemma pres_call (J : State -> Prop) :
  (forall p f s,
     (forall P, p_water (f P) = p_water P /\ p_exit (f P) = p_exit P /\
                p_entrance (f P) = p_entrance P) ->
     J s -> J (updP p f s)) ->
  (forall a f s,
     (forall A, a_kind (f A) = a_kind A /\ a_foodCost (f A) = a_foodCost A /\
                a_stomach (f A) = a_stomach A) ->
     J s -> J (updA a f s)) ->
  (forall b f s, (forall B, b_damage (f B) = b_damage B) -> J s -> J (updB b f s)) ->
  (forall name v s,
     name ∈ grower_boosts ->
     v = match boosts_get name s with None => BNum (JS.add 0 1) | Some v => boost_succ v end ->
     J s -> J (set_boosts (<[name := v]> (boosts s)) s)) ->
  (forall n s, J s -> J (set_random_pos n s)) ->
  (forall l s, J s -> J (set_acted l s)) ->
  (forall z s, J s -> J (set_turn z s)) ->
  (forall z s, J s -> J (set_food z s)) ->
  (forall w s, J s -> J (set_waves w s)) ->
  (forall s, J s -> J (hatch s)) ->
  (forall A s, J s -> J (alloc_ant A s)) ->
  (forall P s, J s -> J (alloc_place P s)) ->
  forall c, pres J (call c).
Proof.
  intros J_updP J_updA J_updB J_boost J_random J_acted J_turn J_food J_waves
         J_hatch J_ant J_place c.
  assert (J_food_up : forall s, J s -> J (set_food (JS.add (food s) 1) s)) by auto.
  destruct c; cbn [call].
  - apply (pres_takeTurn J); auto.
  - apply pres_bind; [apply (pres_deployAnt J); auto|intros; apply pres_ret].
  - apply pres_bind; [apply (pres_removeAnt_at J); auto|intros; apply pres_ret].
  - apply pres_bind; [apply (pres_boostAnt J); auto|intros; apply pres_ret].
  - apply (pres_addWave J); auto.
  - apply (pres_antsAct J); auto.
  - apply (pres_beesAct J); auto.
  - apply (pres_placesAct J); auto.
  - apply pres_bind; [apply pres_gets|]. intros t.
    apply pres_bind; [apply (pres_invade J); auto|intros; apply pres_ret].
Qed.

Lemma exec_keeps (J : State -> Prop) c s :
  pres J (call c) -> J s -> J (exec c s).
Proof. intros H HJ. apply (wp_run _ J); [exact HJ|apply H; exact HJ]. Qed.

(** A count on the stock is never lowered. *)
Lemma boost_count_grows c name n s :
  boosts s !! name = Some (BNum n) -> JS.is_number n ->
  exists n', boosts (exec c s) !! name = Some (BNum n') /\ n <= n' /\
             JS.is_number n'.
Proof.
  intros H Hnum.
  apply (exec_keeps (fun s' => exists n', boosts s' !! name = Some (BNum n') /\
                                          n <= n' /\ JS.is_number n'));
    [|exists n; split; [exact H|split; [lia|exact Hnum]]].
  apply pres_call; try (intros; assumption).
  intros name' v s' Hin -> (n' & Hn' & Hle & Hnum'). cbn [boosts set_boosts].
  destruct (decide (name' = name)) as [->|Hne].
  - rewrite lookup_insert_eq. unfold boosts_get. rewrite Hn'. cbn [boost_succ].
    exists (JS.add n' 1). split; [reflexivity|].
    pose proof (add_ge n' 1 Hnum' ltac:(lia)).
    split; [lia|apply add_is_number].
  - rewrite lookup_insert_ne by assumption. exists n'. auto.
Qed.

(** No boost but the four that a Grower finds joins the stock. *)
Lemma boost_absent_stays c name s :
  (name ∉ grower_boosts) -> boosts s !! name = None ->
  boosts (exec c s) !! name = None.
Proof.
  intros Hout H.
  apply (exec_keeps (fun s' => boosts s' !! name = None)); [|exact H].
  apply pres_call; try (intros; assumption).
  intros name' v s' Hin _ Hn'. cbn [boosts set_boosts].
  rewrite lookup_insert_ne; [exact Hn'|]. intros ->. contradiction.
Qed.

(** The stock holds the four boosts, each at least as often as at the
    start, and nothing else. *)
Definition stocked (s : State) : Prop :=
  forall name,
    match initial_boosts !! name with
    | Some (BNum m) =>
        exists n, boosts s !! name = Some (BNum n) /\ m <= n /\ JS.is_number n
    | _ => boosts s !! name = None
    end.

Lemma initial_boosts_cases name :
  (name ∈ grower_boosts /\ exists m, initial_boosts !! name = Some (BNum m)) \/
  ((name ∉ grower_boosts) /\ initial_boosts !! name = None).
Proof.
  unfold initial_boosts, grower_boosts.
  destruct (decide (name = "BugSpray"%string)) as [->|H1].
  { left. split; [rewrite !elem_of_cons; auto|]. exists 0. reflexivity. }
  destruct (decide (name = "IcyLeaf"%string)) as [->|H2].
  { left. split; [rewrite !elem_of_cons; auto|]. exists 1. reflexivity. }
  destruct (decide (name = "StickyLeaf"%string)) as [->|H3].
  { left. split; [rewrite !elem_of_cons; auto|]. exists 1. reflexivity. }
  destruct (decide (name = "FlyingLeaf"%string)) as [->|H4].
  { left. split; [rewrite !elem_of_cons; auto|]. exists 1. reflexivity. }
  right. split.
  - rewrite !not_elem_of_cons. repeat split; try congruence. apply not_elem_of_nil.
  - rewrite !lookup_insert_ne by congruence. apply lookup_empty.
Qed.

(** The counts of the start are small. *)
Lemma initial_counts name :
  match initial_boosts !! name with
  | Some (BNum m) => Z.abs m <= JS.safe
  | _ => True
  end.
Proof.
  unfold initial_boosts.
  destruct (decide (name = "BugSpray"%string)) as [->|H1]; [vm_compute; discriminate|].
  rewrite lookup_insert_ne by congruence.
  destruct (decide (name = "IcyLeaf"%string)) as [->|H2]; [vm_compute; discriminate|].
  rewrite lookup_insert_ne by congruence.
  destruct (decide (name = "StickyLeaf"%string)) as [->|H3]; [vm_compute; discriminate|].
  rewrite lookup_insert_ne by congruence.
  destruct (decide (name = "FlyingLeaf"%string)) as [->|H4]; [vm_compute; discriminate|].
  rewrite lookup_insert_ne by congruence. rewrite lookup_empty. exact I.
Qed.

Lemma stocked_exec c s : stocked s -> stocked (exec c s).
Proof.
  intros H name. specialize (H name).
  destruct (initial_boosts_cases name) as [(Hin & m & Hm)|(Hout & Hm)]; rewrite Hm in *.
  - destruct H as (n & Hn & Hle & Hnum).
    destruct (boost_count_grows c name n s Hn Hnum) as (n' & Hn' & Hle' & Hnum').
    exists n'. split; [exact Hn'|split; [lia|exact Hnum']].
  - apply boost_absent_stays; assumption.
Qed.

Lemma reachable_stocked s : reachable s -> stocked s.
Proof.
  induction 1 as [rnd food nT tL moat armor damage | s c Hr IH].
  - intros name.
    rewrite (initial_stock rnd food nT tL moat armor damage).
    pose proof (initial_counts name) as Hc.
    destruct (initial_boosts_cases name) as [(_ & m & Hm)|(_ & Hm)]; rewrite Hm in *.
    + exists m. split; [reflexivity|split; [lia|apply small_is_number; exact Hc]].
    + reflexivity.
  - apply stocked_exec. exact IH.
Qed.

Lemma steps_stock name n s s' :
  steps s s' -> boosts s !! name = Some (BNum n) -> JS.is_number n ->
  exists n', boosts s' !! name = Some (BNum n') /\ n <= n' /\ JS.is_number n'.
Proof.
  intros Hs H Hnum. induction Hs as [s|s s1 c Hs IH].
  - exists n. split; [exact H|split; [lia|exact Hnum]].
  - destruct (IH H) as (n1 & H1 & Hle & Hnum1).
    destruct (boost_count_grows c name n1 s1 H1 Hnum1) as (n' & Hn' & Hle' & Hnum').
    exists n'. split; [exact Hn'|split; [lia|exact Hnum']].
Qed.

(** X18. The stock of boosts only grows.  In every state of a game the
    stock holds exactly the four boosts of the start, each at least as often
    as at the start (one of each leaf, no bug spray), and no command lowers
    a count: giving a boost to an ant does not use it up. *)
Theorem stock_of_boosts_only_grows (s s' : State) (name : string) :
  reachable s -> steps s s' ->
  match initial_boosts !! name with
  | Some (BNum m) =>
      exists n n', boosts s !! name = Some (BNum n) /\
                   boosts s' !! name = Some (BNum n') /\ m <= n /\ n <= n'
  | _ => boosts s !! name = None /\ boosts s' !! name = None
  end.
Proof.
  intros Hr Hs.
  pose proof (reachable_stocked s Hr name) as H.
  pose proof (reachable_stocked s' (steps_reachable s s' Hr Hs) name) as H'.
  destruct (initial_boosts_cases name) as [(_ & m & Hm)|(_ & Hm)]; rewrite Hm in *.
  - destruct H as (n & Hn & Hle & Hnum).
    destruct (steps_stock name n s s' Hs Hn Hnum) as (n' & Hn' & Hle' & _).
    exists n, n'. auto.
  - auto.
Qed.

(** The three leaves. *)
Definition leaves : list string := ["FlyingLeaf"; "StickyLeaf"; "IcyLeaf"]%string.

Lemma leaf_in_stock s boost :
  stocked s -> boost ∈ leaves -> boost_missing (boosts_get boost s) = false.
Proof.
  intros H Hin. specialize (H boost). unfold leaves in Hin.
  assert (Hm : initial_boosts !! boost = Some (BNum 1)).
  { rewrite !elem_of_cons in Hin.
    destruct Hin as [->|[->|[->|Hin]]]; [reflexivity|reflexivity|reflexivity|].
    exfalso. exact (not_elem_of_nil _ Hin). }
  rewrite Hm in H. destruct H as (n & Hn & Hle & _).
  unfold boosts_get. rewrite Hn. cbn [boost_missing]. apply Z.ltb_ge. exact Hle.
Qed.

(** X19. In every state of a game a leaf can be given at every place of the
    board that holds an ant, and it goes to the Guard when the place has
    one, not to the ant under it; at a place without ants the answer is 'no
    Ant at location'. *)
Theorem leaf_goes_to_the_guard (s : State) (boost coords : string) (p : nat) :
  reachable s -> boost ∈ leaves ->
  lookup_place coords s = Ok (VPlace p) s ->
  AntGame_boostAnt boost coords s
  = match p_guard (getP p s), p_ant (getP p s) with
    | Some g, _ => Ok None (updA g (with_a_boost (Some boost)) s)
    | None, Some a => Ok None (updA a (with_a_boost (Some boost)) s)
    | None, None => Ok (Some str_no_ant) s
    end.
Proof.
  intros Hr Hin Hlook.
  pose proof (leaf_in_stock s boost (reachable_stocked s Hr) Hin) as Hstock.
  unfold AntGame_boostAnt, try_catch, bind at 1. rewrite Hlook.
  unfold AntColony_applyBoost. mcbv. rewrite Hstock.
  cbn [on_place]. unfold Place_getAnt.
  destruct (p_guard (getP p s)) as [g|]; [reflexivity|].
  destruct (p_ant (getP p s)) as [a|]; reflexivity.
Qed.

Lemma stock_of_boosts_only_grows_witness :
  exists n n',
    boosts (initial (fun _ => 59 # 64) 10 1 5 3 2 1) !! "BugSpray"%string = Some (BNum n) /\
    boosts demo_spray !! "BugSpray"%string = Some (BNum n') /\ 0 <= n /\ n <= n'.
Proof.
  apply (stock_of_boosts_only_grows
           (initial (fun _ => 59 # 64) 10 1 5 3 2 1) demo_spray "BugSpray").
  - apply reach_initial.
  - unfold demo_spray. repeat apply steps_next. apply steps_refl.
Defined.

Lemma leaf_goes_to_the_guard_witness :
  p_ant (getP 2 demo_guarded) = Some 0%nat /\
  AntGame_boostAnt "StickyLeaf" "0,0" demo_guarded
  = Ok None (updA 1 (with_a_boost (Some "StickyLeaf"%string)) demo_guarded).
Proof.
  split; [vm_compute; reflexivity|].
  rewrite (leaf_goes_to_the_guard demo_guarded "StickyLeaf" "0,0" 2).
  - vm_compute. reflexivity.
  - exact demo_guarded_reachable.
  - unfold leaves. rewrite !elem_of_cons. auto.
  - vm_compute. reflexivity.
Defined.

(** ** The release of a wave *)

(** What [invade] does with one bee of the wave. *)
Definition release (bee : nat) : M unit :=
  h <- gets hive ;;
  Place_removeBee h bee ;;;
  entrances <- gets AntColony_getEntrances ;;
  r <- Math_random ;;
  let randEntrance := Qfloor (r * inject_Z (Z.of_nat (length entrances))) in
  if randEntrance <? 0 then throw
  else match entrances !! Z.to_nat randEntrance with
       | Some e => Place_addBee e bee
       | None => throw
       end.

Lemma Hive_invade_eq t s :
  Hive_invade t s
  = match waves s !! t with
    | Some wave => (forEach wave release ;;; ret wave) s
    | None => Ok [] s
    end.
Proof. unfold Hive_invade, bind at 1, gets. destruct (waves s !! t); reflexivity. Qed.

(** The state after [place.removeBee(b)]. *)
Definition removed (p b : nat) (s : State) : State :=
  match indexOf b (p_bees (getP p s)) with
  | Some i => updB b (with_b_place None)
                (updP p (fun P => with_bees (delete i (p_bees P)) P) s)
  | None => s
  end.

Lemma Place_removeBee_eq p b s : Place_removeBee p b s = Ok tt (removed p b s).
Proof.
  unfold Place_removeBee, removed. destruct (indexOf b (p_bees (getP p s))); reflexivity.
Qed.

Lemma removed_other_bee p b s c : c <> b -> getB c (removed p b s) = getB c s.
Proof.
  intros Hne. unfold removed. destruct (indexOf b (p_bees (getP p s))); [|reflexivity].
  rewrite getB_updB_ne by congruence. reflexivity.
Qed.

Lemma removed_keeps_listed p b s c q :
  c <> b -> c ∈ p_bees (getP q s) -> c ∈ p_bees (getP q (removed p b s)).
Proof.
  intros Hne Hin. unfold removed.
  destruct (indexOf b (p_bees (getP p s))) as [i|] eqn:Hi; [|exact Hin].
  change (getP q (updB b _ ?s0)) with (getP q s0). rewrite getP_updP.
  destruct (decide (p = q)) as [<-|Hpq]; [|exact Hin].
  cbn [p_bees with_bees].
  apply (elem_of_delete_other c b); [apply indexOf_Some; exact Hi|exact Hne|exact Hin].
Qed.

Lemma removed_other_place p b s q : q <> p -> getP q (removed p b s) = getP q s.
Proof.
  intros Hne. unfold removed. destruct (indexOf b (p_bees (getP p s))); [|reflexivity].
  change (getP q (updB b _ ?s0)) with (getP q s0).
  rewrite getP_updP_ne by congruence. reflexivity.
Qed.

(** A number drawn from [0, 1), scaled by the length of a list that is not
    empty and rounded down, is an index of the list. *)
Lemma random_index (r : Q) (n : nat) :
  (0 <= r)%Q -> (r < 1)%Q -> (0 < n)%nat ->
  0 <= Qfloor (r * inject_Z (Z.of_nat n)) < Z.of_nat n.
Proof.
  intros H0 H1 Hn.
  assert (Hpos : (0 < inject_Z (Z.of_nat n))%Q).
  { change 0%Q with (inject_Z 0). rewrite <- Zlt_Qlt. lia. }
  split.
  - change 0 with (Qfloor 0). apply Qfloor_resp_le.
    apply Qmult_le_0_compat; [exact H0|apply Qlt_le_weak; exact Hpos].
  - rewrite Zlt_Qlt. eapply Qle_lt_trans; [apply Qfloor_le|].
    rewrite <- (Qmult_1_l (inject_Z (Z.of_nat n))) at 2.
    apply Qmult_lt_compat_r; assumption.
Qed.

(** The state without its three stores of objects. *)
Definition off_stores (s : State) : State :=
  set_places (fun _ => ∅) (set_ants (fun _ => ∅) (set_beeObjs (fun _ => ∅) s)).

(** The numbers that [Math.random] yields lie in [0, 1). *)
Definition random_ok (s : State) : Prop :=
  forall n, (0 <= random_src s n)%Q /\ (random_src s n < 1)%Q.

Lemma release_eq b s :
  beeEntrances s <> [] -> random_ok s ->
  exists e,
    e ∈ beeEntrances s /\
    release b s
    = Ok tt (updB b (with_b_place (Some e))
               (updP e (fun P => with_bees (p_bees P ++ [b]) P)
                  (set_random_pos (S (random_pos s)) (removed (hive s) b s)))).
Proof.
  intros Hent Hrnd. unfold release. unfold bind at 1, gets. unfold bind at 1.
  rewrite Place_removeBee_eq. set (s1 := removed (hive s) b s).
  assert (HE : beeEntrances s1 = beeEntrances s).
  { unfold s1, removed. destruct (indexOf b _); reflexivity. }
  assert (HR : random_src s1 = random_src s /\ random_pos s1 = random_pos s).
  { unfold s1, removed. destruct (indexOf b _); split; reflexivity. }
  destruct HR as [HR HP].
  unfold bind at 1, gets, AntColony_getEntrances. unfold bind at 1, Math_random.
  rewrite HE, HR, HP.
  destruct (random_index (random_src s (random_pos s)) (length (beeEntrances s)))
    as [Hlo Hhi]; [apply Hrnd|apply Hrnd| |].
  { destruct (beeEntrances s); [congruence|cbn; lia]. }
  cbv zeta. destruct (Z.ltb_spec (Qfloor (random_src s (random_pos s)
                         * inject_Z (Z.of_nat (length (beeEntrances s))))) 0) as [Hneg|_];
    [lia|].
  destruct (lookup_lt_is_Some_2 (beeEntrances s)
              (Z.to_nat (Qfloor (random_src s (random_pos s)
                         * inject_Z (Z.of_nat (length (beeEntrances s)))))))
    as [e He]; [lia|].
  rewrite He. exists e. split; [eapply list_elem_of_lookup_2, He|].
  reflexivity.
Qed.


Lemma release_facts b s :
  beeEntrances s <> [] -> random_ok s ->
  exists e s1,
    e ∈ beeEntrances s /\ release b s = Ok tt s1 /\
    off_stores s1 = off_stores (set_random_pos (S (random_pos s)) s) /\
    (forall a, getA a s1 = getA a s) /\
    getB b s1 = with_b_place (Some e) (getB b s) /\
    b ∈ p_bees (getP e s1) /\
    (forall c, c <> b -> getB c s1 = getB c s) /\
    (forall c q, c <> b -> c ∈ p_bees (getP q s) -> c ∈ p_bees (getP q s1)) /\
    (forall q, q <> hive s -> q ∉ beeEntrances s -> getP q s1 = getP q s) /\
    ((hive s ∉ beeEntrances s) ->
     (forall c, c ∈ hive_bees s1 -> c ∈ hive_bees s) /\
     (NoDup (hive_bees s) -> NoDup (hive_bees s1) /\ b ∉ hive_bees s1)).
Proof.
  intros Hent Hrnd. destruct (release_eq b s Hent Hrnd) as (e & He & Hrun).
  eexists e, _. split; [exact He|]. split; [exact Hrun|].
  set (s0 := removed (hive s) b s).
  assert (Hoff : off_stores s0 = off_stores s).
  { unfold s0, removed. destruct (indexOf b _); reflexivity. }
  split.
  { change (set_random_pos (S (random_pos s)) (off_stores s0)
            = set_random_pos (S (random_pos s)) (off_stores s)).
    rewrite Hoff. reflexivity. }
  split.
  { intros a. store_simpl. unfold s0, removed. destruct (indexOf b _); reflexivity. }
  split.
  { rewrite getB_updB_eq. store_simpl. unfold s0, removed.
    destruct (indexOf b _); [|reflexivity]. rewrite getB_updB_eq. reflexivity. }
  split.
  { change (getP e (updB b _ ?s2)) with (getP e s2). rewrite getP_updP_eq.
    cbn [p_bees with_bees]. apply elem_of_app. right. apply list_elem_of_here. }
  split.
  { intros c Hne. rewrite getB_updB_ne by congruence. store_simpl.
    apply removed_other_bee. exact Hne. }
  split.
  { intros c q Hne Hin. change (getP q (updB b _ ?s2)) with (getP q s2).
    rewrite getP_updP.
    assert (H0 : c ∈ p_bees (getP q s0)) by (apply removed_keeps_listed; assumption).
    destruct (decide (e = q)) as [<-|Hq].
    - cbn [p_bees with_bees]. apply elem_of_app. left. exact H0.
    - exact H0. }
  split.
  { intros q Hh Hq. change (getP q (updB b _ ?s2)) with (getP q s2).
    rewrite getP_updP_ne by (intros ->; contradiction).
    change (getP q (set_random_pos _ s0)) with (getP q s0).
    apply removed_other_place. exact Hh. }
  intros Hhive.
  assert (Hne : e <> hive s) by (intros ->; contradiction).
  assert (HH : hive_bees
                 (updB b (with_b_place (Some e))
                    (updP e (fun P => with_bees (p_bees P ++ [b]) P)
                       (set_random_pos (S (random_pos s)) s0)))
               = hive_bees s0).
  { unfold hive_bees, Place_getBees.
    change (hive (updB b _ _)) with (hive s0).
    change (getP (hive s0) (updB b _ ?s2)) with (getP (hive s0) s2).
    assert (Hh0 : hive s0 = hive s) by exact (f_equal hive Hoff).
    rewrite getP_updP_ne by congruence. reflexivity. }
  rewrite HH. clear HH.
  assert (Hh0 : hive s0 = hive s) by exact (f_equal hive Hoff).
  unfold hive_bees, Place_getBees. rewrite Hh0.
  unfold s0, removed.
  destruct (indexOf b (p_bees (getP (hive s) s))) as [i|] eqn:Hi.
  - change (getP (hive s) (updB b _ ?s2)) with (getP (hive s) s2).
    rewrite getP_updP_eq. cbn [p_bees with_bees]. split.
    + intros c. apply list_elem_of_delete_inv.
    + intros Hnd. split.
      * eapply sublist_NoDup; [exact Hnd|apply sublist_delete].
      * apply NoDup_delete_indexOf; assumption.
  - split; [auto|]. intros Hnd. split; [exact Hnd|]. apply indexOf_None. exact Hi.
Qed.

Lemma random_ok_off s s' : random_src s' = random_src s -> random_ok s -> random_ok s'.
Proof. intros H Hr n. rewrite H. apply Hr. Qed.

(** The loop of [invade] over a wave. *)
Lemma release_wave wave : forall s,
  beeEntrances s <> [] -> random_ok s ->
  exists s',
    forEach wave release s = Ok tt s' /\
    off_stores s' = off_stores (set_random_pos (random_pos s + length wave) s) /\
    (forall a, getA a s' = getA a s) /\
    (forall b, b ∈ wave ->
       exists e, e ∈ beeEntrances s /\ getB b s' = with_b_place (Some e) (getB b s) /\
                 b ∈ p_bees (getP e s')) /\
    (forall c, c ∉ wave -> getB c s' = getB c s) /\
    (forall c q, c ∉ wave -> c ∈ p_bees (getP q s) -> c ∈ p_bees (getP q s')) /\
    (forall q, q <> hive s -> q ∉ beeEntrances s -> getP q s' = getP q s) /\
    ((hive s ∉ beeEntrances s) ->
     (forall c, c ∈ hive_bees s' -> c ∈ hive_bees s) /\
     (NoDup (hive_bees s) ->
      NoDup (hive_bees s') /\ forall b, b ∈ wave -> b ∉ hive_bees s')).
Proof.
  induction wave as [|b wave IH]; intros s Hent Hrnd.
  - exists s. cbn [forEach length]. rewrite Nat.add_0_r.
    split; [reflexivity|]. split; [reflexivity|]. split; [reflexivity|].
    split; [intros b Hb; inversion Hb|]. split; [reflexivity|].
    split; [auto|]. split; [reflexivity|].
    intros _. split; [auto|]. intros Hnd. split; [exact Hnd|].
    intros b Hb. inversion Hb.
  - destruct (release_facts b s Hent Hrnd)
      as (e & s1 & He & Hrun & Hoff & HA & HB & Hlisted & Hothers & Hkeep & Hplaces & Hhive).
    assert (HE1 : beeEntrances s1 = beeEntrances s) by exact (f_equal beeEntrances Hoff).
    assert (HH1 : hive s1 = hive s) by exact (f_equal hive Hoff).
    assert (HR1 : random_src s1 = random_src s) by exact (f_equal random_src Hoff).
    assert (HP1 : random_pos s1 = S (random_pos s)) by exact (f_equal random_pos Hoff).
    destruct (IH s1) as (s' & Hrun' & Hoff' & HA' & HB' & Hothers' & Hkeep' & Hplaces' & Hhive').
    { rewrite HE1. exact Hent. }
    { apply (random_ok_off s); assumption. }
    rewrite HE1, HH1 in *.
    exists s'. split.
    { cbn [forEach]. unfold bind. rewrite Hrun. exact Hrun'. }
    split.
    { rewrite Hoff', HP1. cbn [length].
      replace (random_pos s + S (length wave))%nat with (S (random_pos s) + length wave)%nat
        by lia.
      change (set_random_pos (S (random_pos s) + length wave) (off_stores s1)
              = set_random_pos (S (random_pos s) + length wave) (off_stores s)).
      rewrite Hoff. reflexivity. }
    split; [intros a; rewrite HA'; apply HA|].
    split.
    { intros c Hc. destruct (decide (c ∈ wave)) as [Hin|Hout].
      - destruct (HB' c Hin) as (e' & He' & HBc & Hl).
        exists e'. split; [exact He'|]. split; [|exact Hl].
        rewrite HBc. destruct (decide (c = b)) as [->|Hne].
        + rewrite HB. reflexivity.
        + rewrite Hothers by exact Hne. reflexivity.
      - apply elem_of_cons in Hc as [->|Hc]; [|contradiction].
        exists e. split; [exact He|]. split.
        + rewrite Hothers' by exact Hout. exact HB.
        + apply Hkeep'; assumption. }
    split.
    { intros c Hc. apply not_elem_of_cons in Hc as [Hne Hout].
      rewrite Hothers' by exact Hout. apply Hothers. exact Hne. }
    split.
    { intros c q Hc Hin. apply not_elem_of_cons in Hc as [Hne Hout].
      apply Hkeep'; [exact Hout|]. apply Hkeep; assumption. }
    split.
    { intros q Hq Hqe. rewrite Hplaces' by assumption. apply Hplaces; assumption. }
    intros Hh. destruct (Hhive Hh) as [Hsub Hnd1]. destruct (Hhive' Hh) as [Hsub' Hnd'].
    split; [intros c Hc; apply Hsub, Hsub', Hc|].
    intros Hnd. destruct (Hnd1 Hnd) as [Hnd2 Hb]. destruct (Hnd' Hnd2) as [Hnd3 Hw].
    split; [exact Hnd3|]. intros c Hc.
    apply elem_of_cons in Hc as [->|Hc]; [|apply Hw; exact Hc].
    intros Hin. apply Hb, Hsub', Hin.
Qed.

(** X20. A release with somewhere to go.  When a wave is recorded for the
    turn, the colony has an entrance and the random numbers lie in [0, 1),
    [invade] returns the wave after one draw per bee: every bee of the wave
    is at an entrance and listed there, with its armor, damage and status as
    before; no other bee, no ant and no place other than the hive and the
    entrances is written; and when the hive is no entrance and lists no bee
    twice, no bee of the wave stays in it. *)
Theorem invade_releases_the_wave (t : Z) (wave : list nat) (s : State) :
  waves s !! t = Some wave -> beeEntrances s <> [] -> random_ok s ->
  exists s',
    Hive_invade t s = Ok wave s' /\
    random_pos s' = (random_pos s + length wave)%nat /\
    waves s' = waves s /\ beeEntrances s' = beeEntrances s /\ food s' = food s /\
    (forall b, b ∈ wave ->
       exists e, e ∈ beeEntrances s /\ getB b s' = with_b_place (Some e) (getB b s) /\
                 b ∈ Place_getBees e s') /\
    (forall c, c ∉ wave -> getB c s' = getB c s) /\
    (forall a, getA a s' = getA a s) /\
    (forall q, q <> hive s -> q ∉ beeEntrances s -> getP q s' = getP q s) /\
    ((hive s ∉ beeEntrances s) -> NoDup (hive_bees s) ->
     forall b, b ∈ wave -> b ∉ hive_bees s').
Proof.
  intros Hw Hent Hrnd.
  destruct (release_wave wave s Hent Hrnd)
    as (s' & Hrun & Hoff & HA & HB & Hothers & _ & Hplaces & Hhive).
  exists s'. split.
  { rewrite Hive_invade_eq, Hw. unfold bind. rewrite Hrun. reflexivity. }
  split; [exact (f_equal random_pos Hoff)|].
  split; [exact (f_equal waves Hoff)|].
  split; [exact (f_equal beeEntrances Hoff)|].
  split; [exact (f_equal food Hoff)|].
  split; [exact HB|]. split; [exact Hothers|]. split; [exact HA|].
  split; [exact Hplaces|].
  intros Hh Hnd. destruct (Hhive Hh) as [_ H]. apply H. exact Hnd.
Qed.

(** X21. A release with nowhere to go.  With a wave for the turn and a
    colony without entrances [invade] raises at the first bee of the wave,
    after one draw.  A bee that was in the hive has by then left it and is
    at no place (the hive lists one bee less, and no other place is
    written), so that no later sweep or release finds it. *)
Theorem invade_without_entrances (t : Z) (b : nat) (rest : list nat) (s : State) :
  waves s !! t = Some (b :: rest) -> beeEntrances s = [] -> b ∈ hive_bees s ->
  exists s',
    Hive_invade t s = Throw s' /\
    random_pos s' = S (random_pos s) /\
    b_place (getB b s') = None /\
    (length (hive_bees s') + 1 = length (hive_bees s))%nat /\
    (forall q, q <> hive s -> getP q s' = getP q s) /\
    (forall c, c <> b -> getB c s' = getB c s).
Proof.
  intros Hw Hent Hin.
  assert (Hrun : Hive_invade t s
                 = Throw (set_random_pos (S (random_pos s)) (removed (hive s) b s))).
  { rewrite Hive_invade_eq, Hw.
    cbn [forEach]. unfold bind at 1. unfold bind at 1. unfold release.
    unfold bind at 1, gets. unfold bind at 1. rewrite Place_removeBee_eq.
    set (s0 := removed (hive s) b s).
    assert (HE : beeEntrances s0 = []).
    { unfold s0, removed. destruct (indexOf b _); exact Hent. }
    unfold bind at 1, gets, AntColony_getEntrances. unfold bind at 1, Math_random.
    rewrite HE. cbv zeta.
    assert (H0 : forall r : Q, Qfloor (r * inject_Z (Z.of_nat (@length nat []))) = 0).
    { intros [n d]. cbn. rewrite Z.mul_0_r. reflexivity. }
    rewrite H0. cbn.
    assert (HP : random_pos s0 = random_pos s).
    { unfold s0, removed. destruct (indexOf b _); reflexivity. }
    rewrite HP. reflexivity. }
  eexists. split; [exact Hrun|]. split; [reflexivity|].
  unfold hive_bees, Place_getBees in *.
  change (hive (set_random_pos _ (removed (hive s) b s))) with (hive (removed (hive s) b s)).
  change (getB b (set_random_pos _ ?s0)) with (getB b s0).
  assert (Hh : hive (removed (hive s) b s) = hive s).
  { unfold removed. destruct (indexOf b _); reflexivity. }
  rewrite Hh.
  change (getP (hive s) (set_random_pos _ ?s0)) with (getP (hive s) s0).
  split; [|split; [|split]].
  - unfold removed.
    destruct (indexOf b (p_bees (getP (hive s) s))) as [i|] eqn:Hi.
    + rewrite getB_updB_eq. reflexivity.
    + exfalso. exact (indexOf_None _ _ Hi Hin).
  - unfold removed.
    destruct (indexOf b (p_bees (getP (hive s) s))) as [i|] eqn:Hi.
    + change (getP (hive s) (updB b _ ?s0)) with (getP (hive s) s0).
      rewrite getP_updP_eq. cbn [p_bees with_bees].
      pose proof (indexOf_Some _ _ _ Hi) as Hl.
      apply lookup_lt_Some in Hl. rewrite length_delete by (apply lookup_lt_is_Some_2; exact Hl).
      lia.
    + exfalso. exact (indexOf_None _ _ Hi Hin).
  - intros q Hq. change (getP q (set_random_pos _ ?s0)) with (getP q s0).
    apply removed_other_place. exact Hq.
  - intros c Hc. change (getB c (set_random_pos _ ?s0)) with (getB c s0).
    apply removed_other_bee. exact Hc.
Qed.

(** A wave of two bees waits in the hive of [demo_board]. *)
Definition demo_wave : State := exec (AddWave 0 2) demo_board.

Lemma demo_wave_random : random_ok demo_wave.
Proof. intros n. split; [apply Qle_refl|reflexivity]. Qed.

Lemma invade_releases_the_wave_witness :
  exists s',
    Hive_invade 0 demo_wave = Ok [0; 1]%nat s' /\
    random_pos s' = (random_pos demo_wave + 2)%nat /\
    waves s' = waves demo_wave /\ beeEntrances s' = beeEntrances demo_wave /\
    food s' = food demo_wave /\
    (forall b, b ∈ [0; 1]%nat ->
       exists e, e ∈ beeEntrances demo_wave /\
                 getB b s' = with_b_place (Some e) (getB b demo_wave) /\
                 b ∈ Place_getBees e s') /\
    (forall c, c ∉ [0; 1]%nat -> getB c s' = getB c demo_wave) /\
    (forall a, getA a s' = getA a demo_wave) /\
    (forall q, q <> hive demo_wave -> q ∉ beeEntrances demo_wave ->
               getP q s' = getP q demo_wave) /\
    ((hive demo_wave ∉ beeEntrances demo_wave) -> NoDup (hive_bees demo_wave) ->
     forall b, b ∈ [0; 1]%nat -> b ∉ hive_bees s').
Proof.
  apply (invade_releases_the_wave 0 [0; 1]%nat demo_wave).
  - vm_compute. reflexivity.
  - vm_compute. discriminate.
  - exact demo_wave_random.
Defined.

(** A colony without tunnels, and a wave of one bee in its hive. *)
Definition demo_no_tunnels : State :=
  exec (AddWave 0 1) (initial (fun _ => 0%Q) 10 0 5 3 2 1).

Lemma invade_without_entrances_witness :
  exists s',
    Hive_invade 0 demo_no_tunnels = Throw s' /\
    random_pos s' = S (random_pos demo_no_tunnels) /\
    b_place (getB 0 s') = None /\
    (length (hive_bees s') + 1 = length (hive_bees demo_no_tunnels))%nat /\
    (forall q, q <> hive demo_no_tunnels -> getP q s' = getP q demo_no_tunnels) /\
    (forall c, c <> 0%nat -> getB c s' = getB c demo_no_tunnels).
Proof.
  apply (invade_without_entrances 0 0 [] demo_no_tunnels).
  - vm_compute. reflexivity.
  - vm_compute. reflexivity.
  - vm_compute. apply list_elem_of_here.
Defined.

(** ** The references between the objects *)

Lemma NoDup_omap_inj {A B} (f : A -> option B) (l : list A) :
  NoDup l ->
  (forall x y b, x ∈ l -> y ∈ l -> f x = Some b -> f y = Some b -> x = y) ->
  NoDup (omap f l).
Proof.
  induction 1 as [|x l Hx Hnd IH]; intros Hinj; simpl; [apply NoDup_nil_2|].
  assert (IH' : NoDup (omap f l)).
  { apply IH. intros y z b Hy Hz. apply Hinj; apply list_elem_of_further; assumption. }
  destruct (f x) as [b|] eqn:Hfx; [|exact IH'].
  apply NoDup_cons_2; [|exact IH'].
  intros Hin. apply list_elem_of_omap in Hin as (y & Hy & Hfy).
  assert (x = y).
  { apply (Hinj x y b); [apply list_elem_of_here|apply list_elem_of_further; exact Hy| |];
      assumption. }
  subst y. contradiction.
Qed.

(** X22. The references of a game agree.  In every state of a game the ant
    in the slot of a place stands at that place and is no Guard, and the ant
    in its guard slot is a Guard that stands there; a bee that names a place
    is listed there; the list of the ants that a sweep visits names no ant
    twice; the hive lists no bee twice, and none that another place lists;
    and the hive is neither a section of the board nor an entrance. *)
Theorem references_agree (s : State) :
  reachable s ->
  (forall p a, p_ant (getP p s) = Some a ->
     a_place (getA a s) = Some p /\ a_kind (getA a s) <> Guard) /\
  (forall p g, p_guard (getP p s) = Some g ->
     a_place (getA g s) = Some p /\ a_kind (getA g s) = Guard) /\
  (forall b q, b_place (getB b s) = Some q -> b ∈ Place_getBees q s) /\
  NoDup (AntColony_getAllAnts s) /\
  NoDup (hive_bees s) /\
  (forall b p, b ∈ hive_bees s -> p <> hive s -> b ∉ Place_getBees p s) /\
  (hive s ∉ concat (grid s)) /\ (hive s ∉ beeEntrances s).
Proof.
  intros Hr. destruct (reachable_wf s Hr) as (L & Hs & Hb & Ha & Hh).
  pose proof (reachable_tidy s Hr) as HT.
  destruct Hb as (Hnd & Hcells & Hent & _ & _).
  destruct Hh as (HL & HndL & _ & Hout & _).
  split.
  { intros p a H. destruct (proj1 (Hs p a) H) as (H1 & H2 & _). auto. }
  split.
  { intros p g H. destruct (proj2 (Hs p g) H) as (H1 & H2 & _). auto. }
  split; [exact (tidy_listed s HT)|].
  split.
  { apply NoDup_omap_inj; [exact Hnd|].
    intros p q a _ _ Hp Hq.
    assert (Hat : forall x, Place_getAnt x s = Some a -> a_place (getA a s) = Some x).
    { intros x Hx. unfold Place_getAnt in Hx.
      destruct (p_guard (getP x s)) as [g|] eqn:Hg.
      - injection Hx as ->. apply (proj2 (Hs x a) Hg).
      - apply (proj1 (Hs x a) Hx). }
    pose proof (Hat p Hp) as H1. pose proof (Hat q Hq) as H2. congruence. }
  unfold hive_bees, Place_getBees. rewrite HL.
  split; [exact HndL|].
  split; [intros b p Hb Hp; apply Hout; assumption|].
  split; [|exact Hent].
  intros Hin. destruct (Hcells _ Hin) as [_ Hne]. congruence.
Qed.

Lemma references_agree_witness :
  (forall p a, p_ant (getP p demo_guarded) = Some a ->
     a_place (getA a demo_guarded) = Some p /\ a_kind (getA a demo_guarded) <> Guard) /\
  (forall p g, p_guard (getP p demo_guarded) = Some g ->
     a_place (getA g demo_guarded) = Some p /\ a_kind (getA g demo_guarded) = Guard) /\
  (forall b q, b_place (getB b demo_guarded) = Some q -> b ∈ Place_getBees q demo_guarded) /\
  NoDup (AntColony_getAllAnts demo_guarded) /\
  NoDup (hive_bees demo_guarded) /\
  (forall b p, b ∈ hive_bees demo_guarded -> p <> hive demo_guarded ->
               b ∉ Place_getBees p demo_guarded) /\
  (hive demo_guarded ∉ concat (grid demo_guarded)) /\
  (hive demo_guarded ∉ beeEntrances demo_guarded).
Proof. apply (references_agree demo_guarded). exact demo_guarded_reachable. Defined.

(** ** The coordinates of a section *)

(** [String(n)] for an index [n]: its decimal numeral, without a sign or
    leading zeros. *)
Definition Number_toString (n : nat) : string :=
  DecimalString.NilEmpty.string_of_uint (Nat.to_uint n).

(** [tunnel+','+step] *)
Definition coordinates (tunnel step : nat) : string :=
  String.append (Number_toString tunnel)
    (String ","%char (Number_toString step)).

Lemma parse_digits_numeral d : forall acc,
  JS.parse_digits (DecimalString.NilEmpty.string_of_uint d) acc
  = Some (Nat.of_uint_acc d acc).
Proof.
  induction d as [|d IH|d IH|d IH|d IH|d IH|d IH|d IH|d IH|d IH|d IH]; intros acc;
    cbn [DecimalString.NilEmpty.string_of_uint JS.parse_digits Nat.of_uint_acc];
    [reflexivity|..];
    (change (JS.is_digit _) with true; cbv iota; rewrite IH; f_equal; f_equal;
     rewrite Nat.tail_mul_spec;
     match goal with |- context [JS.digit_val ?c] =>
       let v := eval vm_compute in (JS.digit_val c) in
       change (JS.digit_val c) with v
     end; lia).
Qed.

(** A numeral of an index starts with a zero only when it is ["0"]. *)
Lemma to_uint_canonical n :
  Nat.to_uint n <> Decimal.Nil /\
  forall d, Nat.to_uint n = Decimal.D0 d -> d = Decimal.Nil.
Proof.
  assert (H : Nat.to_uint n = Decimal.unorm (Nat.to_uint n)).
  { rewrite <- (DecimalNat.Unsigned.to_of (Nat.to_uint n)).
    rewrite DecimalNat.Unsigned.of_to. reflexivity. }
  unfold Decimal.unorm in H.
  pose proof (DecimalFacts.nzhead_nonzero (Nat.to_uint n)) as Hnz.
  destruct (Decimal.nzhead (Nat.to_uint n)) as [|u|u|u|u|u|u|u|u|u|u] eqn:E;
    rewrite H; split; try discriminate; intros d [= <-];
    try reflexivity.
  exfalso. exact (Hnz u eq_refl).
Qed.

Lemma array_index_toString n : JS.array_index (Number_toString n) = Some n.
Proof.
  unfold Number_toString.
  pose proof (DecimalNat.Unsigned.of_to n) as Hof.
  pose proof (parse_digits_numeral (Nat.to_uint n) 0) as Hp.
  destruct (to_uint_canonical n) as [Hnil Hzero].
  unfold Nat.of_uint in Hof. rewrite Hof in Hp.
  destruct (Nat.to_uint n) as [|d|d|d|d|d|d|d|d|d|d] eqn:E;
    [congruence| |exact Hp..].
  rewrite (Hzero d eq_refl) in *. cbn in Hof. subst n. reflexivity.
Qed.

Lemma split_comma_numeral d :
  JS.split_comma (DecimalString.NilEmpty.string_of_uint d)
  = [DecimalString.NilEmpty.string_of_uint d].
Proof.
  induction d; cbn [DecimalString.NilEmpty.string_of_uint JS.split_comma];
    [reflexivity|..];
    (change (Ascii.eqb _ ","%char) with false; cbv iota; rewrite IHd; reflexivity).
Qed.

Lemma append_cons c a b : String.append (String c a) b = String c (String.append a b).
Proof. reflexivity. Qed.

Lemma split_comma_numerals d1 d2 :
  JS.split_comma
    (String.append (DecimalString.NilEmpty.string_of_uint d1)
       (String ","%char (DecimalString.NilEmpty.string_of_uint d2)))
  = [DecimalString.NilEmpty.string_of_uint d1; DecimalString.NilEmpty.string_of_uint d2].
Proof.
  induction d1; cbn [DecimalString.NilEmpty.string_of_uint];
    [change (String.append EmptyString ?x) with x|rewrite append_cons..];
    cbn [JS.split_comma].
  - change (Ascii.eqb ","%char ","%char) with true. cbv iota.
    rewrite split_comma_numeral. reflexivity.
  - change (Ascii.eqb _ ","%char) with false. cbv iota. rewrite IHd1. reflexivity.
  - change (Ascii.eqb _ ","%char) with false. cbv iota. rewrite IHd1. reflexivity.
  - change (Ascii.eqb _ ","%char) with false. cbv iota. rewrite IHd1. reflexivity.
  - change (Ascii.eqb _ ","%char) with false. cbv iota. rewrite IHd1. reflexivity.
  - change (Ascii.eqb _ ","%char) with false. cbv iota. rewrite IHd1. reflexivity.
  - change (Ascii.eqb _ ","%char) with false. cbv iota. rewrite IHd1. reflexivity.
  - change (Ascii.eqb _ ","%char) with false. cbv iota. rewrite IHd1. reflexivity.
  - change (Ascii.eqb _ ","%char) with false. cbv iota. rewrite IHd1. reflexivity.
  - change (Ascii.eqb _ ","%char) with false. cbv iota. rewrite IHd1. reflexivity.
  - change (Ascii.eqb _ ","%char) with false. cbv iota. rewrite IHd1. reflexivity.
Qed.

(** X23. The coordinates that the constructor writes for a section address
    it: the decimal numerals of a row and a column of the grid, joined by a
    comma, resolve to the place in that row and column, in every state. *)
Theorem coordinates_address_the_section (s : State) (tunnel step : nat)
    (row : list nat) (p : nat) :
  grid s !! tunnel = Some row -> row !! step = Some p ->
  lookup_place (coordinates tunnel step) s = Ok (VPlace p) s.
Proof.
  intros Hrow Hp. unfold lookup_place, coordinates, Number_toString.
  rewrite split_comma_numerals. cbv zeta.
  unfold bind, gets, AntColony_getPlaces, JS.key_at.
  cbn [lookup list_lookup default from_option].
  fold (Number_toString tunnel). fold (Number_toString step).
  unfold id, array_get at 1. rewrite array_index_toString, Hrow.
  cbn [get_member]. unfold ret, array_get. rewrite array_index_toString, Hp.
  reflexivity.
Qed.

Lemma coordinates_address_the_section_witness :
  coordinates 0 4 = "0,4"%string /\
  lookup_place (coordinates 0 4) demo_board = Ok (VPlace 6) demo_board.
Proof.
  split; [reflexivity|].
  apply (coordinates_address_the_section demo_board 0 4 [2; 3; 4; 5; 6]%nat 6).
  - vm_compute. reflexivity.
  - reflexivity.
Defined.

(** ** The bees of a new wave *)

(** The state without its stores and the count of its bees. *)
Definition off_bees (s : State) : State := set_next_bee 0 (off_stores s).

Lemma hatch_facts s :
  off_bees (hatch s) = off_bees s /\
  next_bee (hatch s) = S (next_bee s) /\
  hive_bees (hatch s) = hive_bees s ++ [next_bee s] /\
  getB (next_bee s) (hatch s) = mkBee (beeArmor s) (beeDamage s) (Some (hive s)) None /\
  (forall b, b <> next_bee s -> getB b (hatch s) = getB b s) /\
  (forall q, q <> hive s -> getP q (hatch s) = getP q s) /\
  (forall a, getA a (hatch s) = getA a s).
Proof.
  unfold hatch. split; [reflexivity|]. split; [reflexivity|].
  split.
  { unfold hive_bees, Place_getBees.
    change (hive (updB _ _ _)) with (hive s).
    change (getP (hive s) (updB _ _ ?s0)) with (getP (hive s) s0).
    rewrite getP_updP_eq. reflexivity. }
  split.
  { rewrite getB_updB_eq. unfold getB. cbn [beeObjs updP set_places set_next_bee set_beeObjs].
    rewrite lookup_insert_eq. reflexivity. }
  split.
  { intros b Hb. rewrite getB_updB_ne by congruence.
    unfold getB. cbn [beeObjs updP set_places set_next_bee set_beeObjs].
    rewrite lookup_insert_ne by congruence. reflexivity. }
  split.
  { intros q Hq. change (getP q (updB _ _ ?s0)) with (getP q s0).
    rewrite getP_updP_ne by congruence. reflexivity. }
  intros a. reflexivity.
Qed.

Lemma addWave_loop_hatches n : forall wave s,
  exists s',
    addWave_loop n wave s = Ok (wave ++ seq (next_bee s) n) s' /\
    off_bees s' = off_bees s /\
    next_bee s' = (next_bee s + n)%nat /\
    hive_bees s' = hive_bees s ++ seq (next_bee s) n /\
    (forall i, (i < n)%nat ->
       getB (next_bee s + i) s' = mkBee (beeArmor s) (beeDamage s) (Some (hive s)) None) /\
    (forall b, (b < next_bee s)%nat -> getB b s' = getB b s) /\
    (forall q, q <> hive s -> getP q s' = getP q s) /\
    (forall a, getA a s' = getA a s).
Proof.
  induction n as [|n IH]; intros wave s.
  - exists s. cbn [addWave_loop seq]. rewrite !app_nil_r, Nat.add_0_r.
    split; [reflexivity|]. split; [reflexivity|]. split; [reflexivity|].
    split; [reflexivity|]. split; [intros i Hi; lia|]. auto.
  - rewrite addWave_loop_step.
    destruct (hatch_facts s) as (Hoff & Hnext & Hhive & Hnew & Hold & Hplaces & Hants).
    destruct (IH (wave ++ [next_bee s]) (hatch s))
      as (s' & Hrun & Hoff' & Hnext' & Hhive' & Hnew' & Hold' & Hplaces' & Hants').
    assert (Hh : hive (hatch s) = hive s) by exact (f_equal hive Hoff).
    assert (Har : beeArmor (hatch s) = beeArmor s) by exact (f_equal beeArmor Hoff).
    assert (Hda : beeDamage (hatch s) = beeDamage s) by exact (f_equal beeDamage Hoff).
    rewrite Hnext, Hh, Har, Hda in *.
    exists s'. split.
    { rewrite Hrun, <- app_assoc. reflexivity. }
    split; [rewrite Hoff'; exact Hoff|].
    split; [lia|].
    split; [rewrite Hhive', Hhive, <- app_assoc; reflexivity|].
    split.
    { intros i Hi. destruct i as [|i].
      - rewrite Nat.add_0_r, Hold' by lia. exact Hnew.
      - replace (next_bee s + S i)%nat with (S (next_bee s) + i)%nat by lia.
        apply Hnew'. lia. }
    split.
    { intros b Hb. rewrite Hold' by lia. apply Hold. lia. }
    split.
    { intros q Hq. rewrite Hplaces' by assumption. apply Hplaces. exact Hq. }
    intros a. rewrite Hants'. apply Hants.
Qed.

(** X24. [addWave] creates its bees in the hive: the new bees have the
    armor and the damage of the hive, name the hive as their place and join
    the end of its list in the order of their creation; the wave recorded
    for the turn lists exactly them, and replaces a wave recorded before.
    No other bee, no ant and no place but the hive is written.  A wave of no
    bees is recorded as well. *)
Theorem addWave_hatches_the_wave (t : Z) (n : nat) (s : State) :
  exists s',
    Hive_addWave t n s = Ok tt s' /\
    waves s' !! t = Some (seq (next_bee s) n) /\
    (forall t', t' <> t -> waves s' !! t' = waves s !! t') /\
    hive_bees s' = hive_bees s ++ seq (next_bee s) n /\
    (forall b, b ∈ seq (next_bee s) n ->
       getB b s' = mkBee (beeArmor s) (beeDamage s) (Some (hive s)) None) /\
    (forall b, (b < next_bee s)%nat -> getB b s' = getB b s) /\
    (forall q, q <> hive s -> getP q s' = getP q s) /\
    (forall a, getA a s' = getA a s) /\
    food s' = food s /\ turn s' = turn s.
Proof.
  destruct (addWave_loop_hatches n [] s)
    as (s1 & Hrun & Hoff & Hnext & Hhive & Hnew & Hold & Hplaces & Hants).
  cbn [app] in Hrun.
  exists (set_waves (<[t := seq (next_bee s) n]> (waves s1)) s1).
  split.
  { unfold Hive_addWave, bind, modify. rewrite Hrun. reflexivity. }
  assert (Hw : waves s1 = waves s) by exact (f_equal waves Hoff).
  cbn [waves set_waves]. rewrite Hw.
  split; [apply lookup_insert_eq|].
  split; [intros t' Ht'; apply lookup_insert_ne; congruence|].
  split; [exact Hhive|].
  split.
  { intros b Hb. apply elem_of_seq in Hb.
    replace b with (next_bee s + (b - next_bee s))%nat by lia.
    change (getB ?x (set_waves _ s1)) with (getB x s1). apply Hnew. lia. }
  split; [exact Hold|]. split; [exact Hplaces|]. split; [exact Hants|].
  split; [exact (f_equal food Hoff)|exact (f_equal turn Hoff)].
Qed.

(** ** Deploying and removing *)

(** A coordinate lookup reads the grid only. *)
Lemma lookup_place_grid coords v s s1 :
  grid s1 = grid s -> lookup_place coords s = Ok v s -> lookup_place coords s1 = Ok v s1.
Proof.
  unfold lookup_place, bind, gets, AntColony_getPlaces, get_member. intros ->.
  destruct (array_get VRow (grid s) _); try destruct (bool_decide _);
    unfold ret, throw; congruence.
Qed.

(** X25. Removing undoes a deploy on the board, not in the stock.  A
    new ant [a] (created in state [sA]) that the colony can pay for, deployed
    at coordinates of a place without ants, stands there and is paid for:
    the food is the double nearest to the food less the cost, which is
    that difference when it is at most [2 ^ 53].  Removing at the same
    coordinates then leaves every place as it was before the deploy, gives
    no food back, and leaves the removed ant naming the place. *)
Theorem remove_undoes_deploy_but_refunds_nothing
    (antType coords : string) (mk : M nat) (a p : nat) (s sA : State) :
  new_ant_of_type antType = Some mk -> mk s = Ok a sA ->
  lookup_place coords sA = Ok (VPlace p) sA ->
  p_ant (getP p sA) = None -> p_guard (getP p sA) = None ->
  Ant_getFoodCost a sA <= food sA ->
  exists s1 s2,
    AntGame_deployAnt antType coords s = Ok None s1 /\
    Place_getAnt p s1 = Some a /\
    food s1 = JS.sub (food sA) (Ant_getFoodCost a sA) /\
    (food sA - Ant_getFoodCost a sA <= JS.safe ->
       food s1 = food sA - Ant_getFoodCost a sA) /\
    AntGame_removeAnt coords s1 = Ok None s2 /\
    (forall q, getP q s2 = getP q sA) /\
    food s2 = food s1 /\
    getA a s2 = with_a_place (Some p) (getA a sA) /\
    (forall x, x <> a -> getA x s2 = getA x sA).
Proof.
  intros Hmk Hant Hlook Hnoant Hnoguard Hcost.
  set (slot := if decide (a_kind (getA a sA) = Guard) then with_guard (Some a)
               else with_ant (Some a)).
  set (s1 := set_food (JS.sub (food sA) (Ant_getFoodCost a sA))
               (updA a (with_a_place (Some p)) (updP p slot sA))).
  assert (Hdeploy : AntGame_deployAnt antType coords s = Ok None s1).
  { unfold AntGame_deployAnt. rewrite Hmk. unfold bind at 1. rewrite Hant.
    unfold try_catch, bind at 1. rewrite Hlook.
    unfold AntColony_deployAnt. mcbv.
    apply Z.leb_le in Hcost. rewrite Hcost. cbn [on_place].
    unfold Place_addAnt, s1, slot, Ant_getFoodCost.
    destruct (decide (a_kind (getA a sA) = Guard)).
    - rewrite Hnoguard. cbv beta iota. rewrite getA_updA_eq. store_simpl. reflexivity.
    - rewrite Hnoant. cbv beta iota. rewrite getA_updA_eq. store_simpl. reflexivity. }
  assert (HP1 : getP p s1 = slot (getP p sA)).
  { unfold s1. store_simpl. reflexivity. }
  assert (Hlook1 : lookup_place coords s1 = Ok (VPlace p) s1)
    by (apply (lookup_place_grid coords (VPlace p) sA); [reflexivity|exact Hlook]).
  set (s2 := updP p (if decide (a_kind (getA a sA) = Guard) then with_guard None
                     else with_ant None) s1).
  assert (Hremove : AntGame_removeAnt coords s1 = Ok None s2).
  { unfold AntGame_removeAnt, try_catch, bind. rewrite Hlook1.
    unfold on_place, Place_removeAnt, ret. rewrite HP1. unfold s2, slot.
    destruct (decide (a_kind (getA a sA) = Guard)).
    - cbn [p_guard with_guard]. reflexivity.
    - cbn [p_guard with_ant]. rewrite Hnoguard. reflexivity. }
  exists s1, s2. split; [exact Hdeploy|].
  split.
  { unfold Place_getAnt. rewrite HP1. unfold slot.
    destruct (decide (a_kind (getA a sA) = Guard)).
    - reflexivity.
    - cbn [p_guard p_ant with_ant]. rewrite Hnoguard. reflexivity. }
  split; [reflexivity|].
  split; [intros Hs; apply sub_exact; rewrite Z.abs_eq; lia|].
  split; [exact Hremove|].
  split.
  { intros q. unfold s2. rewrite getP_updP.
    destruct (decide (p = q)) as [<-|Hq].
    - rewrite HP1. unfold slot.
      destruct (decide (a_kind (getA a sA) = Guard));
        destruct (getP p sA); cbn in *; subst; reflexivity.
    - unfold s1. store_simpl. rewrite getP_updP_ne by congruence. reflexivity. }
  split; [reflexivity|].
  split.
  { unfold s2, s1. store_simpl. reflexivity. }
  intros x Hx. unfold s2, s1. store_simpl. rewrite getA_updA_ne by congruence.
  reflexivity.
Qed.

Lemma remove_undoes_deploy_but_refunds_nothing_witness :
  exists sA s1 s2,
    new_ThrowerAnt demo_board = Ok 0%nat sA /\
    AntGame_deployAnt "thrower" "0,2" demo_board = Ok None s1 /\
    Place_getAnt 4 s1 = Some 0%nat /\
    food s1 = 6 /\
    AntGame_removeAnt "0,2" s1 = Ok None s2 /\
    (forall q, getP q s2 = getP q sA) /\
    food s2 = 6 /\
    a_place (getA 0 s2) = Some 4%nat.
Proof.
  eexists.
  destruct (remove_undoes_deploy_but_refunds_nothing
              "thrower" "0,2" new_ThrowerAnt 0 4 demo_board _ eq_refl eq_refl)
    as (s1 & s2 & Hd & Hg & Hf & _ & Hr & HP & Hf2 & HA & _).
  - vm_compute. reflexivity.
  - vm_compute. reflexivity.
  - vm_compute. reflexivity.
  - vm_compute. discriminate.
  - exists s1, s2. split; [reflexivity|]. split; [exact Hd|]. split; [exact Hg|].
    split; [rewrite Hf; vm_compute; reflexivity|]. split; [exact Hr|].
    split; [exact HP|]. split; [rewrite Hf2, Hf; vm_compute; reflexivity|].
    rewrite HA. reflexivity.
Defined.

